(** * The local-search walker of hKis ([src/walk.c]): a shallow embedding

    The walker is a ProbSAT-style stochastic local search run between the
    rounds of the CDCL solver.  This file embeds the data model and the
    functions of [walk.c] as Rocq definitions, in the order of the source,
    and then proves the properties of the specification against them.

    Conventions.
    - [unsigned] and [uint64_t] are [Z] with the wrap-around written out
      ([u32], [u64]).
    - [double] is the kernel's IEEE 754 binary64 type [float].
    - C arrays and kissat stacks are lists; an index is a [Z] and goes
      through [peek] and [poke].  A read or write out of range is undefined
      behaviour in C, which the source excludes by assertions; the model
      reads a default and drops the write, and every theorem that depends on
      an access carries the range as a hypothesis or an invariant.
    - [walker->solver] is the one solver object the walker works on, so the
      walker record holds the solver and the functions thread one walker. *)

From Stdlib Require Import ZArith Lia Bool List Floats Uint63.
From stdpp Require Import base tactics option list.

#[local] Set Warnings "-inexact-float".
#[local] Open Scope Z_scope.

(* ================================================================= *)
(** ** Machine integers, literals and arrays *)

Definition UINT_MAX : Z := 2 ^ 32 - 1.
Definition UINT64_MAX : Z := 2 ^ 64 - 1.

Definition u32 (x : Z) : Z := x mod 2 ^ 32.
Definition u64 (x : Z) : Z := x mod 2 ^ 64.

(** [#define INVALID_BEST UINT_MAX] *)
Definition INVALID_BEST : Z := UINT_MAX.

(** [#define LD_MAX_WALK_REF 31] and
    [#define MAX_WALK_REF ((1u << LD_MAX_WALK_REF) - 1)] *)
Definition LD_MAX_WALK_REF : Z := 31.
Definition MAX_WALK_REF : Z := u32 (Z.shiftl 1 LD_MAX_WALK_REF) - 1.

(** Modelled from the spec: the macros [LIT], [NOT], [NEGATED] and [IDX] are
    not in [walk.c]; "a variable or its negation, encoded as 2·v / 2·v+1". *)
Definition LIT (idx : Z) : Z := u32 (2 * idx).
Definition NOT (lit : Z) : Z := Z.lxor lit 1.
Definition NEGATED (lit : Z) : bool := negb (Z.land lit 1 =? 0).
Definition IDX (lit : Z) : Z := Z.shiftr lit 1.

(** Modelled from the spec: [INVALID_REF] is not in [walk.c]; it is the
    [unsigned] that is no arena offset. *)
Definition INVALID_REF : Z := UINT_MAX.

(** Modelled from the spec: the type [value] is not in [walk.c]; "a
    three-valued cell {−1, 0, +1}". *)
Definition value : Type := Z.

Definition peek {A} `{Inhabited A} (l : list A) (i : Z) : A :=
  l !!! Z.to_nat i.
Definition poke {A} (l : list A) (i : Z) (x : A) : list A :=
  <[Z.to_nat i := x]> l.

#[global] Instance float_inhabited : Inhabited float := populate 0%float.

(** An [unsigned] or [uint64_t] converted to [double]. *)
Definition double_of_Z (z : Z) : float := of_uint63 (Uint63.of_Z z).

(* ================================================================= *)
(** ** The data model *)

(** [struct tagged { unsigned ref : 31; bool binary : 1; }] *)
Record tagged := Tagged { ref : Z; binary : bool }.

Definition make_tagged (binary : bool) (ref : Z) : tagged :=
  {| ref := ref mod 2 ^ LD_MAX_WALK_REF; binary := binary |}.

(** [struct counter { unsigned count; unsigned pos; }] *)
Record counter := Counter { count : Z; pos : Z }.

Definition set_count (n : Z) (c : counter) : counter :=
  {| count := n; pos := pos c |}.
Definition set_pos (p : Z) (c : counter) : counter :=
  {| count := count c; pos := p |}.

#[global] Instance counter_inhabited : Inhabited counter :=
  populate (Counter 0 0).
#[global] Instance tagged_inhabited : Inhabited tagged :=
  populate (Tagged 0 false).

(** [litpair]: the two literals of a binary clause. *)
Definition litpair : Type := Z * Z.
Definition litpairs : Type := list litpair.

(** A clause of the arena, with the fields [walk.c] reads.  [c->size] is the
    length of [clause_lits]; [cref] is the clause's offset in the arena
    ([(ward * ) c - arena]), which the iteration [all_clauses] visits in
    increasing order. *)
Record clause := Clause {
  garbage : bool;
  redundant : bool;
  clause_lits : list Z;
  cref : Z
}.

(** The statistics counters [walk.c] touches, all [uint64_t].
    [clauses_binirr] is what the macro [BINIRR_CLAUSES] reads. *)
Record statistics := Statistics {
  walks : Z;
  walk_steps : Z;
  stat_flipped : Z;
  walk_decisions : Z;
  walk_improved : Z;
  clauses_binirr : Z
}.

(** The fields of [struct kissat] that [walk.c] reads or writes. *)
Record kissat := Kissat {
  vars : Z;
  active : list bool;
  values : list value;
  pol_activity : list float;
  phases_saved : list value;
  phases_target : list value;
  stable : bool;
  option_warmup : bool;
  initial_phase : value;
  arena : list clause;
  arena_size : Z;
  last_irredundant : Z;
  watches : list (list Z);
  stats : statistics;
  random : Z
}.

Definition VARS (solver : kissat) : Z := vars solver.
Definition LITS (solver : kissat) : Z := 2 * vars solver.
Definition BINIRR_CLAUSES (solver : kissat) : Z := clauses_binirr (stats solver).

Definition set_values (v : list value) (s : kissat) : kissat :=
  Kissat (vars s) (active s) v (pol_activity s) (phases_saved s)
    (phases_target s) (stable s) (option_warmup s) (initial_phase s)
    (arena s) (arena_size s) (last_irredundant s) (watches s) (stats s)
    (random s).
Definition set_pol_activity (a : list float) (s : kissat) : kissat :=
  Kissat (vars s) (active s) (values s) a (phases_saved s)
    (phases_target s) (stable s) (option_warmup s) (initial_phase s)
    (arena s) (arena_size s) (last_irredundant s) (watches s) (stats s)
    (random s).
Definition set_phases_saved (p : list value) (s : kissat) : kissat :=
  Kissat (vars s) (active s) (values s) (pol_activity s) p
    (phases_target s) (stable s) (option_warmup s) (initial_phase s)
    (arena s) (arena_size s) (last_irredundant s) (watches s) (stats s)
    (random s).
Definition set_arena (a : list clause) (s : kissat) : kissat :=
  Kissat (vars s) (active s) (values s) (pol_activity s) (phases_saved s)
    (phases_target s) (stable s) (option_warmup s) (initial_phase s)
    a (arena_size s) (last_irredundant s) (watches s) (stats s)
    (random s).
Definition set_watches (ws : list (list Z)) (s : kissat) : kissat :=
  Kissat (vars s) (active s) (values s) (pol_activity s) (phases_saved s)
    (phases_target s) (stable s) (option_warmup s) (initial_phase s)
    (arena s) (arena_size s) (last_irredundant s) ws (stats s)
    (random s).
Definition set_stats (st : statistics) (s : kissat) : kissat :=
  Kissat (vars s) (active s) (values s) (pol_activity s) (phases_saved s)
    (phases_target s) (stable s) (option_warmup s) (initial_phase s)
    (arena s) (arena_size s) (last_irredundant s) (watches s) st
    (random s).

(** The macros [INC (NAME)] and [ADD (NAME, n)] on the statistics. *)
Definition INC_walks (s : kissat) : kissat :=
  let st := stats s in
  set_stats (Statistics (u64 (walks st + 1)) (walk_steps st) (stat_flipped st)
               (walk_decisions st) (walk_improved st) (clauses_binirr st)) s.
Definition ADD_walk_steps (n : Z) (s : kissat) : kissat :=
  let st := stats s in
  set_stats (Statistics (walks st) (u64 (walk_steps st + n)) (stat_flipped st)
               (walk_decisions st) (walk_improved st) (clauses_binirr st)) s.
Definition INC_flipped (s : kissat) : kissat :=
  let st := stats s in
  set_stats (Statistics (walks st) (walk_steps st) (u64 (stat_flipped st + 1))
               (walk_decisions st) (walk_improved st) (clauses_binirr st)) s.
Definition INC_walk_decisions (s : kissat) : kissat :=
  let st := stats s in
  set_stats (Statistics (walks st) (walk_steps st) (stat_flipped st)
               (u64 (walk_decisions st + 1)) (walk_improved st)
               (clauses_binirr st)) s.
Definition INC_walk_improved (s : kissat) : kissat :=
  let st := stats s in
  set_stats (Statistics (walks st) (walk_steps st) (stat_flipped st)
               (walk_decisions st) (u64 (walk_improved st + 1))
               (clauses_binirr st)) s.

(** [struct walker].  The fields [start] and [report] exist only for the
    verbose messages and [offset] is never used; they are left out. *)
Record walker := Walker {
  solver : kissat;
  best : Z;
  clauses : Z;
  current : Z;
  exponents : Z;
  initial : Z;
  minimum : Z;
  generator : Z;
  counters : list counter;
  binaries : litpairs;
  saved : list value;
  refs : list tagged;
  table : list float;
  scores : list float;
  unsat : list Z;
  trail : list Z;
  size : float;
  epsilon : float;
  limit : Z;
  flipped : Z
}.

Definition set_solver (x : kissat) (w : walker) : walker :=
  Walker x (best w) (clauses w) (current w) (exponents w) (initial w)
    (minimum w) (generator w) (counters w) (binaries w) (saved w) (refs w)
    (table w) (scores w) (unsat w) (trail w) (size w) (epsilon w) (limit w)
    (flipped w).
Definition set_best (x : Z) (w : walker) : walker :=
  Walker (solver w) x (clauses w) (current w) (exponents w) (initial w)
    (minimum w) (generator w) (counters w) (binaries w) (saved w) (refs w)
    (table w) (scores w) (unsat w) (trail w) (size w) (epsilon w) (limit w)
    (flipped w).
Definition set_current (x : Z) (w : walker) : walker :=
  Walker (solver w) (best w) (clauses w) x (exponents w) (initial w)
    (minimum w) (generator w) (counters w) (binaries w) (saved w) (refs w)
    (table w) (scores w) (unsat w) (trail w) (size w) (epsilon w) (limit w)
    (flipped w).
Definition set_initial (x : Z) (w : walker) : walker :=
  Walker (solver w) (best w) (clauses w) (current w) (exponents w) x
    (minimum w) (generator w) (counters w) (binaries w) (saved w) (refs w)
    (table w) (scores w) (unsat w) (trail w) (size w) (epsilon w) (limit w)
    (flipped w).
Definition set_minimum (x : Z) (w : walker) : walker :=
  Walker (solver w) (best w) (clauses w) (current w) (exponents w) (initial w)
    x (generator w) (counters w) (binaries w) (saved w) (refs w)
    (table w) (scores w) (unsat w) (trail w) (size w) (epsilon w) (limit w)
    (flipped w).
Definition set_generator (x : Z) (w : walker) : walker :=
  Walker (solver w) (best w) (clauses w) (current w) (exponents w) (initial w)
    (minimum w) x (counters w) (binaries w) (saved w) (refs w)
    (table w) (scores w) (unsat w) (trail w) (size w) (epsilon w) (limit w)
    (flipped w).
Definition set_counters (x : list counter) (w : walker) : walker :=
  Walker (solver w) (best w) (clauses w) (current w) (exponents w) (initial w)
    (minimum w) (generator w) x (binaries w) (saved w) (refs w)
    (table w) (scores w) (unsat w) (trail w) (size w) (epsilon w) (limit w)
    (flipped w).
Definition set_refs (x : list tagged) (w : walker) : walker :=
  Walker (solver w) (best w) (clauses w) (current w) (exponents w) (initial w)
    (minimum w) (generator w) (counters w) (binaries w) (saved w) x
    (table w) (scores w) (unsat w) (trail w) (size w) (epsilon w) (limit w)
    (flipped w).
Definition set_score_table (t : list float) (e : Z) (eps : float)
    (w : walker) : walker :=
  Walker (solver w) (best w) (clauses w) (current w) e (initial w)
    (minimum w) (generator w) (counters w) (binaries w) (saved w) (refs w)
    t (scores w) (unsat w) (trail w) (size w) eps (limit w)
    (flipped w).
Definition set_scores (x : list float) (w : walker) : walker :=
  Walker (solver w) (best w) (clauses w) (current w) (exponents w) (initial w)
    (minimum w) (generator w) (counters w) (binaries w) (saved w) (refs w)
    (table w) x (unsat w) (trail w) (size w) (epsilon w) (limit w)
    (flipped w).
Definition set_unsat (x : list Z) (w : walker) : walker :=
  Walker (solver w) (best w) (clauses w) (current w) (exponents w) (initial w)
    (minimum w) (generator w) (counters w) (binaries w) (saved w) (refs w)
    (table w) (scores w) x (trail w) (size w) (epsilon w) (limit w)
    (flipped w).
Definition set_trail (x : list Z) (w : walker) : walker :=
  Walker (solver w) (best w) (clauses w) (current w) (exponents w) (initial w)
    (minimum w) (generator w) (counters w) (binaries w) (saved w) (refs w)
    (table w) (scores w) (unsat w) x (size w) (epsilon w) (limit w)
    (flipped w).
Definition set_size (x : float) (w : walker) : walker :=
  Walker (solver w) (best w) (clauses w) (current w) (exponents w) (initial w)
    (minimum w) (generator w) (counters w) (binaries w) (saved w) (refs w)
    (table w) (scores w) (unsat w) (trail w) x (epsilon w) (limit w)
    (flipped w).
Definition set_limit (x : Z) (w : walker) : walker :=
  Walker (solver w) (best w) (clauses w) (current w) (exponents w) (initial w)
    (minimum w) (generator w) (counters w) (binaries w) (saved w) (refs w)
    (table w) (scores w) (unsat w) (trail w) (size w) (epsilon w) x
    (flipped w).
Definition set_flipped (x : Z) (w : walker) : walker :=
  Walker (solver w) (best w) (clauses w) (current w) (exponents w) (initial w)
    (minimum w) (generator w) (counters w) (binaries w) (saved w) (refs w)
    (table w) (scores w) (unsat w) (trail w) (size w) (epsilon w) (limit w)
    x.

(** What [walk.c] consumes from the rest of the solver.  None of these
    functions is in [walk.c]; the embedding takes them as an interface and
    the theorems hold for every implementation of it.  [uninit_counter] and
    [uninit_tagged] are the contents of the memory [kissat_malloc] returns. *)
Class Host := {
  kissat_enter_dense_mode : kissat -> kissat * litpairs;
  kissat_resume_sparse_mode : kissat -> litpairs -> kissat;
  kissat_warmup : kissat -> kissat;
  TERMINATED : kissat -> bool;
  SET_EFFORT_LIMIT : kissat -> Z;
  kissat_pick_double : Z -> float * Z;
  kissat_average : float -> float -> float;
  STOP_SEARCH_AND_START_SIMPLIFIER : kissat -> kissat;
  STOP_SIMPLIFIER_AND_RESUME_SEARCH : kissat -> kissat;
  uninit_counter : nat -> counter;
  uninit_tagged : nat -> tagged
}.

(** Modelled from the spec: [kissat_dereference_clause] is not in [walk.c];
    "clauses are addressed by arena offset". *)
Definition kissat_dereference_clause (solver : kissat) (r : Z) : option clause :=
  find (fun c => cref c =? r) (arena solver).

(** Modelled from the spec: [kissat_push_large_watch] is not in [walk.c];
    "append counter_ref to the large-watch list". *)
Definition kissat_push_large_watch (solver : kissat) (lit : Z) (counter_ref : Z)
    : kissat :=
  set_watches (poke (watches solver) lit (peek (watches solver) lit ++ [counter_ref]))
    solver.

(** Modelled from the spec: [kissat_mark_clause_as_garbage] is not in
    [walk.c]; "mark c as garbage".  The clause is the [i]-th of the arena. *)
Definition kissat_mark_clause_as_garbage (solver : kissat) (i : nat) : kissat :=
  set_arena
    (alter (fun c => Clause true (redundant c) (clause_lits c) (cref c)) i
       (arena solver))
    solver.

(* ================================================================= *)
(** ** [dereference_literals], [push_unsat], [pop_unsat] *)

(** The literals of the clause of a counter; [*size_ptr] is their number. *)
Definition dereference_literals (w : walker) (counter_ref : Z) : list Z :=
  let tagged := peek (refs w) counter_ref in
  if binary tagged then
    let p := peek (binaries w) (ref tagged) in
    [fst p; snd p]
  else
    match kissat_dereference_clause (solver w) (ref tagged) with
    | Some c => clause_lits c
    | None => []
    end.

Definition push_unsat (w : walker) (counter_ref : Z) : walker :=
  let p := u32 (Z.of_nat (length (unsat w))) in
  let w := set_counters (alter (set_pos p) (Z.to_nat counter_ref) (counters w)) w in
  set_unsat (unsat w ++ [counter_ref]) w.

Definition pop_unsat (w : walker) (counter_ref : Z) (pos : Z) : bool * walker :=
  let other_counter_ref := default 0 (last (unsat w)) in
  let w := set_unsat (removelast (unsat w)) w in
  let w := set_current (u32 (current w - 1)) w in
  if counter_ref =? other_counter_ref then (false, w)
  else
    let w := set_counters
               (alter (set_pos pos) (Z.to_nat other_counter_ref) (counters w)) w in
    let w := set_unsat (poke (unsat w) pos other_counter_ref) w in
    (true, w).

(* ================================================================= *)
(** ** The score table: [cbvals], [fit_cbval], [init_score_table] *)

Definition cbvals : list (float * float) :=
  [(0.0, 2.00); (3.0, 2.50); (4.0, 2.85);
   (5.0, 3.70); (6.0, 5.10); (7.0, 7.40)]%float.

(** The loop of [fit_cbval]: [pts] is [cbvals] from index [i] on; the guard
    [i + 2 < num_cbvals] says that a third point follows. *)
Fixpoint fit_cbval_segment (size : float) (pts : list (float * float))
    : (float * float) * (float * float) :=
  match pts with
  | p1 :: ((p2 :: _ :: _) as rest) =>
      if (size <? fst p1)%float || (fst p2 <? size)%float
      then fit_cbval_segment size rest
      else (p1, p2)
  | p1 :: p2 :: _ => (p1, p2)
  | _ => ((0, 0), (0, 0))%float
  end.

Definition fit_cbval (size : float) : float :=
  let '((x1, y1), (x2, y2)) := fit_cbval_segment size cbvals in
  let dx := (x2 - x1)%float in
  let dy := (y2 - y1)%float in
  (dy * (size - x1) / dx + y1)%float.

(** [for (next = 1; next; next *= base) exponents++;] *)
Fixpoint count_exponents (fuel : nat) (next base : float) (exponents : Z)
    : option Z :=
  match fuel with
  | O => None
  | S fuel =>
      if (next =? 0)%float then Some exponents
      else count_exponents fuel (next * base)%float base (u32 (exponents + 1))
  end.

(** [for (epsilon = next = 1; next; next = epsilon * base)
       walker->table[i++] = epsilon = next;]
    The table is written at the indices 0, 1, 2, ... in turn. *)
Fixpoint fill_table (fuel : nat) (next base epsilon : float) (table : list float)
    : option (list float * float) :=
  match fuel with
  | O => None
  | S fuel =>
      if (next =? 0)%float then Some (table, epsilon)
      else fill_table fuel (next * base)%float base next (table ++ [next])
  end.

(** The break multiplier of [init_score_table]. *)
Definition score_cb (walks : Z) (size : float) : float :=
  if negb (Z.land walks 1 =? 0) then fit_cbval size else 2.0%float.

Definition init_score_table (fuel : nat) (w : walker) : option walker :=
  let cb := score_cb (walks (stats (solver w))) (size w) in
  let base := (1 / cb)%float in
  match count_exponents fuel 1%float base 0 with
  | None => None
  | Some exponents =>
      match fill_table fuel 1%float base 1%float [] with
      | None => None
      | Some (table, epsilon) => Some (set_score_table table exponents epsilon w)
      end
  end.

Definition scale_score (w : walker) (breaks : Z) : float :=
  if breaks <? exponents w then peek (table w) breaks else epsilon w.

Definition currently_unsatified (w : walker) : Z :=
  u32 (Z.of_nat (length (unsat w))).

(* ================================================================= *)
(** ** Setting up: phases, binary counters, large counters *)

(** One iteration of the loop of [import_decision_phases]; [target] is the
    pointer that is null outside stable mode or when [warmup] is set. *)
Definition import_decision_phase (target : option (list value))
    (s : kissat) (idx : Z) : kissat :=
  if negb (peek (active s) idx) then s
  else
    let value := match target with Some t => peek t idx | None => 0 end in
    let value := if value =? 0 then peek (phases_saved s) idx else value in
    let value := if value =? 0 then initial_phase s else value in
    let s := if negb (peek (phases_saved s) idx =? value)
             then set_phases_saved (poke (phases_saved s) idx value) s
             else s in
    let lit := LIT idx in
    let not_lit := NOT lit in
    let s := set_values (poke (values s) lit value) s in
    let s := set_values (poke (values s) not_lit (- value)) s in
    set_phases_saved (poke (phases_saved s) idx value) s.

Definition import_decision_phases (w : walker) : walker :=
  let s := INC_walk_decisions (solver w) in
  let target :=
    if stable s && negb (option_warmup s) then Some (phases_target s) else None in
  set_solver (fold_left (import_decision_phase target) (seqZ 0 (VARS s)) s) w.

(** One iteration of the loop of [connect_binary_counters]; the state is the
    walker and the local [counter_ref]. *)
Definition connect_binary_counter (st : walker * Z) (binary_ref : Z)
    : walker * Z :=
  let '(w, counter_ref) := st in
  let '(first, second) := peek (binaries w) binary_ref in
  let first_value := peek (values (solver w)) first in
  let second_value := peek (values (solver w)) second in
  if (first_value =? 0) || (second_value =? 0) then st
  else
    let w := set_refs (poke (refs w) counter_ref (make_tagged true binary_ref)) w in
    let w := set_solver (kissat_push_large_watch (solver w) first counter_ref) w in
    let w := set_solver (kissat_push_large_watch (solver w) second counter_ref) w in
    let count := (if 0 <? first_value then 1 else 0)
                 + (if 0 <? second_value then 1 else 0) in
    let w := set_counters
               (alter (set_count count) (Z.to_nat counter_ref) (counters w)) w in
    let w := if count =? 0 then push_unsat w counter_ref else w in
    (w, u32 (counter_ref + 1)).

Definition connect_binary_counters (w : walker) : walker * Z :=
  let nbinaries := u32 (Z.of_nat (length (binaries w))) in
  let '(w, counter_ref) :=
    fold_left connect_binary_counter (seqZ 0 nbinaries) (w, 0) in
  (set_size (size w + 2.0 * double_of_Z counter_ref)%float w, counter_ref).

(** The second inner loop of [connect_large_counters], over the literals of
    one clause; the state is the solver (its watches) and the locals [count]
    and [size]. *)
Definition connect_large_literal (counter_ref : Z) (st : kissat * Z * Z)
    (lit : Z) : kissat * Z * Z :=
  let '(s, count, size) := st in
  let value := peek (values s) lit in
  if value =? 0 then st
  else
    let s := kissat_push_large_watch s lit counter_ref in
    (s, (if 0 <? value then u32 (count + 1) else count), u32 (size + 1)).

(** The loop of [connect_large_counters] over the clauses of the arena, here
    by their position in it.  Modelled from the spec:
    [kissat_last_irredundant_clause] is not in [walk.c]; the loop goes "up to
    the last_irredundant boundary", and there is none when the field is
    [INVALID_REF]. *)
Fixpoint connect_large_loop (cs : list nat) (w : walker) (counter_ref : Z)
    : walker :=
  match cs with
  | [] => w
  | i :: cs =>
      match arena (solver w) !! i with
      | None => w
      | Some c =>
          if negb (last_irredundant (solver w) =? INVALID_REF)
             && (last_irredundant (solver w) <? cref c)
          then w
          else if garbage c then connect_large_loop cs w counter_ref
          else if redundant c then connect_large_loop cs w counter_ref
          else if existsb (fun lit => 0 <? peek (saved w) lit) (clause_lits c)
          then connect_large_loop cs
                 (set_solver (kissat_mark_clause_as_garbage (solver w) i) w)
                 counter_ref
          else
            let clause_ref := cref c in
            let w := set_refs
                       (poke (refs w) counter_ref (make_tagged false clause_ref)) w in
            let '(s, count, nlits) :=
              fold_left (connect_large_literal counter_ref) (clause_lits c)
                (solver w, 0, 0) in
            let w := set_solver s w in
            let w := set_counters
                       (alter (set_count count) (Z.to_nat counter_ref) (counters w))
                       w in
            let w := if count =? 0 then push_unsat w counter_ref else w in
            let w := set_size (size w + double_of_Z nlits)%float w in
            connect_large_loop cs w (u32 (counter_ref + 1))
      end
  end.

Definition connect_large_counters (w : walker) (counter_ref : Z) : walker :=
  connect_large_loop (seq 0 (length (arena (solver w)))) w counter_ref.

Section Walk.

Context {host : Host}.

(** The loops of [init_score_table] and of [local_search_round] run on
    [fuel]; a result [None] says that the fuel did not suffice.  The first
    [Walker] below is the [memset] to zero with the five fields assigned
    right after it. *)
Definition init_walker (fuel : nat) (solver : kissat) (binaries : litpairs)
    : option walker :=
  let clauses := BINIRR_CLAUSES solver in
  let w := Walker solver 0 (u32 clauses) 0 0 0 0
             (Z.lxor (random solver) (walks (stats solver)))
             [] binaries (values solver) [] [] [] [] [] 0%float 0%float 0 0 in
  let solver := set_values (replicate (Z.to_nat (LITS solver)) 0) solver in
  let solver := set_pol_activity
                  (replicate (Z.to_nat (LITS solver)) 0%float) solver in
  let w := set_solver solver w in
  let w := import_decision_phases w in
  let w := set_counters (map uninit_counter (seq 0 (Z.to_nat clauses))) w in
  let w := set_refs (map uninit_tagged (seq 0 (Z.to_nat clauses))) w in
  let '(w, counter_ref) := connect_binary_counters w in
  let w := connect_large_counters w counter_ref in
  let w := set_current (currently_unsatified w) w in
  let w := set_initial (current w) w in
  let w := set_size (kissat_average (size w) (double_of_Z clauses)) w in
  let w := set_minimum (current w) w in
  init_score_table fuel w.

Definition init_walker_limit (w : walker) : walker :=
  let w := set_limit (SET_EFFORT_LIMIT (solver w)) w in
  set_flipped 0 w.

(** [release_walker] frees the walker's arrays and hands the solver its own
    [values] back; what is left of the walker is the solver. *)
Definition release_walker (w : walker) : kissat :=
  set_values (saved w) (solver w).

(* ================================================================= *)
(** ** Picking a literal *)

Definition break_value (w : walker) (lit : Z) : Z * walker :=
  let not_lit := NOT lit in
  let watches := peek (watches (solver w)) not_lit in
  let '(steps, res) :=
    fold_left
      (fun '(steps, res) counter_ref =>
         (u32 (steps + 1),
          u32 (res + (if count (peek (counters w) counter_ref) =? 1 then 1 else 0))))
      watches (1, 0) in
  (res, set_solver (ADD_walk_steps steps (solver w)) w).

(** Modelled from the spec: [INVALID_LIT] is not in [walk.c]; it is the
    [unsigned] that is no literal. *)
Definition INVALID_LIT : Z := UINT_MAX.

(** The first loop of [pick_literal]; the state is the walker (its scores
    stack and the statistics) and the locals [sum] and [picked_lit]. *)
Definition pick_literal_score (st : walker * float * Z) (lit : Z)
    : walker * float * Z :=
  let '(w, sum, picked_lit) := st in
  if peek (values (solver w)) lit =? 0 then st
  else
    let '(breaks, w) := break_value w lit in
    let score := scale_score w breaks in
    (set_scores (scores w ++ [score]) w, (sum + score)%float, lit).

(** The second loop of [pick_literal], with its [break]; [scores] is the
    pointer that walks the scores stack. *)
Fixpoint pick_literal_scan (values : list value) (threshold : float)
    (lits : list Z) (scores : list float) (sum : float) (picked_lit : Z) : Z :=
  match lits with
  | [] => picked_lit
  | lit :: lits =>
      if peek values lit =? 0
      then pick_literal_scan values threshold lits scores sum picked_lit
      else
        let score := hd 0%float scores in
        let sum := (sum + score)%float in
        if (threshold <? sum)%float then lit
        else pick_literal_scan values threshold lits (tl scores) sum picked_lit
  end.

(** The position [pick_literal] looks at:
    [const unsigned pos = walker->flipped++ % walker->current;] *)
Definition pick_literal_pos (w : walker) : Z :=
  u32 (flipped w mod current w).

Definition pick_literal (w : walker) : Z * walker :=
  let pos := pick_literal_pos w in
  let w := set_flipped (u64 (flipped w + 1)) w in
  let counter_ref := peek (unsat w) pos in
  let lits := dereference_literals w counter_ref in
  let '(w, sum, picked_lit) :=
    fold_left pick_literal_score lits (w, 0%float, INVALID_LIT) in
  let '(random, next) := kissat_pick_double (generator w) in
  let w := set_generator next w in
  let threshold := (sum * random)%float in
  let picked_lit :=
    pick_literal_scan (values (solver w)) threshold lits (scores w) 0%float
      picked_lit in
  (picked_lit, set_scores [] w).

(* ================================================================= *)
(** ** Flipping a literal *)

Definition break_clause (st : walker * Z) (counter_ref : Z) : walker * Z :=
  let '(w, steps) := st in
  let steps := u32 (steps + 1) in
  let n := u32 (count (peek (counters w) counter_ref) - 1) in
  let w := set_counters
             (alter (set_count n) (Z.to_nat counter_ref) (counters w)) w in
  if negb (n =? 0) then (w, steps)
  else (push_unsat w counter_ref, steps).

Definition break_clauses (w : walker) (flipped : Z) : walker :=
  let not_flipped := NOT flipped in
  let watches := peek (watches (solver w)) not_flipped in
  let '(w, steps) := fold_left break_clause watches (w, 1) in
  set_solver (ADD_walk_steps steps (solver w)) w.

Definition make_clause (st : walker * Z) (counter_ref : Z) : walker * Z :=
  let '(w, steps) := st in
  let steps := u32 (steps + 1) in
  let old := count (peek (counters w) counter_ref) in
  let w := set_counters
             (alter (set_count (u32 (old + 1))) (Z.to_nat counter_ref) (counters w))
             w in
  if negb (old =? 0) then (w, steps)
  else
    let '(res, w) := pop_unsat w counter_ref (pos (peek (counters w) counter_ref)) in
    (w, if res then u32 (steps + 1) else steps).

Definition make_clauses (w : walker) (flipped : Z) : walker :=
  let watches := peek (watches (solver w)) flipped in
  let '(w, steps) := fold_left make_clause watches (w, 1) in
  set_solver (ADD_walk_steps steps (solver w)) w.

Definition flip_literal (w : walker) (flip : Z) : walker :=
  let value := peek (values (solver w)) flip in
  let w := set_solver (set_values (poke (values (solver w)) flip (- value))
                         (solver w)) w in
  let w := set_solver (set_values (poke (values (solver w)) (NOT flip) value)
                         (solver w)) w in
  let w := make_clauses w flip in
  let w := break_clauses w flip in
  set_current (currently_unsatified w) w.

(* ================================================================= *)
(** ** The trail and the best assignment *)

Definition save_all_values (w : walker) : walker :=
  let s := solver w in
  let saved :=
    fold_left
      (fun saved idx =>
         let lit := LIT idx in
         let value := peek (values s) lit in
         if negb (value =? 0) then poke saved idx value else saved)
      (seqZ 0 (VARS s)) (phases_saved s) in
  set_best 0 (set_solver (set_phases_saved saved s) w).

Definition save_walker_trail (w : walker) (keep : bool) : walker :=
  let s := solver w in
  let saved :=
    fold_left
      (fun saved lit =>
         let value := if NEGATED lit then -1 else 1 in
         poke saved (IDX lit) value)
      (take (Z.to_nat (best w)) (trail w)) (phases_saved s) in
  let w := set_solver (set_phases_saved saved s) w in
  if negb keep then w
  else
    let w := set_trail (drop (Z.to_nat (best w)) (trail w)) w in
    set_best 0 w.

Definition push_flipped (w : walker) (flipped : Z) : walker :=
  if best w =? INVALID_BEST then w
  else
    let size_trail := u32 (Z.of_nat (length (trail w))) in
    let limit := u32 (VARS (solver w) / 4 + 1) in
    if size_trail <? limit then set_trail (trail w ++ [flipped]) w
    else if negb (best w =? 0) then
      let w := save_walker_trail w true in
      set_trail (trail w ++ [flipped]) w
    else
      let w := set_trail [] w in
      set_best INVALID_BEST w.

Definition update_best (w : walker) : walker :=
  let w := set_minimum (current w) w in
  if best w =? INVALID_BEST then save_all_values w
  else set_best (u32 (Z.of_nat (length (trail w)))) w.

(* ================================================================= *)
(** ** The round and the walking phase *)

Definition local_search_step (w : walker) : walker :=
  let w := set_solver (INC_flipped (solver w)) w in
  let w := set_flipped (u64 (flipped w + 1)) w in
  let '(lit, w) := pick_literal w in
  let w := flip_literal w lit in
  let w := push_flipped w lit in
  if current w <? minimum w then update_best w else w.

(** The guard of the loop of [local_search_round] together with its
    [TERMINATED] test: [true] when another step is taken. *)
Definition local_search_continues (w : walker) : bool :=
  negb (minimum w =? 0)
  && (walk_steps (stats (solver w)) <? limit w)
  && negb (TERMINATED (solver w)).

Fixpoint local_search_round (fuel : nat) (w : walker) : option walker :=
  match fuel with
  | O => None
  | S fuel =>
      if local_search_continues w
      then local_search_round fuel (local_search_step w)
      else Some w
  end.

Definition save_final_minimum (w : walker) : walker :=
  if minimum w =? initial w then w
  else
    let w := if (best w =? 0) || (best w =? INVALID_BEST) then w
             else save_walker_trail w false in
    set_solver (INC_walk_improved (solver w)) w.

(** The part of [walking_phase] between entering and leaving dense mode. *)
Definition walking_round (fuel : nat) (solver : kissat) (irredundant : litpairs)
    : option kissat :=
  match init_walker fuel solver irredundant with
  | None => None
  | Some w =>
      let w := init_walker_limit w in
      match local_search_round fuel w with
      | None => None
      | Some w =>
          let w := save_final_minimum w in
          Some (release_walker w)
      end
  end.

Definition walking_phase (fuel : nat) (solver : kissat) : option kissat :=
  let solver := INC_walks solver in
  let '(solver, irredundant) := kissat_enter_dense_mode solver in
  match walking_round fuel solver irredundant with
  | None => None
  | Some solver => Some (kissat_resume_sparse_mode solver irredundant)
  end.

Definition kissat_walking (solver : kissat) : bool :=
  let last_irredundant := last_irredundant solver in
  let last_irredundant :=
    if last_irredundant =? INVALID_REF then u32 (arena_size solver)
    else last_irredundant in
  if MAX_WALK_REF <? last_irredundant then false
  else
    let clauses := BINIRR_CLAUSES solver in
    if MAX_WALK_REF <? clauses then false else true.

Definition kissat_walk (fuel : nat) (solver : kissat) : option kissat :=
  let last_irredundant := last_irredundant solver in
  let last_irredundant :=
    if last_irredundant =? INVALID_REF then u32 (arena_size solver)
    else last_irredundant in
  if MAX_WALK_REF <? last_irredundant then Some solver
  else
    let clauses := BINIRR_CLAUSES solver in
    if MAX_WALK_REF <? clauses then Some solver
    else
      let solver := if option_warmup solver then kissat_warmup solver else solver in
      let solver := STOP_SEARCH_AND_START_SIMPLIFIER solver in
      match walking_phase fuel solver with
      | None => None
      | Some solver => Some (STOP_SIMPLIFIER_AND_RESUME_SEARCH solver)
      end.

End Walk.

(* ================================================================= *)
(** * Specification-side definitions *)

(** ** The score table *)

(** The line through two control points at [size], as [fit_cbval] evaluates
    it in double arithmetic: [dy * (size - x1) / dx + y1]. *)
Definition cb_line (p1 p2 : float * float) (size : float) : float :=
  let dx := (fst p2 - fst p1)%float in
  let dy := (snd p2 - snd p1)%float in
  (dy * (size - fst p1) / dx + snd p1)%float.

(** [base] to the power [n] as the loops of [init_score_table] compute it:
    by repeated multiplication, rounding each time. *)
Fixpoint iter_pow (base : float) (n : nat) : float :=
  match n with
  | O => 1%float
  | S n => (iter_pow base n * base)%float
  end.

(** The values the loops of [init_score_table] go through from [x] on: each
    is the one before times [base], and none is zero. *)
Fixpoint geometric (base x : float) (l : list float) : Prop :=
  match l with
  | [] => True
  | y :: l => y = x /\ (x =? 0)%float = false /\ geometric base (x * base)%float l
  end.

(** The value that ends the loop: the one after the last of [l]. *)
Fixpoint geometric_end (base x : float) (l : list float) : float :=
  match l with
  | [] => x
  | _ :: l => geometric_end base (x * base)%float l
  end.

(** A table falls strictly from entry to entry and ends above zero. *)
Fixpoint decreasing (l : list float) : bool :=
  match l with
  | [] => false
  | [x] => (0 <? x)%float
  | x :: ((y :: _) as l') => (y <? x)%float && decreasing l'
  end.

(** ** Rounding of doubles *)

(** Rounding [M / 2^n] to nearest, ties to even. *)
Definition round_shift (M n : Z) : Z :=
  let q := M / 2 ^ n in
  let r := M mod 2 ^ n in
  if (2 ^ (n - 1) <? r) || ((r =? 2 ^ (n - 1)) && Z.odd q) then q + 1 else q.

(** The exponent of the doubles with [k] binary digits before the point:
    [fexp] at the precision 53 and the largest exponent 1024. *)
Definition fexp64 (k : Z) : Z := Z.max (k - 53) (-1074).

(** The second stage of [binary_round_aux]: after rounding, the mantissa is
    shifted once more if the rounding has carried, and the result is a
    zero, a finite double or an infinity. *)
Definition renormalize (sx : bool) (m2 e2 : Z) : spec_float :=
  let n2 := fexp64 (Zdigits2 m2 + e2) - e2 in
  let m3 := if 0 <? n2 then m2 / 2 ^ n2 else m2 in
  let e3 := if 0 <? n2 then e2 + n2 else e2 in
  match m3 with
  | Z0 => S754_zero sx
  | Zpos m => if e3 <=? 971 then S754_finite sx m e3 else S754_infinity sx
  | Zneg _ => S754_nan
  end.

(** A double that is +0 or positive and at most 1/2. *)
Definition half_bound (b : spec_float) : Prop :=
  b = S754_zero false
  \/ exists mb eb, b = S754_finite false mb eb
                   /\ eb <= -53 /\ Zpos mb <= 2 ^ (-1 - eb).

(** A double that is +0 or positive and that at most [j + 1] halvings bring
    to zero. *)
Definition sf_below (j : Z) (x : spec_float) : Prop :=
  match x with
  | S754_zero false => True
  | S754_finite false m e =>
      (e = -1074 /\ Zpos m <= 2 ^ j) \/ (-1074 < e /\ e + 1127 <= j)
  | _ => False
  end.

(** ** A host and small solvers for the examples *)

(** A solver in dense mode with three variables, nothing assigned, two
    binary clauses and three clauses in the arena, the last one redundant
    and beyond the [last_irredundant] boundary. *)
Definition example_solver : kissat := {|
  vars := 3; active := [true; true; true]; values := [0; 0; 0; 0; 0; 0];
  pol_activity := [1%float]; phases_saved := [-1; -1; 0];
  phases_target := [0; 0; 0];
  stable := false; option_warmup := false; initial_phase := 1;
  arena := [Clause false false [0; 2; 5] 0; Clause false false [1; 3; 4] 4;
            Clause false true [0; 2; 4] 8];
  arena_size := 12; last_irredundant := 4;
  watches := [[]; []; []; []; []; []];
  stats := Statistics 1 0 0 0 0 4; random := 42 |}.

Definition example_binaries : litpairs := [(0, 3); (1, 2)].

(** A host whose collaborators leave the solver alone; entering dense mode
    hands out the binary clauses of the example. *)
Definition example_host : Host := {|
  kissat_enter_dense_mode := fun s => (s, example_binaries);
  kissat_resume_sparse_mode := fun s _ => s;
  kissat_warmup := fun s => s;
  TERMINATED := fun _ => false;
  SET_EFFORT_LIMIT := fun s => 1000;
  kissat_pick_double := fun g =>
    (0.5%float, u64 (g * 6364136223846793005 + 1442695040888963407));
  kissat_average := fun a b => if (b =? 0)%float then 0%float else (a / b)%float;
  STOP_SEARCH_AND_START_SIMPLIFIER := fun s => s;
  STOP_SIMPLIFIER_AND_RESUME_SEARCH := fun s => s;
  uninit_counter := fun i => Counter (Z.of_nat i + 7) 99;
  uninit_tagged := fun _ => Tagged 5 true
|}.

(** A walker that holds nothing but the inputs of [init_score_table]. *)
Definition score_walker (walks : Z) (size : float) : walker :=
  Walker (Kissat 0 [] [] [] [] [] false false 1 [] 0 INVALID_REF []
            (Statistics walks 0 0 0 0 0) 0)
    0 0 0 0 0 0 0 [] [] [] [] [] [] [] [] size 0%float 0 0.

(** ** What the operations of a round leave alone *)

(** The fields of the walker that picking and flipping never write. *)
Definition bookkeeping (w : walker) :=
  (best w, trail w, minimum w, initial w, limit w, saved w, clauses w,
   refs w, binaries w, table w, exponents w, epsilon w, size w).

(** The fields of the solver that no operation of a round writes. *)
Definition host_part (s : kissat) :=
  (vars s, active s, pol_activity s, phases_target s, stable s,
   option_warmup s, initial_phase s, arena s, arena_size s,
   last_irredundant s, watches s, random s).

(** What making and breaking clauses leaves alone: all but the counters,
    the unsat stack, [current] and the statistics. *)
Definition counting_rest (w : walker) :=
  (bookkeeping w, flipped w, generator w, scores w, host_part (solver w),
   phases_saved (solver w), values (solver w)).

(** What [flip_literal] leaves alone. *)
Definition flipping_rest (w : walker) :=
  (bookkeeping w, flipped w, generator w, scores w, host_part (solver w),
   phases_saved (solver w)).

(** ** The invariants of the walker *)

(** How often a counter occurs in a watch list. *)
Definition occurs (r : Z) (ws : list Z) : Z :=
  Z.of_nat (count_occ Z.eq_dec ws r).

(** The occurrences of a counter in the watch lists of the literals that are
    true: the number of true literals of its clause, with multiplicity. *)
Fixpoint true_count (r : Z) (values : list value) (watches : list (list Z)) : Z :=
  match values, watches with
  | v :: values, ws :: watches =>
      (if 0 <? v then occurs r ws else 0) + true_count r values watches
  | _, _ => 0
  end.

(** The weight of one literal in [true_count]. *)
Definition weight (r : Z) (v : value) (ws : list Z) : Z :=
  if 0 <? v then occurs r ws else 0.

(** The occurrences of a counter in all watch lists. *)
Fixpoint total_count (r : Z) (watches : list (list Z)) : Z :=
  match watches with
  | [] => 0
  | ws :: watches => occurs r ws + total_count r watches
  end.

(** [value (NOT l) = - value (l)] for every literal. *)
Definition symmetric (values : list value) : Prop :=
  forall l, 0 <= l < Z.of_nat (length values) ->
            peek values (NOT l) = - peek values l.

(** Invariant A on the counters [0 .. n) and the unsat stack: what is on the
    stack is a counter with [count = 0] whose [pos] is its index, and every
    counter with [count = 0] is on the stack. *)
Definition stack_inv (n : Z) (cs : list counter) (us : list Z) : Prop :=
  0 <= n <= Z.of_nat (length cs)
  /\ n < 2 ^ 32
  /\ (forall i r, us !! i = Some r ->
        0 <= r < n /\ count (peek cs r) = 0 /\ pos (peek cs r) = Z.of_nat i)
  /\ (forall r, 0 <= r < n -> count (peek cs r) = 0 -> r ∈ us).

(** The invariant of the walker with the counters [0 .. n) connected. *)
Definition walker_inv (n : Z) (w : walker) : Prop :=
  let s := solver w in
  0 <= vars s
  /\ Z.of_nat (length (values s)) = LITS s
  /\ Z.of_nat (length (watches s)) = LITS s
  /\ symmetric (values s)
  /\ (forall ws r, ws ∈ watches s -> r ∈ ws -> 0 <= r < n)
  /\ stack_inv n (counters w) (unsat w)
  /\ (forall r, 0 <= r < n ->
        count (peek (counters w) r) = true_count r (values s) (watches s))
  /\ (forall r, 0 <= r < n -> total_count r (watches s) < 2 ^ 32)
  /\ current w = Z.of_nat (length (unsat w)).

(** A counter is in use when a watch list or the unsat stack holds it. *)
Definition connected (w : walker) (r : Z) : Prop :=
  (exists ws, ws ∈ watches (solver w) /\ r ∈ ws) \/ r ∈ unsat w.

(** Invariant A as the specification states it: a counter in use is on the
    unsat stack iff its [count] is 0, and then at the index its [pos]
    holds. *)
Definition invariant_A (w : walker) : Prop :=
  forall r,
    (r ∈ unsat w <-> connected w r /\ count (peek (counters w) r) = 0)
    /\ (forall i, unsat w !! i = Some r ->
                  pos (peek (counters w) r) = Z.of_nat i).

(** ** Setting up the counters *)

(** Registering counter [r] with one literal of its clause: literals whose
    value is 0 are skipped. *)
Definition watch_counter (vs : list value) (r : Z) (wss : list (list Z))
    (lit : Z) : list (list Z) :=
  if peek vs lit =? 0 then wss else poke wss lit (peek wss lit ++ [r]).

Definition push_watches (vs : list value) (r : Z) (lits : list Z)
    (wss : list (list Z)) : list (list Z) :=
  fold_left (watch_counter vs r) lits wss.

(** The literals of a list that are true, and those that are assigned. *)
Definition true_lits (vs : list value) (lits : list Z) : list Z :=
  filter (fun l => 0 < peek vs l) lits.
Definition assigned_lits (vs : list value) (lits : list Z) : list Z :=
  filter (fun l => peek vs l <> 0) lits.

(** The clauses [connect_large_counters] looks at. *)
Definition irredundant (c : clause) : Prop :=
  garbage c = false /\ redundant c = false.

#[global] Instance irredundant_dec (c : clause) : Decision (irredundant c).
Proof. unfold irredundant. apply _. Defined.

Definition within_boundary (s : kissat) (c : clause) : Prop :=
  last_irredundant s = INVALID_REF \/ cref c <= last_irredundant s.

(** The clauses that get a counter: irredundant, within the boundary, and
    not satisfied by the values the solver had before the walk. *)
Definition walked (s : kissat) (saved : list value) (c : clause) : Prop :=
  irredundant c /\ within_boundary s c
  /\ existsb (fun lit => 0 <? peek saved lit) (clause_lits c) = false.

(** What the clauses of the arena have to satisfy for the walker, whatever
    their garbage flags become. *)
Definition arena_ready (s : kissat) (saved : list value) : Prop :=
  NoDup (cref <$> arena s)
  /\ Forall (fun c =>
       Forall (fun l => 0 <= l < LITS s) (clause_lits c)
       /\ Z.of_nat (length (clause_lits c)) < 2 ^ 32
       /\ (within_boundary s c -> 0 <= cref c <= MAX_WALK_REF)
       /\ (walked s saved c ->
           exists l, l ∈ clause_lits c /\ peek (active s) (IDX l) = true))
       (arena s).

(** What [init_walker] requires of the solver and the binary clauses it is
    given: literals fit [unsigned], the solver is in dense mode (one empty
    watch list per literal), the literals of all clauses are literals of the
    solver, [BINIRR_CLAUSES] bounds the number of binary and irredundant
    clauses and is at most [MAX_WALK_REF], the references of the arena are
    distinct and fit 31 bits up to the boundary, and a clause the values of
    the solver do not satisfy has a literal of an active variable. *)
Definition host_ready (s : kissat) (bins : litpairs) : Prop :=
  0 <= vars s /\ 2 * vars s < 2 ^ 32
  /\ initial_phase s <> 0
  /\ Z.of_nat (length (watches s)) = LITS s
  /\ Forall (fun ws => ws = []) (watches s)
  /\ Forall (fun p => 0 <= fst p < LITS s /\ 0 <= snd p < LITS s) bins
  /\ Z.of_nat (length bins) + Z.of_nat (length (filter irredundant (arena s)))
     <= BINIRR_CLAUSES s <= MAX_WALK_REF
  /\ arena_ready s (values s).

(** The clause of every counter: its literals are literals of the solver,
    those that are assigned watch the counter, and one of them is
    assigned. *)
Definition clause_inv (n : Z) (w : walker) : Prop :=
  forall r, 0 <= r < n ->
    let lits := dereference_literals w r in
    (forall l, l ∈ lits -> 0 <= l < LITS (solver w))
    /\ (forall l, l ∈ lits -> peek (values (solver w)) l <> 0 ->
          r ∈ peek (watches (solver w)) l)
    /\ (exists l, l ∈ lits /\ peek (values (solver w)) l <> 0).

(** The invariant while the counters are connected: that of the walker,
    but for [current], which [init_walker] sets once they all are. *)
Definition connect_inv (n : Z) (w : walker) : Prop :=
  walker_inv n (set_current (Z.of_nat (length (unsat w))) w).

(** What connecting the counters leaves alone: all but the references and
    the counters, the unsat stack, [size], the watches and the garbage flags
    of the arena. *)
Definition connecting_rest (w : walker) :=
  let s := solver w in
  (best w, trail w, minimum w, initial w, limit w, saved w, clauses w,
   binaries w, table w, exponents w, epsilon w, current w, generator w,
   scores w, flipped w,
   (vars s, active s, values s, pol_activity s, phases_saved s,
    phases_target s, stable s, option_warmup s, initial_phase s,
    arena_size s, last_irredundant s, stats s, random s)).

(** What one iteration of a connecting loop keeps, up to the new number
    [cr'] of counters. *)
Definition connect_step_ok (w : walker) (cr : Z) (w' : walker) (cr' : Z) : Prop :=
  connect_inv cr' w' /\ clause_inv cr' w'
  /\ length (counters w') = length (counters w)
  /\ length (refs w') = length (refs w)
  /\ connecting_rest w' = connecting_rest w.

(** The garbage flag is all that [kissat_mark_clause_as_garbage] writes,
    and it is set on clauses a value of [sv] satisfies. *)
Definition marked (sv : list value) (c c' : clause) : Prop :=
  cref c' = cref c /\ clause_lits c' = clause_lits c
  /\ redundant c' = redundant c
  /\ (garbage c' = garbage c
      \/ (garbage c' = true
          /\ existsb (fun lit => 0 <? peek sv lit) (clause_lits c) = true)).

Definition arena_marks (sv : list value) (a a' : list clause) : Prop :=
  Forall2 (marked sv) a a'.

(** An active variable is assigned. *)
Definition actives_assigned (s : kissat) : Prop :=
  forall l, 0 <= l < LITS s -> peek (active s) (IDX l) = true ->
            peek (values s) l <> 0.

(** The invariant of a round: that of the walker and of its clauses,
    [minimum] is at most the number of unsatisfied clauses, and the scores
    stack is empty between two calls of [pick_literal]. *)
Definition round_inv (n : Z) (w : walker) : Prop :=
  walker_inv n w /\ clause_inv n w /\ 0 <= minimum w <= current w
  /\ scores w = [].

(** The walker after [k] iterations of the loop of [local_search_round];
    [None] when the loop has stopped before. *)
Fixpoint round_steps {host : Host} (k : nat) (w : walker) : option walker :=
  match k with
  | O => Some w
  | S k =>
      if local_search_continues w then round_steps k (local_search_step w)
      else None
  end.

(** The walker of a step right after its [flip_literal]. *)
Definition step_flipped {host : Host} (w : walker) : walker :=
  let wp := set_flipped (u64 (flipped w + 1))
              (set_solver (INC_flipped (solver w)) w) in
  flip_literal (snd (pick_literal wp)) (fst (pick_literal wp)).

(** ** [pick_literal] as the specification words it *)

(** The score of a literal: its break value scaled. *)
Definition score_of (w : walker) (lit : Z) : float :=
  scale_score w (fst (break_value w lit)).

(** The walker during the first loop of [pick_literal]. *)
Definition scoring (w : walker) (stat : statistics) (sc : list float) : walker :=
  set_scores sc (set_solver (set_stats stat (solver w)) w).

(** The state of the first loop of [pick_literal] differs from the walker
    it started from in the scores stack and the statistics only. *)
Definition scoring_of (w : walker) (st : walker * float * Z) : Prop :=
  exists stat sc,
    fst (fst st) = set_scores sc (set_solver (set_stats stat (solver w)) w).

(** "Walk the same literals again in order, accumulating [sum']; return the
    first L at which [sum' > threshold]." *)
Fixpoint first_exceeding (threshold : float) (scored : list (Z * float))
    (sum : float) : option Z :=
  match scored with
  | [] => None
  | (lit, score) :: scored =>
      let sum := (sum + score)%float in
      if (threshold <? sum)%float then Some lit
      else first_exceeding threshold scored sum
  end.

(** The literals of the clause [pick_literal] picks. *)
Definition picked_clause (w : walker) : list Z :=
  dereference_literals w (peek (unsat w) (pick_literal_pos w)).

(** The literal the specification has [pick_literal] return for the random
    number [random]: the scores of the assigned literals of the picked
    clause are summed, the threshold is the sum times [random], the first
    literal at which the running sum exceeds it is returned, and the last
    assigned literal when none does. *)
Definition pick_literal_spec (w : walker) (random : float) : Z :=
  let lits := assigned_lits (values (solver w)) (picked_clause w) in
  let scored := map (fun lit => (lit, score_of w lit)) lits in
  let sum := fold_left (fun sum p => (sum + snd p)%float) scored 0%float in
  let threshold := (sum * random)%float in
  match first_exceeding threshold scored 0%float with
  | Some lit => lit
  | None => default INVALID_LIT (last lits)
  end.

(** What the invariants of the walker and of its clauses read. *)
Definition inv_part (w : walker) :=
  (vars (solver w), values (solver w), watches (solver w), arena (solver w),
   counters w, unsat w, current w, refs w, binaries w).

(** ** What the walk leaves of the solver *)

(** The fields of the solver the walk never writes. *)
Definition host_rest (s : kissat) :=
  (vars s, active s, phases_target s, stable s, option_warmup s,
   initial_phase s, arena_size s, last_irredundant s, random s).

(** Every watch list has only been appended to. *)
Definition watches_extend (wss wss' : list (list Z)) : Prop :=
  Forall2 prefix wss wss'.

(** What the round keeps of the walker set up: the saved values and, of
    the solver, all but its values, the saved phases and the statistics. *)
Definition round_rest (w : walker) := (saved w, host_part (solver w)).

(** ** Further definitions: the trail, the phases and the clauses *)

(** A walker that holds nothing but an unsat stack, for the examples. *)
Definition stack_walker (us : list Z) : walker :=
  set_current (Z.of_nat (length us)) (set_unsat us (score_walker 0 0)).

(** The statistics but [walk_steps]. *)
Definition stats_rest (st : statistics) :=
  (walks st, stat_flipped st, walk_decisions st, walk_improved st,
   clauses_binirr st).

(** The phase [import_decision_phases] gives a variable: its target phase in
    stable mode without warmup, else its saved phase, else the initial
    phase, the first of them that is not 0. *)
Definition decision_phase (s : kissat) (idx : Z) : value :=
  let value := if stable s && negb (option_warmup s)
               then peek (phases_target s) idx else 0 in
  let value := if value =? 0 then peek (phases_saved s) idx else value in
  if value =? 0 then initial_phase s else value.

(** What [save_walker_trail] writes into the saved phases for the literals
    of a piece of the trail, in their order: the sign of each literal at the
    cell of its variable. *)
Definition replay (saved : list value) (lits : list Z) : list value :=
  fold_left
    (fun saved lit => poke saved (IDX lit) (if NEGATED lit then -1 else 1))
    lits saved.

(** The phases [ph] hold the values [vs] of the assigned variables among
    the first [n]. *)
Definition agrees (n : Z) (vs ph : list value) : Prop :=
  forall idx, 0 <= idx < n ->
    peek vs (LIT idx) <> 0 -> peek ph idx = peek vs (LIT idx).

(** Every value is -1, 0 or 1. *)
Definition signed (vs : list value) : Prop :=
  forall l, 0 <= l < Z.of_nat (length vs) ->
    peek vs l = -1 \/ peek vs l = 0 \/ peek vs l = 1.

(** The trail is empty while [best] is invalid, and otherwise holds [best]
    literals at least and [VARS / 4 + 1] at most. *)
Definition trail_inv (w : walker) : Prop :=
  (best w = INVALID_BEST /\ trail w = [])
  \/ (0 <= best w <= Z.of_nat (length (trail w))
      /\ Z.of_nat (length (trail w)) <= VARS (solver w) / 4 + 1).

(** What the phases and the trail hold of the best assignment [B] and of
    the current one: with an invalid trail the saved phases are [B];
    otherwise replaying the trail up to [best] over the saved phases gives
    [B], and replaying all of it gives the values of the solver. *)
Definition best_inv (B : list value) (w : walker) : Prop :=
  let s := solver w in
  (best w = INVALID_BEST /\ trail w = [] /\ agrees (vars s) B (phases_saved s))
  \/ (0 <= best w <= Z.of_nat (length (trail w))
      /\ Z.of_nat (length (trail w)) <= VARS s / 4 + 1
      /\ (forall lit, lit ∈ trail w -> 0 <= lit < LITS s)
      /\ agrees (vars s) B
           (replay (phases_saved s) (take (Z.to_nat (best w)) (trail w)))
      /\ agrees (vars s) (values s) (replay (phases_saved s) (trail w))).

(** The sizes and signs the phases rely on. *)
Definition phase_inv (w : walker) : Prop :=
  let s := solver w in
  0 <= vars s /\ 2 * vars s < 2 ^ 32
  /\ Z.of_nat (length (phases_saved s)) = vars s
  /\ Z.of_nat (length (values s)) = LITS s
  /\ symmetric (values s) /\ signed (values s)
  /\ minimum w <= initial w
  /\ (minimum w = initial w -> best w = 0 \/ best w = INVALID_BEST).

(** What the host has to provide for the phases: one saved and one target
    phase per variable, each -1, 0 or 1, and an initial phase -1 or 1. *)
Definition phases_ready (s : kissat) : Prop :=
  Z.of_nat (length (phases_saved s)) = vars s
  /\ Z.of_nat (length (phases_target s)) = vars s
  /\ Forall (fun v => v = -1 \/ v = 0 \/ v = 1) (phases_saved s)
  /\ Forall (fun v => v = -1 \/ v = 0 \/ v = 1) (phases_target s)
  /\ (initial_phase s = -1 \/ initial_phase s = 1).

(** The literal a step picks and flips. *)
Definition step_literal {host : Host} (w : walker) : Z :=
  fst (pick_literal (set_flipped (u64 (flipped w + 1))
                       (set_solver (INC_flipped (solver w)) w))).

(** The solver as [init_walker] has it when it imports the phases: with
    fresh, zeroed [values] and [pol_activity]. *)
Definition fresh_solver (s : kissat) : kissat :=
  set_pol_activity (replicate (Z.to_nat (LITS s)) 0%float)
    (set_values (replicate (Z.to_nat (LITS s)) 0) s).

(** ** Further definitions: the clauses of the counters *)

(** A watch list holds a counter only at a literal of its clause. *)
Definition watch_sound (w : walker) : Prop :=
  forall l r, 0 <= l < Z.of_nat (length (watches (solver w))) ->
    r ∈ peek (watches (solver w)) l -> l ∈ dereference_literals w r.

(** The clause [lits] has a counter, which one of its literals watches. *)
Definition counted (w : walker) (lits : list Z) : Prop :=
  exists r l,
    0 <= r /\ dereference_literals w r = lits /\ l ∈ lits
    /\ 0 <= l < Z.of_nat (length (watches (solver w)))
    /\ r ∈ peek (watches (solver w)) l.

(** The clauses of the arena come in the order of their references, as
    the iteration [all_clauses] visits them. *)
Definition arena_sorted (a : list clause) : Prop :=
  forall (i j : nat) (c c' : clause),
    (i <= j)%nat -> a !! i = Some c -> a !! j = Some c' -> cref c <= cref c'.

(** The walker after [connect_large_counters] has given the clause [c] the
    counter [cr]. *)
Definition connect_large_clause (w : walker) (cr : Z) (c : clause) : walker :=
  let vs := values (solver w) in
  let ct := Z.of_nat (length (true_lits vs (clause_lits c))) in
  let w := set_refs (poke (refs w) cr (make_tagged false (cref c))) w in
  let w := set_solver
             (set_watches (push_watches vs cr (clause_lits c) (watches (solver w)))
                (solver w)) w in
  let w := set_counters (alter (set_count ct) (Z.to_nat cr) (counters w)) w in
  let w := if ct =? 0 then push_unsat w cr else w in
  set_size
    (size w + double_of_Z (Z.of_nat (length (assigned_lits vs (clause_lits c)))))%float
    w.

(** A value satisfies the clause. *)
Definition satisfied (vs : list value) (lits : list Z) : Prop :=
  exists l, l ∈ lits /\ 0 < peek vs l.

(** The phases satisfy the clause: one of its literals has the sign the
    phase of its variable has. *)
Definition phases_satisfy (ph : list value) (lits : list Z) : Prop :=
  exists l, l ∈ lits /\ peek ph (IDX l) = (if NEGATED l then -1 else 1).

(** What the clauses of the counters are read from. *)
Definition clause_part (w : walker) :=
  (refs w, binaries w, arena (solver w), watches (solver w), vars (solver w)).

(** The clause with its garbage flag set. *)
Definition as_garbage (c : clause) : clause :=
  Clause true (redundant c) (clause_lits c) (cref c).

(** A value of [sv] satisfies the clause. *)
Definition saved_satisfies (sv : list value) (c : clause) : Prop :=
  existsb (fun lit => 0 <? peek sv lit) (clause_lits c) = true.

#[global] Instance within_boundary_dec (s : kissat) (c : clause) :
  Decision (within_boundary s c).
Proof. unfold within_boundary. apply _. Defined.

#[global] Instance saved_satisfies_dec (sv : list value) (c : clause) :
  Decision (saved_satisfies sv c).
Proof. unfold saved_satisfies. apply _. Defined.

(** What [connect_large_counters] has done with the clauses at the
    positions [i .. i + k) of the arena, from the walker [w] to [w']: the
    clauses it walks have a counter, those a saved value satisfies are
    garbage, and no other clause of the arena has changed. *)
Definition large_connected (i k : nat) (w w' : walker) : Prop :=
  (forall j c, (i <= j < i + k)%nat -> arena (solver w) !! j = Some c ->
     walked (solver w) (saved w) c -> counted w' (clause_lits c))
  /\ (forall j c, (i <= j < i + k)%nat -> arena (solver w) !! j = Some c ->
        irredundant c -> within_boundary (solver w) c ->
        saved_satisfies (saved w) c ->
        arena (solver w') !! j = Some (as_garbage c))
  /\ (forall j c, arena (solver w) !! j = Some c ->
        ~ ((i <= j < i + k)%nat /\ irredundant c
           /\ within_boundary (solver w) c /\ saved_satisfies (saved w) c) ->
        arena (solver w') !! j = Some c).

(** The example solver with its third variable fixed to true: the variable
    is not active, the solver's own values hold it, and they satisfy the
    second clause of the arena. *)
Definition example_fixed : kissat := {|
  vars := 3; active := [true; true; false]; values := [0; 0; 0; 0; 1; -1];
  pol_activity := [1%float]; phases_saved := [-1; -1; 0];
  phases_target := [0; 0; 0];
  stable := false; option_warmup := false; initial_phase := 1;
  arena := [Clause false false [0; 2; 5] 0; Clause false false [1; 3; 4] 4;
            Clause false true [0; 2; 4] 8];
  arena_size := 12; last_irredundant := 4;
  watches := [[]; []; []; []; []; []];
  stats := Statistics 1 0 0 0 0 4; random := 42 |}.

(* ================================================================= *)
(** * Properties *)

(** ** Facts on machine integers and arrays *)

Lemma u32_range (x : Z) : 0 <= u32 x < 2 ^ 32.
Proof. unfold u32. apply Z.mod_pos_bound. lia. Qed.

Lemma u32_small (x : Z) : 0 <= x < 2 ^ 32 -> u32 x = x.
Proof. unfold u32. intros. now apply Z.mod_small. Qed.


Lemma u32_succ_idemp (x k : Z) : u32 (u32 (x + 1) + k) = u32 (x + 1 + k).
Proof. unfold u32. now rewrite Z.add_mod_idemp_l by lia. Qed.

Lemma land_1_even (x : Z) : (Z.land x 1 =? 0) = Z.even x.
Proof.
  change 1 with (Z.ones 1). rewrite Z.land_ones by lia.
  rewrite Zeven_mod. reflexivity.
Qed.

(** ** The order of [double]

    From the specification of the primitive comparisons ([FloatAxioms]):
    [<] is transitive, implies [<=], and excludes the converse [<=]. *)

Lemma SFcompare_lt_trans (a b c : spec_float) :
  SFcompare a b = Some Lt -> SFcompare b c = Some Lt -> SFcompare a c = Some Lt.
Proof.
  destruct a as [[]|[]| |[] ma ea], b as [[]|[]| |[] mb eb],
    c as [[]|[]| |[] mc ec];
    cbn; try congruence; intros Hab Hbc;
    injection Hab as Hab; injection Hbc as Hbc; f_equal;
    rewrite ?Pos.compare_cont_spec in *; cbn [Pos.switch_Eq] in *.
  all: destruct (Z.compare_spec ea eb), (Z.compare_spec eb ec); try discriminate;
    destruct (Z.compare_spec ea ec); try lia; subst; try reflexivity.
  all: destruct (Pos.compare_spec ma mb), (Pos.compare_spec mb mc);
    try discriminate;
    destruct (Pos.compare_spec ma mc); cbn; try lia; try reflexivity.
Qed.

Lemma SFcompare_lt_gt (a b : spec_float) :
  SFcompare a b = Some Lt -> SFcompare b a = Some Gt.
Proof.
  destruct a as [[]|[]| |[] ma ea], b as [[]|[]| |[] mb eb];
    cbn; try congruence;
    intros Hab; injection Hab as Hab; f_equal;
    rewrite ?Pos.compare_cont_spec in *; cbn [Pos.switch_Eq] in *.
  all: rewrite (Z.compare_antisym ea eb);
    destruct (Z.compare_spec ea eb); cbn; try discriminate; try reflexivity.
  all: rewrite (Pos.compare_antisym ma mb);
    destruct (Pos.compare_spec ma mb); cbn in *; try discriminate;
    try reflexivity.
Qed.

Lemma SFcompare_lt_refl (a b : spec_float) :
  SFcompare a b = Some Lt -> SFcompare b b = Some Eq.
Proof.
  destruct a as [[]|[]| |[] ma ea], b as [[]|[]| |[] mb eb];
    cbn; try congruence;
    intros _; f_equal;
    rewrite ?Pos.compare_cont_spec, ?Z.compare_refl, ?Pos.compare_refl;
    reflexivity.
Qed.

Lemma double_lt_trans (x y z : float) :
  (x <? y)%float = true -> (y <? z)%float = true -> (x <? z)%float = true.
Proof.
  rewrite !FloatAxioms.ltb_spec. unfold SFltb.
  destruct (SFcompare (Prim2SF x) (Prim2SF y)) as [[]|] eqn:E1; try discriminate.
  destruct (SFcompare (Prim2SF y) (Prim2SF z)) as [[]|] eqn:E2; try discriminate.
  now rewrite (SFcompare_lt_trans _ _ _ E1 E2).
Qed.

Lemma double_lt_le (x y : float) :
  (x <? y)%float = true -> (x <=? y)%float = true.
Proof.
  rewrite FloatAxioms.ltb_spec, FloatAxioms.leb_spec. unfold SFltb, SFleb.
  now destruct (SFcompare (Prim2SF x) (Prim2SF y)) as [[]|].
Qed.

Lemma double_lt_not_ge (x y : float) :
  (x <? y)%float = true -> (y <=? x)%float = false.
Proof.
  rewrite FloatAxioms.ltb_spec, FloatAxioms.leb_spec. unfold SFltb, SFleb.
  destruct (SFcompare (Prim2SF x) (Prim2SF y)) as [[]|] eqn:E; try discriminate.
  now rewrite (SFcompare_lt_gt _ _ E).
Qed.

Lemma double_lt_le_refl (x y : float) :
  (x <? y)%float = true -> (y <=? y)%float = true.
Proof.
  rewrite FloatAxioms.ltb_spec, FloatAxioms.leb_spec. unfold SFltb, SFleb.
  destruct (SFcompare (Prim2SF x) (Prim2SF y)) as [[]|] eqn:E; try discriminate.
  now rewrite (SFcompare_lt_refl _ _ E).
Qed.

Lemma double_le_not_lt (x y : float) :
  (x <=? y)%float = true -> (y <? x)%float = false.
Proof.
  intros H. destruct (y <? x)%float eqn:E; [|reflexivity].
  rewrite (double_lt_not_ge _ _ E) in H. discriminate.
Qed.

Lemma double_lt_asym (x y : float) :
  (x <? y)%float = true -> (y <? x)%float = false.
Proof. intros H. apply double_le_not_lt. now apply double_lt_le. Qed.

(** ** [fit_cbval] *)

(** The segment [fit_cbval] picks: the one that holds [size], the last one
    for every [size] above 6, and the last one as well for every [size]
    below 0, for which the loop runs through all segments. *)
Lemma fit_cbval_segments (size : float) :
  ((0 <=? size) = true -> (size <=? 3) = true ->
   fit_cbval size = cb_line (0, 2) (3, 2.5) size)%float
  /\ ((3 <? size) = true -> (size <=? 4) = true ->
      fit_cbval size = cb_line (3, 2.5) (4, 2.85) size)%float
  /\ ((4 <? size) = true -> (size <=? 5) = true ->
      fit_cbval size = cb_line (4, 2.85) (5, 3.7) size)%float
  /\ ((5 <? size) = true -> (size <=? 6) = true ->
      fit_cbval size = cb_line (5, 3.7) (6, 5.1) size)%float
  /\ ((6 <? size) = true ->
      fit_cbval size = cb_line (6, 5.1) (7, 7.4) size)%float
  /\ ((size <? 0) = true ->
      fit_cbval size = cb_line (6, 5.1) (7, 7.4) size)%float.
Proof.
  assert (U : fit_cbval size
              = let '(p1, p2) := fit_cbval_segment size cbvals in
                cb_line p1 p2 size).
  { unfold fit_cbval, cb_line.
    destruct (fit_cbval_segment size cbvals) as [[x1 y1] [x2 y2]].
    reflexivity. }
  rewrite U. unfold cbvals. cbn [fit_cbval_segment fst snd].
  assert (T : forall a b : float,
            (a <? b)%float = true -> (b <? size)%float = true ->
            (a <? size)%float = true /\ (size <? a)%float = false).
  { intros a b Hab Hb. pose proof (double_lt_trans _ _ _ Hab Hb) as H.
    split; [exact H|now apply double_lt_asym]. }
  assert (L34 : (3 <? 4)%float = true) by reflexivity.
  assert (L45 : (4 <? 5)%float = true) by reflexivity.
  assert (L56 : (5 <? 6)%float = true) by reflexivity.
  assert (L03 : (0 <? 3)%float = true) by reflexivity.
  split; [|split; [|split; [|split; [|split]]]].
  - intros H0 H3.
    rewrite (double_le_not_lt _ _ H0), (double_le_not_lt _ _ H3). reflexivity.
  - intros H3 H4.
    rewrite H3, (double_lt_asym _ _ H3), (double_le_not_lt _ _ H4), orb_true_r.
    reflexivity.
  - intros H4 H5.
    destruct (T 3%float 4%float L34 H4) as [H3 _].
    rewrite H3, H4, (double_lt_asym _ _ H4), (double_le_not_lt _ _ H5),
      !orb_true_r.
    reflexivity.
  - intros H5 H6.
    destruct (T 4%float 5%float L45 H5) as [H4 _]. destruct (T 3%float 4%float L34 H4) as [H3 _].
    rewrite H3, H4, H5, (double_lt_asym _ _ H5), (double_le_not_lt _ _ H6),
      !orb_true_r.
    reflexivity.
  - intros H6.
    destruct (T 5%float 6%float L56 H6) as [H5 _]. destruct (T 4%float 5%float L45 H5) as [H4 _].
    destruct (T 3%float 4%float L34 H4) as [H3 _].
    rewrite H3, H4, H5, H6, !orb_true_r. reflexivity.
  - intros H0.
    pose proof (double_lt_trans size 0%float 3%float H0 L03) as H3.
    pose proof (double_lt_trans size 3%float 4%float H3 L34) as H4.
    pose proof (double_lt_trans size 4%float 5%float H4 L45) as H5.
    rewrite H0, H3, H4, H5. reflexivity.
Qed.

(** C9, as the code has it.  [fit_cbval] goes through the six control
    points, and for every double [size] it is the line through the two
    control points of one segment, evaluated in double arithmetic as
    [dy * (size - x1) / dx + y1]: the segment that holds [size] between 0
    and 6, and the last segment, through (6, 5.10) and (7, 7.40), for every
    [size] above 6, so beyond (7, 7.40) the line is continued and the result
    is not clamped.  The last segment is taken for every [size] below 0 as
    well.  [fit_cbval (3.0)] is 2.50 and [fit_cbval (5.5)] is the double
    4.40, which is also [(3.70 + 5.10) / 2].  [fit_cbval (10.0)] is the
    double that [7.40 + (10 - 7) * (7.40 - 5.10)] evaluates to; it is not
    the double 14.30 but its neighbour one unit in the last place above
    it. *)
Theorem fit_cbval_interpolates :
  (fit_cbval 0 = 2 /\ fit_cbval 3 = 2.5 /\ fit_cbval 4 = 2.85
   /\ fit_cbval 5 = 3.7 /\ fit_cbval 6 = 5.1 /\ fit_cbval 7 = 7.4)%float
  /\ (fit_cbval 5.5 = 4.4 /\ fit_cbval 5.5 = (3.70 + 5.10) / 2)%float
  /\ (fit_cbval 10 = 7.40 + (10 - 7) * (7.40 - 5.10)
      /\ fit_cbval 10 = next_up 14.3
      /\ (7.4 <? fit_cbval 10) = true)%float
  /\ (forall size : float,
        ((0 <=? size) = true -> (size <=? 3) = true ->
         fit_cbval size = cb_line (0, 2) (3, 2.5) size)
        /\ ((3 <? size) = true -> (size <=? 4) = true ->
            fit_cbval size = cb_line (3, 2.5) (4, 2.85) size)
        /\ ((4 <? size) = true -> (size <=? 5) = true ->
            fit_cbval size = cb_line (4, 2.85) (5, 3.7) size)
        /\ ((5 <? size) = true -> (size <=? 6) = true ->
            fit_cbval size = cb_line (5, 3.7) (6, 5.1) size)
        /\ ((6 <? size) = true ->
            fit_cbval size = cb_line (6, 5.1) (7, 7.4) size)
        /\ ((size <? 0) = true ->
            fit_cbval size = cb_line (6, 5.1) (7, 7.4) size))%float.
Proof.
  split; [vm_compute; repeat split|].
  split; [vm_compute; repeat split|].
  split; [vm_compute; repeat split|].
  exact fit_cbval_segments.
Qed.

(** C9, as the claim states it, fails in its last value: in the double
    arithmetic of the code [fit_cbval (10.0)] is not 14.30. *)
Lemma fit_cbval_ten_counterexample :
  (fit_cbval 10 =? 14.3)%float = false /\ fit_cbval 10 <> 14.3%float
  /\ (14.3 <? fit_cbval 10)%float = true.
Proof.
  split; [vm_compute; reflexivity|]. split; [|vm_compute; reflexivity].
  intros H. assert (E : (fit_cbval 10 =? 14.3)%float = false)
    by (vm_compute; reflexivity).
  rewrite H in E. vm_compute in E. discriminate.
Qed.

(** ** Rounding: products with a double that is at most 1/2 *)

Lemma digits2_pos_bounds (m : positive) :
  2 ^ (Zpos (digits2_pos m) - 1) <= Zpos m < 2 ^ Zpos (digits2_pos m).
Proof.
  induction m as [m IH|m IH|]; cbn [digits2_pos].
  - rewrite Pos2Z.inj_succ. replace (Z.succ (Zpos (digits2_pos m)) - 1)
      with (Zpos (digits2_pos m)) by lia.
    rewrite Z.pow_succ_r by lia.
    replace (2 ^ Zpos (digits2_pos m))
      with (2 * 2 ^ (Zpos (digits2_pos m) - 1)) in *
      by (rewrite <- Z.pow_succ_r by lia; f_equal; lia).
    lia.
  - rewrite Pos2Z.inj_succ. replace (Z.succ (Zpos (digits2_pos m)) - 1)
      with (Zpos (digits2_pos m)) by lia.
    rewrite Z.pow_succ_r by lia.
    replace (2 ^ Zpos (digits2_pos m))
      with (2 * 2 ^ (Zpos (digits2_pos m) - 1)) in *
      by (rewrite <- Z.pow_succ_r by lia; f_equal; lia).
    lia.
  - cbn. lia.
Qed.

Lemma iter_pos_nat {A} (f : A -> A) (p : positive) (x : A) :
  SpecFloat.iter_pos f p x = Nat.iter (Pos.to_nat p) f x.
Proof.
  revert x. induction p as [p IH|p IH|]; intros x; cbn [SpecFloat.iter_pos].
  - rewrite !IH. rewrite Pos2Nat.inj_xI.
    replace (S (2 * Pos.to_nat p)) with (Pos.to_nat p + (Pos.to_nat p + 1))%nat by lia.
    rewrite !Nat.iter_add. reflexivity.
  - rewrite !IH. rewrite Pos2Nat.inj_xO.
    replace (2 * Pos.to_nat p)%nat with (Pos.to_nat p + Pos.to_nat p)%nat by lia.
    rewrite Nat.iter_add. reflexivity.
  - reflexivity.
Qed.

Lemma shr_1_nonneg (m : Z) (r s : bool) :
  0 <= m ->
  shr_1 (Build_shr_record m r s) = Build_shr_record (Z.div2 m) (Z.odd m) (r || s).
Proof. intros H. destruct m as [|[p|p|]|p]; try reflexivity. lia. Qed.

Lemma mod_pow2_succ (M k : Z) :
  0 <= k ->
  M mod 2 ^ (k + 1) = M mod 2 ^ k + (if Z.testbit M k then 2 ^ k else 0).
Proof.
  intros Hk. rewrite Z.pow_add_r by lia. change (2 ^ 1) with 2.
  rewrite Z.rem_mul_r by lia.
  pose proof (Z.testbit_spec' M k Hk) as Hb.
  destruct (Z.testbit M k); cbn [Z.b2z] in Hb; rewrite <- Hb; lia.
Qed.

Lemma shr_iter (M : Z) (k : nat) :
  0 <= M ->
  Nat.iter (S k) shr_1 (Build_shr_record M false false)
  = Build_shr_record (M / 2 ^ Z.of_nat (S k)) (Z.testbit M (Z.of_nat k))
      (negb (M mod 2 ^ Z.of_nat k =? 0)).
Proof.
  intros HM. induction k as [|k IH].
  - cbn [Nat.iter]. rewrite shr_1_nonneg by assumption.
    change (Z.of_nat 1) with 1. change (Z.of_nat 0) with 0.
    rewrite Z.div2_div, Z.pow_1_r, Z.bit0_odd, Z.pow_0_r, Z.mod_1_r.
    reflexivity.
  - rewrite Nat.iter_succ, IH.
    rewrite shr_1_nonneg by (apply Z.div_pos; lia).
    f_equal.
    + rewrite Z.div2_div, Z.div_div by lia.
      replace (Z.of_nat (S (S k))) with (Z.of_nat (S k) + 1) by lia.
      rewrite (Z.pow_add_r 2 (Z.of_nat (S k)) 1) by lia. reflexivity.
    + rewrite (Z.testbit_odd M (Z.of_nat (S k))), Z.shiftr_div_pow2 by lia.
      reflexivity.
    + replace (Z.of_nat (S k)) with (Z.of_nat k + 1) by lia.
      rewrite (mod_pow2_succ M (Z.of_nat k)) by lia.
      pose proof (Z.mod_pos_bound M (2 ^ Z.of_nat k) ltac:(lia)).
      assert (0 < 2 ^ Z.of_nat k) by lia.
      destruct (Z.testbit M (Z.of_nat k)); cbn [orb].
      * symmetry. apply negb_true_iff. apply Z.eqb_neq. lia.
      * now rewrite Z.add_0_r.
Qed.


Lemma shr_round (M e : Z) (p : positive) :
  0 <= M ->
  let st := shr (Build_shr_record M false false) e (Zpos p) in
  snd st = e + Zpos p
  /\ shr_m (fst st) = M / 2 ^ Zpos p
  /\ round_nearest_even (shr_m (fst st)) (loc_of_shr_record (fst st))
     = round_shift M (Zpos p).
Proof.
  intros HM. unfold shr. cbn [fst snd]. rewrite iter_pos_nat.
  destruct (Pos2Nat.is_succ p) as [k Hk]. rewrite Hk.
  rewrite (shr_iter M k HM).
  assert (Hp : Zpos p = Z.of_nat (S k)) by lia.
  rewrite <- Hp. cbn [shr_m loc_of_shr_record].
  split; [reflexivity|]. split; [reflexivity|].
  unfold round_shift.
  replace (Z.of_nat k) with (Zpos p - 1) by lia.
  pose proof (mod_pow2_succ M (Zpos p - 1) ltac:(lia)) as Hm.
  replace (Zpos p - 1 + 1) with (Zpos p) in Hm by lia.
  pose proof (Z.mod_pos_bound M (2 ^ (Zpos p - 1)) ltac:(lia)) as Hb.
  set (h := 2 ^ (Zpos p - 1)) in *.
  set (lo := M mod h) in *.
  rewrite Hm. clear Hm.
  destruct (Z.testbit M (Zpos p - 1)); destruct (lo =? 0) eqn:El;
    cbn [negb round_nearest_even].
  - apply Z.eqb_eq in El. rewrite El, Z.add_0_l.
    rewrite Z.ltb_irrefl, Z.eqb_refl. cbn [orb andb].
    rewrite <- Z.negb_odd. now destruct (Z.odd _).
  - apply Z.eqb_neq in El.
    replace (h <? lo + h) with true by (symmetry; apply Z.ltb_lt; lia).
    reflexivity.
  - apply Z.eqb_eq in El. rewrite El, Z.add_0_l.
    replace (h <? 0) with false by (symmetry; apply Z.ltb_ge; lia).
    replace (0 =? h) with false by (symmetry; apply Z.eqb_neq; lia).
    reflexivity.
  - rewrite Z.add_0_r.
    replace (h <? lo) with false by (symmetry; apply Z.ltb_ge; lia).
    replace (lo =? h) with false by (symmetry; apply Z.eqb_neq; lia).
    reflexivity.
Qed.

Lemma round_shift_le (M n K : Z) :
  0 <= M -> 0 < n -> M <= K * 2 ^ n -> round_shift M n <= K.
Proof.
  intros HM Hn HK. unfold round_shift.
  assert (Hp : 0 < 2 ^ n) by lia.
  pose proof (Z.div_mod M (2 ^ n) ltac:(lia)) as Hdm.
  pose proof (Z.mod_pos_bound M (2 ^ n) Hp) as Hb.
  assert (Hh : 0 < 2 ^ (n - 1)) by (apply Z.pow_pos_nonneg; lia).
  set (q := M / 2 ^ n) in *. set (r := M mod 2 ^ n) in *.
  assert (Hq : q <= K) by nia.
  destruct ((2 ^ (n - 1) <? r) || ((r =? 2 ^ (n - 1)) && Z.odd q)) eqn:E;
    [|assumption].
  assert (Hr : 0 < r).
  { apply orb_true_iff in E. destruct E as [E|E].
    - apply Z.ltb_lt in E. lia.
    - apply andb_true_iff in E. destruct E as [E _]. apply Z.eqb_eq in E. lia. }
  nia.
Qed.

Lemma round_shift_zero (M n : Z) :
  0 <= M -> 0 < n -> M <= 2 ^ (n - 1) -> round_shift M n = 0.
Proof.
  intros HM Hn Hle. unfold round_shift.
  assert (Hh : 0 < 2 ^ (n - 1)) by (apply Z.pow_pos_nonneg; lia).
  assert (Hp : 2 ^ n = 2 * 2 ^ (n - 1)).
  { rewrite <- Z.pow_succ_r by lia. f_equal. lia. }
  rewrite Z.div_small, Z.mod_small by lia.
  replace (2 ^ (n - 1) <? M) with false by (symmetry; apply Z.ltb_ge; lia).
  cbn. now rewrite andb_false_r.
Qed.

Lemma round_shift_nonneg (M n : Z) : 0 <= M -> 0 <= round_shift M n.
Proof.
  intros HM. unfold round_shift.
  assert (0 <= M / 2 ^ n)
    by (apply Z_div_nonneg_nonneg; [assumption|apply Z.pow_nonneg; lia]).
  destruct (_ || _); lia.
Qed.



Lemma fexp_fexp64 (k : Z) : fexp prec emax k = fexp64 k.
Proof. reflexivity. Qed.

Lemma renormalize_spec (sx : bool) (m2 e2 : Z) :
  0 <= m2 ->
  (let '(mrs, e3) := shr_fexp prec emax m2 e2 loc_Exact in
   match shr_m mrs with
   | Z0 => S754_zero sx
   | Zpos m =>
       if Z.leb e3 (Z.sub emax prec) then S754_finite sx m e3
       else S754_infinity sx
   | _ => S754_nan
   end)
  = renormalize sx m2 e2.
Proof.
  intros Hm. unfold shr_fexp, renormalize. rewrite fexp_fexp64.
  cbn [shr_record_of_loc].
  set (n2 := fexp64 (Zdigits2 m2 + e2) - e2).
  destruct n2 as [|p|p] eqn:En.
  - reflexivity.
  - pose proof (shr_round m2 e2 p Hm) as (H1 & H2 & _).
    destruct (shr _ e2 (Zpos p)) as [mrs e3]. cbn [fst snd] in H1, H2.
    rewrite H1, H2. reflexivity.
  - reflexivity.
Qed.

Lemma binary_round_aux_shift (sx : bool) (M e : Z) :
  0 <= M -> 0 < fexp64 (Zdigits2 M + e) - e ->
  binary_round_aux prec emax sx M e loc_Exact
  = renormalize sx (round_shift M (fexp64 (Zdigits2 M + e) - e))
      (fexp64 (Zdigits2 M + e)).
Proof.
  intros HM Hn. unfold binary_round_aux. unfold shr_fexp at 1.
  rewrite fexp_fexp64. cbn [shr_record_of_loc].
  set (n := fexp64 (Zdigits2 M + e) - e) in *.
  destruct n as [|p|p] eqn:En; try lia.
  pose proof (shr_round M e p HM) as (H1 & _ & H3).
  destruct (shr _ e (Zpos p)) as [mrs e1]. cbn [fst snd] in H1, H3.
  rewrite H3, H1.
  replace (e + Zpos p) with (fexp64 (Zdigits2 M + e)) by lia.
  apply renormalize_spec. apply round_shift_nonneg. exact HM.
Qed.

Lemma round_nearest_even_range (M : Z) (lx : location) :
  M <= round_nearest_even M lx <= M + 1.
Proof.
  destruct lx as [|[]]; cbn; try lia. destruct (Z.even M); lia.
Qed.

Lemma binary_round_aux_noshift (sx : bool) (M e : Z) (lx : location) :
  0 <= M -> fexp64 (Zdigits2 M + e) - e <= 0 ->
  binary_round_aux prec emax sx M e lx
  = renormalize sx (round_nearest_even M lx) e.
Proof.
  intros HM Hn. unfold binary_round_aux. unfold shr_fexp at 1.
  rewrite fexp_fexp64.
  set (n := fexp64 (Zdigits2 M + e) - e) in *.
  assert (E : shr (shr_record_of_loc M lx) e n = (shr_record_of_loc M lx, e)).
  { destruct n; try reflexivity. lia. }
  rewrite E.
  assert (L : loc_of_shr_record (shr_record_of_loc M lx) = lx)
    by (destruct lx as [|[]]; reflexivity).
  assert (S : shr_m (shr_record_of_loc M lx) = M)
    by (destruct lx as [|[]]; reflexivity).
  rewrite L, S. apply renormalize_spec.
  pose proof (round_nearest_even_range M lx). lia.
Qed.

Lemma pow2_lt_inv (a b : Z) : 0 <= b -> 2 ^ a < 2 ^ b -> a < b.
Proof. intros Hb H. apply (Z.pow_lt_mono_r_iff 2); [lia|assumption|assumption]. Qed.

Lemma pow2_le (a b : Z) : 0 <= a <= b -> 2 ^ a <= 2 ^ b.
Proof. intros H. apply Z.pow_le_mono_r; lia. Qed.

Lemma pow2_lt (a b : Z) : 0 <= a < b -> 2 ^ a < 2 ^ b.
Proof. intros H. apply Z.pow_lt_mono_r; lia. Qed.

Lemma pow2_split (a b : Z) : 0 <= a -> 0 <= b -> 2 ^ (a + b) = 2 ^ a * 2 ^ b.
Proof. intros. apply Z.pow_add_r; assumption. Qed.

Lemma valid_finite (s : bool) (mx : positive) (ex : Z) :
  valid_binary (S754_finite s mx ex) = true ->
  -1074 <= ex <= 971 /\ Zpos mx < 2 ^ 53 /\ (-1074 < ex -> 2 ^ 52 <= Zpos mx).
Proof.
  unfold valid_binary, SpecFloat.valid_binary, bounded, canonical_mantissa.
  rewrite fexp_fexp64. intros H. apply andb_true_iff in H.
  destruct H as [H1 H2]. apply Z.eqb_eq in H1. apply Z.leb_le in H2.
  change (emax - prec) with 971 in H2.
  pose proof (digits2_pos_bounds mx) as Hd.
  set (d := Zpos (digits2_pos mx)) in *. unfold fexp64 in H1.
  assert (Hd0 : 0 < d) by (unfold d; lia).
  split; [lia|]. split.
  - assert (d <= 53) by lia.
    pose proof (pow2_le d 53 ltac:(lia)). lia.
  - intros Hex. assert (E : d = 53) by lia. rewrite E in Hd.
    change (53 - 1) with 52 in Hd. lia.
Qed.

Lemma Zdigits2_bounds (m : Z) :
  0 < m -> 2 ^ (Zdigits2 m - 1) <= m < 2 ^ Zdigits2 m.
Proof.
  destruct m as [|p|p]; try lia. intros _. apply digits2_pos_bounds.
Qed.

(** What the second stage leaves of a mantissa below [2^(53 + T - e2)]. *)
Lemma renormalize_bound (m2 e2 T : Z) :
  0 <= m2 -> -1074 <= e2 <= T -> T <= 971 -> m2 < 2 ^ (53 + T - e2) ->
  renormalize false m2 e2 = S754_zero false
  \/ exists m3 e3,
       renormalize false m2 e2 = S754_finite false m3 e3
       /\ e2 <= e3 <= T /\ Zpos m3 * 2 ^ (e3 - e2) <= m2.
Proof.
  intros Hm He HT Hlt. unfold renormalize.
  destruct (Z.eq_dec m2 0) as [->|Hnz].
  { left. cbn [Zdigits2]. unfold fexp64.
    replace (0 <? Z.max (0 + e2 - 53) (-1074) - e2) with false
      by (symmetry; apply Z.ltb_ge; lia).
    reflexivity. }
  pose proof (Zdigits2_bounds m2 ltac:(lia)) as Hd.
  set (D := Zdigits2 m2) in *.
  assert (HD : D - 1 < 53 + T - e2).
  { apply pow2_lt_inv; [lia|]. lia. }
  unfold fexp64.
  destruct (0 <? Z.max (D + e2 - 53) (-1074) - e2) eqn:En.
  - apply Z.ltb_lt in En.
    set (n2 := Z.max (D + e2 - 53) (-1074) - e2) in *.
    pose proof (Z.mul_div_le m2 (2 ^ n2) ltac:(lia)) as Hmd.
    destruct (m2 / 2 ^ n2) as [|m3|m3] eqn:Em3.
    + now left.
    + right. exists m3, (e2 + n2).
      replace (e2 + n2 <=? 971) with true by (symmetry; apply Z.leb_le; lia).
      split; [reflexivity|]. split; [lia|].
      replace (e2 + n2 - e2) with n2 by lia. lia.
    + exfalso. pose proof (Z.div_pos m2 (2 ^ n2) ltac:(lia) ltac:(lia)). lia.
  - apply Z.ltb_ge in En. destruct m2 as [|m3|m3]; try lia.
    right. exists m3, e2.
    replace (e2 <=? 971) with true by (symmetry; apply Z.leb_le; lia).
    split; [reflexivity|]. split; [lia|].
    rewrite Z.sub_diag. lia.
Qed.

Lemma Zdigits2_pos (m : Z) : 0 < m -> 0 < Zdigits2 m.
Proof. destruct m; cbn; lia. Qed.

(** One multiplication by a double that is at most 1/2. *)
Lemma SFmul_half_step (mx mb : positive) (ex eb : Z) :
  valid_binary (S754_finite false mx ex) = true ->
  eb <= -53 -> Zpos mb <= 2 ^ (-1 - eb) ->
  SFmul prec emax (S754_finite false mx ex) (S754_finite false mb eb)
  = S754_zero false
  \/ exists m3 e3,
       SFmul prec emax (S754_finite false mx ex) (S754_finite false mb eb)
       = S754_finite false m3 e3
       /\ -1074 <= e3
       /\ ((-1074 < ex /\ e3 <= ex - 1)
           \/ (ex = -1074 /\ e3 = -1074 /\ 2 <= Zpos mx
               /\ Zpos m3 <= (Zpos mx + 1) / 2)).
Proof.
  intros Hv Heb Hmb. cbn [SFmul xorb].
  destruct (valid_finite _ _ _ Hv) as (Hex & Hmx & Hnorm).
  rewrite Pos2Z.inj_mul.
  set (U := -1 - eb) in *. assert (HU : 52 <= U) by lia.
  set (M := Zpos mx * Zpos mb). set (e := ex + eb).
  assert (HM0 : 0 < M) by lia.
  assert (H2U : 0 < 2 ^ U) by lia.
  assert (HMU : M <= Zpos mx * 2 ^ U) by nia.
  assert (HM53 : M <= (2 ^ 53 - 1) * 2 ^ U) by nia.
  assert (Hp : 2 ^ (53 + U) = 2 ^ 53 * 2 ^ U) by (apply pow2_split; lia).
  pose proof (Zdigits2_bounds M HM0) as Hd.
  pose proof (Zdigits2_pos M HM0) as Hd0.
  set (d := Zdigits2 M) in *.
  assert (Hd1 : d <= 53 + U).
  { assert (d - 1 < 53 + U); [apply pow2_lt_inv; lia|lia]. }
  destruct (Z.eq_dec ex (-1074)) as [Eex|Nex].
  - assert (Hn : fexp64 (d + e) - e = U + 1) by (unfold fexp64, e; lia).
    assert (Hf : fexp64 (d + e) = -1074) by (unfold fexp64, e; lia).
    rewrite binary_round_aux_shift by (fold d; lia).
    fold d. rewrite Hn, Hf.
    destruct (Z.eq_dec (Zpos mx) 1) as [E1|N1].
    + left. rewrite round_shift_zero; [reflexivity|lia|lia|].
      replace (U + 1 - 1) with U by lia. lia.
    + set (K := (Zpos mx + 1) / 2).
      pose proof (Z.div_mod (Zpos mx + 1) 2 ltac:(lia)) as HK.
      pose proof (Z.mod_pos_bound (Zpos mx + 1) 2 ltac:(lia)) as HKb.
      fold K in HK.
      assert (Hpow : 2 ^ (U + 1) = 2 * 2 ^ U).
      { rewrite Z.pow_add_r by lia. lia. }
      pose proof (round_shift_le M (U + 1) K ltac:(lia) ltac:(lia)
                    ltac:(rewrite Hpow; nia)) as Hle.
      pose proof (round_shift_nonneg M (U + 1) ltac:(lia)) as H0.
      set (m2 := round_shift M (U + 1)) in *.
      assert (Hm2 : m2 < 2 ^ (53 + -1074 - -1074)).
      { replace (53 + -1074 - -1074) with 53 by lia. lia. }
      destruct (renormalize_bound m2 (-1074) (-1074) H0 ltac:(lia) ltac:(lia)
                  Hm2)
        as [Hz|(m3 & e3 & Hr & He3 & Hm3)].
      * now left.
      * right. exists m3, e3. split; [assumption|]. split; [lia|].
        right. assert (e3 = -1074) by lia. subst e3.
        rewrite Z.sub_diag, Z.pow_0_r, Z.mul_1_r in Hm3. lia.
  - assert (Hmx52 : 2 ^ 52 <= Zpos mx) by (apply Hnorm; lia).
    destruct (Z_lt_le_dec 0 (fexp64 (d + e) - e)) as [Hn|Hn].
    + rewrite binary_round_aux_shift by (fold d; lia). fold d.
      set (n := fexp64 (d + e) - e) in *.
      assert (HnU : n <= U) by (unfold n, fexp64, e; lia).
      assert (Hsplit : 2 ^ U = 2 ^ (U - n) * 2 ^ n).
      { rewrite <- pow2_split by lia. f_equal. lia. }
      assert (H2n : 0 < 2 ^ n) by lia.
      assert (H2Un : 0 < 2 ^ (U - n)) by lia.
      pose proof (round_shift_le M n ((2 ^ 53 - 1) * 2 ^ (U - n))
                    ltac:(lia) Hn ltac:(nia)) as Hle.
      pose proof (round_shift_nonneg M n ltac:(lia)) as H0.
      set (m2 := round_shift M n) in *.
      assert (He2 : fexp64 (d + e) = e + n) by (unfold n; lia).
      rewrite He2.
      assert (Hlo : -1074 <= e + n) by (unfold fexp64 in He2; lia).
      assert (Hm2 : m2 < 2 ^ (53 + (ex - 1) - (e + n))).
      { replace (53 + (ex - 1) - (e + n)) with (53 + (U - n))
          by (unfold e, U; lia).
        rewrite (pow2_split 53 (U - n)) by lia. nia. }
      destruct (renormalize_bound m2 (e + n) (ex - 1) H0
                  ltac:(unfold e, U in *; lia) ltac:(lia) Hm2)
        as [Hz|(m3 & e3 & Hr & He3 & Hm3)].
      * now left.
      * right. exists m3, e3. split; [assumption|].
        split; [lia|]. left. lia.
    + rewrite binary_round_aux_noshift by (fold d; lia).
      cbn [round_nearest_even].
      assert (He : -1074 <= e) by (unfold fexp64 in Hn; lia).
      assert (HMe : M < 2 ^ (53 + (ex - 1) - e)).
      { replace (53 + (ex - 1) - e) with (53 + U) by (unfold e, U; lia).
        lia. }
      destruct (renormalize_bound M e (ex - 1) ltac:(lia)
                  ltac:(unfold e, U in *; lia) ltac:(lia) HMe)
        as [Hz|(m3 & e3 & Hr & He3 & Hm3)].
      * now left.
      * right. exists m3, e3. split; [assumption|]. split; [lia|]. left. lia.
Qed.

Lemma Zdigits2_le (m k : Z) : 0 < m -> 0 <= k -> m < 2 ^ k -> Zdigits2 m <= k.
Proof.
  intros Hm Hk Hlt. pose proof (Zdigits2_bounds m Hm) as Hd.
  assert (Zdigits2 m - 1 < k); [apply pow2_lt_inv; lia|lia].
Qed.

Lemma new_location_zero (d : Z) : new_location d 0 = loc_Exact.
Proof.
  unfold new_location, new_location_even, new_location_odd.
  now destruct (Z.even d).
Qed.

(** The inverse of a double that is at least 2 is at most 1/2. *)
Lemma SFdiv_one_half (my : positive) (ey : Z) :
  valid_binary (S754_finite false my ey) = true ->
  -51 <= ey ->
  SFdiv prec emax (S754_finite false 4503599627370496 (-52))
    (S754_finite false my ey) = S754_zero false
  \/ exists mb eb,
       SFdiv prec emax (S754_finite false 4503599627370496 (-52))
         (S754_finite false my ey) = S754_finite false mb eb
       /\ eb <= -53 /\ Zpos mb <= 2 ^ (-1 - eb).
Proof.
  intros Hv Hey.
  destruct (valid_finite _ _ _ Hv) as (Hex & Hmy & Hnorm).
  assert (Hmy52 : 2 ^ 52 <= Zpos my) by (apply Hnorm; lia).
  cbn [SFdiv xorb]. unfold SFdiv_core_binary.
  change (Zdigits2 4503599627370496) with 53.
  assert (Hd2 : Zdigits2 (Zpos my) = 53).
  { pose proof (Zdigits2_bounds (Zpos my) ltac:(lia)) as Hd.
    pose proof (Zdigits2_le (Zpos my) 53 ltac:(lia) ltac:(lia) Hmy).
    assert (52 < Zdigits2 (Zpos my)); [|lia].
    apply pow2_lt_inv; [|lia]. pose proof (Zdigits2_pos (Zpos my)). lia. }
  rewrite Hd2, fexp_fexp64.
  set (t := -52 - ey).
  replace (53 + -52 - (53 + ey)) with t by (unfold t; lia).
  assert (He' : Z.min (fexp64 t) t = Z.max (t - 53) (-1074)).
  { unfold fexp64, t. lia. }
  rewrite He'. set (e' := Z.max (t - 53) (-1074)).
  set (s := t - e').
  assert (Hs : 51 <= s <= 53) by (unfold s, e', t; lia).
  assert (Hm' : match s with
                | 0 => 4503599627370496
                | Zpos _ => Z.shiftl 4503599627370496 s
                | Zneg _ => 0
                end = 2 ^ 52 * 2 ^ s).
  { destruct s as [|p|p] eqn:Es; try lia. rewrite Z.shiftl_mul_pow2 by lia.
    reflexivity. }
  rewrite Hm'. set (m' := 2 ^ 52 * 2 ^ s).
  pose proof (Z.div_mod m' (Zpos my) ltac:(lia)) as Hdm.
  pose proof (Z.mod_pos_bound m' (Zpos my) ltac:(lia)) as Hmb.
  unfold Z.div, Z.modulo in Hdm, Hmb.
  destruct (Z.div_eucl m' (Zpos my)) as [q r]. cbn [fst snd] in Hdm, Hmb.
  assert (H2s : 0 < 2 ^ s) by lia.
  assert (Hq0 : 0 <= q) by nia.
  assert (Hq : q <= 2 ^ s) by (unfold m' in Hdm; nia).
  (* the first stage *)
  assert (Hstage : exists m2 e2,
            binary_round_aux prec emax false q e' (new_location (Zpos my) r)
            = renormalize false m2 e2
            /\ 0 <= m2 /\ e' <= e2 <= Z.max (t - 52) (-1074)
            /\ m2 * 2 ^ (e2 - e') <= 2 ^ s).
  { destruct (Z.eq_dec q (2 ^ s)) as [Eq|Nq].
    - assert (Hr : r = 0) by (unfold m' in Hdm; nia).
      rewrite Hr, new_location_zero.
      assert (Hdq : Zdigits2 q = s + 1).
      { pose proof (Zdigits2_bounds q ltac:(lia)) as Hd.
        pose proof (Zdigits2_pos q ltac:(lia)).
        assert (s < Zdigits2 q) by (apply pow2_lt_inv; lia).
        assert (Zdigits2 q - 1 < s + 1).
        { apply pow2_lt_inv; [lia|]. rewrite (pow2_split s 1) by lia. lia. }
        lia. }
      destruct (Z_lt_le_dec 0 (fexp64 (Zdigits2 q + e') - e')) as [Hn|Hn].
      + rewrite binary_round_aux_shift by lia.
        set (n := fexp64 (Zdigits2 q + e') - e') in *.
        assert (Hn1 : n = 1) by (unfold n, fexp64, e', s, t in *; lia).
        exists (round_shift q n), (fexp64 (Zdigits2 q + e')).
        split; [reflexivity|].
        split; [apply round_shift_nonneg; lia|].
        split; [unfold n, fexp64, e', s, t in *; lia|].
        replace (fexp64 (Zdigits2 q + e') - e') with n by reflexivity.
        pose proof (round_shift_le q n (2 ^ (s - n)) ltac:(lia) ltac:(lia)) as Hle.
        assert (Hsp : 2 ^ s = 2 ^ (s - n) * 2 ^ n).
        { rewrite <- pow2_split by lia. f_equal. lia. }
        specialize (Hle ltac:(lia)).
        assert (0 < 2 ^ n) by lia. rewrite Hsp. nia.
      + rewrite binary_round_aux_noshift by lia. cbn [round_nearest_even].
        exists q, e'. split; [reflexivity|]. split; [lia|].
        split; [unfold e', t; lia|].
        rewrite Z.sub_diag, Z.pow_0_r. lia.
    - assert (Hq' : q < 2 ^ s) by lia.
      assert (Hdq : fexp64 (Zdigits2 q + e') - e' <= 0).
      { destruct (Z.eq_dec q 0) as [->|N0].
        - cbn [Zdigits2]. unfold fexp64, e', t. lia.
        - pose proof (Zdigits2_le q s ltac:(lia) ltac:(lia) Hq').
          unfold fexp64, e', s, t in *. lia. }
      rewrite binary_round_aux_noshift by lia.
      pose proof (round_nearest_even_range q (new_location (Zpos my) r)).
      eexists _, e'. split; [reflexivity|]. split; [lia|].
      split; [unfold e', t; lia|].
      rewrite Z.sub_diag, Z.pow_0_r. lia. }
  destruct Hstage as (m2 & e2 & -> & Hm2 & He2 & Hval).
  set (T := Z.max (t - 52) (-1074)) in *.
  assert (Ht : t <= -1) by (unfold t; lia).
  assert (HTt : T <= t) by (unfold T, t; lia).
  assert (Hsp : 2 ^ s = 2 ^ (t - e2) * 2 ^ (e2 - e')).
  { rewrite <- pow2_split by (unfold e', s in *; lia). f_equal.
    unfold s. lia. }
  assert (Hpos : 0 < 2 ^ (e2 - e')) by (apply Z.pow_pos_nonneg; lia).
  assert (Hm2' : m2 <= 2 ^ (t - e2)) by nia.
  assert (Hlt : m2 < 2 ^ (53 + T - e2)).
  { assert (2 ^ (t - e2) < 2 ^ (53 + T - e2)); [|lia].
    apply pow2_lt. unfold T, t in *. lia. }
  destruct (renormalize_bound m2 e2 T Hm2 ltac:(unfold e' in *; lia)
              ltac:(unfold T, t; lia) Hlt)
    as [Hz|(m3 & e3 & Hr & He3 & Hm3)].
  - now left.
  - right. exists m3, e3. split; [assumption|].
    split; [unfold T, t in *; lia|].
    assert (Hsp2 : 2 ^ (t - e2) = 2 ^ (t - e3) * 2 ^ (e3 - e2)).
    { rewrite <- pow2_split by lia. f_equal. lia. }
    assert (Hpos2 : 0 < 2 ^ (e3 - e2)) by (apply Z.pow_pos_nonneg; lia).
    assert (Zpos m3 <= 2 ^ (t - e3)) by nia.
    pose proof (pow2_le (t - e3) (-1 - e3) ltac:(lia)). lia.
Qed.



Lemma inverse_half (cb : float) :
  (2 <=? cb)%float = true -> half_bound (Prim2SF (1 / cb)).
Proof.
  intros H. rewrite FloatAxioms.leb_spec in H. rewrite FloatAxioms.div_spec.
  pose proof (Prim2SF_valid cb) as Hv.
  change (Prim2SF 1) with (S754_finite false 4503599627370496 (-52)).
  change (Prim2SF 2) with (S754_finite false 4503599627370496 (-51)) in H.
  unfold SFleb in H.
  destruct (Prim2SF cb) as [s|s| |s my ey]; unfold SFcompare in H;
    try discriminate.
  - destruct s; [discriminate|]. now left.
  - destruct s; [discriminate|].
    assert (Hey : -51 <= ey).
    { destruct (Z.compare_spec (-51) ey) as [E|E|E]; try lia; discriminate. }
    destruct (SFdiv_one_half my ey Hv Hey) as [Hz|Hf]; [now left|now right].
Qed.

Lemma sf_below_mul (j : Z) (x b : float) :
  0 <= j -> sf_below (j + 1) (Prim2SF x) -> half_bound (Prim2SF b) ->
  sf_below j (Prim2SF (x * b)).
Proof.
  intros Hj Hx Hb. rewrite FloatAxioms.mul_spec.
  pose proof (Prim2SF_valid x) as Hvx.
  pose proof (Prim2SF_valid (x * b)) as Hvr. rewrite FloatAxioms.mul_spec in Hvr.
  unfold SF64mul in *.
  destruct (Prim2SF x) as [[|]|s| |[|] mx ex]; cbn [sf_below] in Hx; try tauto.
  - destruct Hb as [->|(mb & eb & -> & _)]; exact I.
  - destruct Hb as [Eb|(mb & eb & Eb & Heb & Hmb)]; rewrite Eb in *; [exact I|].
    destruct (SFmul_half_step mx mb ex eb Hvx Heb Hmb)
      as [->|(m3 & e3 & E & He3 & Hstep)]; [exact I|].
    rewrite E in Hvr |- *. cbn [sf_below].
    destruct (valid_finite _ _ _ Hvr) as (_ & Hm3 & _).
    destruct Hstep as [[Hex Hlt]|(-> & -> & Hmx & Hm3')].
    + destruct Hx as [[-> _]|[_ Hx]]; [lia|].
      destruct (Z.eq_dec e3 (-1074)) as [->|Hne]; [left|right; lia].
      split; [reflexivity|].
      pose proof (pow2_le 53 j ltac:(lia)). lia.
    + left. split; [reflexivity|].
      destruct Hx as [[_ Hx]|[Hx _]]; [|lia].
      rewrite (pow2_split j 1) in Hx by lia. change (2 ^ 1) with 2 in Hx.
      assert ((Zpos mx + 1) / 2 < 2 ^ j + 1); [|lia].
      apply Z.div_lt_upper_bound; lia.
Qed.

Lemma sf_below_zero (x b : float) :
  sf_below 0 (Prim2SF x) -> half_bound (Prim2SF b) ->
  Prim2SF (x * b) = S754_zero false.
Proof.
  intros Hx Hb. rewrite FloatAxioms.mul_spec. unfold SF64mul.
  pose proof (Prim2SF_valid x) as Hvx.
  destruct (Prim2SF x) as [[|]|s| |[|] mx ex]; cbn [sf_below] in Hx; try tauto.
  - destruct Hb as [->|(mb & eb & -> & _)]; reflexivity.
  - destruct Hb as [->|(mb & eb & -> & Heb & Hmb)]; [reflexivity|].
    destruct (SFmul_half_step mx mb ex eb Hvx Heb Hmb)
      as [->|(m3 & e3 & E & He3 & Hstep)]; [reflexivity|].
    change (2 ^ 0) with 1 in Hx. lia.
Qed.

Lemma sf_below_weaken (j j' : Z) (x : spec_float) :
  0 <= j <= j' -> sf_below j x -> sf_below j' x.
Proof.
  intros Hj. destruct x as [[|]|s| |[|] m e]; cbn [sf_below]; try tauto.
  intros [[-> H]|[H1 H2]]; [left|right; lia].
  split; [reflexivity|]. pose proof (pow2_le j j' Hj). lia.
Qed.

Lemma double_zero_eqb (x : float) :
  Prim2SF x = S754_zero false -> (x =? 0)%float = true.
Proof. intros H. rewrite FloatAxioms.eqb_spec, H. reflexivity. Qed.

(** A value the loop goes on with is positive, and its product with the
    base is smaller. *)
Lemma sf_below_decreases (j : Z) (x b : float) :
  sf_below j (Prim2SF x) -> half_bound (Prim2SF b) ->
  (x =? 0)%float = false ->
  (x * b <? x)%float = true /\ (0 <? x)%float = true.
Proof.
  intros Hx Hb Hnz. rewrite !FloatAxioms.ltb_spec, FloatAxioms.mul_spec. rewrite FloatAxioms.eqb_spec in Hnz.
  unfold SF64mul.
  pose proof (Prim2SF_valid x) as Hvx.
  change (Prim2SF 0) with (S754_zero false) in *.
  destruct (Prim2SF x) as [[|]|s| |[|] mx ex]; cbn [sf_below] in Hx; try tauto.
  - discriminate.
  - split; [|reflexivity].
    destruct Hb as [->|(mb & eb & -> & Heb & Hmb)]; [reflexivity|].
    destruct (SFmul_half_step mx mb ex eb Hvx Heb Hmb)
      as [->|(m3 & e3 & -> & He3 & Hstep)]; [reflexivity|].
    unfold SFltb, SFcompare.
    destruct Hstep as [[Hex Hlt]|(-> & -> & Hmx & Hm3)].
    + assert (E : (e3 ?= ex) = Lt) by (apply Z.compare_lt_iff; lia).
      now rewrite E.
    + rewrite Z.compare_refl.
      assert (Hlt : (Zpos m3 < Zpos mx)).
      { assert ((Zpos mx + 1) / 2 < Zpos mx); [|lia].
        apply Z.div_lt_upper_bound; lia. }
      assert (E : Pos.compare_cont Eq m3 mx = Lt).
      { change (Pos.compare_cont Eq m3 mx) with (Pos.compare m3 mx).
        apply Pos.compare_lt_iff. lia. }
      unfold Pos.compare_cont in E |- *. now rewrite E.
Qed.

(** ** [init_score_table] *)

Lemma score_cb_odd (walks : Z) (size : float) :
  Z.odd walks = true -> score_cb walks size = fit_cbval size.
Proof.
  intros H. unfold score_cb. rewrite land_1_even, <- Z.negb_odd, H. reflexivity.
Qed.

Lemma score_cb_even (walks : Z) (size : float) :
  Z.even walks = true -> score_cb walks size = 2%float.
Proof.
  intros H. unfold score_cb. rewrite land_1_even, H. reflexivity.
Qed.

Lemma count_exponents_more (fuel fuel' : nat) (next base : float) (e e' : Z) :
  (fuel <= fuel')%nat ->
  count_exponents fuel next base e = Some e' ->
  count_exponents fuel' next base e = Some e'.
Proof.
  revert fuel' next e. induction fuel as [|fuel IH]; intros fuel' next e Hle H.
  - discriminate.
  - destruct fuel' as [|fuel']; [lia|]. cbn in *.
    destruct (next =? 0)%float; [assumption|].
    apply IH; [lia|assumption].
Qed.

Lemma fill_table_more (fuel fuel' : nat) (next base eps : float)
    (t : list float) (r : list float * float) :
  (fuel <= fuel')%nat ->
  fill_table fuel next base eps t = Some r ->
  fill_table fuel' next base eps t = Some r.
Proof.
  revert fuel' next eps t. induction fuel as [|fuel IH]; intros fuel' next eps t Hle H.
  - discriminate.
  - destruct fuel' as [|fuel']; [lia|]. cbn in *.
    destruct (next =? 0)%float; [assumption|].
    apply IH; [lia|assumption].
Qed.

(** The two loops of [init_score_table] go through the same values. *)
Lemma score_loops (fuel : nat) (next base eps : float) (t : list float)
    (e e' : Z) (r : list float * float) :
  0 <= e < 2 ^ 32 ->
  count_exponents fuel next base e = Some e' ->
  fill_table fuel next base eps t = Some r ->
  exists added,
    r = (t ++ added, default eps (last added))
    /\ geometric base next added
    /\ (geometric_end base next added =? 0)%float = true
    /\ e' = u32 (e + Z.of_nat (length added)).
Proof.
  revert next eps t e. induction fuel as [|fuel IH]; intros next eps t e He Hc Hf.
  - discriminate.
  - cbn in Hc, Hf. destruct (next =? 0)%float eqn:Hz.
    + injection Hc as <-. injection Hf as <-. exists [].
      rewrite app_nil_r. cbn. rewrite Z.add_0_r, u32_small by lia. auto.
    + destruct (IH _ _ _ _ (u32_range (e + 1)) Hc Hf)
        as (added & -> & Hg & Hend & ->).
      exists (next :: added). rewrite <- app_assoc. cbn [app].
      split; [f_equal|].
      { destruct added as [|y added] using rev_ind; [reflexivity|].
        rewrite app_comm_cons, !last_snoc. reflexivity. }
      split; [cbn; auto|]. split; [assumption|].
      rewrite u32_succ_idemp. f_equal. cbn [length]. lia.
Qed.

Lemma geometric_lookup (base x : float) (l : list float) (i : nat) (y : float) :
  geometric base x l -> l !! i = Some y ->
  y = Nat.iter i (fun a => (a * base)%float) x /\ (y =? 0)%float = false.
Proof.
  revert x i. induction l as [|z l IH]; intros x i Hg Hi; [discriminate|].
  destruct Hg as (-> & Hx & Hg). destruct i as [|i].
  - injection Hi as <-. auto.
  - cbn in Hi. destruct (IH _ _ Hg Hi) as [-> ?]. split; [|assumption].
    now rewrite Nat.iter_succ_r.
Qed.

Lemma iter_pow_iter (base : float) (n : nat) :
  Nat.iter n (fun a => (a * base)%float) 1%float = iter_pow base n.
Proof.
  induction n as [|n IH]; [reflexivity|].
  rewrite Nat.iter_succ, IH. reflexivity.
Qed.

Lemma geometric_end_iter (base x : float) (l : list float) :
  geometric_end base x l = Nat.iter (length l) (fun a => (a * base)%float) x.
Proof.
  revert x. induction l as [|y l IH]; intros x; [reflexivity|].
  cbn [geometric_end length]. now rewrite IH, Nat.iter_succ_r.
Qed.

(** What [init_score_table] leaves in the walker. *)
Lemma init_score_table_result (fuel : nat) (w w' : walker) :
  init_score_table fuel w = Some w' ->
  let base := (1 / score_cb (walks (stats (solver w))) (size w))%float in
  exists t eps,
    w' = set_score_table t (u32 (Z.of_nat (length t))) eps w
    /\ geometric base 1%float t
    /\ t <> []
    /\ last t = Some eps
    /\ (iter_pow base (length t) =? 0)%float = true.
Proof.
  intros H base. unfold init_score_table in H. fold base in H.
  destruct (count_exponents fuel 1 base 0) as [e|] eqn:Hc; [|discriminate].
  destruct (fill_table fuel 1 base 1 []) as [[t eps]|] eqn:Hf; [|discriminate].
  injection H as <-.
  destruct (score_loops _ _ _ _ _ 0 _ _ ltac:(lia) Hc Hf)
    as (added & Hr & Hg & Hend & ->).
  cbn in Hr. injection Hr as -> ->. exists added, (default 1%float (last added)).
  rewrite Z.add_0_l. split; [reflexivity|]. split; [assumption|].
  rewrite geometric_end_iter, iter_pow_iter in Hend.
  assert (Hne : added <> []).
  { intros ->. cbn in Hend. vm_compute in Hend. discriminate. }
  split; [assumption|]. split; [|assumption].
  destruct added as [|y added] using rev_ind; [congruence|].
  now rewrite last_snoc.
Qed.

(** With the break multiplier 2.0 both loops end after 1075 rounds, at the
    smallest positive double. *)
Lemma score_loops_half :
  exists t eps,
    count_exponents 1100 1 (1 / 2) 0 = Some 1075
    /\ fill_table 1100 1 (1 / 2) 1 [] = Some (t, eps)
    /\ length t = 1075%nat
    /\ eps = 0x1p-1074%float
    /\ last t = Some eps
    /\ decreasing t = true.
Proof.
  eexists _, _.
  split; [vm_compute; reflexivity|].
  split; [vm_compute; reflexivity|].
  split; [vm_compute; reflexivity|].
  split; [vm_compute; reflexivity|].
  split; vm_compute; reflexivity.
Qed.

Lemma init_score_table_half (fuel : nat) (w w' : walker) (t : list float)
    (eps : float) (e : Z) :
  count_exponents 1100 1 (1 / 2) 0 = Some e ->
  fill_table 1100 1 (1 / 2) 1 [] = Some (t, eps) ->
  Z.even (walks (stats (solver w))) = true ->
  init_score_table fuel w = Some w' ->
  w' = set_score_table t e eps w.
Proof.
  intros Hc Hf Hev H. unfold init_score_table in H.
  rewrite (score_cb_even _ _ Hev) in H.
  destruct (count_exponents fuel _ _ _) as [e1|] eqn:Hc1; [|discriminate].
  destruct (fill_table fuel _ _ _ _) as [[t1 eps1]|] eqn:Hf1; [|discriminate].
  injection H as <-.
  destruct (Nat.le_gt_cases fuel 1100) as [Hle|Hgt].
  - rewrite (count_exponents_more _ _ _ _ _ _ Hle Hc1) in Hc.
    rewrite (fill_table_more _ _ _ _ _ _ _ Hle Hf1) in Hf.
    congruence.
  - assert (Hle : (1100 <= fuel)%nat) by (apply Nat.lt_le_incl; exact Hgt).
    rewrite (count_exponents_more _ _ _ _ _ _ Hle Hc) in Hc1.
    rewrite (fill_table_more _ _ _ _ _ _ _ Hle Hf) in Hf1.
    congruence.
Qed.

Lemma init_score_table_even (fuel : nat) (w w' : walker) :
  Z.even (walks (stats (solver w))) = true ->
  init_score_table fuel w = Some w' ->
  exponents w' = 1075
  /\ length (table w') = 1075%nat
  /\ epsilon w' = 0x1p-1074%float
  /\ last (table w') = Some (epsilon w')
  /\ decreasing (table w') = true.
Proof.
  intros Hev H.
  destruct score_loops_half as (t & eps & Hc & Hf & Hlen & Heps & Hlast & Hdec).
  rewrite (init_score_table_half _ _ _ _ _ _ Hc Hf Hev H). cbn. auto.
Qed.

Lemma init_score_table_even_runs (w : walker) :
  Z.even (walks (stats (solver w))) = true ->
  exists w', init_score_table 1100 w = Some w'.
Proof.
  intros Hev.
  destruct score_loops_half as (t & eps & Hc & Hf & _).
  unfold init_score_table. rewrite (score_cb_even _ _ Hev), Hc, Hf. eauto.
Qed.

(** More fuel does not change what [init_score_table] returns. *)
Lemma init_score_table_more (fuel fuel' : nat) (w w' : walker) :
  (fuel <= fuel')%nat ->
  init_score_table fuel w = Some w' -> init_score_table fuel' w = Some w'.
Proof.
  intros Hle H. unfold init_score_table in *.
  destruct (count_exponents fuel _ _ _) as [e|] eqn:Hc; [|discriminate].
  destruct (fill_table fuel _ _ _ _) as [[t eps]|] eqn:Hf; [|discriminate].
  rewrite (count_exponents_more _ _ _ _ _ _ Hle Hc).
  rewrite (fill_table_more _ _ _ _ _ _ _ Hle Hf). assumption.
Qed.

Lemma init_score_table_fuel (fuel fuel' : nat) (w w' w'' : walker) :
  init_score_table fuel w = Some w' -> init_score_table fuel' w = Some w'' ->
  w'' = w'.
Proof.
  intros H H'. destruct (Nat.le_gt_cases fuel fuel') as [Hle|Hgt].
  - rewrite (init_score_table_more _ _ _ _ Hle H) in H'. congruence.
  - assert (Hle : (fuel' <= fuel)%nat) by (apply Nat.lt_le_incl; exact Hgt).
    rewrite (init_score_table_more _ _ _ _ Hle H') in H. congruence.
Qed.

(** The loops end as soon as a power is zero. *)
Lemma count_exponents_runs (k fuel : nat) (next base : float) (e : Z) :
  (Nat.iter k (fun a => (a * base)%float) next =? 0)%float = true ->
  (k < fuel)%nat ->
  exists e', count_exponents fuel next base e = Some e'.
Proof.
  revert fuel next e. induction k as [|k IH]; intros fuel next e Hz Hk.
  - destruct fuel as [|fuel]; [inversion Hk|]. cbn in *. rewrite Hz. eauto.
  - destruct fuel as [|fuel]; [inversion Hk|]. cbn [count_exponents].
    destruct (next =? 0)%float; [eauto|].
    apply IH; [|now apply Nat.succ_lt_mono].
    rewrite Nat.iter_succ_r in Hz. exact Hz.
Qed.

Lemma fill_table_runs (k fuel : nat) (next base eps : float) (t : list float) :
  (Nat.iter k (fun a => (a * base)%float) next =? 0)%float = true ->
  (k < fuel)%nat ->
  exists r, fill_table fuel next base eps t = Some r.
Proof.
  revert fuel next eps t. induction k as [|k IH]; intros fuel next eps t Hz Hk.
  - destruct fuel as [|fuel]; [inversion Hk|]. cbn in *. rewrite Hz. eauto.
  - destruct fuel as [|fuel]; [inversion Hk|]. cbn [fill_table].
    destruct (next =? 0)%float; [eauto|].
    apply IH; [|now apply Nat.succ_lt_mono].
    rewrite Nat.iter_succ_r in Hz. exact Hz.
Qed.

(** With a base of at most 1/2 the power [i] is at most [2^-i], so that
    the power 1076 is zero. *)
Lemma iter_pow_below (base : float) (i : nat) :
  half_bound (Prim2SF base) -> (i <= 1075)%nat ->
  sf_below (1075 - Z.of_nat i) (Prim2SF (iter_pow base i)).
Proof.
  intros Hb. induction i as [|i IH]; intros Hi.
  - change (Prim2SF (iter_pow base 0))
      with (S754_finite false 4503599627370496 (-52)).
    cbn [sf_below]. right. cbn. split; [reflexivity|]. discriminate.
  - cbn [iter_pow]. apply sf_below_mul; [apply Zle_minus_le_0| |assumption].
    + apply (inj_le (S i) 1075), Hi.
    + replace (1075 - Z.of_nat (S i) + 1) with (1075 - Z.of_nat i).
      * apply IH. apply Nat.lt_le_incl, Hi.
      * rewrite Nat2Z.inj_succ. unfold Z.succ. ring.
Qed.

Lemma iter_pow_end (base : float) :
  half_bound (Prim2SF base) -> (iter_pow base (S 1075) =? 0)%float = true.
Proof.
  intros Hb. apply double_zero_eqb. cbn [iter_pow].
  apply sf_below_zero; [|assumption].
  apply (iter_pow_below base 1075 Hb (Nat.le_refl _)).
Qed.

(** With a break multiplier of at least 2 [init_score_table] returns. *)
Lemma init_score_table_runs (w : walker) :
  (2 <=? score_cb (walks (stats (solver w))) (size w))%float = true ->
  exists w', init_score_table 1100 w = Some w'.
Proof.
  intros Hcb. pose proof (iter_pow_end _ (inverse_half _ Hcb)) as Hend.
  rewrite <- iter_pow_iter in Hend. unfold init_score_table.
  assert (Hk : (S 1075 < 1100)%nat).
  { apply Nat.ltb_lt. vm_compute. reflexivity. }
  destruct (count_exponents_runs _ _ _ _ 0 Hend Hk) as [e ->].
  destruct (fill_table_runs _ _ _ _ 1%float [] Hend Hk) as [[t eps] ->].
  eauto.
Qed.

(** The table has 1076 entries at most, so that [exponents] is their
    number. *)
Lemma init_score_table_length (fuel : nat) (w w' : walker) :
  (2 <=? score_cb (walks (stats (solver w))) (size w))%float = true ->
  init_score_table fuel w = Some w' ->
  (length (table w') <= 1076)%nat
  /\ exponents w' = Z.of_nat (length (table w')).
Proof.
  intros Hcb H. pose proof (iter_pow_end _ (inverse_half _ Hcb)) as Hend.
  destruct (init_score_table_result _ _ _ H)
    as (t & eps & -> & Hg & Hne & Hlast & _). cbn [table exponents set_score_table].
  assert (Hlen : (length t <= 1076)%nat).
  { apply Nat.nlt_ge. intros Hlt.
    destruct (lookup_lt_is_Some_2 t (S 1075) Hlt) as [x Hx].
    destruct (geometric_lookup _ _ _ _ _ Hg Hx) as [Ex Hz].
    rewrite iter_pow_iter in Ex. rewrite Ex, Hend in Hz. discriminate. }
  split; [assumption|]. apply u32_small. split; [apply Nat2Z.is_nonneg|].
  apply (Z.le_lt_trans _ 1076); [|reflexivity].
  apply (inj_le _ 1076), Hlen.
Qed.

(** C3, as the code has it.  The break multiplier is [fit_cbval] of the
    average clause size when the walks counter is odd and 2.0 when it is
    even.  Whatever [init_score_table] returns differs from the walker it
    was given in the table, [exponents] and [epsilon] only: entry [i] of the
    table is [base] to the [i] by repeated double multiplication, with
    [base = 1 / cb], no entry is zero, there is at least one, [exponents] is
    their number, [epsilon] is the last one, and the next power is the
    first that is zero.  On an even walks counter the function returns, with
    1075 entries and [epsilon = 2^-1074].  On either parity, when the
    multiplier is at least 2 the function returns, with the same walker for
    any amount of fuel that suffices, and the table has between 1 and 1076
    entries: each power is at most half the one before, down to zero. *)
Theorem init_score_table_powers (fuel : nat) (w : walker) :
  let walks := walks (stats (solver w)) in
  let cb := score_cb walks (size w) in
  let base := (1 / cb)%float in
  (if Z.odd walks then cb = fit_cbval (size w) else cb = 2%float)
  /\ (forall w', init_score_table fuel w = Some w' ->
        w' = set_score_table (table w') (exponents w') (epsilon w') w
        /\ exponents w' = u32 (Z.of_nat (length (table w')))
        /\ (forall i x, table w' !! i = Some x ->
              x = iter_pow base i /\ (x =? 0)%float = false)
        /\ table w' !! 0%nat = Some 1%float
        /\ last (table w') = Some (epsilon w')
        /\ (iter_pow base (length (table w')) =? 0)%float = true)
  /\ (Z.even walks = true ->
        exists w', init_score_table 1100 w = Some w'
                   /\ exponents w' = 1075
                   /\ epsilon w' = 0x1p-1074%float)
  /\ ((2 <=? cb)%float = true ->
        exists w', init_score_table 1100 w = Some w'
                   /\ (forall fuel' w'', init_score_table fuel' w = Some w'' ->
                         w'' = w')
                   /\ (0 < length (table w') <= 1076)%nat
                   /\ exponents w' = Z.of_nat (length (table w'))).
Proof.
  intros walks cb base. split; [|split; [|split]].
  - destruct (Z.odd walks) eqn:Hodd.
    + now apply score_cb_odd.
    + apply score_cb_even. now rewrite <- Z.negb_odd, Hodd.
  - intros w' H. destruct (init_score_table_result _ _ _ H)
      as (t & eps & -> & Hg & Hne & Hlast & Hend).
    cbn. split; [reflexivity|]. split; [reflexivity|].
    split; [|split; [|split; assumption]].
    + intros k x Hk. destruct (geometric_lookup _ _ _ _ _ Hg Hk) as [Hx Hz].
      split; [|assumption]. rewrite Hx. apply iter_pow_iter.
    + destruct t as [|y t]; [congruence|]. destruct Hg as (-> & _). reflexivity.
  - intros Hev. destruct (init_score_table_even_runs w Hev) as [w' H].
    exists w'. destruct (init_score_table_even _ _ _ Hev H) as (? & _ & ? & _).
    auto.
  - intros Hcb. destruct (init_score_table_runs w Hcb) as [w' H].
    exists w'. split; [assumption|].
    split; [intros fuel' w''; apply (init_score_table_fuel _ _ _ _ _ H)|].
    destruct (init_score_table_length _ _ _ Hcb H) as [Hlen He].
    split; [|assumption]. split; [|assumption].
    destruct (init_score_table_result _ _ _ H) as (t & eps & -> & _ & Hne & _).
    cbn [table set_score_table]. destruct t; [congruence|]. apply Nat.lt_0_succ.
Qed.

(** The theorem at the odd walks counter 1 with the average clause size
    3.0: the multiplier is [fit_cbval (3.0) = 2.5], and the function returns
    a table of 814 entries. *)
Lemma init_score_table_powers_witness :
  (2 <=? score_cb 1 3)%float = true
  /\ exists w',
       init_score_table 1100 (score_walker 1 3) = Some w'
       /\ (forall fuel' w'', init_score_table fuel' (score_walker 1 3) = Some w'' ->
             w'' = w')
       /\ (0 < length (table w') <= 1076)%nat
       /\ exponents w' = Z.of_nat (length (table w')).
Proof.
  split; [vm_compute; reflexivity|].
  refine (proj2 (proj2 (proj2 (init_score_table_powers 0 (score_walker 1 3)))) _).
  vm_compute. reflexivity.
Defined.

(** C3, as the claim states it, fails both ways: on the odd walks counter 1
    with average clause size 3.0 the multiplier is [fit_cbval (3.0) = 2.5]
    and not 2.0, and on the even walks counter 2 it is 2.0 and not
    [fit_cbval (3.0)]. *)
Lemma score_cb_parity_counterexample :
  Z.odd 1 = true
  /\ score_cb 1 3 = 2.5%float /\ (score_cb 1 3 =? 2)%float = false
  /\ Z.odd 2 = false
  /\ score_cb 2 3 = 2%float /\ (score_cb 2 3 =? fit_cbval 3)%float = false.
Proof. vm_compute. repeat split. Qed.

(** ** [scale_score] *)

Lemma decreasing_cons (x y : float) (t : list float) :
  decreasing (x :: y :: t) = (y <? x)%float && decreasing (y :: t).
Proof. reflexivity. Qed.

Lemma decreasing_tail (x : float) (t : list float) :
  t <> [] -> decreasing (x :: t) = true -> decreasing t = true.
Proof.
  destruct t as [|y t]; [congruence|]. intros _ H.
  rewrite decreasing_cons in H. apply andb_true_iff in H. tauto.
Qed.

Lemma decreasing_positive (t : list float) (i : nat) (x : float) :
  decreasing t = true -> t !! i = Some x -> (0 <? x)%float = true.
Proof.
  revert i x. induction t as [|y t IH]; intros i x Hd Hi; [discriminate|].
  destruct t as [|z t].
  - destruct i; [|discriminate]. injection Hi as <-. exact Hd.
  - rewrite decreasing_cons in Hd. apply andb_true_iff in Hd.
    destruct Hd as [Hzy Hd]. destruct i as [|i].
    + injection Hi as <-.
      apply (double_lt_trans _ z); [|assumption]. now apply (IH 0%nat).
    + now apply (IH i).
Qed.

Lemma decreasing_below_head (x : float) (t : list float) (j : nat) (y : float) :
  decreasing (x :: t) = true -> t !! j = Some y -> (y <? x)%float = true.
Proof.
  revert x j y. induction t as [|z t IH]; intros x j y Hd Hj; [discriminate|].
  rewrite decreasing_cons in Hd. apply andb_true_iff in Hd.
  destruct Hd as [Hzx Hd]. destruct j as [|j].
  - injection Hj as <-. assumption.
  - apply (double_lt_trans _ z); [|assumption]. now apply (IH z j).
Qed.

Lemma decreasing_lookup_lt (t : list float) (i j : nat) (x y : float) :
  decreasing t = true -> t !! i = Some x -> t !! j = Some y -> (i < j)%nat ->
  (y <? x)%float = true.
Proof.
  revert i j x y. induction t as [|z t IH]; intros i j x y Hd Hi Hj Hij; [discriminate|].
  destruct j as [|j]; [lia|]. destruct i as [|i].
  - injection Hi as <-. now apply (decreasing_below_head _ t j).
  - apply (IH i j); try assumption; [|lia].
    apply (decreasing_tail z); [|assumption]. intros ->. discriminate.
Qed.

(** [scale_score] reads the table at the break count, capped at the last
    entry. *)
Lemma scale_score_lookup (w : walker) (b : Z) :
  exponents w = Z.of_nat (length (table w)) ->
  last (table w) = Some (epsilon w) ->
  0 <= b ->
  table w !! Z.to_nat (Z.min b (exponents w - 1)) = Some (scale_score w b).
Proof.
  intros He Hlast Hb. unfold scale_score.
  assert (Hne : table w <> []) by (intros E; rewrite E in Hlast; discriminate).
  assert (0 < exponents w).
  { rewrite He. destruct (table w); [congruence|]. cbn [length]. lia. }
  destruct (b <? exponents w) eqn:Hlt.
  - apply Z.ltb_lt in Hlt. rewrite Z.min_l by lia.
    unfold peek. apply list_lookup_lookup_total_lt. lia.
  - apply Z.ltb_ge in Hlt. rewrite Z.min_r by lia.
    rewrite <- Hlast, last_lookup. f_equal. lia.
Qed.

Lemma scale_score_order (w : walker) (b1 b2 : Z) :
  exponents w = Z.of_nat (length (table w)) ->
  last (table w) = Some (epsilon w) ->
  decreasing (table w) = true ->
  0 <= b1 -> 0 <= b2 ->
  ((scale_score w b2 <=? scale_score w b1)%float = true
   <-> b1 <= b2 \/ exponents w - 1 <= b2)
  /\ (0 <? scale_score w b1)%float = true
  /\ (0 <? scale_score w b2)%float = true.
Proof.
  intros He Hlast Hd H1 H2.
  pose proof (scale_score_lookup w b1 He Hlast H1) as L1.
  pose proof (scale_score_lookup w b2 He Hlast H2) as L2.
  pose proof (decreasing_positive _ _ _ Hd L1) as P1.
  pose proof (decreasing_positive _ _ _ Hd L2) as P2.
  split; [|split; assumption].
  set (i := Z.min b1 (exponents w - 1)) in *.
  set (j := Z.min b2 (exponents w - 1)) in *.
  assert (0 < exponents w).
  { rewrite He. destruct (table w); [discriminate|]. cbn [length]. lia. }
  assert (Hij : i <= j <-> b1 <= b2 \/ exponents w - 1 <= b2) by lia.
  rewrite <- Hij.
  destruct (Z.lt_trichotomy i j) as [Hlt|[Heq|Hgt]].
  - assert (Hto : (Z.to_nat i < Z.to_nat j)%nat) by lia.
    pose proof (decreasing_lookup_lt _ _ _ _ _ Hd L1 L2 Hto) as Hlt'.
    split; [lia|]. intros _. now apply double_lt_le.
  - rewrite Heq in L1. rewrite L1 in L2. injection L2 as <-.
    split; [lia|]. intros _. now apply (double_lt_le_refl 0).
  - assert (Hto : (Z.to_nat j < Z.to_nat i)%nat) by lia.
    pose proof (decreasing_lookup_lt _ _ _ _ _ Hd L2 L1 Hto) as Hlt'.
    rewrite (double_lt_not_ge _ _ Hlt'). split; [discriminate|lia].
Qed.

(** The values of the loop fall strictly while the base is at most 1/2. *)
Lemma geometric_decreasing (base x : float) (l : list float) (j : Z) :
  half_bound (Prim2SF base) -> 0 <= j -> sf_below j (Prim2SF x) ->
  geometric base x l -> l <> [] -> decreasing l = true.
Proof.
  intros Hb. revert x j. induction l as [|y l IH]; intros x j Hj Hx Hg Hne;
    [congruence|].
  destruct Hg as (-> & Hnz & Hg).
  destruct (sf_below_decreases j x base Hx Hb Hnz) as [Hlt Hpos].
  destruct l as [|z l]; [exact Hpos|].
  rewrite decreasing_cons. apply andb_true_iff.
  split; [destruct Hg as (-> & _); exact Hlt|].
  apply (IH (x * base)%float (Z.max 0 (j - 1))); [lia| |assumption|discriminate].
  destruct (Z.eq_dec j 0) as [->|Hj0].
  - rewrite (sf_below_zero x base Hx Hb). exact I.
  - rewrite Z.max_r by lia. apply sf_below_mul; [lia| |assumption].
    now replace (j - 1 + 1) with j by lia.
Qed.

(** With a break multiplier of at least 2 the table [init_score_table]
    builds falls strictly and ends above zero. *)
Lemma init_score_table_sorted (fuel : nat) (w w' : walker) :
  (2 <=? score_cb (walks (stats (solver w))) (size w))%float = true ->
  init_score_table fuel w = Some w' ->
  decreasing (table w') = true.
Proof.
  intros Hcb H. pose proof (inverse_half _ Hcb) as Hb.
  destruct (init_score_table_result _ _ _ H)
    as (t & eps & -> & Hg & Hne & _). cbn [table set_score_table].
  apply (geometric_decreasing _ 1%float t 1075 Hb); try assumption; [lia|].
  apply (iter_pow_below _ 0 Hb). lia.
Qed.

(** C4, as the code has it.  [scale_score (b)] is [table[b]] below
    [exponents] and [epsilon] from there on, and [epsilon] is the last entry
    [table[exponents - 1]].  When the break multiplier is at least 2, as it
    is on every even walks counter and at every control point of
    [fit_cbval], [init_score_table] returns, and in the table it builds each
    entry is strictly below the one before and the last is above zero; so
    both scores are strictly positive, and
    [scale_score (b1) >= scale_score (b2)] holds exactly when [b1 <= b2] or
    [b2 >= exponents - 1].  So a smaller break count never scores lower, and
    the converse fails only where both counts have reached the floor
    [epsilon]. *)
Theorem scale_score_antitone (w0 : walker) (b1 b2 : Z) :
  (2 <=? score_cb (walks (stats (solver w0))) (size w0))%float = true ->
  0 <= b1 -> 0 <= b2 ->
  exists w,
    init_score_table 1100 w0 = Some w
    /\ (forall fuel w', init_score_table fuel w0 = Some w' -> w' = w)
    /\ scale_score w b1
       = (if b1 <? exponents w then peek (table w) b1 else epsilon w)
    /\ last (table w) = Some (epsilon w)
    /\ (forall i j x y, table w !! i = Some x -> table w !! j = Some y ->
          (i < j)%nat -> (y <? x)%float = true /\ (0 <? y)%float = true)
    /\ ((scale_score w b2 <=? scale_score w b1)%float = true
        <-> b1 <= b2 \/ exponents w - 1 <= b2)
    /\ (0 <? scale_score w b1)%float = true
    /\ (0 <? scale_score w b2)%float = true.
Proof.
  intros Hcb H1 H2. destruct (init_score_table_runs w0 Hcb) as [w Hinit].
  exists w. split; [assumption|].
  split; [intros fuel w'; apply (init_score_table_fuel _ _ _ _ _ Hinit)|].
  split; [reflexivity|].
  destruct (init_score_table_length _ _ _ Hcb Hinit) as [_ He].
  pose proof (init_score_table_sorted _ _ _ Hcb Hinit) as Hd.
  assert (Hlast : last (table w) = Some (epsilon w)).
  { destruct (init_score_table_result _ _ _ Hinit)
      as (t & eps & -> & _ & _ & Hlast & _). exact Hlast. }
  split; [assumption|]. split; [|now apply scale_score_order].
  intros i j x y Hi Hj Hij.
  split; [exact (decreasing_lookup_lt _ _ _ _ _ Hd Hi Hj Hij)|].
  exact (decreasing_positive _ _ _ Hd Hj).
Qed.

(** The theorem at the odd walks counter 1 with the average clause size
    3.0, where the multiplier is [fit_cbval (3.0) = 2.5], for the break
    counts 0 and 1. *)
Lemma scale_score_antitone_witness :
  (2 <=? score_cb 1 3)%float = true
  /\ exists w,
       init_score_table 1100 (score_walker 1 3) = Some w
       /\ ((scale_score w 1 <=? scale_score w 0)%float = true
           <-> 0 <= 1 \/ exponents w - 1 <= 1)
       /\ (0 <? scale_score w 0)%float = true.
Proof.
  assert (Hcb : (2 <=? score_cb (walks (stats (solver (score_walker 1 3))))
                         (size (score_walker 1 3)))%float = true)
    by (vm_compute; reflexivity).
  split; [exact Hcb|].
  destruct (scale_score_antitone (score_walker 1 3) 0 1 Hcb
              ltac:(lia) ltac:(lia))
    as (w & Hinit & _ & _ & _ & _ & H3 & H4 & _).
  exists w. exact (conj Hinit (conj H3 H4)).
Defined.

(** C4, as the claim states it, fails at the floor of the table: with the
    table of the walks counter 0 (1075 entries) the break counts 1075 and
    1074 both score [epsilon], so [scale_score (1075) >= scale_score (1074)]
    although 1075 is not at most 1074. *)
Lemma scale_score_floor_counterexample :
  exists w,
    init_score_table 1100 (score_walker 0 0) = Some w
    /\ (scale_score w 1074 <=? scale_score w 1075)%float = true
    /\ (1075 <=? 1074) = false.
Proof. eexists. split; [vm_compute; reflexivity|]. vm_compute. auto. Qed.

(** ** Loops and frames *)

Lemma fold_left_invariant {A B : Type} (P : A -> Prop) (f : A -> B -> A)
    (l : list B) (a : A) :
  P a -> (forall a x, x ∈ l -> P a -> P (f a x)) -> P (fold_left f l a).
Proof.
  revert a. induction l as [|x l IH]; intros a Ha Hf; [assumption|].
  cbn. apply IH.
  - apply Hf; [left|assumption].
  - intros a' y Hy. apply Hf. now right.
Qed.

(** Unfold the record updates down to the constructors. *)
Ltac unfold_setters :=
  unfold set_solver, set_best, set_current, set_initial, set_minimum,
    set_generator, set_counters, set_refs, set_score_table, set_scores,
    set_unsat, set_trail, set_size, set_limit, set_flipped,
    INC_walks, ADD_walk_steps, INC_flipped, INC_walk_decisions,
    INC_walk_improved,
    set_values, set_pol_activity, set_phases_saved, set_arena, set_watches,
    set_stats in *;
  cbn [solver best clauses current exponents initial minimum generator counters
       binaries saved refs table scores unsat trail size epsilon limit flipped
       vars active values pol_activity phases_saved phases_target stable
       option_warmup initial_phase arena arena_size last_irredundant watches
       stats random] in *.

Section Frames.

Context {host : Host}.

Lemma set_stats_same (s : kissat) : set_stats (stats s) s = s.
Proof. now destruct s. Qed.

Lemma set_solver_same (w : walker) : set_solver (solver w) w = w.
Proof. now destruct w. Qed.

Lemma break_value_frame (w : walker) (lit : Z) :
  exists st, snd (break_value w lit) = set_solver (set_stats st (solver w)) w.
Proof.
  unfold break_value.
  destruct (fold_left _ _ _) as [steps res]. cbn. eauto.
Qed.

Lemma break_value_fst (w : walker) (lit : Z) (st : statistics) (sc : list float) :
  fst (break_value (set_scores sc (set_solver (set_stats st (solver w)) w)) lit)
  = fst (break_value w lit).
Proof.
  unfold break_value. cbn.
  destruct (fold_left _ _ _) as [steps res]. reflexivity.
Qed.

Lemma pick_literal_score_frame (w : walker) (lits : list Z) (st : walker * float * Z) :
  scoring_of w st -> scoring_of w (fold_left pick_literal_score lits st).
Proof.
  intros H. apply fold_left_invariant; [assumption|].
  clear. intros [[w1 sum] picked] lit _ (n & sc & H). cbn in H. subst w1.
  unfold pick_literal_score. cbn.
  destruct (peek (values (solver w)) lit =? 0); [exists n, sc; reflexivity|].
  destruct (break_value_frame
              (set_scores sc (set_solver (set_stats n (solver w)) w)) lit)
    as [m Hm].
  destruct (break_value _ lit) as [breaks w2]. cbn in Hm. subst w2. cbn.
  exists m. eexists. reflexivity.
Qed.

Lemma pick_literal_frame (w : walker) :
  exists st g,
    snd (pick_literal w)
    = set_scores []
        (set_generator g
           (set_solver (set_stats st (solver w))
              (set_flipped (u64 (flipped w + 1)) w))).
Proof.
  unfold pick_literal.
  set (w1 := set_flipped (u64 (flipped w + 1)) w).
  set (lits := dereference_literals w1 _).
  assert (H : scoring_of w1 (fold_left pick_literal_score lits (w1, 0%float, INVALID_LIT))).
  { apply pick_literal_score_frame. exists (stats (solver w1)), (scores w1). cbn.
    rewrite set_stats_same. now destruct w. }
  destruct (fold_left pick_literal_score lits _) as [[w2 sum] picked].
  destruct H as (n & sc & H). cbn in H. subst w2. cbn.
  destruct (kissat_pick_double _) as [r g]. cbn. exists n, g. reflexivity.
Qed.

Lemma push_unsat_rest (w : walker) (r : Z) :
  counting_rest (push_unsat w r) = counting_rest w
  /\ solver (push_unsat w r) = solver w.
Proof. split; reflexivity. Qed.

Lemma pop_unsat_rest (w : walker) (r p : Z) :
  counting_rest (snd (pop_unsat w r p)) = counting_rest w
  /\ solver (snd (pop_unsat w r p)) = solver w.
Proof. unfold pop_unsat. destruct (r =? _); split; reflexivity. Qed.

Lemma make_clause_rest (st : walker * Z) (r : Z) :
  counting_rest (fst (make_clause st r)) = counting_rest (fst st)
  /\ solver (fst (make_clause st r)) = solver (fst st).
Proof.
  destruct st as [w steps]. unfold make_clause.
  destruct (negb _); [split; reflexivity|].
  match goal with |- context [pop_unsat ?w ?r ?p] =>
    destruct (pop_unsat_rest w r p) as [H1 H2];
    destruct (pop_unsat w r p) as [res w'] end.
  cbn in *. rewrite H1, H2. split; reflexivity.
Qed.

Lemma break_clause_rest (st : walker * Z) (r : Z) :
  counting_rest (fst (break_clause st r)) = counting_rest (fst st)
  /\ solver (fst (break_clause st r)) = solver (fst st).
Proof.
  destruct st as [w steps]. unfold break_clause.
  destruct (negb _); split; reflexivity.
Qed.

Lemma make_clauses_rest (w : walker) (lit : Z) :
  counting_rest (make_clauses w lit) = counting_rest w.
Proof.
  unfold make_clauses.
  set (ws := peek _ _).
  assert (H : counting_rest (fst (fold_left make_clause ws (w, 1))) = counting_rest w
              /\ solver (fst (fold_left make_clause ws (w, 1))) = solver w).
  { apply (fold_left_invariant
             (fun st => counting_rest (fst st) = counting_rest w
                        /\ solver (fst st) = solver w)); [split; reflexivity|].
    intros st r _ [H1 H2]. destruct (make_clause_rest st r) as [H3 H4].
    split; congruence. }
  destruct (fold_left make_clause ws (w, 1)) as [w' steps]. cbn in H.
  destruct H as [H _]. rewrite <- H. reflexivity.
Qed.

Lemma break_clauses_rest (w : walker) (lit : Z) :
  counting_rest (break_clauses w lit) = counting_rest w.
Proof.
  unfold break_clauses.
  set (ws := peek _ _).
  assert (H : counting_rest (fst (fold_left break_clause ws (w, 1))) = counting_rest w
              /\ solver (fst (fold_left break_clause ws (w, 1))) = solver w).
  { apply (fold_left_invariant
             (fun st => counting_rest (fst st) = counting_rest w
                        /\ solver (fst st) = solver w)); [split; reflexivity|].
    intros st r _ [H1 H2]. destruct (break_clause_rest st r) as [H3 H4].
    split; congruence. }
  destruct (fold_left break_clause ws (w, 1)) as [w' steps]. cbn in H.
  destruct H as [H _]. rewrite <- H. reflexivity.
Qed.

Lemma counting_flipping_rest (w w' : walker) :
  counting_rest w' = counting_rest w -> flipping_rest w' = flipping_rest w.
Proof. unfold counting_rest, flipping_rest. congruence. Qed.

Lemma flipping_rest_fields (w w' : walker) :
  flipping_rest w' = flipping_rest w ->
  bookkeeping w' = bookkeeping w
  /\ flipped w' = flipped w
  /\ generator w' = generator w
  /\ scores w' = scores w
  /\ host_part (solver w') = host_part (solver w)
  /\ phases_saved (solver w') = phases_saved (solver w).
Proof.
  unfold flipping_rest. intros H. injection H. intros.
  unfold bookkeeping, host_part. repeat split; congruence.
Qed.

Lemma bookkeeping_fields (w w' : walker) :
  bookkeeping w' = bookkeeping w ->
  best w' = best w /\ trail w' = trail w /\ minimum w' = minimum w
  /\ initial w' = initial w /\ limit w' = limit w /\ saved w' = saved w.
Proof.
  unfold bookkeeping. intros H. injection H. intros.
  repeat split; assumption.
Qed.

Lemma flip_literal_rest (w : walker) (flip : Z) :
  flipping_rest (flip_literal w flip) = flipping_rest w.
Proof.
  unfold flip_literal.
  match goal with |- context [break_clauses ?w1 flip] =>
    pose proof (break_clauses_rest w1 flip) as Hb end.
  match type of Hb with context [make_clauses ?w0 flip] =>
    pose proof (make_clauses_rest w0 flip) as Hm end.
  rewrite Hm in Hb. apply counting_flipping_rest in Hb.
  change (flipping_rest (set_current ?c ?x)) with (flipping_rest x).
  rewrite Hb. reflexivity.
Qed.

Lemma flip_literal_current (w : walker) (flip : Z) :
  current (flip_literal w flip) = currently_unsatified (flip_literal w flip).
Proof. reflexivity. Qed.

Lemma save_walker_trail_frame (w : walker) (keep : bool) :
  exists sv,
    save_walker_trail w keep
    = (if keep
       then set_best 0 (set_trail (drop (Z.to_nat (best w)) (trail w))
                          (set_solver (set_phases_saved sv (solver w)) w))
       else set_solver (set_phases_saved sv (solver w)) w).
Proof. unfold save_walker_trail. destruct keep; eexists; reflexivity. Qed.

Lemma push_flipped_frame (w : walker) (lit : Z) :
  exists sv tr b,
    push_flipped w lit
    = set_best b (set_trail tr (set_solver (set_phases_saved sv (solver w)) w)).
Proof.
  unfold push_flipped.
  destruct (best w =? INVALID_BEST).
  { exists (phases_saved (solver w)), (trail w), (best w).
    destruct w as [s]. now destruct s. }
  destruct (_ <? _).
  { exists (phases_saved (solver w)), (trail w ++ [lit]), (best w).
    destruct w as [s]. now destruct s. }
  destruct (negb _).
  - destruct (save_walker_trail_frame w true) as [sv ->].
    exists sv, (drop (Z.to_nat (best w)) (trail w) ++ [lit]), 0. reflexivity.
  - exists (phases_saved (solver w)), [], INVALID_BEST.
    destruct w as [s]. now destruct s.
Qed.

Lemma update_best_frame (w : walker) :
  exists sv b,
    update_best w
    = set_best b (set_solver (set_phases_saved sv (solver w))
                    (set_minimum (current w) w)).
Proof.
  unfold update_best.
  change (best (set_minimum (current w) w)) with (best w).
  destruct (best w =? INVALID_BEST).
  - unfold save_all_values. eexists _, 0. reflexivity.
  - exists (phases_saved (solver w)), (u32 (Z.of_nat (length (trail w)))).
    destruct w as [s]. now destruct s.
Qed.

End Frames.

(** ** [kissat_walking] and the guard of [kissat_walk] *)

Section Gate.

Context {host : Host}.

(** C6.  [kissat_walking] is true exactly when the last irredundant
    reference (the field, or the size of the arena when the field is
    [INVALID_REF], as both functions read it) and [BINIRR_CLAUSES] are at
    most [MAX_WALK_REF = 2^31 - 1]; when it is false, [kissat_walk] returns
    the solver as it got it, whatever the fuel, none included: the walking
    phase is not run. *)
Theorem kissat_walking_gate (fuel : nat) (solver : kissat) :
  let last :=
    if last_irredundant solver =? INVALID_REF then u32 (arena_size solver)
    else last_irredundant solver in
  MAX_WALK_REF = 2 ^ 31 - 1
  /\ (kissat_walking solver = true
      <-> last <= MAX_WALK_REF /\ BINIRR_CLAUSES solver <= MAX_WALK_REF)
  /\ (kissat_walking solver = false ->
      kissat_walk fuel solver = Some solver /\ kissat_walk 0 solver = Some solver).
Proof.
  intros last. split; [reflexivity|].
  unfold kissat_walking, kissat_walk. fold last.
  destruct (MAX_WALK_REF <? last) eqn:H1.
  - apply Z.ltb_lt in H1. split; [|auto]. split; [discriminate|lia].
  - apply Z.ltb_ge in H1.
    destruct (MAX_WALK_REF <? BINIRR_CLAUSES solver) eqn:H2.
    + apply Z.ltb_lt in H2. split; [|auto]. split; [discriminate|lia].
    + apply Z.ltb_ge in H2. split; [|discriminate]. split; auto.
Qed.

End Gate.

(** ** The trail: [save_walker_trail], [push_flipped], [update_best],
       [save_final_minimum] *)

(** Writing a list of entries into an array one after the other: each cell
    ends with what the last entry for it wrote. *)
Lemma fold_left_insert_lookup {A B : Type} (f : B -> nat) (g : B -> A)
    (l : list B) (s : list A) (i : nat) :
  (i < length s)%nat ->
  fold_left (fun s x => <[f x := g x]> s) l s !! i
  = match last (filter (fun x => f x = i) l) with
    | Some x => Some (g x)
    | None => s !! i
    end.
Proof.
  revert s. induction l as [|a l IH]; intros s Hi; [reflexivity|].
  cbn [fold_left]. rewrite IH by now rewrite length_insert.
  rewrite filter_cons. destruct (decide (f a = i)) as [Ha|Ha].
  - rewrite last_cons. destruct (last (filter _ l)); [reflexivity|].
    rewrite <- Ha. apply list_lookup_insert_eq. now rewrite Ha.
  - destruct (last (filter _ l)); [reflexivity|].
    now apply list_lookup_insert_ne.
Qed.

Lemma fold_left_insert_length {A B : Type} (f : B -> nat) (g : B -> A)
    (l : list B) (s : list A) :
  length (fold_left (fun s x => <[f x := g x]> s) l s) = length s.
Proof.
  revert s. induction l as [|a l IH]; intros s; [reflexivity|].
  cbn [fold_left]. now rewrite IH, length_insert.
Qed.

(** Writing the cells of a list of indices, some of them skipped. *)
Lemma fold_left_insert_if_lookup {A : Type} (c : Z -> bool) (g : Z -> A)
    (l : list Z) (s : list A) (i : Z) :
  (forall x, x ∈ l -> 0 <= x) -> 0 <= i -> (Z.to_nat i < length s)%nat ->
  fold_left (fun s x => if c x then poke s x (g x) else s) l s !! Z.to_nat i
  = if decide (i ∈ l) then (if c i then Some (g i) else s !! Z.to_nat i)
    else s !! Z.to_nat i.
Proof.
  revert s. induction l as [|a l IH]; intros s Hl Hi Hlen; [reflexivity|].
  cbn [fold_left]. rewrite IH.
  - assert (Ha : 0 <= a) by (apply Hl; left).
    destruct (decide (i ∈ l)) as [Hin|Hin].
    + rewrite decide_True by now right.
      destruct (c i) eqn:Hc; [reflexivity|].
      destruct (c a) eqn:Hca; [|reflexivity].
      unfold poke. apply list_lookup_insert_ne. intros E.
      assert (a = i) by lia. congruence.
    + destruct (decide (a = i)) as [->|Hne].
      * rewrite decide_True by left.
        destruct (c i); [|reflexivity].
        unfold poke. now apply list_lookup_insert_eq.
      * rewrite decide_False by (intros [?|?]%elem_of_cons; congruence).
        destruct (c a); [|reflexivity].
        unfold poke. apply list_lookup_insert_ne. lia.
  - intros x Hx. apply Hl. now right.
  - assumption.
  - destruct (c a); [|assumption]. unfold poke. now rewrite length_insert.
Qed.

Lemma fold_left_insert_if_length {A : Type} (c : Z -> bool) (g : Z -> A)
    (l : list Z) (s : list A) :
  length (fold_left (fun s x => if c x then poke s x (g x) else s) l s)
  = length s.
Proof.
  revert s. induction l as [|a l IH]; intros s; [reflexivity|].
  cbn [fold_left]. rewrite IH. destruct (c a); [|reflexivity].
  unfold poke. now rewrite length_insert.
Qed.

(** The phase a literal of the trail stands for. *)
Lemma save_walker_trail_saved (w : walker) (keep : bool) (i : nat) :
  (i < length (phases_saved (solver w)))%nat ->
  phases_saved (solver (save_walker_trail w keep)) !! i
  = match last (filter (fun lit => Z.to_nat (IDX lit) = i)
                  (take (Z.to_nat (best w)) (trail w))) with
    | Some lit => Some (if NEGATED lit then -1 else 1)
    | None => phases_saved (solver w) !! i
    end.
Proof.
  intros Hi. unfold save_walker_trail.
  rewrite <- (fold_left_insert_lookup (fun lit => Z.to_nat (IDX lit))
                (fun lit => if NEGATED lit then -1 else 1) _ _ _ Hi).
  destruct keep; reflexivity.
Qed.

Lemma save_walker_trail_length (w : walker) (keep : bool) :
  length (phases_saved (solver (save_walker_trail w keep)))
  = length (phases_saved (solver w)).
Proof.
  unfold save_walker_trail.
  destruct keep; cbn;
    apply (fold_left_insert_length (fun lit => Z.to_nat (IDX lit))
             (fun lit => if NEGATED lit then -1 else 1)).
Qed.

(** C7.  [save_final_minimum]: with [minimum = initial] the walker, and so
    the saved phases, stay as they are.  Otherwise the statistic
    [walk_improved] is counted and, when [best] is 0 or [INVALID_BEST],
    nothing else is written.  In the remaining case the only other change
    is in the saved phases: the trail and [best] stay (nothing is shifted),
    and the cell of a variable holds +1 or -1 after the polarity of the last
    literal of that variable in [trail[0..best)], or its old value when the
    prefix has no literal of the variable. *)
Theorem save_final_minimum_cases (w : walker) :
  (minimum w = initial w -> save_final_minimum w = w)
  /\ (minimum w <> initial w -> best w = 0 \/ best w = INVALID_BEST ->
      save_final_minimum w = set_solver (INC_walk_improved (solver w)) w)
  /\ (minimum w <> initial w -> best w <> 0 -> best w <> INVALID_BEST ->
      exists sv,
        save_final_minimum w
        = set_solver (INC_walk_improved (set_phases_saved sv (solver w))) w
        /\ length sv = length (phases_saved (solver w))
        /\ forall i : nat,
             (i < length (phases_saved (solver w)))%nat ->
             sv !! i
             = match last (filter (fun lit => Z.to_nat (IDX lit) = i)
                             (take (Z.to_nat (best w)) (trail w))) with
               | Some lit => Some (if NEGATED lit then -1 else 1)
               | None => phases_saved (solver w) !! i
               end).
Proof.
  unfold save_final_minimum. repeat split.
  - intros H. apply Z.eqb_eq in H. now rewrite H.
  - intros H Hb. apply Z.eqb_neq in H. rewrite H.
    destruct Hb as [Hb|Hb]; rewrite Hb; cbn; reflexivity.
  - intros H H0 Hi. apply Z.eqb_neq in H, H0, Hi. rewrite H, H0, Hi. cbn [orb].
    exists (phases_saved (solver (save_walker_trail w false))).
    split; [reflexivity|]. split; [apply save_walker_trail_length|].
    intros i Hlt. now apply save_walker_trail_saved.
Qed.

(** ** [local_search_step] *)

Section Step.

Context {host : Host}.

(** The walker [local_search_step] hands to [pick_literal]. *)
Lemma local_search_step_unfold (w : walker) :
  let wp := set_flipped (u64 (flipped w + 1))
              (set_solver (INC_flipped (solver w)) w) in
  local_search_step w
  = (let '(lit, w2) := pick_literal wp in
     let w4 := push_flipped (flip_literal w2 lit) lit in
     if current w4 <? minimum w4 then update_best w4 else w4).
Proof. reflexivity. Qed.

(** Picking and flipping in a step: the bookkeeping stays, [flipped] is
    counted once more, and [current] is the size of the unsat stack. *)
Lemma step_search (w : walker) :
  let wp := set_flipped (u64 (flipped w + 1))
              (set_solver (INC_flipped (solver w)) w) in
  let w3 := flip_literal (snd (pick_literal wp)) (fst (pick_literal wp)) in
  bookkeeping w3 = bookkeeping w
  /\ flipped w3 = u64 (u64 (flipped w + 1) + 1)
  /\ flipped (snd (pick_literal wp)) = u64 (u64 (flipped w + 1) + 1)
  /\ current w3 = currently_unsatified w3.
Proof.
  intros wp w3. subst w3.
  destruct (pick_literal_frame wp) as (st & g & Hp).
  destruct (pick_literal wp) as [lit w2]. cbn [fst snd] in *.
  destruct (flipping_rest_fields _ _ (flip_literal_rest w2 lit)) as (Hb & Hfl & _).
  split; [|split; [|split]].
  - rewrite Hb, Hp. reflexivity.
  - rewrite Hfl, Hp. reflexivity.
  - rewrite Hp. reflexivity.
  - apply flip_literal_current.
Qed.






End Step.

(** ** The invalid trail *)

Lemma save_all_values_saved (w : walker) (idx : Z) :
  0 <= idx ->
  (Z.to_nat idx < length (phases_saved (solver w)))%nat ->
  phases_saved (solver (save_all_values w)) !! Z.to_nat idx
  = if decide (idx < VARS (solver w)) then
      (if peek (values (solver w)) (LIT idx) =? 0
       then phases_saved (solver w) !! Z.to_nat idx
       else Some (peek (values (solver w)) (LIT idx)))
    else phases_saved (solver w) !! Z.to_nat idx.
Proof.
  intros H0 Hlen. unfold save_all_values. cbn [solver set_best set_solver
    phases_saved set_phases_saved].
  rewrite (fold_left_insert_if_lookup
             (fun idx => negb (peek (values (solver w)) (LIT idx) =? 0))
             (fun idx => peek (values (solver w)) (LIT idx))
             (seqZ 0 (VARS (solver w))) (phases_saved (solver w)) idx);
    try assumption.
  - destruct (decide (idx ∈ seqZ 0 (VARS (solver w)))) as [Hin|Hin];
      rewrite elem_of_seqZ in Hin.
    + rewrite decide_True by lia.
      now destruct (peek (values (solver w)) (LIT idx) =? 0).
    + rewrite decide_False by lia. reflexivity.
  - intros x Hx. rewrite elem_of_seqZ in Hx. lia.
Qed.

Lemma save_all_values_length (w : walker) :
  length (phases_saved (solver (save_all_values w)))
  = length (phases_saved (solver w)).
Proof.
  unfold save_all_values. cbn [solver set_best set_solver phases_saved
    set_phases_saved].
  apply (fold_left_insert_if_length
           (fun idx => negb (peek (values (solver w)) (LIT idx) =? 0))
           (fun idx => peek (values (solver w)) (LIT idx))).
Qed.

Section Invalid.

Context {host : Host}.

(** C8.  With [best = 0] and a trail of exactly [VARS / 4 + 1] literals,
    [push_flipped] clears the trail, sets [best] to [INVALID_BEST] and does
    not push the flipped literal.  With [best = INVALID_BEST] it does
    nothing at all, so an empty trail stays empty through every further
    step until an improvement.  On an improvement with
    [best = INVALID_BEST], [update_best] sets [minimum = current] and
    [best = 0] and writes into the saved phases, for every variable, the
    current value of its positive literal (+1 or -1; the cell of a variable
    whose value is 0 stays).  A whole [local_search_step] from
    [best = INVALID_BEST] and an empty trail ends with the trail empty, and
    either without improvement and still [best = INVALID_BEST], or with
    [minimum] lowered to [current], [best = 0] and the phases so copied. *)
Theorem trail_invalidation (w : walker) (lit : Z) :
  (best w = 0 ->
   Z.of_nat (length (trail w)) = u32 (VARS (solver w) / 4 + 1) ->
   push_flipped w lit = set_best INVALID_BEST (set_trail [] w))
  /\ (best w = INVALID_BEST -> push_flipped w lit = w)
  /\ (best w = INVALID_BEST ->
      exists sv,
        update_best w
        = set_best 0 (set_solver (set_phases_saved sv (solver w))
                        (set_minimum (current w) w))
        /\ length sv = length (phases_saved (solver w))
        /\ forall idx,
             0 <= idx < VARS (solver w) ->
             (Z.to_nat idx < length (phases_saved (solver w)))%nat ->
             sv !! Z.to_nat idx
             = if peek (values (solver w)) (LIT idx) =? 0
               then phases_saved (solver w) !! Z.to_nat idx
               else Some (peek (values (solver w)) (LIT idx)))
  /\ (best w = INVALID_BEST -> trail w = [] ->
      let w' := local_search_step w in
      trail w' = []
      /\ ((best w' = INVALID_BEST /\ minimum w' = minimum w
           /\ minimum w <= current w')
          \/ (best w' = 0 /\ minimum w' = current w'
              /\ current w' < minimum w
              /\ exists w3, best w3 = INVALID_BEST /\ w' = update_best w3))).
Proof.
  split; [|split; [|split]].
  - intros Hb Hlen. unfold push_flipped. rewrite Hb, Hlen.
    rewrite (u32_small (u32 _)) by apply u32_range.
    rewrite Z.ltb_irrefl. reflexivity.
  - intros Hb. unfold push_flipped. now rewrite Hb, Z.eqb_refl.
  - intros Hb. unfold update_best.
    change (best (set_minimum (current w) w)) with (best w).
    rewrite Hb, Z.eqb_refl.
    exists (phases_saved (solver (save_all_values w))).
    split; [reflexivity|]. split; [apply save_all_values_length|].
    intros idx Hidx Hlen.
    rewrite (save_all_values_saved w idx) by (assumption || lia).
    now rewrite decide_True by lia.
  - intros Hb Ht w'. subst w'. rewrite local_search_step_unfold.
    destruct (step_search w) as (Hbk & _). cbv zeta in *.
    destruct (bookkeeping_fields _ _ Hbk) as (Hb3 & Ht3 & Hm3 & _).
    set (wp := set_flipped (u64 (flipped w + 1))
                 (set_solver (INC_flipped (solver w)) w)) in *.
    destruct (pick_literal wp) as [l w2]. cbn [fst snd] in *.
    revert Hb3 Ht3 Hm3. generalize (flip_literal w2 l). clear Hbk.
    intros w3 Hb3 Ht3 Hm3.
    assert (Hp : push_flipped w3 l = w3).
    { unfold push_flipped. now rewrite Hb3, Hb, Z.eqb_refl. }
    rewrite Hp, Hm3.
    destruct (current w3 <? minimum w) eqn:Hlt.
    + apply Z.ltb_lt in Hlt.
      destruct (update_best_frame w3) as (sv & b & Hu).
      assert (Hb0 : best (update_best w3) = 0).
      { unfold update_best.
        change (best (set_minimum (current w3) w3)) with (best w3).
        now rewrite Hb3, Hb, Z.eqb_refl. }
      rewrite Hu in Hb0 |- *. cbn in Hb0 |- *. subst b.
      split; [congruence|]. right. repeat split; try assumption.
      exists w3. split; [congruence|]. now rewrite Hu.
    + apply Z.ltb_ge in Hlt. split; [congruence|]. left.
      repeat split; congruence || assumption.
Qed.

End Invalid.

(** ** Literals and arrays *)

Lemma NOT_cases (l : Z) :
  0 <= l -> NOT l = if Z.even l then l + 1 else l - 1.
Proof.
  unfold NOT. destruct l as [|p|p]; [reflexivity| |lia]. intros _.
  destruct p as [p|p|]; reflexivity.
Qed.

Lemma NOT_range (l v : Z) : 0 <= l < 2 * v -> 0 <= NOT l < 2 * v.
Proof.
  intros H. rewrite NOT_cases by lia.
  destruct (Z.even l) eqn:E.
  - apply Z.even_spec in E. destruct E as [k ->]. lia.
  - assert (Z.odd l = true) by now rewrite <- Z.negb_even, E.
    apply Z.odd_spec in H0. destruct H0 as [k ->]. lia.
Qed.

Lemma NOT_neq (l : Z) : 0 <= l -> NOT l <> l.
Proof. intros H. rewrite NOT_cases by lia. destruct (Z.even l); lia. Qed.

Lemma NOT_involutive (l : Z) : NOT (NOT l) = l.
Proof.
  unfold NOT. rewrite Z.lxor_assoc. change (Z.lxor 1 1) with 0.
  apply Z.lxor_0_r.
Qed.

Lemma peek_lookup {A} `{Inhabited A} (l : list A) (i : Z) (x : A) :
  l !! Z.to_nat i = Some x -> peek l i = x.
Proof. unfold peek. apply list_lookup_total_correct. Qed.

Lemma lookup_peek {A} `{Inhabited A} (l : list A) (i : Z) :
  0 <= i < Z.of_nat (length l) -> l !! Z.to_nat i = Some (peek l i).
Proof. intros Hi. unfold peek. apply list_lookup_lookup_total_lt. lia. Qed.

Lemma peek_alter_eq {A} `{Inhabited A} (f : A -> A) (l : list A) (i : Z) :
  0 <= i < Z.of_nat (length l) ->
  peek (alter f (Z.to_nat i) l) i = f (peek l i).
Proof. intros Hi. unfold peek. apply list_lookup_total_alter_eq. lia. Qed.

Lemma peek_alter_ne {A} `{Inhabited A} (f : A -> A) (l : list A) (i j : Z) :
  0 <= i -> 0 <= j -> i <> j ->
  peek (alter f (Z.to_nat i) l) j = peek l j.
Proof. intros Hi Hj Hne. unfold peek. apply list_lookup_total_alter_ne. lia. Qed.

Lemma peek_poke_eq {A} `{Inhabited A} (l : list A) (i : Z) (x : A) :
  0 <= i < Z.of_nat (length l) -> peek (poke l i x) i = x.
Proof. intros Hi. unfold peek, poke. apply list_lookup_total_insert_eq. lia. Qed.

Lemma peek_poke_ne {A} `{Inhabited A} (l : list A) (i j : Z) (x : A) :
  0 <= i -> 0 <= j -> i <> j -> peek (poke l i x) j = peek l j.
Proof. intros Hi Hj Hne. unfold peek, poke. apply list_lookup_total_insert_ne. lia. Qed.

Lemma length_poke {A} (l : list A) (i : Z) (x : A) :
  length (poke l i x) = length l.
Proof. unfold poke. apply length_insert. Qed.

(** ** Counting true literals through the watch lists *)

Lemma occurs_nonneg (r : Z) (ws : list Z) : 0 <= occurs r ws.
Proof. unfold occurs. lia. Qed.

Lemma occurs_nil (r : Z) : occurs r [] = 0.
Proof. reflexivity. Qed.

Lemma occurs_cons (r a : Z) (ws : list Z) :
  occurs r (a :: ws) = (if decide (a = r) then 1 else 0) + occurs r ws.
Proof.
  unfold occurs. cbn [count_occ].
  destruct (Z.eq_dec a r), (decide (a = r)); try contradiction; lia.
Qed.

Lemma occurs_app (r : Z) (ws ws' : list Z) :
  occurs r (ws ++ ws') = occurs r ws + occurs r ws'.
Proof. unfold occurs. rewrite count_occ_app. lia. Qed.

Lemma occurs_zero (r : Z) (ws : list Z) : occurs r ws = 0 <-> r ∉ ws.
Proof.
  unfold occurs. rewrite list_elem_of_In.
  pose proof (count_occ_not_In Z.eq_dec ws r) as Hc. split; intros Hr.
  - assert (count_occ Z.eq_dec ws r = 0%nat) by lia. tauto.
  - assert (count_occ Z.eq_dec ws r = 0%nat) by tauto. lia.
Qed.

Lemma occurs_positive (r : Z) (ws : list Z) : r ∈ ws -> 1 <= occurs r ws.
Proof.
  intros Hin. pose proof (occurs_nonneg r ws).
  destruct (Z.eq_dec (occurs r ws) 0) as [E|E]; [|lia].
  apply occurs_zero in E. contradiction.
Qed.

Lemma true_count_nonneg (r : Z) (vs : list value) (wss : list (list Z)) :
  0 <= true_count r vs wss.
Proof.
  revert wss. induction vs as [|v vs IH]; intros [|ws wss]; cbn; try lia.
  pose proof (occurs_nonneg r ws). pose proof (IH wss).
  destruct (0 <? v); lia.
Qed.

Lemma true_count_le_total (r : Z) (vs : list value) (wss : list (list Z)) :
  true_count r vs wss <= total_count r wss.
Proof.
  revert wss. induction vs as [|v vs IH]; intros [|ws wss]; cbn; try lia.
  - pose proof (occurs_nonneg r ws).
    assert (0 <= total_count r wss).
    { clear. induction wss as [|x wss IH]; cbn; [lia|].
      pose proof (occurs_nonneg r x). lia. }
    lia.
  - pose proof (occurs_nonneg r ws). pose proof (IH wss).
    destruct (0 <? v); lia.
Qed.

Lemma true_count_insert (r : Z) (vs : list value) (wss : list (list Z))
    (i : nat) (v v0 : value) (ws0 : list Z) :
  vs !! i = Some v0 -> wss !! i = Some ws0 ->
  true_count r (<[i := v]> vs) wss
  = true_count r vs wss - weight r v0 ws0 + weight r v ws0.
Proof.
  revert wss i. induction vs as [|x vs IH]; intros [|ws wss] i Hv Hw;
    try discriminate.
  destruct i as [|i].
  - injection Hv as ->. injection Hw as ->. cbn. unfold weight. lia.
  - cbn in Hv, Hw. change (<[S i:=v]> (x :: vs)) with (x :: <[i:=v]> vs).
    cbn [true_count]. rewrite (IH _ _ Hv Hw). lia.
Qed.

Lemma true_count_poke (r : Z) (vs : list value) (wss : list (list Z))
    (l : Z) (v : value) :
  0 <= l < Z.of_nat (length vs) -> length vs = length wss ->
  true_count r (poke vs l v) wss
  = true_count r vs wss - weight r (peek vs l) (peek wss l) + weight r v (peek wss l).
Proof.
  intros Hl Hlen. unfold poke.
  apply true_count_insert; apply lookup_peek; lia.
Qed.

Lemma true_count_ge_weight (r : Z) (vs : list value) (wss : list (list Z))
    (i : nat) (v0 : value) (ws0 : list Z) :
  vs !! i = Some v0 -> wss !! i = Some ws0 ->
  weight r v0 ws0 <= true_count r vs wss.
Proof.
  revert wss i. induction vs as [|x vs IH]; intros [|ws wss] i Hv Hw;
    try discriminate.
  destruct i as [|i].
  - injection Hv as ->. injection Hw as ->. cbn.
    pose proof (true_count_nonneg r vs wss). unfold weight. lia.
  - cbn in Hv, Hw. cbn. pose proof (IH _ _ Hv Hw).
    pose proof (occurs_nonneg r ws). destruct (0 <? x); lia.
Qed.

(** Appending a counter to the watch list of a literal. *)
Lemma true_count_push (r r' : Z) (vs : list value) (wss : list (list Z))
    (i : nat) (v0 : value) (ws0 : list Z) :
  vs !! i = Some v0 -> wss !! i = Some ws0 ->
  true_count r vs (<[i := ws0 ++ [r']]> wss)
  = true_count r vs wss
    + (if decide (r' = r) then (if 0 <? v0 then 1 else 0) else 0).
Proof.
  revert wss i. induction vs as [|x vs IH]; intros [|ws wss] i Hv Hw;
    try discriminate.
  destruct i as [|i].
  - injection Hv as ->. injection Hw as ->. cbn.
    rewrite occurs_app, occurs_cons, occurs_nil.
    destruct (decide (r' = r)), (0 <? v0); lia.
  - cbn in Hv, Hw.
    change (<[S i:=ws0 ++ [r']]> (ws :: wss)) with (ws :: <[i:=ws0 ++ [r']]> wss).
    cbn [true_count]. rewrite (IH _ _ Hv Hw). lia.
Qed.

Lemma total_count_push (r r' : Z) (wss : list (list Z)) (i : nat) (ws0 : list Z) :
  wss !! i = Some ws0 ->
  total_count r (<[i := ws0 ++ [r']]> wss)
  = total_count r wss + (if decide (r' = r) then 1 else 0).
Proof.
  revert i. induction wss as [|ws wss IH]; intros i Hw; try discriminate.
  destruct i as [|i].
  - injection Hw as ->. cbn. rewrite occurs_app, occurs_cons, occurs_nil.
    destruct (decide (r' = r)); lia.
  - cbn in Hw.
    change (<[S i:=ws0 ++ [r']]> (ws :: wss)) with (ws :: <[i:=ws0 ++ [r']]> wss).
    cbn [total_count]. rewrite (IH _ Hw). lia.
Qed.

Lemma true_count_zero (r : Z) (vs : list value) (wss : list (list Z)) (l : Z) :
  0 <= l < Z.of_nat (length vs) -> length vs = length wss ->
  true_count r vs wss = 0 -> 0 < peek vs l -> r ∉ peek wss l.
Proof.
  intros Hl Hlen H0 Hv.
  pose proof (true_count_ge_weight r vs wss (Z.to_nat l) _ _
                (lookup_peek vs l Hl) (lookup_peek wss l ltac:(lia))) as Hw.
  unfold weight in Hw. apply Z.ltb_lt in Hv. rewrite Hv in Hw.
  apply occurs_zero. pose proof (occurs_nonneg r (peek wss l)). lia.
Qed.

(** ** The unsat stack: [push_unsat] and [pop_unsat] under invariant A *)

Lemma stack_inv_NoDup (n : Z) (cs : list counter) (us : list Z) :
  stack_inv n cs us -> NoDup us.
Proof.
  intros (_ & _ & A1 & _). apply NoDup_alt. intros i j r Hi Hj.
  destruct (A1 _ _ Hi) as (_ & _ & Pi). destruct (A1 _ _ Hj) as (_ & _ & Pj).
  lia.
Qed.

Lemma stack_inv_length (n : Z) (cs : list counter) (us : list Z) :
  stack_inv n cs us -> Z.of_nat (length us) <= n.
Proof.
  intros H. pose proof (stack_inv_NoDup _ _ _ H) as Hnd.
  destruct H as (Hn & _ & A1 & _).
  assert (Hsub : us ⊆+ seqZ 0 n).
  { apply NoDup_submseteq; [assumption|]. intros r Hr.
    apply list_elem_of_lookup in Hr. destruct Hr as [i Hi].
    apply elem_of_seqZ. destruct (A1 _ _ Hi). lia. }
  apply submseteq_length in Hsub. rewrite length_seqZ in Hsub. lia.
Qed.

(** One round of the loop of [break_clauses]. *)
Lemma break_clause_stack (n : Z) (w : walker) (steps r : Z) :
  stack_inv n (counters w) (unsat w) ->
  0 <= r < n ->
  1 <= count (peek (counters w) r) < 2 ^ 32 ->
  let w' := fst (break_clause (w, steps) r) in
  stack_inv n (counters w') (unsat w')
  /\ count (peek (counters w') r) = count (peek (counters w) r) - 1
  /\ (forall r', 0 <= r' -> r' <> r ->
        count (peek (counters w') r') = count (peek (counters w) r')).
Proof.
  intros Hinv Hr Hc.
  pose proof (stack_inv_length _ _ _ Hinv) as Hlen.
  destruct Hinv as (Hn & Hn32 & A1 & A2).
  unfold break_clause. cbn zeta.
  set (cs := counters w) in *. set (us := unsat w) in *.
  set (c := count (peek cs r)) in *.
  rewrite (u32_small (c - 1)) by lia.
  assert (Hin : forall i x, us !! i = Some x -> x <> r).
  { intros i x Hi ->. destruct (A1 _ _ Hi) as (_ & Hz & _). fold c in Hz. lia. }
  destruct (c - 1 =? 0) eqn:Hz; cbn [negb fst].
  - apply Z.eqb_eq in Hz. unfold push_unsat.
    cbn [counters unsat set_counters set_unsat].
    fold cs us. rewrite (u32_small (Z.of_nat (length us))) by lia.
    set (cs1 := alter (set_count (c - 1)) (Z.to_nat r) cs).
    set (cs2 := alter (set_pos (Z.of_nat (length us))) (Z.to_nat r) cs1).
    assert (Hr2 : peek cs2 r = Counter (c - 1) (Z.of_nat (length us))).
    { unfold cs2, cs1. rewrite !peek_alter_eq by (rewrite ?length_alter; lia).
      reflexivity. }
    assert (Ho : forall r', 0 <= r' -> r' <> r -> peek cs2 r' = peek cs r').
    { intros r' H0 Hne. unfold cs2, cs1. now rewrite !peek_alter_ne by lia. }
    split; [|split].
    + split; [unfold cs2, cs1; rewrite !length_alter; assumption|].
      split; [assumption|]. split.
      * intros i x Hi. apply lookup_snoc_Some in Hi.
        destruct Hi as [[Hlt Hi]|[-> <-]].
        -- destruct (A1 _ _ Hi) as (Hx & Hcx & Hpx).
           rewrite Ho by (try apply (Hin i); assumption || lia). auto.
        -- rewrite Hr2. cbn. auto with lia.
      * intros r' Hr' Hc'. apply elem_of_app.
        destruct (Z.eq_dec r' r) as [->|Hne].
        -- right. now apply list_elem_of_singleton.
        -- left. apply A2; [assumption|]. now rewrite <- Ho by lia.
    + rewrite Hr2. reflexivity.
    + intros r' H0 Hne. now rewrite Ho.
  - apply Z.eqb_neq in Hz. cbn [counters unsat set_counters]. fold cs us.
    set (cs1 := alter (set_count (c - 1)) (Z.to_nat r) cs).
    assert (Hr1 : count (peek cs1 r) = c - 1).
    { unfold cs1. now rewrite peek_alter_eq by lia. }
    assert (Ho : forall r', 0 <= r' -> r' <> r -> peek cs1 r' = peek cs r').
    { intros r' H0 Hne. unfold cs1. now rewrite peek_alter_ne by lia. }
    split; [|split].
    + split; [unfold cs1; rewrite length_alter; assumption|].
      split; [assumption|]. split.
      * intros i x Hi. destruct (A1 _ _ Hi) as (Hx & Hcx & Hpx).
        rewrite Ho by (try apply (Hin i); assumption || lia). auto.
      * intros r' Hr' Hc'. destruct (Z.eq_dec r' r) as [->|Hne]; [lia|].
        apply A2; [assumption|]. now rewrite <- Ho by lia.
    + assumption.
    + intros r' H0 Hne. now rewrite Ho.
Qed.

(** One round of the loop of [make_clauses]: when the counter was 0 it is
    popped from the stack, the last element taking its place and its [pos]. *)
Lemma make_clause_stack (n : Z) (w : walker) (steps r : Z) :
  stack_inv n (counters w) (unsat w) ->
  0 <= r < n ->
  0 <= count (peek (counters w) r) < 2 ^ 32 - 1 ->
  let w' := fst (make_clause (w, steps) r) in
  stack_inv n (counters w') (unsat w')
  /\ count (peek (counters w') r) = count (peek (counters w) r) + 1
  /\ (forall r', 0 <= r' -> r' <> r ->
        count (peek (counters w') r') = count (peek (counters w) r')).
Proof.
  intros Hinv Hr Hc.
  pose proof (stack_inv_NoDup _ _ _ Hinv) as Hnd.
  destruct Hinv as (Hn & Hn32 & A1 & A2).
  unfold make_clause. cbn zeta.
  set (cs := counters w) in *. set (us := unsat w) in *.
  set (c := count (peek cs r)) in *.
  rewrite (u32_small (c + 1)) by lia.
  set (cs1 := alter (set_count (c + 1)) (Z.to_nat r) cs).
  assert (Hr1 : peek cs1 r = Counter (c + 1) (pos (peek cs r))).
  { unfold cs1. now rewrite peek_alter_eq by lia. }
  assert (Ho1 : forall r', 0 <= r' -> r' <> r -> peek cs1 r' = peek cs r').
  { intros r' H0 Hne. unfold cs1. now rewrite peek_alter_ne by lia. }
  destruct (c =? 0) eqn:Hz; cbn [negb].
  - apply Z.eqb_eq in Hz.
    cbn [counters set_counters]. fold cs. fold cs1. rewrite Hr1. cbn [pos].
    (* the counter is on the stack, at the index its [pos] holds *)
    assert (Hru : r ∈ us) by (apply A2; assumption).
    apply list_elem_of_lookup in Hru. destruct Hru as [i Hi].
    destruct (A1 _ _ Hi) as (_ & _ & Hp). rewrite Hp.
    unfold pop_unsat. cbn [unsat set_counters set_unsat set_current counters].
    fold us.
    destruct us as [|o us0 _] using rev_ind; [discriminate|].
    rewrite last_snoc, removelast_last. cbn [default from_option id].
    assert (Ho : (us0 ++ [o]) !! length us0 = Some o).
    { apply lookup_snoc_Some. auto. }
    destruct (r =? o) eqn:Hro; cbn [fst snd counters unsat set_counters
      set_unsat set_current].
    + apply Z.eqb_eq in Hro. subst o.
      assert (i = length us0) by (apply (proj1 (NoDup_alt _) Hnd _ _ r); assumption).
      subst i. fold cs1. split; [|split].
      * split; [unfold cs1; rewrite length_alter; assumption|].
        split; [assumption|]. split.
        -- intros j x Hj.
           assert (Hj' : (us0 ++ [r]) !! j = Some x)
             by (apply lookup_snoc_Some; left; split;
                 [now apply lookup_lt_Some in Hj|assumption]).
           destruct (A1 _ _ Hj') as (Hx & Hcx & Hpx).
           assert (x <> r).
           { intros ->. apply lookup_lt_Some in Hj.
             pose proof (proj1 (NoDup_alt _) Hnd _ _ _ Hj' Ho). lia. }
           rewrite Ho1 by lia. auto.
        -- intros r' Hr' Hc'. destruct (Z.eq_dec r' r) as [->|Hne].
           ++ rewrite Hr1 in Hc'. cbn in Hc'. lia.
           ++ rewrite Ho1 in Hc' by lia. apply A2 in Hc'; [|assumption].
              apply elem_of_app in Hc'. destruct Hc' as [?|H1]; [assumption|].
              apply list_elem_of_singleton in H1. contradiction.
      * rewrite Hr1. reflexivity.
      * intros r' H0 Hne. now rewrite Ho1.
    + apply Z.eqb_neq in Hro.
      destruct (A1 _ _ Ho) as (Hor & Hoc & Hop).
      assert (Hilt : (i < length us0)%nat).
      { pose proof (lookup_lt_Some _ _ _ Hi) as Hl. rewrite length_app in Hl.
        cbn in Hl. destruct (Nat.eq_dec i (length us0)) as [->|]; [|lia].
        rewrite Ho in Hi. congruence. }
      unfold poke. rewrite Nat2Z.id.
      set (cs2 := alter (set_pos (Z.of_nat i)) (Z.to_nat o) cs1).
      assert (Hr2 : peek cs2 r = Counter (c + 1) (pos (peek cs r))).
      { unfold cs2. rewrite peek_alter_ne by lia. assumption. }
      assert (Ho2 : peek cs2 o = Counter 0 (Z.of_nat i)).
      { unfold cs2. rewrite peek_alter_eq
          by (unfold cs1; rewrite length_alter; lia).
        rewrite Ho1 by lia. unfold set_pos. now rewrite Hoc. }
      assert (Hx2 : forall r', 0 <= r' -> r' <> r -> r' <> o ->
                               peek cs2 r' = peek cs r').
      { intros r' H0 H1 H2. unfold cs2. rewrite peek_alter_ne by lia.
        now apply Ho1. }
      split; [|split].
      * split; [unfold cs2, cs1; rewrite !length_alter; assumption|].
        split; [assumption|]. split.
        -- intros j x Hj. apply list_lookup_insert_Some in Hj.
           destruct Hj as [(<- & <- & _)|[Hne Hj]].
           ++ rewrite Ho2. cbn. auto.
           ++ assert (Hj' : (us0 ++ [o]) !! j = Some x)
                by (apply lookup_snoc_Some; left; split;
                    [now apply lookup_lt_Some in Hj|assumption]).
              destruct (A1 _ _ Hj') as (Hx & Hcx & Hpx).
              assert (x <> r).
              { intros ->. pose proof (proj1 (NoDup_alt _) Hnd _ _ _ Hj' Hi).
                lia. }
              assert (x <> o).
              { intros ->. apply lookup_lt_Some in Hj.
                pose proof (proj1 (NoDup_alt _) Hnd _ _ _ Hj' Ho). lia. }
              rewrite Hx2 by lia. auto.
        -- intros r' Hr' Hc'. destruct (Z.eq_dec r' r) as [->|Hne].
           { rewrite Hr2 in Hc'. cbn in Hc'. lia. }
           destruct (Z.eq_dec r' o) as [->|Hne'].
           { now apply list_elem_of_insert. }
           rewrite Hx2 in Hc' by lia. apply A2 in Hc'; [|assumption].
           apply list_elem_of_lookup in Hc'. destruct Hc' as [j Hj].
           apply lookup_snoc_Some in Hj. destruct Hj as [[Hlt Hj]|[_ ->]];
             [|contradiction].
           apply list_elem_of_lookup. exists j.
           apply list_lookup_insert_Some. right. split; [|assumption].
           intros <-.
           assert ((us0 ++ [o]) !! i = Some r')
             by (apply lookup_snoc_Some; auto).
           congruence.
      * rewrite Hr2. reflexivity.
      * intros r' H0 Hne. destruct (Z.eq_dec r' o) as [->|Hne'].
        -- rewrite Ho2. cbn. now rewrite Hoc.
        -- now rewrite Hx2.
  - apply Z.eqb_neq in Hz. cbn [fst counters unsat set_counters]. fold cs us cs1.
    assert (Hin : forall i x, us !! i = Some x -> x <> r).
    { intros i x Hi ->. destruct (A1 _ _ Hi) as (_ & Hzz & _). fold c in Hzz. lia. }
    split; [|split].
    + split; [unfold cs1; rewrite length_alter; assumption|].
      split; [assumption|]. split.
      * intros i x Hi. destruct (A1 _ _ Hi) as (Hx & Hcx & Hpx).
        rewrite Ho1 by (try apply (Hin i); assumption || lia). auto.
      * intros r' Hr' Hc'. destruct (Z.eq_dec r' r) as [->|Hne].
        -- rewrite Hr1 in Hc'. cbn in Hc'. lia.
        -- apply A2; [assumption|]. now rewrite <- Ho1 by lia.
    + rewrite Hr1. reflexivity.
    + intros r' H0 Hne. now rewrite Ho1.
Qed.

(** ** [make_clauses], [break_clauses] and [flip_literal] under the invariant *)

Lemma make_clauses_loop (n : Z) (ws : list Z) (w : walker) (steps : Z) :
  stack_inv n (counters w) (unsat w) ->
  (forall r, r ∈ ws -> 0 <= r < n) ->
  (forall r, 0 <= r < n ->
     0 <= count (peek (counters w) r)
     /\ count (peek (counters w) r) + occurs r ws < 2 ^ 32) ->
  let w' := fst (fold_left make_clause ws (w, steps)) in
  stack_inv n (counters w') (unsat w')
  /\ (forall r, 0 <= r < n ->
        count (peek (counters w') r) = count (peek (counters w) r) + occurs r ws).
Proof.
  revert w steps. induction ws as [|a ws IH]; intros w steps Hinv Hws Hc.
  - cbn. split; [assumption|]. intros r Hr. rewrite occurs_nil. lia.
  - cbn [fold_left].
    assert (Ha : 0 <= a < n) by (apply Hws; left).
    assert (Hca : 0 <= count (peek (counters w) a) < 2 ^ 32 - 1).
    { destruct (Hc a Ha) as [H0 H1]. rewrite occurs_cons in H1.
      rewrite decide_True in H1 by reflexivity.
      pose proof (occurs_nonneg a ws). lia. }
    destruct (make_clause_stack n w steps a Hinv Ha Hca) as (Hinv1 & Hca1 & Ho1).
    destruct (make_clause (w, steps) a) as [w1 steps1]. cbn [fst] in *.
    destruct (IH w1 steps1 Hinv1) as [Hinv2 Hc2].
    + intros r Hr. apply Hws. now right.
    + intros r Hr. destruct (Hc r Hr) as [H0 H1]. rewrite occurs_cons in H1.
      pose proof (occurs_nonneg r ws).
      destruct (decide (a = r)) as [->|Hne].
      * rewrite Hca1. lia.
      * rewrite Ho1 by lia. lia.
    + split; [assumption|]. intros r Hr. rewrite (Hc2 r Hr), occurs_cons.
      destruct (decide (a = r)) as [->|Hne].
      * rewrite Hca1. lia.
      * rewrite Ho1 by lia. lia.
Qed.

Lemma break_clauses_loop (n : Z) (ws : list Z) (w : walker) (steps : Z) :
  stack_inv n (counters w) (unsat w) ->
  (forall r, r ∈ ws -> 0 <= r < n) ->
  (forall r, 0 <= r < n ->
     occurs r ws <= count (peek (counters w) r) < 2 ^ 32) ->
  let w' := fst (fold_left break_clause ws (w, steps)) in
  stack_inv n (counters w') (unsat w')
  /\ (forall r, 0 <= r < n ->
        count (peek (counters w') r) = count (peek (counters w) r) - occurs r ws).
Proof.
  revert w steps. induction ws as [|a ws IH]; intros w steps Hinv Hws Hc.
  - cbn. split; [assumption|]. intros r Hr. rewrite occurs_nil. lia.
  - cbn [fold_left].
    assert (Ha : 0 <= a < n) by (apply Hws; left).
    assert (Hca : 1 <= count (peek (counters w) a) < 2 ^ 32).
    { destruct (Hc a Ha) as [H0 H1]. rewrite occurs_cons in H0.
      rewrite decide_True in H0 by reflexivity.
      pose proof (occurs_nonneg a ws). lia. }
    destruct (break_clause_stack n w steps a Hinv Ha Hca) as (Hinv1 & Hca1 & Ho1).
    destruct (break_clause (w, steps) a) as [w1 steps1]. cbn [fst] in *.
    destruct (IH w1 steps1 Hinv1) as [Hinv2 Hc2].
    + intros r Hr. apply Hws. now right.
    + intros r Hr. destruct (Hc r Hr) as [H0 H1]. rewrite occurs_cons in H0.
      pose proof (occurs_nonneg r ws).
      destruct (decide (a = r)) as [->|Hne].
      * rewrite Hca1. lia.
      * rewrite Ho1 by lia. lia.
    + split; [assumption|]. intros r Hr. rewrite (Hc2 r Hr), occurs_cons.
      destruct (decide (a = r)) as [->|Hne].
      * rewrite Hca1. lia.
      * rewrite Ho1 by lia. lia.
Qed.

Section Flip.

Context {host : Host}.

Lemma make_clauses_counters (w : walker) (lit : Z) :
  let w' := fst (fold_left make_clause (peek (watches (solver w)) lit) (w, 1)) in
  counters (make_clauses w lit) = counters w'
  /\ unsat (make_clauses w lit) = unsat w'.
Proof.
  unfold make_clauses. destruct (fold_left _ _ _) as [w' steps]. split; reflexivity.
Qed.

Lemma break_clauses_counters (w : walker) (lit : Z) :
  let w' := fst (fold_left break_clause (peek (watches (solver w)) (NOT lit)) (w, 1)) in
  counters (break_clauses w lit) = counters w'
  /\ unsat (break_clauses w lit) = unsat w'.
Proof.
  unfold break_clauses. destruct (fold_left _ _ _) as [w' steps]. split; reflexivity.
Qed.

Lemma counting_rest_fields (w w' : walker) :
  counting_rest w' = counting_rest w ->
  values (solver w') = values (solver w)
  /\ watches (solver w') = watches (solver w)
  /\ vars (solver w') = vars (solver w)
  /\ arena (solver w') = arena (solver w)
  /\ refs w' = refs w /\ binaries w' = binaries w.
Proof.
  unfold counting_rest. intros H. injection H. intros.
  repeat split; assumption.
Qed.

(** Setting a literal and its negation to opposite values keeps the
    assignment symmetric. *)
Lemma symmetric_poke (vs : list value) (l : Z) (a : value) (v : Z) :
  Z.of_nat (length vs) = 2 * v ->
  symmetric vs -> 0 <= l < 2 * v ->
  symmetric (poke (poke vs l a) (NOT l) (- a)).
Proof.
  intros Hlen Hs Hl k Hk. rewrite !length_poke in Hk.
  pose proof (NOT_range l v Hl) as Hnl. pose proof (NOT_neq l ltac:(lia)) as Hne.
  pose proof (NOT_range k v ltac:(lia)) as Hnk.
  destruct (Z.eq_dec k l) as [->|Hkl].
  - rewrite peek_poke_eq by (rewrite length_poke; lia).
    rewrite (peek_poke_ne _ (NOT l) l) by lia.
    rewrite peek_poke_eq by lia. reflexivity.
  - destruct (Z.eq_dec k (NOT l)) as [->|Hknl].
    + rewrite NOT_involutive.
      rewrite (peek_poke_ne _ (NOT l) l) by lia.
      rewrite peek_poke_eq by lia.
      rewrite peek_poke_eq by (rewrite length_poke; lia). lia.
    + assert (NOT k <> l).
      { intros E. apply Hknl. rewrite <- E. now rewrite NOT_involutive. }
      assert (NOT k <> NOT l).
      { intros E. apply Hkl. rewrite <- (NOT_involutive k), E.
        apply NOT_involutive. }
      rewrite !peek_poke_ne by lia. apply Hs. lia.
Qed.

(** [flip_literal] keeps the invariant of the walker, and with it
    invariant A. *)
Lemma flip_literal_inv (n : Z) (w : walker) (flip : Z) :
  walker_inv n w ->
  0 <= flip < LITS (solver w) ->
  peek (values (solver w)) flip < 0 ->
  walker_inv n (flip_literal w flip).
Proof.
  intros (Hv0 & Hlv & Hlw & Hsym & Hwr & Hst & Hcnt & Htot & Hcur) Hflip Hneg.
  unfold LITS in *.
  set (s := solver w) in *. set (vs := values s) in *.
  set (wss := watches s) in *. set (v := peek vs flip) in *.
  pose proof (NOT_range flip _ Hflip) as Hnf.
  pose proof (NOT_neq flip ltac:(lia)) as Hne.
  assert (Hnv : peek vs (NOT flip) = - v) by (apply Hsym; lia).
  set (v1 := poke vs flip (- v)).
  set (v2 := poke v1 (NOT flip) v).
  set (w1 := set_solver (set_values v2 (set_values v1 s)) w).
  assert (Hflipeq : flip_literal w flip
                    = set_current
                        (currently_unsatified
                           (break_clauses (make_clauses w1 flip) flip))
                        (break_clauses (make_clauses w1 flip) flip))
    by reflexivity.
  (* the watch lists of the two literals *)
  assert (Hwin : forall l, 0 <= l < 2 * vars s -> peek wss l ∈ wss).
  { intros l Hl. apply list_elem_of_lookup. exists (Z.to_nat l).
    apply lookup_peek. lia. }
  (* the counts after the first write *)
  assert (Hlen1 : length v1 = length wss) by (unfold v1; rewrite length_poke; lia).
  assert (Htc1 : forall r, true_count r v1 wss
                           = true_count r vs wss + occurs r (peek wss flip)).
  { intros r. unfold v1. rewrite true_count_poke by lia. fold v.
    unfold weight. assert (E1 : (0 <? v) = false) by (apply Z.ltb_ge; lia).
    assert (E2 : (0 <? - v) = true) by (apply Z.ltb_lt; lia).
    rewrite E1, E2. lia. }
  assert (Hp1 : peek v1 (NOT flip) = - v).
  { unfold v1. rewrite peek_poke_ne by lia. assumption. }
  assert (Htc2 : forall r, true_count r v2 wss
                           = true_count r v1 wss - occurs r (peek wss (NOT flip))).
  { intros r. unfold v2. rewrite true_count_poke by lia. rewrite Hp1.
    unfold weight. assert (E1 : (0 <? v) = false) by (apply Z.ltb_ge; lia).
    assert (E2 : (0 <? - v) = true) by (apply Z.ltb_lt; lia).
    rewrite E1, E2. lia. }
  (* the make pass *)
  destruct (make_clauses_counters w1 flip) as [Hmc Hmu]. cbv zeta in Hmc, Hmu.
  change (watches (solver w1)) with wss in Hmc, Hmu.
  destruct (make_clauses_loop n (peek wss flip) w1 1) as [Hst1 Hc1].
  { exact Hst. }
  { intros r Hr. apply (Hwr (peek wss flip)); [apply Hwin; lia|assumption]. }
  { intros r Hr. change (counters w1) with (counters w). rewrite (Hcnt r Hr).
    split; [apply true_count_nonneg|].
    pose proof (true_count_le_total r v1 wss). rewrite Htc1 in H.
    pose proof (Htot r Hr). lia. }
  rewrite <- Hmc, <- Hmu in Hst1. rewrite <- Hmc in Hc1.
  pose proof (counting_rest_fields _ _ (make_clauses_rest w1 flip))
    as (Hmv & Hmw & Hmvars & _).
  (* the break pass *)
  destruct (break_clauses_counters (make_clauses w1 flip) flip) as [Hbc Hbu].
  cbv zeta in Hbc, Hbu. rewrite Hmw in Hbc, Hbu.
  change (watches (solver w1)) with wss in Hbc, Hbu.
  destruct (break_clauses_loop n (peek wss (NOT flip)) (make_clauses w1 flip) 1)
    as [Hst2 Hc2].
  { exact Hst1. }
  { intros r Hr. apply (Hwr (peek wss (NOT flip))); [apply Hwin; lia|assumption]. }
  { intros r Hr. rewrite (Hc1 r Hr). change (counters w1) with (counters w).
    rewrite (Hcnt r Hr), <- Htc1. split.
    - assert (L1 : v1 !! Z.to_nat (NOT flip) = Some (peek v1 (NOT flip)))
        by (apply lookup_peek; lia).
      assert (L2 : wss !! Z.to_nat (NOT flip) = Some (peek wss (NOT flip)))
        by (apply lookup_peek; lia).
      pose proof (true_count_ge_weight r v1 wss _ _ _ L1 L2) as Hw.
      rewrite Hp1 in Hw. unfold weight in Hw.
      assert (E2 : (0 <? - v) = true) by (apply Z.ltb_lt; lia).
      now rewrite E2 in Hw.
    - pose proof (true_count_le_total r v1 wss). pose proof (Htot r Hr). lia. }
  rewrite <- Hbc, <- Hbu in Hst2. rewrite <- Hbc in Hc2.
  pose proof (counting_rest_fields _ _ (break_clauses_rest (make_clauses w1 flip) flip))
    as (Hbv & Hbw & Hbvars & _).
  rewrite Hflipeq. revert Hst2 Hc2 Hbv Hbw Hbvars.
  generalize (break_clauses (make_clauses w1 flip) flip). intros w3 Hst2 Hc2 Hbv Hbw Hbvars.
  rewrite Hmv in Hbv. rewrite Hmw in Hbw. rewrite Hmvars in Hbvars.
  change (values (solver w1)) with v2 in Hbv.
  change (watches (solver w1)) with wss in Hbw.
  change (vars (solver w1)) with (vars s) in Hbvars.
  unfold walker_inv, LITS. cbn [solver set_current counters unsat current].
  rewrite Hbv, Hbw, Hbvars.
  split; [assumption|].
  split; [unfold v2, v1; rewrite !length_poke; assumption|].
  split; [assumption|].
  split; [apply (symmetric_poke vs flip (- v) (vars s)) in Hsym;
          [now rewrite Z.opp_involutive in Hsym|lia|lia]|].
  split; [assumption|]. split; [assumption|].
  split.
  { intros r Hr. rewrite (Hc2 r Hr), (Hc1 r Hr).
    change (counters w1) with (counters w).
    rewrite (Hcnt r Hr), Htc2, Htc1. reflexivity. }
  split; [assumption|].
  unfold currently_unsatified. apply u32_small.
  pose proof (stack_inv_length _ _ _ Hst2). destruct Hst2 as (_ & ? & _). lia.
Qed.

End Flip.

(** The invariant of the walker gives invariant A as the specification
    states it. *)
Lemma walker_inv_invariant_A (n : Z) (w : walker) :
  walker_inv n w -> invariant_A w.
Proof.
  intros (_ & _ & _ & _ & Hwr & (Hn & _ & A1 & A2) & _). intros r. split.
  - split.
    + intros Hr. split; [now right|].
      apply list_elem_of_lookup in Hr. destruct Hr as [i Hi].
      now destruct (A1 _ _ Hi) as (_ & ? & _).
    + intros [[(ws & Hws & Hr)|Hr] Hc]; [|assumption].
      apply A2; [|assumption]. now apply (Hwr ws).
  - intros i Hi. now destruct (A1 _ _ Hi) as (_ & _ & ?).
Qed.

(** ** Registering a counter in the watch lists *)

Lemma watch_counter_length (vs : list value) (r : Z) (wss : list (list Z)) (l : Z) :
  length (watch_counter vs r wss l) = length wss.
Proof. unfold watch_counter. destruct (_ =? _); [reflexivity|apply length_poke]. Qed.

Lemma push_watches_length (vs : list value) (r : Z) (lits : list Z)
    (wss : list (list Z)) :
  length (push_watches vs r lits wss) = length wss.
Proof.
  unfold push_watches. revert wss.
  induction lits as [|l lits IH]; intros wss; [reflexivity|].
  cbn. now rewrite IH, watch_counter_length.
Qed.

Lemma true_lits_cons (vs : list value) (l : Z) (lits : list Z) :
  Z.of_nat (length (true_lits vs (l :: lits)))
  = (if 0 <? peek vs l then 1 else 0) + Z.of_nat (length (true_lits vs lits)).
Proof.
  unfold true_lits. rewrite filter_cons.
  destruct (decide (0 < peek vs l)) as [H|H].
  - apply Z.ltb_lt in H. rewrite H. cbn [length]. lia.
  - apply Z.ltb_nlt in H. rewrite H. lia.
Qed.

Lemma assigned_lits_cons (vs : list value) (l : Z) (lits : list Z) :
  Z.of_nat (length (assigned_lits vs (l :: lits)))
  = (if peek vs l =? 0 then 0 else 1) + Z.of_nat (length (assigned_lits vs lits)).
Proof.
  unfold assigned_lits. rewrite filter_cons.
  destruct (decide (peek vs l <> 0)) as [H|H].
  - apply Z.eqb_neq in H. rewrite H. cbn [length]. lia.
  - assert (E : peek vs l = 0) by lia. rewrite E. cbn. lia.
Qed.

Lemma true_lits_le (vs : list value) (lits : list Z) :
  Z.of_nat (length (true_lits vs lits)) <= Z.of_nat (length lits).
Proof. unfold true_lits. pose proof (length_filter (fun l => 0 < peek vs l) lits). lia. Qed.

Lemma assigned_lits_le (vs : list value) (lits : list Z) :
  Z.of_nat (length (assigned_lits vs lits)) <= Z.of_nat (length lits).
Proof.
  unfold assigned_lits.
  pose proof (length_filter (fun l => peek vs l <> 0) lits). lia.
Qed.

Lemma push_watches_true_count (vs : list value) (r r' : Z) (lits : list Z)
    (wss : list (list Z)) :
  length vs = length wss ->
  (forall l, l ∈ lits -> 0 <= l < Z.of_nat (length vs)) ->
  true_count r' vs (push_watches vs r lits wss)
  = true_count r' vs wss
    + (if decide (r = r') then Z.of_nat (length (true_lits vs lits)) else 0).
Proof.
  unfold push_watches. revert wss.
  induction lits as [|l lits IH]; intros wss Hlen Hl.
  - cbn. destruct (decide (r = r')); lia.
  - cbn [fold_left]. rewrite IH.
    + rewrite true_lits_cons. unfold watch_counter.
      assert (Hr : 0 <= l < Z.of_nat (length vs)) by (apply Hl; left).
      destruct (peek vs l =? 0) eqn:Hz.
      * apply Z.eqb_eq in Hz. rewrite Hz. cbn. destruct (decide (r = r')); lia.
      * unfold poke.
        rewrite (true_count_push r' r vs wss (Z.to_nat l) (peek vs l) (peek wss l))
          by (apply lookup_peek; lia).
        destruct (decide (r = r')), (0 <? peek vs l); lia.
    + now rewrite watch_counter_length.
    + intros l' Hl'. apply Hl. now right.
Qed.

Lemma push_watches_total_count (vs : list value) (r r' : Z) (lits : list Z)
    (wss : list (list Z)) :
  (forall l, l ∈ lits -> 0 <= l < Z.of_nat (length wss)) ->
  total_count r' (push_watches vs r lits wss)
  = total_count r' wss
    + (if decide (r = r') then Z.of_nat (length (assigned_lits vs lits)) else 0).
Proof.
  unfold push_watches. revert wss.
  induction lits as [|l lits IH]; intros wss Hl.
  - cbn. destruct (decide (r = r')); lia.
  - cbn [fold_left]. rewrite IH.
    + rewrite assigned_lits_cons. unfold watch_counter.
      assert (Hr : 0 <= l < Z.of_nat (length wss)) by (apply Hl; left).
      destruct (peek vs l =? 0) eqn:Hz.
      * destruct (decide (r = r')); lia.
      * unfold poke.
        rewrite (total_count_push r' r wss (Z.to_nat l) (peek wss l))
          by (apply lookup_peek; lia).
        destruct (decide (r = r')); lia.
    + intros l' Hl'. rewrite watch_counter_length. apply Hl. now right.
Qed.

Lemma watch_counter_elem (vs : list value) (r : Z) (wss : list (list Z))
    (l : Z) (ws : list Z) (x : Z) :
  ws ∈ watch_counter vs r wss l -> x ∈ ws ->
  x = r \/ exists ws0, ws0 ∈ wss /\ x ∈ ws0.
Proof.
  unfold watch_counter. destruct (_ =? _); [eauto|].
  unfold poke. intros Hws Hx. apply list_elem_of_lookup in Hws.
  destruct Hws as [i Hi]. apply list_lookup_insert_Some in Hi.
  destruct Hi as [(<- & <- & Hlt)|[Hne Hi]].
  - apply elem_of_app in Hx. destruct Hx as [Hx|Hx].
    + right. exists (peek wss l). split; [|assumption].
      apply list_elem_of_lookup. exists (Z.to_nat l).
      unfold peek. now apply list_lookup_lookup_total_lt.
    + left. now apply list_elem_of_singleton in Hx.
  - right. exists ws. split; [|assumption].
    apply list_elem_of_lookup. eauto.
Qed.

Lemma push_watches_elem (vs : list value) (r : Z) (lits : list Z)
    (wss : list (list Z)) (ws : list Z) (x : Z) :
  ws ∈ push_watches vs r lits wss -> x ∈ ws ->
  x = r \/ exists ws0, ws0 ∈ wss /\ x ∈ ws0.
Proof.
  unfold push_watches. revert wss.
  induction lits as [|l lits IH]; intros wss Hws Hx; [eauto|].
  cbn [fold_left] in Hws. destruct (IH _ Hws Hx) as [?|(ws0 & Hws0 & Hx0)];
    [auto|].
  now apply (watch_counter_elem vs r wss l ws0).
Qed.

Lemma watch_counter_peek (vs : list value) (r : Z) (wss : list (list Z))
    (l l' : Z) :
  0 <= l < Z.of_nat (length wss) -> 0 <= l' ->
  peek (watch_counter vs r wss l) l'
  = if decide (l = l' /\ peek vs l <> 0) then peek wss l ++ [r] else peek wss l'.
Proof.
  intros Hl Hl'. unfold watch_counter.
  destruct (peek vs l =? 0) eqn:Hz.
  - apply Z.eqb_eq in Hz. rewrite decide_False by lia. reflexivity.
  - apply Z.eqb_neq in Hz. destruct (Z.eq_dec l l') as [->|Hne].
    + rewrite decide_True by auto. now apply peek_poke_eq.
    + rewrite decide_False by lia. now apply peek_poke_ne.
Qed.

Lemma push_watches_mono (vs : list value) (r : Z) (lits : list Z)
    (wss : list (list Z)) (l' x : Z) :
  (forall l, l ∈ lits -> 0 <= l < Z.of_nat (length wss)) -> 0 <= l' ->
  x ∈ peek wss l' -> x ∈ peek (push_watches vs r lits wss) l'.
Proof.
  unfold push_watches. revert wss.
  induction lits as [|l lits IH]; intros wss Hl Hl' Hx; [assumption|].
  cbn [fold_left].
  assert (Hk : 0 <= l < Z.of_nat (length wss)) by (apply Hl; left).
  apply IH.
  - intros k Hk'. rewrite watch_counter_length. apply Hl. now right.
  - assumption.
  - rewrite watch_counter_peek by lia.
    destruct (decide _) as [[-> _]|_]; [|assumption].
    apply elem_of_app. now left.
Qed.

Lemma push_watches_in (vs : list value) (r : Z) (lits : list Z)
    (wss : list (list Z)) (l : Z) :
  (forall l, l ∈ lits -> 0 <= l < Z.of_nat (length wss)) ->
  l ∈ lits -> peek vs l <> 0 ->
  r ∈ peek (push_watches vs r lits wss) l.
Proof.
  unfold push_watches. revert wss.
  induction lits as [|k lits IH]; intros wss Hl Hin Hv.
  - now apply elem_of_nil in Hin.
  - cbn [fold_left].
    assert (Hk : 0 <= k < Z.of_nat (length wss)) by (apply Hl; left).
    assert (Hl' : forall l0, l0 ∈ lits ->
                    0 <= l0 < Z.of_nat (length (watch_counter vs r wss k))).
    { intros l0 H0. rewrite watch_counter_length. apply Hl. now right. }
    destruct (Z.eq_dec k l) as [->|Hne].
    + apply (push_watches_mono vs r lits); [assumption|lia|].
      rewrite watch_counter_peek by lia. rewrite decide_True by auto.
      apply elem_of_app. right. now apply list_elem_of_singleton.
    + apply IH; [assumption| |assumption].
      apply elem_of_cons in Hin. destruct Hin as [->|?]; [congruence|assumption].
Qed.

(** The second inner loop of [connect_large_counters] registers the counter
    and counts the true and the assigned literals. *)
Lemma connect_large_literals (r : Z) (lits : list Z) (s : kissat) (c z : Z) :
  0 <= c -> 0 <= z ->
  c + Z.of_nat (length lits) < 2 ^ 32 ->
  z + Z.of_nat (length lits) < 2 ^ 32 ->
  fold_left (connect_large_literal r) lits (s, c, z)
  = (set_watches (push_watches (values s) r lits (watches s)) s,
     c + Z.of_nat (length (true_lits (values s) lits)),
     z + Z.of_nat (length (assigned_lits (values s) lits))).
Proof.
  revert s c z. induction lits as [|l lits IH]; intros s c z Hc Hz Hcl Hzl.
  - cbn. rewrite !Z.add_0_r. now destruct s.
  - cbn [fold_left length] in *. unfold connect_large_literal at 2.
    rewrite true_lits_cons, assigned_lits_cons.
    unfold push_watches. cbn [fold_left]. unfold watch_counter at 2.
    destruct (peek (values s) l =? 0) eqn:Hv.
    + apply Z.eqb_eq in Hv. rewrite IH by lia. rewrite Hv. cbn.
      rewrite !Z.add_0_l. reflexivity.
    + pose proof (true_lits_le (values s) lits).
      pose proof (assigned_lits_le (values s) lits).
      rewrite IH.
      * unfold kissat_push_large_watch. cbn [values watches set_watches].
        unfold push_watches.
        destruct (0 <? peek (values s) l);
          rewrite ?u32_small by lia;
          repeat match goal with
                 | |- (_, _) = (_, _) => apply f_equal2
                 end;
          try reflexivity; lia.
      * destruct (0 <? peek (values s) l); [apply u32_range|lia].
      * apply u32_range.
      * destruct (0 <? peek (values s) l); rewrite ?u32_small by lia; lia.
      * rewrite u32_small by lia. lia.
Qed.

(** ** Connecting one counter *)

Lemma walker_inv_ext (n : Z) (w w' : walker) :
  vars (solver w') = vars (solver w) ->
  values (solver w') = values (solver w) ->
  watches (solver w') = watches (solver w) ->
  counters w' = counters w ->
  unsat w' = unsat w ->
  current w' = current w ->
  walker_inv n w -> walker_inv n w'.
Proof.
  unfold walker_inv, LITS. intros -> -> -> -> -> ->. tauto.
Qed.

Lemma connect_inv_ext (n : Z) (w w' : walker) :
  vars (solver w') = vars (solver w) ->
  values (solver w') = values (solver w) ->
  watches (solver w') = watches (solver w) ->
  counters w' = counters w ->
  unsat w' = unsat w ->
  connect_inv n w -> connect_inv n w'.
Proof.
  unfold connect_inv. intros H1 H2 H3 H4 H5.
  apply walker_inv_ext; cbn; congruence.
Qed.

Lemma total_count_zero (r : Z) (wss : list (list Z)) :
  (forall ws, ws ∈ wss -> r ∉ ws) -> total_count r wss = 0.
Proof.
  induction wss as [|ws wss IH]; intros H; [reflexivity|].
  cbn. rewrite IH by (intros ws' Hws'; apply H; now right).
  assert (E : occurs r ws = 0) by (apply occurs_zero, H; left). lia.
Qed.

Lemma MAX_WALK_REF_value : MAX_WALK_REF = 2 ^ 31 - 1.
Proof. reflexivity. Qed.

(** A new counter [n] for a clause with the literals [lits]: registered
    with its assigned literals, its count the number of true ones, pushed
    on the unsat stack when that is 0. *)
Lemma connect_counter_inv (n : Z) (w : walker) (lits : list Z) :
  connect_inv n w ->
  Z.of_nat (length (counters w)) <= MAX_WALK_REF ->
  n < Z.of_nat (length (counters w)) ->
  (forall l, l ∈ lits -> 0 <= l < LITS (solver w)) ->
  Z.of_nat (length lits) < 2 ^ 32 ->
  let s := solver w in
  let k := Z.of_nat (length (true_lits (values s) lits)) in
  let w1 := set_counters (alter (set_count k) (Z.to_nat n) (counters w))
              (set_solver
                 (set_watches (push_watches (values s) n lits (watches s)) s) w) in
  connect_inv (n + 1) (if k =? 0 then push_unsat w1 n else w1).
Proof.
  intros Hinv Hcap Hn Hlits Hsize s k w1.
  destruct Hinv as (Hv0 & Hlv & Hlw & Hsym & Hwr & Hst & Hcnt & Htot & _).
  cbn [solver set_current counters unsat current] in *. fold s in Hv0, Hlv, Hlw,
    Hsym, Hwr, Hcnt, Htot, Hlits.
  unfold LITS in *.
  pose proof (stack_inv_length _ _ _ Hst) as Hlen.
  destruct Hst as (Hn0 & Hn32 & A1 & A2).
  rewrite MAX_WALK_REF_value in Hcap.
  set (vs := values s) in *. set (wss := watches s) in *.
  set (cs := counters w) in *. set (us := unsat w) in *.
  assert (Hlits' : forall l, l ∈ lits -> 0 <= l < Z.of_nat (length vs)).
  { intros l Hl. rewrite Hlv. now apply Hlits. }
  assert (Hlits'' : forall l, l ∈ lits -> 0 <= l < Z.of_nat (length wss)).
  { intros l Hl. rewrite Hlw. now apply Hlits. }
  assert (Hvw : length vs = length wss) by lia.
  assert (Hnew : forall ws, ws ∈ wss -> n ∉ ws).
  { intros ws Hws Hin. pose proof (Hwr ws n Hws Hin). lia. }
  assert (Htc0 : true_count n vs wss = 0).
  { pose proof (true_count_le_total n vs wss).
    pose proof (true_count_nonneg n vs wss).
    rewrite (total_count_zero n wss Hnew) in H. lia. }
  set (wss' := push_watches vs n lits wss).
  set (cs1 := alter (set_count k) (Z.to_nat n) cs).
  assert (Hk1 : count (peek cs1 n) = k).
  { unfold cs1. now rewrite peek_alter_eq by lia. }
  assert (Ho1 : forall r, 0 <= r -> r <> n -> peek cs1 r = peek cs r).
  { intros r H0 Hne. unfold cs1. now rewrite peek_alter_ne by lia. }
  (* what does not depend on the unsat stack *)
  assert (Hwr' : forall ws r, ws ∈ wss' -> r ∈ ws -> 0 <= r < n + 1).
  { intros ws r Hws Hr.
    destruct (push_watches_elem vs n lits wss ws r Hws Hr)
      as [->|(ws0 & Hws0 & Hr0)]; [lia|].
    pose proof (Hwr ws0 r Hws0 Hr0). lia. }
  assert (Htc' : forall r, 0 <= r < n + 1 ->
            (if decide (n = r) then k else count (peek cs r))
            = true_count r vs wss').
  { intros r Hr. unfold wss'.
    rewrite push_watches_true_count by assumption. fold k.
    destruct (decide (n = r)) as [<-|Hne]; [lia|].
    rewrite Hcnt by lia. lia. }
  assert (Htot' : forall r, 0 <= r < n + 1 -> total_count r wss' < 2 ^ 32).
  { intros r Hr. unfold wss'. rewrite push_watches_total_count by assumption.
    destruct (decide (n = r)) as [<-|Hne].
    - rewrite (total_count_zero n wss Hnew).
      pose proof (assigned_lits_le vs lits). lia.
    - pose proof (Htot r ltac:(lia)). lia. }
  assert (Hlw' : Z.of_nat (length wss') = 2 * vars s).
  { unfold wss'. now rewrite push_watches_length. }
  unfold connect_inv, walker_inv, LITS.
  destruct (k =? 0) eqn:Hk.
  - apply Z.eqb_eq in Hk. unfold push_unsat, w1.
    cbn [solver set_current counters unsat current set_counters set_unsat
         set_solver values watches set_watches vars].
    fold s vs wss cs us wss' cs1.
    rewrite (u32_small (Z.of_nat (length us))) by lia.
    set (cs2 := alter (set_pos (Z.of_nat (length us))) (Z.to_nat n) cs1).
    assert (Hn2 : peek cs2 n = Counter k (Z.of_nat (length us))).
    { unfold cs2. rewrite peek_alter_eq by (unfold cs1; rewrite length_alter; lia).
      unfold set_pos. now rewrite Hk1. }
    assert (Ho2 : forall r, 0 <= r -> r <> n -> peek cs2 r = peek cs r).
    { intros r H0 Hne. unfold cs2. rewrite peek_alter_ne by lia. now apply Ho1. }
    assert (Hst' : stack_inv (n + 1) cs2 (us ++ [n])).
    { split; [|split; [|split]].
      - unfold cs2, cs1. rewrite !length_alter. lia.
      - lia.
      - intros i r H.
        apply lookup_snoc_Some in H. destruct H as [[_ H]|[-> <-]].
        + destruct (A1 _ _ H) as (? & ? & ?). rewrite Ho2 by lia.
          repeat split; try assumption; lia.
        + rewrite Hn2. cbn. repeat split; lia.
      - intros r Hr Hc.
        apply elem_of_app. destruct (Z.eq_dec r n) as [->|Hne].
        + right. now apply list_elem_of_singleton.
        + left. apply A2; [lia|]. now rewrite <- Ho2 by lia. }
    assert (Hcnt' : forall r, 0 <= r < n + 1 ->
              count (peek cs2 r) = true_count r vs wss').
    { intros r Hr. rewrite <- Htc' by lia. destruct (decide (n = r)) as [<-|Hne].
      - now rewrite Hn2.
      - now rewrite Ho2 by lia. }
    exact (conj Hv0 (conj Hlv (conj Hlw' (conj Hsym (conj Hwr' (conj Hst'
            (conj Hcnt' (conj Htot' eq_refl)))))))).
  - apply Z.eqb_neq in Hk. unfold w1.
    cbn [solver set_current counters unsat current set_counters set_unsat
         set_solver values watches set_watches vars].
    fold s vs wss cs us wss' cs1.
    assert (Hst' : stack_inv (n + 1) cs1 us).
    { split; [|split; [|split]].
      - unfold cs1. rewrite length_alter. lia.
      - lia.
      - intros i r H.
        destruct (A1 _ _ H) as (? & ? & ?). rewrite Ho1 by lia.
        repeat split; try assumption; lia.
      - intros r Hr Hc.
        destruct (Z.eq_dec r n) as [->|Hne]; [lia|].
        apply A2; [lia|]. now rewrite <- Ho1 by lia. }
    assert (Hcnt' : forall r, 0 <= r < n + 1 ->
              count (peek cs1 r) = true_count r vs wss').
    { intros r Hr. rewrite <- Htc' by lia. destruct (decide (n = r)) as [<-|Hne].
      - assumption.
      - now rewrite Ho1 by lia. }
    exact (conj Hv0 (conj Hlv (conj Hlw' (conj Hsym (conj Hwr' (conj Hst'
            (conj Hcnt' (conj Htot' eq_refl)))))))).
Qed.

(** ** Connecting the binary and the large clauses *)

Lemma connecting_rest_fields (w w' : walker) :
  connecting_rest w' = connecting_rest w ->
  saved w' = saved w /\ binaries w' = binaries w
  /\ vars (solver w') = vars (solver w)
  /\ values (solver w') = values (solver w)
  /\ active (solver w') = active (solver w)
  /\ last_irredundant (solver w') = last_irredundant (solver w).
Proof.
  unfold connecting_rest. intros H. injection H. intros.
  repeat split; assumption.
Qed.

Lemma dereference_literals_ext (w w' : walker) (r : Z) :
  peek (refs w') r = peek (refs w) r ->
  binaries w' = binaries w ->
  arena (solver w') = arena (solver w) ->
  dereference_literals w' r = dereference_literals w r.
Proof.
  unfold dereference_literals, kissat_dereference_clause.
  now intros -> -> ->.
Qed.

Lemma clause_inv_connect (n : Z) (w w' : walker) (lits : list Z) (t : tagged) :
  clause_inv n w ->
  0 <= n < Z.of_nat (length (refs w)) ->
  Z.of_nat (length (watches (solver w))) = LITS (solver w) ->
  (forall l, l ∈ lits -> 0 <= l < LITS (solver w)) ->
  (exists l, l ∈ lits /\ peek (values (solver w)) l <> 0) ->
  vars (solver w') = vars (solver w) ->
  values (solver w') = values (solver w) ->
  arena (solver w') = arena (solver w) ->
  binaries w' = binaries w ->
  refs w' = poke (refs w) n t ->
  watches (solver w')
  = push_watches (values (solver w)) n lits (watches (solver w)) ->
  dereference_literals w' n = lits ->
  clause_inv (n + 1) w'.
Proof.
  intros Hci Hn Hlw Hlits Hex Hvars Hvals Harena Hbins Hrefs Hw Hderef r Hr.
  assert (Hl : LITS (solver w') = LITS (solver w)) by (unfold LITS; congruence).
  assert (Hlits' : forall l, l ∈ lits ->
            0 <= l < Z.of_nat (length (watches (solver w)))).
  { intros l Hin. rewrite Hlw. now apply Hlits. }
  rewrite Hl, Hvals, Hw.
  destruct (Z.eq_dec r n) as [->|Hne].
  - cbv zeta. rewrite Hderef. split; [assumption|]. split; [|assumption].
    intros l Hin Hv. now apply push_watches_in.
  - assert (Hd : dereference_literals w' r = dereference_literals w r).
    { apply dereference_literals_ext; try assumption.
      rewrite Hrefs. apply peek_poke_ne; lia. }
    cbv zeta. rewrite Hd.
    destruct (Hci r ltac:(lia)) as (H1 & H2 & H3).
    split; [assumption|]. split; [|assumption].
    intros l Hin Hv. apply push_watches_mono; [assumption| |now apply H2].
    apply H1 in Hin. lia.
Qed.

(** Both loops connect a clause the same way. *)
Lemma connect_new (n : Z) (w w' : walker) (lits : list Z) (t : tagged) :
  connect_inv n w -> clause_inv n w ->
  Z.of_nat (length (counters w)) <= MAX_WALK_REF ->
  0 <= n < Z.of_nat (length (counters w)) ->
  length (refs w) = length (counters w) ->
  (forall l, l ∈ lits -> 0 <= l < LITS (solver w)) ->
  Z.of_nat (length lits) < 2 ^ 32 ->
  (exists l, l ∈ lits /\ peek (values (solver w)) l <> 0) ->
  let s := solver w in
  let k := Z.of_nat (length (true_lits (values s) lits)) in
  let w1 := set_counters (alter (set_count k) (Z.to_nat n) (counters w))
              (set_solver
                 (set_watches (push_watches (values s) n lits (watches s)) s) w) in
  let wk := if k =? 0 then push_unsat w1 n else w1 in
  vars (solver w') = vars s ->
  values (solver w') = values s ->
  arena (solver w') = arena s ->
  binaries w' = binaries w ->
  refs w' = poke (refs w) n t ->
  watches (solver w') = push_watches (values s) n lits (watches s) ->
  counters w' = counters wk ->
  unsat w' = unsat wk ->
  dereference_literals w' n = lits ->
  connect_inv (n + 1) w' /\ clause_inv (n + 1) w'
  /\ length (counters w') = length (counters w)
  /\ length (refs w') = length (refs w).
Proof.
  intros Hinv Hci Hcap Hn Hrc Hlits Hsize Hex s k w1 wk
    Hvars Hvals Harena Hbins Hrefs Hw Hcs Hus Hderef.
  pose proof (connect_counter_inv n w lits Hinv Hcap ltac:(lia) Hlits Hsize)
    as Hnew.
  cbv zeta in Hnew. fold s k in Hnew. fold w1 in Hnew. fold wk in Hnew.
  assert (Hwk : vars (solver wk) = vars s /\ values (solver wk) = values s
                /\ watches (solver wk)
                   = push_watches (values s) n lits (watches s)
                /\ length (counters wk) = length (counters w)).
  { unfold wk, w1, push_unsat. destruct (k =? 0); cbn;
      rewrite ?length_alter; repeat split; reflexivity. }
  destruct Hwk as (E1 & E2 & E3 & E4).
  split; [|split; [|split]].
  - apply (connect_inv_ext (n + 1) wk w'); try congruence.
  - apply (clause_inv_connect n w w' lits t); try assumption; try lia.
    destruct Hinv as (_ & _ & Hlw & _). exact Hlw.
  - rewrite Hcs. exact E4.
  - rewrite Hrefs. apply length_poke.
Qed.

(** ** [connect_binary_counters] *)

Lemma make_tagged_fields (b : bool) (r : Z) :
  0 <= r <= MAX_WALK_REF ->
  binary (make_tagged b r) = b /\ ref (make_tagged b r) = r.
Proof.
  rewrite MAX_WALK_REF_value. intros H. unfold make_tagged. cbn.
  split; [reflexivity|]. apply Z.mod_small. change (2 ^ LD_MAX_WALK_REF) with (2 ^ 31). lia.
Qed.

Lemma connect_binary_counter_inv (w : walker) (cr b : Z) :
  connect_inv cr w -> clause_inv cr w ->
  Z.of_nat (length (counters w)) <= MAX_WALK_REF ->
  length (refs w) = length (counters w) ->
  0 <= cr -> cr + 1 <= Z.of_nat (length (counters w)) ->
  0 <= b < Z.of_nat (length (binaries w)) ->
  Z.of_nat (length (binaries w)) <= MAX_WALK_REF ->
  Forall (fun p => 0 <= fst p < LITS (solver w) /\ 0 <= snd p < LITS (solver w))
    (binaries w) ->
  forall w' cr', connect_binary_counter (w, cr) b = (w', cr') ->
    connect_step_ok w cr w' cr' /\ cr <= cr' <= cr + 1
    /\ arena (solver w') = arena (solver w) /\ size w' = size w.
Proof.
  intros Hinv Hci Hcap Hrc Hcr0 Hcr1 Hb Hbmax Hbins w' cr' Hstep.
  unfold connect_binary_counter in Hstep.
  destruct (peek (binaries w) b) as [first second] eqn:Hp.
  destruct ((peek (values (solver w)) first =? 0)
            || (peek (values (solver w)) second =? 0)) eqn:Hz.
  - injection Hstep as <- <-.
    split; [|split; [lia|split; reflexivity]].
    split; [assumption|]. split; [assumption|]. repeat split; reflexivity.
  - apply orb_false_iff in Hz. destruct Hz as [Hz1 Hz2].
    apply Z.eqb_neq in Hz1, Hz2.
    assert (Hin : 0 <= first < LITS (solver w) /\ 0 <= second < LITS (solver w)).
    { rewrite Forall_forall in Hbins.
      assert (Hl : binaries w !! Z.to_nat b = Some (first, second)).
      { rewrite <- Hp. exact (lookup_peek (binaries w) b Hb). }
      apply list_elem_of_lookup_2 in Hl. apply (Hbins _ Hl). }
    rewrite MAX_WALK_REF_value in Hcap.
    rewrite (u32_small (cr + 1)) in Hstep by lia.
    set (vs := values (solver w)) in *.
    assert (Hk : (if 0 <? peek vs first then 1 else 0)
                 + (if 0 <? peek vs second then 1 else 0)
                 = Z.of_nat (length (true_lits vs [first; second]))).
    { rewrite !true_lits_cons. cbn. lia. }
    rewrite Hk in Hstep.
    injection Hstep as <- <-.
    assert (Hlits : forall l, l ∈ [first; second] -> 0 <= l < LITS (solver w)).
    { intros l Hl. apply list_elem_of_In in Hl. cbn in Hl.
      destruct Hl as [<-|[<-|[]]]; tauto. }
    assert (Hpw : push_watches vs cr [first; second] (watches (solver w))
                  = poke (poke (watches (solver w)) first
                            (peek (watches (solver w)) first ++ [cr]))
                      second
                      (peek (poke (watches (solver w)) first
                              (peek (watches (solver w)) first ++ [cr])) second
                       ++ [cr])).
    { unfold push_watches, watch_counter. cbn [fold_left].
      destruct (peek vs first =? 0) eqn:E1; [apply Z.eqb_eq in E1; lia|].
      destruct (peek vs second =? 0) eqn:E2; [apply Z.eqb_eq in E2; lia|].
      reflexivity. }
    set (k := Z.of_nat (length (true_lits vs [first; second]))) in *.
    match goal with |- connect_step_ok _ _ ?x _ /\ _ => set (w' := x) end.
    assert (Hex : exists l, l ∈ [first; second] /\ peek vs l <> 0).
    { exists first. split; [left|assumption]. }
    assert (Hrest : connecting_rest w' = connecting_rest w
                    /\ arena (solver w') = arena (solver w)
                    /\ size w' = size w).
    { unfold w', push_unsat. destruct (k =? 0); repeat split; reflexivity. }
    destruct Hrest as (Hrest & Harena & Hsz).
    destruct (connecting_rest_fields _ _ Hrest)
      as (_ & Hbin & Hvars & Hvals & _ & _).
    destruct (make_tagged_fields true b ltac:(lia)) as [Ht1 Ht2].
    destruct (connect_new cr w w' [first; second] (make_tagged true b))
      as (H1 & H2 & H3 & H4); try assumption; try lia.
    + cbn. lia.
    + unfold w', push_unsat. destruct (k =? 0); reflexivity.
    + fold vs. rewrite Hpw. unfold w', push_unsat.
      destruct (k =? 0); reflexivity.
    + fold vs k. unfold w', push_unsat. destruct (k =? 0); reflexivity.
    + fold vs k. unfold w', push_unsat. destruct (k =? 0); reflexivity.
    + unfold dereference_literals.
      replace (refs w') with (poke (refs w) cr (make_tagged true b))
        by (unfold w', push_unsat; destruct (k =? 0); reflexivity).
      rewrite peek_poke_eq by lia. rewrite Ht1, Ht2, Hbin, Hp. reflexivity.
    + split; [|split; [lia|split; assumption]].
      split; [assumption|]. split; [assumption|]. split; [assumption|].
      split; assumption.
Qed.

(** The loop of [connect_binary_counters], over any binary references. *)
Lemma connect_binary_loop (idxs : list Z) (w : walker) (cr : Z) :
  connect_inv cr w -> clause_inv cr w ->
  Z.of_nat (length (counters w)) <= MAX_WALK_REF ->
  length (refs w) = length (counters w) ->
  0 <= cr -> cr + Z.of_nat (length idxs) <= Z.of_nat (length (counters w)) ->
  Forall (fun b => 0 <= b < Z.of_nat (length (binaries w))) idxs ->
  Z.of_nat (length (binaries w)) <= MAX_WALK_REF ->
  Forall (fun p => 0 <= fst p < LITS (solver w) /\ 0 <= snd p < LITS (solver w))
    (binaries w) ->
  forall w' cr', fold_left connect_binary_counter idxs (w, cr) = (w', cr') ->
    connect_step_ok w cr w' cr' /\ cr <= cr' <= cr + Z.of_nat (length idxs)
    /\ arena (solver w') = arena (solver w) /\ size w' = size w.
Proof.
  revert w cr. induction idxs as [|b idxs IH];
    intros w cr Hinv Hci Hcap Hrc Hcr0 Hcr1 Hidx Hbmax Hbins w' cr' Hloop.
  - injection Hloop as <- <-. cbn.
    split; [|split; [lia|split; reflexivity]].
    split; [assumption|]. split; [assumption|]. repeat split; reflexivity.
  - cbn [fold_left] in Hloop. cbn [length] in Hcr1.
    destruct (connect_binary_counter (w, cr) b) as [w1 cr1] eqn:Hstep.
    apply Forall_cons in Hidx. destruct Hidx as [Hb Hidx].
    destruct (connect_binary_counter_inv w cr b Hinv Hci Hcap Hrc Hcr0
                ltac:(lia) Hb Hbmax Hbins w1 cr1 Hstep)
      as ((Hinv1 & Hci1 & Hlc1 & Hlr1 & Hrest1) & Hcr & Harena1 & Hsz1).
    destruct (connecting_rest_fields _ _ Hrest1)
      as (_ & Hbin & Hvars & _ & _ & _).
    assert (HL : LITS (solver w1) = LITS (solver w))
      by (unfold LITS; congruence).
    destruct (IH w1 cr1) with (w' := w') (cr' := cr')
      as ((Hinv2 & Hci2 & Hlc2 & Hlr2 & Hrest2) & Hcr2 & Harena2 & Hsz2);
      try assumption; try lia; try congruence.
    + now rewrite Hbin.
    + now rewrite Hbin, HL.
    + split; [|split; [cbn [length]; lia|split; congruence]].
      split; [assumption|]. split; [assumption|]. repeat split; congruence.
Qed.

(** ** The arena while the large clauses are connected *)

Lemma find_cref (a : list clause) (i : nat) (c : clause) :
  NoDup (cref <$> a) -> a !! i = Some c ->
  find (fun c' => cref c' =? cref c) a = Some c.
Proof.
  revert i. induction a as [|x a IH]; intros i Hnd Hi; [discriminate|].
  rewrite fmap_cons in Hnd. apply NoDup_cons in Hnd. destruct Hnd as [Hx Hnd].
  destruct i as [|i]; cbn in Hi |- *.
  - injection Hi as ->. now rewrite Z.eqb_refl.
  - destruct (cref x =? cref c) eqn:E.
    + exfalso. apply Hx. apply Z.eqb_eq in E. rewrite E.
      apply list_elem_of_fmap. exists c. split; [reflexivity|].
      eapply list_elem_of_lookup_2. exact Hi.
    + now apply (IH i).
Qed.

Lemma find_alter_lits (a : list clause) (i : nat) (r : Z) :
  clause_lits
  <$> find (fun c => cref c =? r)
        (alter (fun c => Clause true (redundant c) (clause_lits c) (cref c)) i a)
  = clause_lits <$> find (fun c => cref c =? r) a.
Proof.
  revert i. induction a as [|x a IH]; intros i; [reflexivity|].
  destruct i as [|i]; cbn.
  - destruct (cref x =? r); reflexivity.
  - destruct (cref x =? r); [reflexivity|]. apply IH.
Qed.

Lemma dereference_literals_mark (w : walker) (i : nat) (r : Z) :
  dereference_literals
    (set_solver (kissat_mark_clause_as_garbage (solver w) i) w) r
  = dereference_literals w r.
Proof.
  unfold dereference_literals, kissat_dereference_clause,
    kissat_mark_clause_as_garbage.
  cbn [refs set_solver binaries solver arena set_arena].
  destruct (binary (peek (refs w) r)); [reflexivity|].
  pose proof (find_alter_lits (arena (solver w)) i (ref (peek (refs w) r))) as H.
  destruct (find _ (alter _ i _)), (find _ (arena (solver w)));
    cbn in H; congruence.
Qed.

Lemma marked_refl (sv : list value) (c : clause) : marked sv c c.
Proof. unfold marked. tauto. Qed.

Lemma marked_trans (sv : list value) (c1 c2 c3 : clause) :
  marked sv c1 c2 -> marked sv c2 c3 -> marked sv c1 c3.
Proof.
  unfold marked. intros (-> & -> & -> & H1) (-> & -> & -> & H2).
  repeat split; try reflexivity.
  destruct H2 as [->|[-> H2]]; [assumption|]. right. now split.
Qed.

Lemma arena_marks_refl (sv : list value) (a : list clause) : arena_marks sv a a.
Proof. unfold arena_marks. induction a; constructor; auto using marked_refl. Qed.

Lemma arena_marks_trans (sv : list value) (a1 a2 a3 : list clause) :
  arena_marks sv a1 a2 -> arena_marks sv a2 a3 -> arena_marks sv a1 a3.
Proof.
  unfold arena_marks. intros H. revert a3.
  induction H as [|c1 c2 a1 a2 Hc H IH]; intros a3 H3.
  - exact H3.
  - destruct a3 as [|c3 a3]; [now apply Forall2_cons_nil_inv in H3|].
    apply Forall2_cons in H3. destruct H3 as [Hc3 H3].
    constructor; [eapply marked_trans; eassumption|now apply IH].
Qed.

Lemma arena_marks_alter (sv : list value) (a : list clause) (i : nat) (c : clause) :
  a !! i = Some c ->
  existsb (fun lit => 0 <? peek sv lit) (clause_lits c) = true ->
  arena_marks sv a
    (alter (fun c => Clause true (redundant c) (clause_lits c) (cref c)) i a).
Proof.
  unfold arena_marks. revert i.
  induction a as [|x a IH]; intros i Hi Hs; [discriminate|].
  destruct i as [|i]; cbn in Hi |- *.
  - injection Hi as ->. constructor; [|apply arena_marks_refl].
    unfold marked. cbn. repeat split; try reflexivity. right. now split.
  - constructor; [apply marked_refl|]. now apply (IH i).
Qed.

Lemma arena_marks_fmap (sv : list value) (a a' : list clause) :
  arena_marks sv a a' -> cref <$> a' = cref <$> a.
Proof.
  unfold arena_marks. induction 1 as [|c c' a a' Hc H IH]; [reflexivity|].
  rewrite !fmap_cons. destruct Hc as (-> & _). now rewrite IH.
Qed.

Lemma arena_ready_marks (s s' : kissat) (sv : list value) :
  arena_marks sv (arena s) (arena s') ->
  vars s' = vars s -> active s' = active s ->
  last_irredundant s' = last_irredundant s ->
  arena_ready s sv -> arena_ready s' sv.
Proof.
  intros Hm Hv Ha Hl (Hnd & Hall). split.
  - now rewrite (arena_marks_fmap _ _ _ Hm).
  - unfold arena_marks in Hm. revert Hall.
    generalize dependent (arena s'). generalize (arena s). clear Hnd.
    intros a a' Hm.
    induction Hm as [|c c' a a' Hc H IH]; intros Hall; [constructor|].
    apply Forall_cons in Hall. destruct Hall as [Hc0 Hall].
    constructor; [|now apply IH].
    destruct Hc as (Hr & Hls & Hred & Hg).
    destruct Hc0 as (H1 & H2 & H3 & H4).
    unfold walked, irredundant, within_boundary, LITS in *.
    rewrite Hv, Hl, Ha, Hr, Hls, Hred.
    split; [assumption|]. split; [assumption|]. split; [assumption|].
    intros ((Hg' & Hrd) & Hb & Hs). apply H4.
    split; [split; [|assumption]|split; assumption].
    destruct Hg as [Hg|[Hg _]]; congruence.
Qed.

(** ** [connect_large_counters] *)

Lemma connect_step_ok_trans (w w1 w2 : walker) (cr cr1 cr2 : Z) :
  connect_step_ok w cr w1 cr1 -> connect_step_ok w1 cr1 w2 cr2 ->
  connect_step_ok w cr w2 cr2.
Proof.
  unfold connect_step_ok.
  intros (_ & _ & L1 & L2 & R1) (I & C & L3 & L4 & R2).
  split; [assumption|]. split; [assumption|]. repeat split; congruence.
Qed.

Lemma connect_step_ok_refl (w : walker) (cr : Z) :
  connect_inv cr w -> clause_inv cr w -> connect_step_ok w cr w cr.
Proof.
  intros I C. split; [assumption|]. split; [assumption|].
  repeat split; reflexivity.
Qed.

Lemma clause_inv_mark (n : Z) (w : walker) (i : nat) :
  clause_inv n w ->
  clause_inv n (set_solver (kissat_mark_clause_as_garbage (solver w) i) w).
Proof.
  intros H r Hr. cbv zeta. rewrite dereference_literals_mark.
  exact (H r Hr).
Qed.

Lemma irredundant_drop (a : list clause) (i : nat) (c : clause) :
  a !! i = Some c ->
  Z.of_nat (length (filter irredundant (drop i a)))
  = (if decide (irredundant c) then 1 else 0)
    + Z.of_nat (length (filter irredundant (drop (S i) a))).
Proof.
  intros Hi. rewrite (drop_S a c i Hi). rewrite filter_cons.
  destruct (decide (irredundant c)); cbn [length]; lia.
Qed.

Lemma drop_alter_S {A} (f : A -> A) (a : list A) (i : nat) :
  drop (S i) (alter f i a) = drop (S i) a.
Proof.
  revert i. induction a as [|x a IH]; intros i; [reflexivity|].
  destruct i as [|i]; [reflexivity|]. cbn. apply IH.
Qed.

Lemma actives_assigned_ext (s s' : kissat) :
  vars s' = vars s -> active s' = active s -> values s' = values s ->
  actives_assigned s -> actives_assigned s'.
Proof. unfold actives_assigned, LITS. intros -> -> ->. tauto. Qed.

Lemma connect_large_loop_inv (k : nat) :
  forall (i : nat) (w : walker) (cr : Z),
  connect_inv cr w -> clause_inv cr w ->
  Z.of_nat (length (counters w)) <= MAX_WALK_REF ->
  length (refs w) = length (counters w) ->
  0 <= cr ->
  cr + Z.of_nat (length (filter irredundant (drop i (arena (solver w)))))
  <= Z.of_nat (length (counters w)) ->
  arena_ready (solver w) (saved w) ->
  actives_assigned (solver w) ->
  exists cr',
    connect_step_ok w cr (connect_large_loop (seq i k) w cr) cr'
    /\ arena_marks (saved w) (arena (solver w))
         (arena (solver (connect_large_loop (seq i k) w cr))).
Proof.
  induction k as [|k IH]; intros i w cr Hinv Hci Hcap Hrc Hcr0 Hcr1 Hready Hact.
  { exists cr. split; [now apply connect_step_ok_refl|apply arena_marks_refl]. }
  cbn [seq connect_large_loop].
  destruct (arena (solver w) !! i) as [c|] eqn:Hi;
    [|exists cr; split; [now apply connect_step_ok_refl|apply arena_marks_refl]].
  destruct (negb (last_irredundant (solver w) =? INVALID_REF)
            && (last_irredundant (solver w) <? cref c)) eqn:Hbreak;
    [exists cr; split; [now apply connect_step_ok_refl|apply arena_marks_refl]|].
  rewrite (irredundant_drop _ _ _ Hi) in Hcr1.
  destruct (garbage c) eqn:Hg.
  { apply IH; try assumption.
    destruct (decide (irredundant c)); lia. }
  destruct (redundant c) eqn:Hred.
  { apply IH; try assumption.
    destruct (decide (irredundant c)); lia. }
  destruct (decide (irredundant c)) as [_|Hn];
    [|exfalso; apply Hn; now split].
  destruct (existsb (fun lit => 0 <? peek (saved w) lit) (clause_lits c)) eqn:Hsat.
  - set (w1 := set_solver (kissat_mark_clause_as_garbage (solver w) i) w).
    assert (Hm : arena_marks (saved w) (arena (solver w)) (arena (solver w1))).
    { apply (arena_marks_alter _ _ _ c); assumption. }
    destruct (IH (S i) w1 cr) as (cr' & Hok & Hm').
    + apply (connect_inv_ext cr w w1); try reflexivity. assumption.
    + now apply clause_inv_mark.
    + assumption.
    + assumption.
    + assumption.
    + unfold w1, kissat_mark_clause_as_garbage.
      cbn [solver set_solver arena set_arena counters].
      rewrite drop_alter_S. lia.
    + apply (arena_ready_marks (solver w) (solver w1) (saved w) Hm);
        try reflexivity. assumption.
    + apply (actives_assigned_ext (solver w) (solver w1)); try reflexivity.
      assumption.
    + exists cr'. split.
      * apply (connect_step_ok_trans w w1 _ cr cr cr'); [|assumption].
        split; [apply (connect_inv_ext cr w w1); try reflexivity; assumption|].
        split; [now apply clause_inv_mark|]. repeat split; reflexivity.
      * apply (arena_marks_trans _ _ (arena (solver w1))); assumption.
  - assert (Hc : c ∈ arena (solver w)) by (eapply list_elem_of_lookup_2; exact Hi).
    destruct Hready as (Hnd & Hall).
    pose proof (proj1 (Forall_forall _ _) Hall c Hc) as (H1 & H2 & H3 & H4).
    rewrite Forall_forall in H1.
    assert (Hwb : within_boundary (solver w) c).
    { unfold within_boundary.
      destruct (last_irredundant (solver w) =? INVALID_REF) eqn:E;
        [left; now apply Z.eqb_eq in E|].
      right. cbn in Hbreak. apply Z.ltb_ge in Hbreak. exact Hbreak. }
    specialize (H3 Hwb).
    destruct H4 as (la & Hla & Hact_la).
    { split; [now split|]. split; assumption. }
    assert (Hex : exists l, l ∈ clause_lits c /\ peek (values (solver w)) l <> 0).
    { exists la. split; [assumption|]. apply Hact; [now apply H1|assumption]. }
    rewrite MAX_WALK_REF_value in Hcap.
    cbn [solver set_refs].
    rewrite (connect_large_literals cr (clause_lits c) (solver w) 0 0) by lia.
    cbv beta iota zeta. rewrite !Z.add_0_l.
    rewrite (u32_small (cr + 1)) by lia.
    set (vs := values (solver w)).
    set (ct := Z.of_nat (length (true_lits vs (clause_lits c)))).
    match goal with |- context [connect_large_loop _ ?W _] => set (w1 := W) end.
    assert (Hrest : connecting_rest w1 = connecting_rest w
                    /\ arena (solver w1) = arena (solver w)).
    { unfold w1, push_unsat. destruct (ct =? 0); split; reflexivity. }
    destruct Hrest as (Hrest & Harena).
    destruct (connecting_rest_fields _ _ Hrest)
      as (Hsv & Hbin & Hvars & Hvals & Hactive & Hlast).
    destruct (make_tagged_fields false (cref c) H3) as [Ht1 Ht2].
    destruct (connect_new cr w w1 (clause_lits c) (make_tagged false (cref c)))
      as (I1 & C1 & L1 & L2); try assumption; try lia.
    + unfold w1, push_unsat. destruct (ct =? 0); reflexivity.
    + unfold w1, push_unsat. destruct (ct =? 0); reflexivity.
    + fold vs ct. unfold w1, push_unsat. destruct (ct =? 0); reflexivity.
    + fold vs ct. unfold w1, push_unsat. destruct (ct =? 0); reflexivity.
    + unfold dereference_literals, kissat_dereference_clause.
      replace (refs w1) with (poke (refs w) cr (make_tagged false (cref c)))
        by (unfold w1, push_unsat; destruct (ct =? 0); reflexivity).
      rewrite peek_poke_eq by lia. rewrite Ht1, Ht2, Harena.
      now rewrite (find_cref _ i c Hnd Hi).
    + destruct (IH (S i) w1 (cr + 1)) as (cr' & Hok & Hm'); try assumption;
        try lia.
      * rewrite MAX_WALK_REF_value, L1. lia.
      * rewrite Harena, L1. lia.
      * rewrite Hsv.
        apply (arena_ready_marks (solver w) (solver w1) (saved w)); try assumption.
        -- rewrite Harena. apply arena_marks_refl.
        -- now split.
      * apply (actives_assigned_ext (solver w) (solver w1)); assumption.
      * exists cr'. split.
        -- apply (connect_step_ok_trans w w1 _ cr (cr + 1) cr'); [|assumption].
           split; [assumption|]. split; [assumption|].
           split; [assumption|]. split; assumption.
        -- rewrite Hsv, Harena in Hm'. exact Hm'.
Qed.

(** ** [import_decision_phases] *)

Lemma LIT_small (idx v : Z) :
  0 <= idx < v -> 2 * v < 2 ^ 32 -> LIT idx = 2 * idx.
Proof. intros H1 H2. unfold LIT. apply u32_small. lia. Qed.

Lemma import_decision_phase_spec (target : option (list value)) (s : kissat)
    (idx : Z) :
  initial_phase s <> 0 ->
  Z.of_nat (length (values s)) = 2 * vars s ->
  2 * vars s < 2 ^ 32 ->
  0 <= idx < vars s ->
  symmetric (values s) ->
  let s' := import_decision_phase target s idx in
  host_part s' = host_part s /\ stats s' = stats s
  /\ length (values s') = length (values s)
  /\ symmetric (values s')
  /\ (forall l, 0 <= l -> peek (values s) l <> 0 -> peek (values s') l <> 0)
  /\ (peek (active s) idx = true ->
      peek (values s') (LIT idx) <> 0 /\ peek (values s') (NOT (LIT idx)) <> 0).
Proof.
  intros Hip Hlen Hv Hidx Hsym. unfold import_decision_phase.
  destruct (peek (active s) idx) eqn:Hact; cbn [negb].
  2: { cbv zeta. repeat split; try reflexivity; try assumption;
       intros; try assumption; discriminate. }
  cbv zeta.
  match goal with |- context [set_phases_saved (poke _ idx ?x) _] =>
    set (v := x) end.
  assert (Hv0 : v <> 0).
  { unfold v. match goal with |- (if ?b =? 0 then _ else _) <> 0 =>
      destruct (b =? 0) eqn:E end; [assumption|now apply Z.eqb_neq in E]. }
  clearbody v.
  rewrite (LIT_small idx (vars s)) by assumption.
  set (lit := 2 * idx). assert (Hlit : 0 <= lit < 2 * vars s) by lia.
  pose proof (NOT_range lit (vars s) Hlit) as Hnl.
  pose proof (NOT_neq lit ltac:(lia)) as Hne.
  set (vs' := poke (poke (values s) lit v) (NOT lit) (- v)).
  assert (E : forall b : bool,
           values (set_phases_saved
             (poke (phases_saved
                (set_values
                   (poke (values (set_values
                      (poke (values (if b then set_phases_saved
                                       (poke (phases_saved s) idx v) s else s))
                         lit v)
                      (if b then set_phases_saved
                                  (poke (phases_saved s) idx v) s else s)))
                      (NOT lit) (- v))
                   (set_values
                      (poke (values (if b then set_phases_saved
                                       (poke (phases_saved s) idx v) s else s))
                         lit v)
                      (if b then set_phases_saved
                                  (poke (phases_saved s) idx v) s else s))))
                idx v)
             (set_values
                   (poke (values (set_values
                      (poke (values (if b then set_phases_saved
                                       (poke (phases_saved s) idx v) s else s))
                         lit v)
                      (if b then set_phases_saved
                                  (poke (phases_saved s) idx v) s else s)))
                      (NOT lit) (- v))
                   (set_values
                      (poke (values (if b then set_phases_saved
                                       (poke (phases_saved s) idx v) s else s))
                         lit v)
                      (if b then set_phases_saved
                                  (poke (phases_saved s) idx v) s else s))))
           = vs').
  { intros []; reflexivity. }
  match goal with |- context [if ?b then set_phases_saved _ _ else _] =>
    generalize b end.
  intros b. specialize (E b).
  split; [destruct b; reflexivity|].
  split; [destruct b; reflexivity|].
  rewrite E. unfold vs'.
  split; [now rewrite !length_poke|].
  split; [now apply (symmetric_poke _ _ _ (vars s))|].
  split.
  - intros l Hl Hnz.
    destruct (Z.eq_dec l (NOT lit)) as [->|H1].
    + rewrite peek_poke_eq by (rewrite length_poke; lia). lia.
    + rewrite peek_poke_ne by lia.
      destruct (Z.eq_dec l lit) as [->|H2].
      * rewrite peek_poke_eq by lia. assumption.
      * rewrite peek_poke_ne by lia. assumption.
  - intros _. split.
    + rewrite peek_poke_ne by lia. rewrite peek_poke_eq by lia. assumption.
    + rewrite peek_poke_eq by (rewrite length_poke; lia). lia.
Qed.

Lemma host_part_fields (s s' : kissat) :
  host_part s' = host_part s ->
  vars s' = vars s /\ active s' = active s
  /\ initial_phase s' = initial_phase s /\ arena s' = arena s
  /\ last_irredundant s' = last_irredundant s /\ watches s' = watches s.
Proof.
  unfold host_part. intros H. injection H. intros. repeat split; assumption.
Qed.

Lemma import_fold (target : option (list value)) (idxs : list Z) :
  forall s : kissat,
  initial_phase s <> 0 ->
  Z.of_nat (length (values s)) = 2 * vars s ->
  2 * vars s < 2 ^ 32 ->
  Forall (fun idx => 0 <= idx < vars s) idxs ->
  symmetric (values s) ->
  let s' := fold_left (import_decision_phase target) idxs s in
  host_part s' = host_part s /\ stats s' = stats s
  /\ length (values s') = length (values s)
  /\ symmetric (values s')
  /\ (forall l, 0 <= l -> peek (values s) l <> 0 -> peek (values s') l <> 0)
  /\ (forall idx, idx ∈ idxs -> peek (active s) idx = true ->
      peek (values s') (LIT idx) <> 0 /\ peek (values s') (NOT (LIT idx)) <> 0).
Proof.
  induction idxs as [|idx idxs IH]; intros s Hip Hlen Hv Hidxs Hsym.
  { cbn. split; [reflexivity|]. split; [reflexivity|]. split; [reflexivity|].
    split; [assumption|]. split; [intros; assumption|].
    intros idx Hin. now apply elem_of_nil in Hin. }
  apply Forall_cons in Hidxs. destruct Hidxs as [Hidx Hidxs].
  destruct (import_decision_phase_spec target s idx Hip Hlen Hv Hidx Hsym)
    as (F1 & S1 & L1 & Y1 & M1 & A1).
  cbn [fold_left]. set (s1 := import_decision_phase target s idx) in *.
  destruct (host_part_fields _ _ F1) as (Ev & Ea & Ei & _ & _ & _).
  destruct (IH s1) as (F2 & S2 & L2 & Y2 & M2 & A2).
  - congruence.
  - rewrite L1, Ev. assumption.
  - now rewrite Ev.
  - now rewrite Ev.
  - assumption.
  - cbv zeta. split; [congruence|]. split; [congruence|].
    split; [congruence|]. split; [assumption|]. split.
    + intros l Hl Hnz. apply M2; [assumption|]. now apply M1.
    + intros x Hx Hact. apply elem_of_cons in Hx. destruct Hx as [->|Hx].
      * destruct (A1 Hact) as [N1 N2].
        assert (H0 : 0 <= LIT idx) by (rewrite (LIT_small idx (vars s)); lia).
        split; apply M2; try assumption; try lia.
        pose proof (NOT_range (LIT idx) (vars s)
                      ltac:(rewrite (LIT_small idx (vars s)); lia)). lia.
      * apply A2; [assumption|]. now rewrite Ea.
Qed.

Lemma IDX_cases (l v : Z) :
  0 <= l < 2 * v -> 2 * v < 2 ^ 32 ->
  0 <= IDX l < v /\ (l = LIT (IDX l) \/ l = NOT (LIT (IDX l))).
Proof.
  intros Hl Hv. unfold IDX. rewrite Z.shiftr_div_pow2 by lia.
  change (2 ^ 1) with 2.
  assert (Hd : 0 <= l / 2 < v) by (split; [apply Z.div_pos; lia|apply Z.div_lt_upper_bound; lia]).
  split; [assumption|].
  rewrite (LIT_small (l / 2) v) by assumption.
  rewrite NOT_cases by lia.
  replace (Z.even (2 * (l / 2))) with true
    by (symmetry; apply Z.even_spec; now exists (l / 2)).
  pose proof (Z.div_mod l 2 ltac:(lia)). pose proof (Z.mod_pos_bound l 2 ltac:(lia)).
  lia.
Qed.

Lemma import_decision_phases_spec (w : walker) :
  initial_phase (solver w) <> 0 ->
  Z.of_nat (length (values (solver w))) = 2 * vars (solver w) ->
  0 <= vars (solver w) -> 2 * vars (solver w) < 2 ^ 32 ->
  symmetric (values (solver w)) ->
  let w' := import_decision_phases w in
  w' = set_solver (solver w') w
  /\ host_part (solver w') = host_part (solver w)
  /\ length (values (solver w')) = length (values (solver w))
  /\ symmetric (values (solver w'))
  /\ actives_assigned (solver w').
Proof.
  intros Hip Hlen Hv0 Hv Hsym. unfold import_decision_phases.
  set (s := INC_walk_decisions (solver w)).
  set (target := if stable s && negb (option_warmup s)
                 then Some (phases_target s) else None).
  destruct (import_fold target (seqZ 0 (VARS s)) s)
    as (F & _ & L & Y & _ & A); try assumption.
  - apply Forall_forall. intros idx Hin. apply elem_of_seqZ in Hin.
    unfold VARS in Hin. lia.
  - cbv zeta. cbn [solver set_solver].
    destruct (host_part_fields _ _ F) as (Ev & Ea & _).
    split; [reflexivity|]. split; [exact F|]. split; [exact L|].
    split; [exact Y|].
    intros l Hl Hact. unfold LITS in Hl. rewrite Ev in Hl.
    destruct (IDX_cases l (vars s) Hl Hv) as (Hi & Hcase).
    rewrite Ea in Hact.
    destruct (A (IDX l)) as [N1 N2]; [|assumption|].
    + apply elem_of_seqZ. unfold VARS. lia.
    + destruct Hcase as [E|E]; rewrite E; assumption.
Qed.

(** ** [init_walker] establishes the invariants *)

Lemma clause_inv_ext (n : Z) (w w' : walker) :
  refs w' = refs w -> binaries w' = binaries w ->
  arena (solver w') = arena (solver w) ->
  vars (solver w') = vars (solver w) ->
  values (solver w') = values (solver w) ->
  watches (solver w') = watches (solver w) ->
  clause_inv n w -> clause_inv n w'.
Proof.
  intros Hr Hb Ha Hv Hvs Hw H r Hrn.
  assert (Hd : dereference_literals w' r = dereference_literals w r).
  { apply dereference_literals_ext; congruence. }
  cbv zeta. unfold LITS. rewrite Hd, Hv, Hvs, Hw. exact (H r Hrn).
Qed.

Lemma init_score_table_frame (fuel : nat) (w w' : walker) :
  init_score_table fuel w = Some w' ->
  exists t e eps, w' = set_score_table t e eps w.
Proof.
  intros H. destruct (init_score_table_result fuel w w' H) as (t & eps & E & _).
  eauto.
Qed.

Lemma symmetric_replicate (v : Z) :
  0 <= v -> symmetric (replicate (Z.to_nat (2 * v)) 0).
Proof.
  intros Hv l Hl. rewrite length_replicate in Hl.
  pose proof (NOT_range l v ltac:(lia)) as Hn.
  unfold peek. rewrite !lookup_total_replicate_2 by lia. reflexivity.
Qed.

Lemma connect_inv_current (n : Z) (w : walker) :
  connect_inv n w ->
  walker_inv n (set_current (currently_unsatified w) w).
Proof.
  intros H. unfold currently_unsatified.
  pose proof H as (_ & _ & _ & _ & _ & Hst & _).
  pose proof (stack_inv_length _ _ _ Hst) as Hlen.
  destruct Hst as (_ & Hn & _). cbn in Hlen.
  rewrite u32_small; [exact H|lia].
Qed.

Section Init.

Context {host : Host}.

Lemma init_walker_inv (fuel : nat) (s : kissat) (bins : litpairs) (w : walker) :
  host_ready s bins ->
  init_walker fuel s bins = Some w ->
  exists n, round_inv n w /\ minimum w = current w.
Proof.
  intros (Hv0 & Hv & Hip & Hlw & Hwe & Hbins & Hcl & Har) Hinit.
  unfold init_walker in Hinit.
  set (clauses := BINIRR_CLAUSES s) in *.
  match type of Hinit with context [import_decision_phases ?W] =>
    set (w1 := W) in Hinit end.
  destruct (import_decision_phases_spec w1)
    as (Ew2 & F2 & L2 & Y2 & A2).
  { exact Hip. }
  { cbn. rewrite length_replicate. unfold LITS. lia. }
  { exact Hv0. }
  { exact Hv. }
  { cbn. unfold LITS. now apply symmetric_replicate. }
  set (w2 := import_decision_phases w1) in *.
  destruct (host_part_fields _ _ F2) as (Ev & Ea & Ei & Ear & El & Ew).
  match type of Hinit with context [connect_binary_counters ?W] =>
    set (w4 := W) in Hinit end.
  clearbody w2.
  unfold w1 in Ev, Ea, Ei, Ear, El, Ew, L2.
  cbn in Ev, Ea, Ei, Ear, El, Ew.
  cbn [solver set_solver values set_values set_pol_activity] in L2.
  rewrite length_replicate in L2. unfold LITS in L2.
  assert (Hf : scores w4 = [] /\ binaries w4 = bins /\ unsat w4 = []
               /\ saved w4 = values s
               /\ solver w4 = solver w2
               /\ counters w4 = map uninit_counter (seq 0 (Z.to_nat clauses))
               /\ refs w4 = map uninit_tagged (seq 0 (Z.to_nat clauses))).
  { unfold w4. cbn [binaries unsat saved solver counters refs set_refs
                    set_counters scores]. rewrite Ew2. unfold w1. cbn.
    repeat split; reflexivity. }
  destruct Hf as (Fsc & Fb & Fu & Fsv & Fs & Fc & Fr).
  clearbody w4. clear Ew2 F2. clear w1.
  assert (Hcl0 : 0 <= clauses <= MAX_WALK_REF) by lia.
  assert (Hlc : Z.of_nat (length (counters w4)) = clauses).
  { rewrite Fc, length_map, length_seq. lia. }
  assert (Hlr : length (refs w4) = length (counters w4)).
  { now rewrite Fc, Fr, !length_map. }
  assert (Hinv0 : connect_inv 0 w4).
  { unfold connect_inv, walker_inv, LITS.
    cbn [solver set_current counters unsat current].
    rewrite Fs, Fu, Ev, Ew. unfold LITS in Hlw.
    split; [assumption|]. split; [lia|]. split; [assumption|].
    split; [assumption|]. split.
    { intros ws r Hws Hr. rewrite Forall_forall in Hwe.
      rewrite (Hwe ws Hws) in Hr. now apply elem_of_nil in Hr. }
    split.
    { split; [lia|]. split; [lia|]. split.
      - intros i r Hi. discriminate.
      - intros r Hr. lia. }
    split; [intros r Hr; lia|]. split; [intros r Hr; lia|]. reflexivity. }
  assert (Hci0 : clause_inv 0 w4) by (intros r Hr; lia).
  unfold connect_binary_counters in Hinit.
  destruct (fold_left connect_binary_counter
              (seqZ 0 (u32 (Z.of_nat (length (binaries w4))))) (w4, 0))
    as [w5 cr] eqn:Hb.
  rewrite MAX_WALK_REF_value in Hcl0.
  assert (Hnb : u32 (Z.of_nat (length (binaries w4))) = Z.of_nat (length bins)).
  { rewrite Fb. apply u32_small. lia. }
  rewrite Hnb in Hb.
  destruct (connect_binary_loop (seqZ 0 (Z.of_nat (length bins))) w4 0)
    with (w' := w5) (cr' := cr)
    as ((I5 & C5 & Lc5 & Lr5 & R5) & Hcr & Ar5 & _); try assumption.
  { rewrite Hlc. apply Hcl0. }
  { lia. }
  { rewrite length_seqZ, Hlc. lia. }
  { apply Forall_forall. intros b Hin. apply elem_of_seqZ in Hin.
    rewrite Fb. lia. }
  { rewrite Fb, MAX_WALK_REF_value. lia. }
  { unfold LITS. rewrite Fb, Fs, Ev. exact Hbins. }
  rewrite length_seqZ in Hcr.
  destruct (connecting_rest_fields _ _ R5)
    as (Hsv5 & Hbin5 & Hvars5 & Hvals5 & Hact5 & Hlast5).
  match type of Hinit with context [connect_large_counters ?W _] =>
    set (w5' := W) in Hinit end.
  unfold connect_large_counters in Hinit.
  destruct (connect_large_loop_inv (length (arena (solver w5'))) 0 w5' cr)
    as (n & (I6 & C6 & Lc6 & Lr6 & R6) & _).
  { apply (connect_inv_ext cr w5 w5'); try reflexivity. assumption. }
  { apply (clause_inv_ext cr w5 w5'); try reflexivity. assumption. }
  { cbn. rewrite Lc5, Hlc. apply Hcl0. }
  { cbn. congruence. }
  { lia. }
  { cbn [w5' solver set_size counters]. rewrite Lc5, Hlc, Ar5, Fs, Ear.
    change (drop 0 (arena s)) with (arena s). lia. }
  { cbn [w5' solver set_size saved]. rewrite Hsv5, Fsv.
    apply (arena_ready_marks s (solver w5) (values s));
      [|congruence..|assumption].
    rewrite Ar5, Fs, Ear. apply arena_marks_refl. }
  { cbn [w5' solver set_size].
    apply (actives_assigned_ext (solver w2) (solver w5));
      [congruence..|assumption]. }
  set (w6 := connect_large_loop (seq 0 (length (arena (solver w5')))) w5' cr) in *.
  clearbody w6.
  apply init_score_table_frame in Hinit. destruct Hinit as (t & e & eps & ->).
  exists n. split; [|reflexivity].
  pose proof (connect_inv_current n w6 I6) as Hw.
  pose proof Hw as (_ & _ & _ & _ & _ & _ & _ & _ & Hcur).
  cbn in Hcur.
  assert (Hsc : scores w6 = []).
  { unfold connecting_rest in R6, R5. injection R6. injection R5. intros.
    cbn [w5' scores set_size] in *. rewrite Fsc in *. congruence. }
  split; [|split; [|split]].
  - eapply walker_inv_ext; [..|exact Hw]; reflexivity.
  - eapply clause_inv_ext; [..|exact C6]; reflexivity.
  - cbn. lia.
  - exact Hsc.
Qed.

End Init.

(** ** [pick_literal] *)

Lemma scoring_break_value (w : walker) (stat : statistics) (sc : list float)
    (lit : Z) :
  exists stat',
    break_value (scoring w stat sc) lit
    = (fst (break_value w lit), scoring w stat' sc).
Proof.
  destruct (break_value_frame (scoring w stat sc) lit) as [m Hm].
  exists m. rewrite (surjective_pairing (break_value (scoring w stat sc) lit)).
  unfold scoring at 1. rewrite break_value_fst. rewrite Hm.
  reflexivity.
Qed.

Lemma assigned_lits_cons_zero (vs : list value) (l : Z) (lits : list Z) :
  peek vs l = 0 -> assigned_lits vs (l :: lits) = assigned_lits vs lits.
Proof.
  intros H. unfold assigned_lits. rewrite filter_cons.
  destruct (decide (peek vs l <> 0)); [contradiction|reflexivity].
Qed.

Lemma assigned_lits_cons_nonzero (vs : list value) (l : Z) (lits : list Z) :
  peek vs l <> 0 -> assigned_lits vs (l :: lits) = l :: assigned_lits vs lits.
Proof.
  intros H. unfold assigned_lits. rewrite filter_cons.
  destruct (decide (peek vs l <> 0)); [reflexivity|contradiction].
Qed.

(** The first loop leaves the scores of the assigned literals on the stack,
    their sum in [sum] and the last of them in [picked_lit]. *)
Lemma pick_literal_score_loop (w : walker) (lits : list Z) :
  forall (stat : statistics) (sc : list float) (sum : float) (picked : Z),
  let assigned := assigned_lits (values (solver w)) lits in
  exists stat',
    fold_left pick_literal_score lits (scoring w stat sc, sum, picked)
    = (scoring w stat' (sc ++ map (score_of w) assigned),
       fold_left (fun sum p => (sum + snd p)%float)
         (map (fun lit => (lit, score_of w lit)) assigned) sum,
       default picked (last assigned)).
Proof.
  induction lits as [|lit lits IH]; intros stat sc sum picked.
  { exists stat. cbn. now rewrite app_nil_r. }
  cbn [fold_left]. unfold pick_literal_score at 2.
  change (values (solver (scoring w stat sc))) with (values (solver w)).
  destruct (peek (values (solver w)) lit =? 0) eqn:Hz.
  - apply Z.eqb_eq in Hz. cbv zeta.
    rewrite (assigned_lits_cons_zero _ _ _ Hz). apply IH.
  - apply Z.eqb_neq in Hz. cbv zeta.
    rewrite (assigned_lits_cons_nonzero _ _ _ Hz).
    destruct (scoring_break_value w stat sc lit) as [m ->].
    change (scale_score (scoring w m sc) (fst (break_value w lit)))
      with (score_of w lit).
    change (set_scores (scores (scoring w m sc) ++ [score_of w lit])
              (scoring w m sc))
      with (scoring w m (sc ++ [score_of w lit])).
    destruct (IH m (sc ++ [score_of w lit]) (sum + score_of w lit)%float lit)
      as [m' ->].
    exists m'. cbn [map fold_left snd]. rewrite <- app_assoc. cbn [app].
    f_equal.
    set (a := assigned_lits (values (solver w)) lits).
    destruct a as [|x a]; [reflexivity|].
    rewrite !last_cons. destruct (last a); reflexivity.
Qed.

(** The second loop returns the first literal at which the running sum
    exceeds the threshold. *)
Lemma pick_literal_scan_spec (vs : list value) (f : Z -> float)
    (threshold : float) (lits : list Z) :
  forall (sum : float) (picked : Z),
  pick_literal_scan vs threshold lits (map f (assigned_lits vs lits)) sum picked
  = default picked
      (first_exceeding threshold
         (map (fun lit => (lit, f lit)) (assigned_lits vs lits)) sum).
Proof.
  induction lits as [|lit lits IH]; intros sum picked; [reflexivity|].
  cbn [pick_literal_scan].
  destruct (peek vs lit =? 0) eqn:Hz.
  - apply Z.eqb_eq in Hz. rewrite (assigned_lits_cons_zero _ _ _ Hz). apply IH.
  - apply Z.eqb_neq in Hz. rewrite (assigned_lits_cons_nonzero _ _ _ Hz).
    cbn [map hd tl first_exceeding].
    destruct (threshold <? sum + f lit)%float; [reflexivity|]. apply IH.
Qed.

Lemma first_exceeding_elem (threshold : float) (scored : list (Z * float))
    (sum : float) (lit : Z) :
  first_exceeding threshold scored sum = Some lit -> lit ∈ map fst scored.
Proof.
  revert sum. induction scored as [|[l sc] scored IH]; intros sum H;
    [discriminate|].
  cbn in H |- *. destruct (threshold <? sum + sc)%float.
  - injection H as ->. left.
  - right. now apply (IH _ H).
Qed.

Section Pick.

Context {host : Host}.

Lemma scoring_same (w : walker) :
  scores w = [] -> scoring w (stats (solver w)) [] = w.
Proof.
  intros H. unfold scoring. rewrite set_stats_same, set_solver_same.
  destruct w. cbn in H. subst. reflexivity.
Qed.

Lemma score_of_flipped (x : Z) (w : walker) (lit : Z) :
  score_of (set_flipped x w) lit = score_of w lit.
Proof.
  unfold score_of, break_value. cbn.
  destruct (fold_left _ _ _) as [steps res]. reflexivity.
Qed.

(** [pick_literal] returns the literal the specification describes. *)
Lemma pick_literal_refines (w : walker) :
  scores w = [] ->
  fst (pick_literal w)
  = pick_literal_spec w (fst (kissat_pick_double (generator w))).
Proof.
  intros Hsc. unfold pick_literal, pick_literal_spec.
  set (w1 := set_flipped (u64 (flipped w + 1)) w).
  change (dereference_literals w1 (peek (unsat w1) (pick_literal_pos w)))
    with (picked_clause w).
  set (lits := picked_clause w).
  assert (Hsc1 : scores w1 = []) by exact Hsc.
  rewrite <- (scoring_same w1 Hsc1) at 1.
  destruct (pick_literal_score_loop w1 lits (stats (solver w1)) []
              0%float INVALID_LIT) as [m ->].
  cbv zeta.
  change (generator (scoring w1 m _)) with (generator w).
  destruct (kissat_pick_double (generator w)) as [random next].
  cbn [fst snd app].
  change (values (solver w1)) with (values (solver w)).
  set (assigned := assigned_lits (values (solver w)) lits).
  match goal with |- context [pick_literal_scan ?vs ?th lits ?scs ?sum ?p] =>
    change scs with (map (score_of w1) assigned);
    change vs with (values (solver w)) end.
  unfold assigned. rewrite pick_literal_scan_spec. fold assigned.
  assert (E : map (fun lit => (lit, score_of w1 lit)) assigned
              = map (fun lit => (lit, score_of w lit)) assigned).
  { apply map_ext. intros l. unfold w1. now rewrite score_of_flipped. }
  rewrite E.
  destruct (first_exceeding _ _ _); reflexivity.
Qed.

End Pick.

Lemma picked_counter (n : Z) (w : walker) :
  walker_inv n w -> 0 < current w ->
  let r := peek (unsat w) (pick_literal_pos w) in
  0 <= r < n /\ count (peek (counters w) r) = 0
  /\ unsat w !! Z.to_nat (pick_literal_pos w) = Some r.
Proof.
  intros (_ & _ & _ & _ & _ & Hst & _ & _ & Hcur) Hpos r.
  pose proof (stack_inv_length _ _ _ Hst) as Hlen.
  destruct Hst as (_ & Hn & A1 & _).
  assert (Hp : 0 <= pick_literal_pos w < Z.of_nat (length (unsat w))).
  { unfold pick_literal_pos.
    pose proof (Z.mod_pos_bound (flipped w) (current w) Hpos).
    rewrite u32_small; lia. }
  pose proof (lookup_peek (unsat w) _ Hp) as Hl. fold r in Hl.
  destruct (A1 _ _ Hl) as (H1 & H2 & _). repeat split; try assumption; lia.
Qed.

(** An assigned literal of a clause whose counter is 0 is false. *)
Lemma unsat_clause_false (n : Z) (w : walker) (r l : Z) :
  walker_inv n w -> clause_inv n w ->
  0 <= r < n -> count (peek (counters w) r) = 0 ->
  l ∈ assigned_lits (values (solver w)) (dereference_literals w r) ->
  l ∈ dereference_literals w r /\ 0 <= l < LITS (solver w)
  /\ peek (values (solver w)) l < 0.
Proof.
  intros (_ & Hlv & Hlw & _ & _ & _ & Hcnt & _) Hci Hr Hc Hl.
  unfold assigned_lits in Hl. apply list_elem_of_filter in Hl.
  destruct Hl as [Hnz Hin].
  destruct (Hci r Hr) as (H1 & H2 & _).
  pose proof (H1 l Hin) as Hrange. pose proof (H2 l Hin Hnz) as Hw.
  split; [assumption|]. split; [assumption|].
  destruct (Z_lt_le_dec 0 (peek (values (solver w)) l)) as [Hpos|Hle]; [|lia].
  exfalso. rewrite (Hcnt r Hr) in Hc.
  refine (true_count_zero r _ _ l _ _ Hc Hpos Hw); lia.
Qed.

Lemma pick_literal_spec_false (n : Z) (w : walker) (random : float) :
  walker_inv n w -> clause_inv n w -> 0 < current w ->
  let lit := pick_literal_spec w random in
  lit ∈ picked_clause w /\ 0 <= lit < LITS (solver w)
  /\ peek (values (solver w)) lit < 0.
Proof.
  intros Hinv Hci Hpos lit.
  destruct (picked_counter n w Hinv Hpos) as (Hr & Hc & _).
  apply (unsat_clause_false n w _ lit Hinv Hci Hr Hc).
  fold (picked_clause w). unfold lit, pick_literal_spec.
  set (assigned := assigned_lits (values (solver w)) (picked_clause w)).
  cbv zeta.
  destruct (first_exceeding _ _ _) as [l|] eqn:Hf.
  - apply first_exceeding_elem in Hf. rewrite map_map in Hf. cbn in Hf.
    now rewrite map_id in Hf.
  - destruct (Hci _ Hr) as (_ & _ & (l & Hl & Hnz)).
    assert (Hin : l ∈ assigned).
    { unfold assigned, assigned_lits. apply list_elem_of_filter.
      split; assumption. }
    destruct (last assigned) as [x|] eqn:Hlast.
    + cbn. apply last_Some in Hlast. destruct Hlast as [l' ->].
      apply elem_of_app. right. left.
    + apply last_None in Hlast. rewrite Hlast in Hin.
      now apply elem_of_nil in Hin.
Qed.

(** ** The invariants through a step *)

Lemma inv_part_ext (n : Z) (w w' : walker) :
  inv_part w' = inv_part w ->
  walker_inv n w -> clause_inv n w ->
  walker_inv n w' /\ clause_inv n w'.
Proof.
  unfold inv_part. intros H. injection H. intros. split.
  - apply (walker_inv_ext n w w'); assumption.
  - apply (clause_inv_ext n w w'); assumption.
Qed.

Lemma flip_literal_values (w : walker) (flip : Z) :
  values (solver (flip_literal w flip))
  = poke (poke (values (solver w)) flip (- peek (values (solver w)) flip))
      (NOT flip) (peek (values (solver w)) flip).
Proof.
  unfold flip_literal.
  match goal with |- context [break_clauses ?w1 flip] =>
    pose proof (break_clauses_rest w1 flip) as Hb end.
  match type of Hb with context [make_clauses ?w0 flip] =>
    pose proof (make_clauses_rest w0 flip) as Hm end.
  rewrite Hm in Hb.
  destruct (counting_rest_fields _ _ Hb) as (Hv & _).
  cbn [solver set_current]. rewrite Hv. reflexivity.
Qed.

Lemma flip_literal_inv_part (w : walker) (flip : Z) :
  let w' := flip_literal w flip in
  vars (solver w') = vars (solver w) /\ watches (solver w') = watches (solver w)
  /\ arena (solver w') = arena (solver w) /\ refs w' = refs w
  /\ binaries w' = binaries w /\ scores w' = scores w
  /\ minimum w' = minimum w.
Proof.
  intros w'.
  destruct (flipping_rest_fields _ _ (flip_literal_rest w flip))
    as (Hb & _ & _ & Hsc & Hh & _).
  fold w' in Hb, Hsc, Hh.
  unfold bookkeeping in Hb. unfold host_part in Hh.
  injection Hb. injection Hh. intros. repeat split; assumption.
Qed.

Lemma clause_inv_flip (n : Z) (w : walker) (flip : Z) :
  walker_inv n w -> clause_inv n w ->
  0 <= flip < LITS (solver w) ->
  peek (values (solver w)) flip <> 0 ->
  clause_inv n (flip_literal w flip).
Proof.
  intros (_ & Hlv & _ & Hsym & _) Hci Hflip Hnz.
  destruct (flip_literal_inv_part w flip) as (Ev & Ew & Ea & Er & Eb & _).
  pose proof (flip_literal_values w flip) as Evs.
  set (w' := flip_literal w flip) in *.
  intros r Hr.
  assert (Hd : dereference_literals w' r = dereference_literals w r).
  { apply dereference_literals_ext; congruence. }
  cbv zeta. unfold LITS in *. rewrite Hd, Ev, Ew, Evs.
  destruct (Hci r Hr) as (H1 & H2 & H3).
  set (vs := values (solver w)) in *. set (v := peek vs flip) in *.
  pose proof (NOT_range flip _ Hflip) as Hnf.
  pose proof (NOT_neq flip ltac:(lia)) as Hne.
  assert (Hiff : forall l, 0 <= l < 2 * vars (solver w) ->
            peek (poke (poke vs flip (- v)) (NOT flip) v) l <> 0
            <-> peek vs l <> 0).
  { intros l Hl.
    destruct (Z.eq_dec l (NOT flip)) as [->|N1].
    - rewrite peek_poke_eq by (rewrite length_poke; lia).
      rewrite (Hsym flip) by lia. fold v. lia.
    - rewrite peek_poke_ne by lia.
      destruct (Z.eq_dec l flip) as [->|N2].
      + rewrite peek_poke_eq by lia. fold v. lia.
      + now rewrite peek_poke_ne by lia. }
  split; [assumption|]. split.
  - intros l Hl Hv. apply H2; [assumption|]. apply Hiff; [|assumption].
    now apply H1.
  - destruct H3 as (l & Hl & Hv). exists l. split; [assumption|].
    apply Hiff; [|assumption]. now apply H1.
Qed.

Section Round.

Context {host : Host}.

(** The walker a step hands to [flip_literal], and the literal. *)
Lemma step_pick (n : Z) (w : walker) :
  round_inv n w -> minimum w <> 0 ->
  let wp := set_flipped (u64 (flipped w + 1))
              (set_solver (INC_flipped (solver w)) w) in
  let lit := fst (pick_literal wp) in
  let w2 := snd (pick_literal wp) in
  walker_inv n w2 /\ clause_inv n w2
  /\ 0 <= lit < LITS (solver w2) /\ peek (values (solver w2)) lit < 0
  /\ scores w2 = [] /\ minimum w2 = minimum w.
Proof.
  intros (Hinv & Hci & Hmin & Hsc) Hm wp lit w2.
  destruct (inv_part_ext n w wp eq_refl Hinv Hci) as [Hinvp Hcip].
  assert (Hpos : 0 < current wp) by (cbn; lia).
  pose proof (pick_literal_refines wp Hsc) as Href. fold lit in Href.
  destruct (pick_literal_spec_false n wp
              (fst (kissat_pick_double (generator wp))) Hinvp Hcip Hpos)
    as (_ & Hrange & Hneg).
  cbv zeta in Hrange, Hneg. rewrite <- Href in Hrange, Hneg.
  destruct (pick_literal_frame wp) as (st & g & Hp). fold w2 in Hp.
  clearbody lit w2. subst w2.
  destruct (inv_part_ext n wp
              (set_scores []
                 (set_generator g
                    (set_solver (set_stats st (solver wp))
                       (set_flipped (u64 (flipped wp + 1)) wp))))
              eq_refl Hinvp Hcip) as [H1 H2].
  split; [exact H1|]. split; [exact H2|].
  split; [exact Hrange|]. split; [exact Hneg|]. split; reflexivity.
Qed.

Lemma step_flipped_inv (n : Z) (w : walker) :
  round_inv n w -> minimum w <> 0 ->
  walker_inv n (step_flipped w) /\ clause_inv n (step_flipped w)
  /\ scores (step_flipped w) = []
  /\ minimum (step_flipped w) = minimum w.
Proof.
  intros Hr Hm. destruct (step_pick n w Hr Hm) as (H1 & H2 & H3 & H4 & H5 & H6).
  cbv zeta in *. unfold step_flipped.
  set (wp := set_flipped (u64 (flipped w + 1))
               (set_solver (INC_flipped (solver w)) w)) in *.
  revert H1 H2 H3 H4 H5 H6.
  generalize (snd (pick_literal wp)) (fst (pick_literal wp)).
  intros w2 lit H1 H2 H3 H4 H5 H6.
  destruct (flip_literal_inv_part w2 lit) as (_ & _ & _ & _ & _ & Es & Em).
  split; [now apply flip_literal_inv|].
  split; [apply clause_inv_flip; try assumption; lia|].
  split; congruence.
Qed.

Lemma local_search_step_flip (w : walker) :
  exists sv tr b m,
    local_search_step w
    = set_minimum m
        (set_best b (set_trail tr
           (set_solver (set_phases_saved sv (solver (step_flipped w)))
              (step_flipped w))))
    /\ (m = minimum (step_flipped w) /\ m <= current (step_flipped w)
        \/ m = current (step_flipped w)).
Proof.
  rewrite local_search_step_unfold. cbv zeta. unfold step_flipped.
  set (wp := set_flipped (u64 (flipped w + 1))
               (set_solver (INC_flipped (solver w)) w)).
  destruct (pick_literal wp) as [lit w2]. cbn [fst snd].
  generalize (flip_literal w2 lit). intros w3.
  destruct (push_flipped_frame w3 lit) as (sv & tr & b & ->).
  match goal with |- context [if ?c then _ else _] => destruct c eqn:Hc end.
  - match goal with |- context [update_best ?x] =>
      destruct (update_best_frame x) as (sv' & b' & ->) end.
    exists sv', tr, b', (current w3). split; [|right; reflexivity].
    destruct w3 as [s]. now destruct s.
  - exists sv, tr, b, (minimum w3). split.
    + destruct w3 as [s]. now destruct s.
    + left. split; [reflexivity|]. apply Z.ltb_ge in Hc. exact Hc.
Qed.

Lemma local_search_step_inv (n : Z) (w : walker) :
  round_inv n w -> minimum w <> 0 -> round_inv n (local_search_step w).
Proof.
  intros Hr Hm.
  destruct (step_flipped_inv n w Hr Hm) as (H1 & H2 & H3 & H4).
  destruct (local_search_step_flip w) as (sv & tr & b & m & -> & Hmin).
  revert H1 H2 H3 H4 Hmin. generalize (step_flipped w). intros w3 H1 H2 H3 H4 Hmin.
  destruct (inv_part_ext n w3
              (set_minimum m
                 (set_best b (set_trail tr
                    (set_solver (set_phases_saved sv (solver w3)) w3))))
              eq_refl H1 H2) as [I1 I2].
  split; [exact I1|]. split; [exact I2|]. split; [|exact H3].
  destruct Hr as (_ & _ & Hmw & _).
  destruct H1 as (_ & _ & _ & _ & _ & _ & _ & _ & Hcur).
  cbn. lia.
Qed.

Lemma continues_minimum (w : walker) :
  local_search_continues w = true -> minimum w <> 0.
Proof.
  unfold local_search_continues. intros H.
  apply andb_true_iff in H. destruct H as [H _].
  apply andb_true_iff in H. destruct H as [H _].
  apply negb_true_iff in H. now apply Z.eqb_neq in H.
Qed.

Lemma round_steps_inv (n : Z) (k : nat) :
  forall w w', round_inv n w -> round_steps k w = Some w' -> round_inv n w'.
Proof.
  induction k as [|k IH]; intros w w' Hr Hk; cbn in Hk.
  - injection Hk as <-. exact Hr.
  - destruct (local_search_continues w) eqn:Hc; [|discriminate].
    apply (IH (local_search_step w)); [|exact Hk].
    apply local_search_step_inv; [exact Hr|now apply continues_minimum].
Qed.

Lemma init_walker_limit_inv (n : Z) (w : walker) :
  round_inv n w -> round_inv n (init_walker_limit w).
Proof.
  intros (H1 & H2 & H3 & H4).
  destruct (inv_part_ext n w (init_walker_limit w) eq_refl H1 H2) as [I1 I2].
  split; [exact I1|]. split; [exact I2|]. split; assumption.
Qed.

(** The loop of [local_search_round] ends after some number of steps. *)
Lemma local_search_round_steps (fuel : nat) :
  forall w w', local_search_round fuel w = Some w' ->
  exists k, round_steps k w = Some w' /\ local_search_continues w' = false.
Proof.
  induction fuel as [|fuel IH]; intros w w' H; [discriminate|].
  cbn in H. destruct (local_search_continues w) eqn:Hc.
  - destruct (IH _ _ H) as (k & Hk & Hstop). exists (S k).
    cbn. rewrite Hc. split; assumption.
  - injection H as <-. exists 0%nat. split; [reflexivity|assumption].
Qed.

(** The invariant of the round holds of every walker the round reaches
    from the one [init_walker] returns, and of the walker the next step
    hands to [pick_literal], whose unsat stack is not empty. *)
Lemma round_inv_reached (fuel : nat) (s : kissat) (bins : litpairs)
    (w0 : walker) (k : nat) (w : walker) :
  host_ready s bins ->
  init_walker fuel s bins = Some w0 ->
  round_steps k (init_walker_limit w0) = Some w ->
  exists n,
    round_inv n w0 /\ round_inv n w
    /\ (local_search_continues w = true ->
        let wp := set_flipped (u64 (flipped w + 1))
                    (set_solver (INC_flipped (solver w)) w) in
        round_inv n wp /\ unsat wp <> []).
Proof.
  intros Hready Hinit Hk.
  destruct (init_walker_inv fuel s bins w0 Hready Hinit) as (n & Hr & _).
  exists n. split; [exact Hr|].
  pose proof (round_steps_inv n k _ _ (init_walker_limit_inv n w0 Hr) Hk) as Hw.
  split; [exact Hw|].
  intros Hc wp. apply continues_minimum in Hc.
  destruct Hw as (H1 & H2 & H3 & H4).
  destruct (inv_part_ext n w wp eq_refl H1 H2) as [I1 I2].
  split; [split; [exact I1|split; [exact I2|split; assumption]]|].
  destruct H1 as (_ & _ & _ & _ & _ & _ & _ & _ & Hcur).
  change (unsat wp) with (unsat w). intros E. rewrite E in Hcur. cbn in Hcur. lia.
Qed.

End Round.

(** ** The example solver *)

Ltac forall_list :=
  repeat apply Forall_cons_2; try apply Forall_nil_2.

Lemma example_ready : host_ready example_solver example_binaries.
Proof.
  assert (E : length (filter irredundant (arena example_solver)) = 2%nat)
    by (vm_compute; reflexivity).
  unfold host_ready, arena_ready, LITS, BINIRR_CLAUSES. rewrite E. cbn.
  split; [lia|]. split; [lia|]. split; [discriminate|]. split; [reflexivity|].
  split; [forall_list; reflexivity|].
  split; [forall_list; cbn; lia|].
  split; [rewrite MAX_WALK_REF_value; cbn; lia|].
  split.
  - repeat apply NoDup_cons_2; try apply NoDup_nil_2;
      rewrite ?elem_of_cons, ?elem_of_nil; lia.
  - rewrite MAX_WALK_REF_value. forall_list.
    + split; [forall_list; lia|]. split; [cbn; lia|]. split; [intros; cbn; lia|].
      intros _. exists 0. split; [left|reflexivity].
    + split; [forall_list; lia|]. split; [cbn; lia|]. split; [intros; cbn; lia|].
      intros _. exists 1. split; [left|reflexivity].
    + split; [forall_list; lia|]. split; [cbn; lia|]. split.
      * unfold within_boundary, INVALID_REF. cbn. intros [H|H]; [discriminate|lia].
      * intros ((_ & H) & _). discriminate.
Qed.

(** ** The contract of [pick_literal] *)

Section PickContract.

Context {host : Host}.

(** C5.  Called with a non-empty unsat stack on a walker of the round
    (the invariant [round_inv] holds of all of them, see
    [round_inv_reached]), [pick_literal] returns the literal the
    specification describes: the scores of the
    assigned literals of the picked clause are summed, the threshold is the
    sum times the random number, and the result is the first literal, in
    clause order, at which the running sum exceeds the threshold, or the
    last assigned literal of the clause when no literal does.  Whatever the
    random number is, the result is a literal of the picked clause, a
    literal of the solver, and false. *)
Theorem pick_literal_contract (n : Z) (w : walker) :
  round_inv n w -> unsat w <> [] ->
  let lit := fst (pick_literal w) in
  let random := fst (kissat_pick_double (generator w)) in
  let assigned := assigned_lits (values (solver w)) (picked_clause w) in
  let scored := map (fun l => (l, score_of w l)) assigned in
  let sum := fold_left (fun sum p => (sum + snd p)%float) scored 0%float in
  lit = pick_literal_spec w random
  /\ match first_exceeding (sum * random)%float scored 0%float with
     | Some l => lit = l
     | None => last assigned = Some lit
     end
  /\ lit ∈ picked_clause w
  /\ 0 <= lit < LITS (solver w)
  /\ peek (values (solver w)) lit < 0
  /\ (forall r : float,
        pick_literal_spec w r ∈ picked_clause w
        /\ peek (values (solver w)) (pick_literal_spec w r) < 0).
Proof.
  intros (Hinv & Hci & _ & Hsc) Hne lit random assigned scored sum.
  assert (Hpos : 0 < current w).
  { destruct Hinv as (_ & _ & _ & _ & _ & _ & _ & _ & ->).
    destruct (unsat w); [contradiction|cbn; lia]. }
  assert (Href : lit = pick_literal_spec w random)
    by (apply pick_literal_refines; exact Hsc).
  assert (Hall : forall r : float,
            pick_literal_spec w r ∈ picked_clause w
            /\ 0 <= pick_literal_spec w r < LITS (solver w)
            /\ peek (values (solver w)) (pick_literal_spec w r) < 0).
  { intros r. apply (pick_literal_spec_false n w r Hinv Hci Hpos). }
  destruct (Hall random) as (H1 & H2 & H3). rewrite <- Href in H1, H2, H3.
  split; [exact Href|]. split.
  - rewrite Href. unfold pick_literal_spec. fold assigned scored sum.
    destruct (first_exceeding (sum * random) scored 0); [reflexivity|].
    destruct (picked_counter n w Hinv Hpos) as (Hr & _).
    destruct (Hci _ Hr) as (_ & _ & (l & Hl & Hnz)).
    assert (Hin : l ∈ assigned).
    { unfold assigned, assigned_lits. apply list_elem_of_filter.
      split; assumption. }
    destruct (last assigned) as [x|] eqn:Hlast; [reflexivity|].
    apply last_None in Hlast. rewrite Hlast in Hin.
    now apply elem_of_nil in Hin.
  - split; [exact H1|]. split; [exact H2|]. split; [exact H3|].
    intros r. destruct (Hall r) as (R1 & _ & R3). split; assumption.
Qed.

End PickContract.

(** The theorem at the walker [init_walker] makes of the example solver:
    its one unsatisfied clause is the counter 2, the arena clause of the
    literals 0, 2 and 5. *)
Lemma pick_literal_contract_witness :
  exists w,
    init_walker (host := example_host) 1100 example_solver example_binaries
    = Some w
    /\ unsat w <> []
    /\ peek (values (solver w)) (fst (pick_literal (host := example_host) w)) < 0.
Proof.
  eexists. split; [vm_compute; reflexivity|].
  match goal with |- unsat ?w <> [] /\ _ =>
    assert (Hinit : init_walker (host := example_host) 1100 example_solver
                      example_binaries = Some w)
      by (vm_compute; reflexivity);
    assert (Hne : unsat w <> []) by discriminate;
    destruct (init_walker_inv (host := example_host) 1100 example_solver
                example_binaries w example_ready Hinit) as (n & Hr & _);
    destruct (pick_literal_contract (host := example_host) n w Hr Hne)
      as (_ & _ & _ & _ & H & _)
  end.
  exact (conj Hne H).
Defined.

(** ** Invariant A *)

(** When the popped counter is not the last of the stack, [pop_unsat] moves
    the last one to the vacated position and stores the position in it. *)
Lemma pop_unsat_swaps (w : walker) (r p other : Z) :
  last (unsat w) = Some other -> r <> other ->
  0 <= other < Z.of_nat (length (counters w)) ->
  0 <= p < Z.of_nat (length (unsat w)) - 1 ->
  let w' := snd (pop_unsat w r p) in
  fst (pop_unsat w r p) = true
  /\ unsat w' !! Z.to_nat p = Some other
  /\ pos (peek (counters w') other) = p
  /\ length (unsat w') = (length (unsat w) - 1)%nat.
Proof.
  intros Hlast Hne Hother Hp. unfold pop_unsat. rewrite Hlast.
  cbn [default from_option id].
  destruct (r =? other) eqn:E; [apply Z.eqb_eq in E; contradiction|].
  cbn [fst snd unsat set_unsat set_counters set_current counters].
  assert (Hrl : length (removelast (unsat w)) = (length (unsat w) - 1)%nat).
  { apply last_Some in Hlast. destruct Hlast as [l' ->].
    rewrite removelast_last, length_app. cbn. lia. }
  split; [reflexivity|]. split; [|split].
  - unfold poke. apply list_lookup_insert_eq. lia.
  - rewrite peek_alter_eq by lia. reflexivity.
  - now rewrite length_poke.
Qed.

Section InvariantA.

Context {host : Host}.

(** C1.  Invariant A holds of the walker [init_walker] returns and, in the
    round that follows, of the walker after every number of steps, after
    the [flip_literal] of the next step, and of the walker
    [local_search_round] returns: a counter in use is on the unsat stack
    iff its count is 0, and then at the index its [pos] holds.  And
    when [pop_unsat] takes a counter that is not the last of the stack, it
    moves the last one to the vacated position [p] and sets its [pos] to
    [p]. *)
Theorem invariant_A_maintained (fuel : nat) (s : kissat) (bins : litpairs)
    (w0 : walker) :
  host_ready s bins ->
  init_walker fuel s bins = Some w0 ->
  invariant_A w0
  /\ (forall (k : nat) (w : walker),
        round_steps k (init_walker_limit w0) = Some w ->
        invariant_A w
        /\ (local_search_continues w = true -> invariant_A (step_flipped w)))
  /\ (forall (fuel' : nat) (w : walker),
        local_search_round fuel' (init_walker_limit w0) = Some w ->
        invariant_A w)
  /\ (forall (w : walker) (r p other : Z),
        last (unsat w) = Some other -> r <> other ->
        0 <= other < Z.of_nat (length (counters w)) ->
        0 <= p < Z.of_nat (length (unsat w)) - 1 ->
        unsat (snd (pop_unsat w r p)) !! Z.to_nat p = Some other
        /\ pos (peek (counters (snd (pop_unsat w r p))) other) = p).
Proof.
  intros Hready Hinit.
  destruct (init_walker_inv fuel s bins w0 Hready Hinit) as (n & Hr & _).
  split; [|split; [|split]].
  - destruct Hr as (Hinv & _). exact (walker_inv_invariant_A n w0 Hinv).
  - intros k w Hk.
    pose proof (round_steps_inv n k _ _ (init_walker_limit_inv n w0 Hr) Hk)
      as Hrw.
    split.
    + destruct Hrw as (Hinv & _). exact (walker_inv_invariant_A n w Hinv).
    + intros Hc.
      destruct (step_flipped_inv n w Hrw (continues_minimum w Hc)) as (Hinv & _).
      exact (walker_inv_invariant_A n _ Hinv).
  - intros fuel' w Hround.
    destruct (local_search_round_steps fuel' _ _ Hround) as (k & Hk & _).
    destruct (round_steps_inv n k _ _ (init_walker_limit_inv n w0 Hr) Hk)
      as (Hinv & _).
    exact (walker_inv_invariant_A n w Hinv).
  - intros w r p other Hlast Hne Hother Hp.
    destruct (pop_unsat_swaps w r p other Hlast Hne Hother Hp)
      as (_ & H1 & H2 & _).
    split; assumption.
Qed.

End InvariantA.

(** The theorem at the example solver, for the walker it starts with and
    the one after the first step of the round. *)
Lemma invariant_A_maintained_witness :
  exists w0 w1,
    init_walker (host := example_host) 1100 example_solver example_binaries
    = Some w0
    /\ round_steps (host := example_host) 1
         (init_walker_limit (host := example_host) w0) = Some w1
    /\ invariant_A w0 /\ invariant_A w1.
Proof.
  eexists. eexists. split; [vm_compute; reflexivity|].
  split; [vm_compute; reflexivity|].
  match goal with |- invariant_A ?w /\ invariant_A ?w' =>
    assert (Hinit : init_walker (host := example_host) 1100 example_solver
                      example_binaries = Some w)
      by (vm_compute; reflexivity);
    assert (Hstep : round_steps (host := example_host) 1
                      (init_walker_limit (host := example_host) w) = Some w')
      by (vm_compute; reflexivity);
    destruct (invariant_A_maintained (host := example_host) 1100
                example_solver example_binaries w example_ready Hinit)
      as (H & Hk & _ & _);
    destruct (Hk 1%nat w' Hstep) as (H' & _)
  end.
  exact (conj H H').
Defined.


(** ** What setting up the walker does to the solver *)

Lemma watches_extend_refl (wss : list (list Z)) : watches_extend wss wss.
Proof. unfold watches_extend. induction wss; constructor; auto. Qed.

Lemma watches_extend_trans (a b c : list (list Z)) :
  watches_extend a b -> watches_extend b c -> watches_extend a c.
Proof.
  unfold watches_extend. intros H. revert c.
  induction H as [|x y a b Hxy H IH]; intros c Hc.
  - exact Hc.
  - destruct c as [|z c]; [now apply Forall2_cons_nil_inv in Hc|].
    apply Forall2_cons in Hc. destruct Hc as [Hyz Hc].
    constructor; [now transitivity y|now apply IH].
Qed.

Lemma watches_extend_insert (wss : list (list Z)) (i : nat) (r : Z) :
  watches_extend wss (<[i := (wss !!! i) ++ [r]]> wss).
Proof.
  unfold watches_extend. revert i.
  induction wss as [|ws wss IH]; intros i; [constructor|].
  destruct i as [|i].
  - constructor; [now apply prefix_app_r|apply watches_extend_refl].
  - constructor; [reflexivity|]. apply IH.
Qed.

Lemma kissat_push_large_watch_extend (s : kissat) (lit r : Z) :
  watches_extend (watches s) (watches (kissat_push_large_watch s lit r)).
Proof. apply watches_extend_insert. Qed.

Lemma push_watches_extend (vs : list value) (r : Z) (lits : list Z) :
  forall wss, watches_extend wss (push_watches vs r lits wss).
Proof.
  induction lits as [|l lits IH]; intros wss; [apply watches_extend_refl|].
  cbn. eapply watches_extend_trans; [|apply IH].
  unfold watch_counter. destruct (peek vs l =? 0);
    [apply watches_extend_refl|apply watches_extend_insert].
Qed.

Lemma import_decision_phase_host (target : option (list value)) (s : kissat)
    (idx : Z) :
  host_part (import_decision_phase target s idx) = host_part s
  /\ stats (import_decision_phase target s idx) = stats s.
Proof.
  unfold import_decision_phase.
  destruct (negb (peek (active s) idx)); [split; reflexivity|].
  cbv zeta. match goal with |- context [if ?b then set_phases_saved _ _ else _] =>
    destruct b end; split; reflexivity.
Qed.

Lemma import_decision_phases_host (w : walker) :
  exists sv vs dec,
    import_decision_phases w
    = set_solver
        (set_stats dec (set_phases_saved sv (set_values vs (solver w)))) w.
Proof.
  unfold import_decision_phases.
  set (s := INC_walk_decisions (solver w)).
  set (target := if stable s && negb (option_warmup s)
                 then Some (phases_target s) else None).
  assert (H : host_part (fold_left (import_decision_phase target)
                           (seqZ 0 (VARS s)) s) = host_part s
              /\ stats (fold_left (import_decision_phase target)
                          (seqZ 0 (VARS s)) s) = stats s).
  { apply (fold_left_invariant
             (fun s' => host_part s' = host_part s /\ stats s' = stats s));
      [split; reflexivity|].
    intros a x _ [H1 H2].
    destruct (import_decision_phase_host target a x) as [H3 H4].
    split; congruence. }
  revert H. generalize (fold_left (import_decision_phase target)
                          (seqZ 0 (VARS s)) s).
  intros s' [H1 H2]. exists (phases_saved s'), (values s'), (stats s).
  f_equal. unfold host_part in H1. injection H1. intros.
  destruct s' as [a1 a2 a3 a4 a5 a6 a7 a8 a9 a10 a11 a12 a13 a14 a15].
  cbn in *. subst. destruct w as [sw]. destruct sw. reflexivity.
Qed.

Lemma set_watches_same (s : kissat) : set_watches (watches s) s = s.
Proof. now destruct s. Qed.

Lemma connect_binary_counter_frame (w : walker) (cr b : Z) :
  let st := connect_binary_counter (w, cr) b in
  connecting_rest (fst st) = connecting_rest w
  /\ arena (solver (fst st)) = arena (solver w)
  /\ watches_extend (watches (solver w)) (watches (solver (fst st))).
Proof.
  unfold connect_binary_counter.
  destruct (peek (binaries w) b) as [first second].
  destruct (_ || _);
    [cbn; split; [reflexivity|split; [reflexivity|apply watches_extend_refl]]|].
  cbv zeta. cbn [fst].
  match goal with |- context [if ?c then _ else _] => destruct c end;
    (split; [reflexivity|split; [reflexivity|]]);
    cbn [solver push_unsat set_unsat set_counters set_solver set_refs watches];
    (eapply watches_extend_trans; [|apply kissat_push_large_watch_extend]);
    apply kissat_push_large_watch_extend.
Qed.

Lemma connect_binary_counters_frame (w : walker) :
  let st := connect_binary_counters w in
  connecting_rest (fst st) = connecting_rest w
  /\ arena (solver (fst st)) = arena (solver w)
  /\ watches_extend (watches (solver w)) (watches (solver (fst st))).
Proof.
  unfold connect_binary_counters.
  set (idxs := seqZ 0 _).
  assert (H : connecting_rest (fst (fold_left connect_binary_counter idxs (w, 0)))
              = connecting_rest w
              /\ arena (solver (fst (fold_left connect_binary_counter idxs (w, 0))))
                 = arena (solver w)
              /\ watches_extend (watches (solver w))
                   (watches (solver (fst (fold_left connect_binary_counter
                                            idxs (w, 0)))))).
  { apply (fold_left_invariant
             (fun st => connecting_rest (fst st) = connecting_rest w
                        /\ arena (solver (fst st)) = arena (solver w)
                        /\ watches_extend (watches (solver w))
                             (watches (solver (fst st))))).
    - split; [reflexivity|split; [reflexivity|apply watches_extend_refl]].
    - intros [w1 cr1] b _ (H1 & H2 & H3). cbn [fst] in *.
      destruct (connect_binary_counter_frame w1 cr1 b) as (H4 & H5 & H6).
      cbv zeta in *. split; [congruence|]. split; [congruence|].
      eapply watches_extend_trans; eassumption. }
  destruct (fold_left connect_binary_counter idxs (w, 0)) as [w1 cr1].
  cbn [fst] in *. destruct H as (H1 & H2 & H3).
  split; [rewrite <- H1; reflexivity|]. split; assumption.
Qed.

Lemma connect_large_literals_frame (r : Z) (lits : list Z) :
  forall st : kissat * Z * Z,
  exists wss,
    fst (fst (fold_left (connect_large_literal r) lits st))
    = set_watches wss (fst (fst st))
    /\ watches_extend (watches (fst (fst st))) wss.
Proof.
  induction lits as [|l lits IH]; intros [[s c] z].
  { exists (watches s). cbn. split; [now rewrite set_watches_same|].
    apply watches_extend_refl. }
  cbn [fold_left]. unfold connect_large_literal at 2.
  destruct (peek (values s) l =? 0); [apply IH|].
  cbv zeta.
  match goal with |- context [fold_left _ lits ?st] =>
    destruct (IH st) as (wss & -> & Hw) end.
  cbn [fst] in *. exists wss. split; [now destruct s|].
  eapply watches_extend_trans; [|exact Hw].
  apply kissat_push_large_watch_extend.
Qed.

Lemma connect_large_loop_frame (cs : list nat) :
  forall (w : walker) (cr : Z),
  let w' := connect_large_loop cs w cr in
  connecting_rest w' = connecting_rest w
  /\ arena_marks (saved w) (arena (solver w)) (arena (solver w'))
  /\ watches_extend (watches (solver w)) (watches (solver w')).
Proof.
  assert (Hrefl : forall w, connecting_rest w = connecting_rest w
            /\ arena_marks (saved w) (arena (solver w)) (arena (solver w))
            /\ watches_extend (watches (solver w)) (watches (solver w))).
  { intros w. split; [reflexivity|].
    split; [apply arena_marks_refl|apply watches_extend_refl]. }
  induction cs as [|i cs IH]; intros w cr; [apply Hrefl|].
  cbn [connect_large_loop].
  destruct (arena (solver w) !! i) as [c|] eqn:Hi; [|apply Hrefl].
  destruct (_ && _); [apply Hrefl|].
  destruct (garbage c); [apply IH|].
  destruct (redundant c); [apply IH|].
  destruct (existsb _ _) eqn:Hsat.
  - match goal with |- context [connect_large_loop cs ?W cr] =>
      destruct (IH W cr) as (H1 & H2 & H3); set (w1 := W) in * end.
    cbv zeta in *. split; [rewrite H1; reflexivity|]. split; [|exact H3].
    apply (arena_marks_trans _ _ (arena (solver w1))); [|exact H2].
    apply (arena_marks_alter _ _ _ c); assumption.
  - destruct (connect_large_literals_frame cr (clause_lits c)
                (solver (set_refs (poke (refs w) cr
                                     (make_tagged false (cref c))) w), 0, 0))
      as (wss & Hs & Hw).
    destruct (fold_left _ (clause_lits c) _) as [[s1 ct] nl].
    cbn [fst solver set_refs] in Hs, Hw. subst s1.
    match goal with |- context [connect_large_loop cs ?W ?R] =>
      destruct (IH W R) as (H1 & H2 & H3); set (w1 := W) in * end.
    cbv zeta in *.
    assert (Hw1 : connecting_rest w1 = connecting_rest w
                  /\ arena (solver w1) = arena (solver w)
                  /\ watches (solver w1) = wss /\ saved w1 = saved w).
    { unfold w1, push_unsat. destruct (ct =? 0); repeat split; reflexivity. }
    destruct Hw1 as (E1 & E2 & E3 & E4).
    split; [congruence|]. split.
    + rewrite E4, E2 in H2. exact H2.
    + eapply watches_extend_trans; [exact Hw|]. rewrite <- E3. exact H3.
Qed.

Section WalkFrame.

Context {host : Host}.

(** What [init_walker] leaves of the solver. *)
Lemma init_walker_frame (fuel : nat) (s : kissat) (bins : litpairs) (w : walker) :
  init_walker fuel s bins = Some w ->
  saved w = values s
  /\ host_rest (solver w) = host_rest s
  /\ pol_activity (solver w) = replicate (Z.to_nat (LITS s)) 0%float
  /\ arena_marks (values s) (arena s) (arena (solver w))
  /\ watches_extend (watches s) (watches (solver w)).
Proof.
  intros Hinit. unfold init_walker in Hinit.
  match type of Hinit with context [import_decision_phases ?W] =>
    destruct (import_decision_phases_host W) as (sv & vs & dec & Himp);
    rewrite Himp in Hinit; clear Himp end.
  cbn [solver set_solver] in Hinit.
  match type of Hinit with context [connect_binary_counters ?W] =>
    set (w4 := W) in Hinit end.
  pose proof (connect_binary_counters_frame w4) as (B1 & B2 & B3).
  cbv zeta in B1, B2, B3.
  destruct (connect_binary_counters w4) as [w5 cr]. cbn [fst] in B1, B2, B3.
  unfold connect_large_counters in Hinit.
  match type of Hinit with context [connect_large_loop ?cs w5 cr] =>
    pose proof (connect_large_loop_frame cs w5 cr) as (L1 & L2 & L3);
    cbv zeta in L1, L2, L3;
    revert Hinit L1 L2 L3; generalize (connect_large_loop cs w5 cr) end.
  intros w6 Hinit L1 L2 L3.
  apply init_score_table_frame in Hinit. destruct Hinit as (t & e & eps & ->).
  cbn [saved solver set_score_table set_minimum set_size set_initial
       set_current].
  assert (H4 : saved w4 = values s
               /\ host_rest (solver w4) = host_rest s
               /\ pol_activity (solver w4) = replicate (Z.to_nat (LITS s)) 0%float
               /\ arena (solver w4) = arena s
               /\ watches (solver w4) = watches s).
  { unfold w4. cbn. repeat split; reflexivity. }
  destruct H4 as (F1 & F2 & F3 & F4 & F5).
  clearbody w4.
  assert (H6 : saved w6 = saved w4
               /\ host_rest (solver w6) = host_rest (solver w4)
               /\ pol_activity (solver w6) = pol_activity (solver w4)
               /\ saved w5 = saved w4).
  { unfold connecting_rest in L1, B1. injection L1. injection B1. intros.
    unfold host_rest. repeat split; congruence. }
  destruct H6 as (G1 & G2 & G3 & G4).
  split; [congruence|]. split; [congruence|]. split; [congruence|]. split.
  - rewrite G4, F1, B2, F4 in L2. exact L2.
  - rewrite <- F5. eapply watches_extend_trans; eassumption.
Qed.

Lemma local_search_step_rest (w : walker) :
  round_rest (local_search_step w) = round_rest w.
Proof.
  destruct (local_search_step_flip w) as (sv & tr & b & m & -> & _).
  unfold step_flipped.
  set (wp := set_flipped (u64 (flipped w + 1))
               (set_solver (INC_flipped (solver w)) w)).
  destruct (pick_literal_frame wp) as (st & g & Hp).
  destruct (pick_literal wp) as [lit w2]. cbn [fst snd] in *.
  pose proof (flip_literal_rest w2 lit) as Hf.
  revert Hf. generalize (flip_literal w2 lit). intros w3 Hf.
  destruct (flipping_rest_fields _ _ Hf) as (Hb & _ & _ & _ & Hh & _).
  destruct (bookkeeping_fields _ _ Hb) as (_ & _ & _ & _ & _ & Hsv).
  unfold round_rest.
  change (saved (set_minimum m _)) with (saved w3).
  change (host_part (solver (set_minimum m _))) with (host_part (solver w3)).
  rewrite Hsv, Hh, Hp. reflexivity.
Qed.

Lemma local_search_round_rest (fuel : nat) :
  forall w w', local_search_round fuel w = Some w' -> round_rest w' = round_rest w.
Proof.
  induction fuel as [|fuel IH]; intros w w' H; [discriminate|].
  cbn in H. destruct (local_search_continues w).
  - rewrite (IH _ _ H). apply local_search_step_rest.
  - now injection H as <-.
Qed.

Lemma save_final_minimum_rest (w : walker) :
  round_rest (save_final_minimum w) = round_rest w.
Proof.
  unfold save_final_minimum. destruct (minimum w =? initial w); [reflexivity|].
  destruct (_ || _); [reflexivity|].
  destruct (save_walker_trail_frame w false) as (sv & ->). reflexivity.
Qed.

Lemma round_rest_fields (w w' : walker) :
  round_rest w' = round_rest w ->
  saved w' = saved w /\ host_rest (solver w') = host_rest (solver w)
  /\ pol_activity (solver w') = pol_activity (solver w)
  /\ arena (solver w') = arena (solver w)
  /\ watches (solver w') = watches (solver w).
Proof.
  unfold round_rest, host_part, host_rest. intros H. injection H. intros.
  repeat split; congruence.
Qed.

End WalkFrame.

(** ** The side effects of the walk on the solver *)

Section WalkEffects.

Context {host : Host}.

(** C2, amended.  Between entering and leaving dense mode the walk leaves
    the solver its values ([release_walker] hands back the vector
    [init_walker] saved) and the fields it never writes; a garbage flag is
    only set on a clause a value of the solver satisfies, and no clause
    changes otherwise; [pol_activity] is left as the zeroed vector of
    [LITS] doubles [init_walker] allocates; and every watch list has only
    been appended to.  The saved phases and the statistics are what is left
    to change. *)
Theorem walking_round_frame (fuel : nat) (s : kissat) (bins : litpairs)
    (s' : kissat) :
  walking_round fuel s bins = Some s' ->
  values s' = values s
  /\ host_rest s' = host_rest s
  /\ arena_marks (values s) (arena s) (arena s')
  /\ pol_activity s' = replicate (Z.to_nat (LITS s)) 0%float
  /\ watches_extend (watches s) (watches s').
Proof.
  unfold walking_round. intros H.
  destruct (init_walker fuel s bins) as [w0|] eqn:Hinit; [|discriminate].
  destruct (local_search_round fuel (init_walker_limit w0)) as [w1|] eqn:Hround;
    [|discriminate].
  injection H as <-.
  destruct (init_walker_frame fuel s bins w0 Hinit) as (I1 & I2 & I3 & I4 & I5).
  pose proof (local_search_round_rest fuel _ _ Hround) as R1.
  pose proof (save_final_minimum_rest w1) as R2.
  rewrite R1 in R2.
  change (round_rest (init_walker_limit w0)) with (round_rest w0) in R2.
  destruct (round_rest_fields _ _ R2) as (E1 & E2 & E3 & E4 & E5).
  unfold release_walker.
  revert E1 E2 E3 E4 E5. generalize (save_final_minimum w1).
  intros w2 E1 E2 E3 E4 E5.
  change (values (set_values (saved w2) (solver w2))) with (saved w2).
  change (host_rest (set_values (saved w2) (solver w2)))
    with (host_rest (solver w2)).
  change (arena (set_values (saved w2) (solver w2))) with (arena (solver w2)).
  change (pol_activity (set_values (saved w2) (solver w2)))
    with (pol_activity (solver w2)).
  change (watches (set_values (saved w2) (solver w2)))
    with (watches (solver w2)).
  rewrite E1, E2, E3, E4, E5.
  split; [assumption|]. split; [assumption|]. split; [assumption|].
  split; assumption.
Qed.

End WalkEffects.

(** The theorem at the example solver. *)
Lemma walking_round_frame_witness :
  exists s',
    walking_round (host := example_host) 1100 example_solver example_binaries
    = Some s'
    /\ values s' = values example_solver
    /\ pol_activity s' = replicate (Z.to_nat (LITS example_solver)) 0%float.
Proof.
  eexists. split; [vm_compute; reflexivity|].
  match goal with |- values ?s' = _ /\ _ =>
    assert (Hwalk : walking_round (host := example_host) 1100 example_solver
                      example_binaries = Some s')
      by (vm_compute; reflexivity);
    destruct (walking_round_frame (host := example_host) 1100 example_solver
                example_binaries s' Hwalk) as (H1 & _ & _ & H2 & _)
  end.
  exact (conj H1 H2).
Defined.

(** C2, as the claim states it, fails: with a host whose collaborators
    leave the solver alone, [kissat_walk] returns the example solver with
    another [pol_activity], the vector [init_walker] has put in its place
    and nothing has restored. *)
Lemma kissat_walk_pol_activity_counterexample :
  exists s',
    kissat_walk (host := example_host) 1100 example_solver = Some s'
    /\ pol_activity example_solver = [1%float]
    /\ pol_activity s' = [0%float; 0%float; 0%float; 0%float; 0%float; 0%float]
    /\ pol_activity s' <> pol_activity example_solver.
Proof.
  eexists. split; [vm_compute; reflexivity|].
  split; [reflexivity|]. split; [reflexivity|].
  intros H. apply (f_equal length) in H. discriminate H.
Qed.

(** * Further properties of the code *)

(** ** The unsat stack *)

(** X1.  [pop_unsat] removes the counter it is given and nothing else, by
    moving the last entry into its place: for a stack without duplicates
    that holds the counter [r] at position [p], the stack afterwards holds
    exactly the other counters, still without duplicates and one fewer;
    every entry but the last one and the one at [p] is at the index it had;
    when [r] was not the last entry, the last entry is now at [p] and the
    result is [true], otherwise the result is [false]; and [current] is
    counted down. *)
Theorem pop_unsat_removes (w : walker) (r p : Z) :
  NoDup (unsat w) -> 0 <= p -> unsat w !! Z.to_nat p = Some r ->
  let w' := snd (pop_unsat w r p) in
  (forall x, x ∈ unsat w' <-> x ∈ unsat w /\ x <> r)
  /\ NoDup (unsat w')
  /\ length (unsat w') = (length (unsat w) - 1)%nat
  /\ (forall i, (i < length (unsat w) - 1)%nat -> i <> Z.to_nat p ->
        unsat w' !! i = unsat w !! i)
  /\ (last (unsat w) <> Some r ->
      unsat w' !! Z.to_nat p = last (unsat w))
  /\ (fst (pop_unsat w r p) = true <-> last (unsat w) <> Some r)
  /\ current w' = u32 (current w - 1).
Proof.
  intros Hnd Hp Hl. unfold pop_unsat.
  destruct (unsat w) as [|x0 us0] eqn:Eus using rev_ind; [discriminate|].
  clear IHus0. rename x0 into other, us0 into us.
  rewrite last_snoc. cbn [default from_option id].
  rewrite removelast_last.
  apply NoDup_app in Hnd. destruct Hnd as (Hus & Hdis & _).
  assert (Ho : other ∉ us).
  { intros H. apply (Hdis other H). now left. }
  destruct (r =? other) eqn:E.
  - apply Z.eqb_eq in E. subst other.
    cbn [fst snd unsat set_unsat set_current current].
    split; [|split; [|split; [|split; [|split; [|split]]]]].
    + intros x. rewrite elem_of_app, list_elem_of_singleton. split.
      * intros H. split; [now left|]. now intros ->.
      * intros [[H|H] Hne]; [assumption|contradiction].
    + assumption.
    + rewrite length_app. cbn. lia.
    + intros i Hi _. rewrite length_app in Hi. cbn in Hi.
      symmetry. apply lookup_app_l. lia.
    + intros H. now contradiction H.
    + split; [discriminate|]. intros H. now contradiction H.
    + reflexivity.
  - apply Z.eqb_neq in E.
    cbn [fst snd unsat set_unsat set_current current set_counters].
    apply lookup_snoc_Some in Hl.
    destruct Hl as [[Hlt Hl]|[_ Heq]]; [|congruence].
    unfold poke.
    split; [|split; [|split; [|split; [|split; [|split]]]]].
    + intros x. rewrite elem_of_app, list_elem_of_singleton.
      rewrite list_elem_of_lookup. split.
      * intros (i & Hi). apply list_lookup_insert_Some in Hi.
        destruct Hi as [(<- & <- & _)|(Hne & Hi)].
        -- split; [now right|]. congruence.
        -- split; [left; eapply list_elem_of_lookup_2; exact Hi|].
           intros ->. apply Hne.
           exact (NoDup_lookup us _ _ r Hus Hl Hi).
      * intros [[H| ->] Hne].
        -- apply list_elem_of_lookup in H. destruct H as (i & Hi).
           exists i. apply list_lookup_insert_Some. right. split; [|assumption].
           intros <-. congruence.
        -- exists (Z.to_nat p). apply list_lookup_insert_Some. left.
           split; [reflexivity|]. split; [reflexivity|assumption].
    + apply NoDup_alt. intros i j x Hi Hj.
      apply list_lookup_insert_Some in Hi, Hj.
      destruct Hi as [(<- & <- & _)|(Hni & Hi)];
        destruct Hj as [(<- & Hx & _)|(Hnj & Hj)].
      * reflexivity.
      * exfalso. apply Ho. eapply list_elem_of_lookup_2. exact Hj.
      * exfalso. apply Ho. subst x. eapply list_elem_of_lookup_2. exact Hi.
      * exact (NoDup_lookup us _ _ x Hus Hi Hj).
    + rewrite length_insert, length_app. cbn. lia.
    + intros i Hi Hne. rewrite length_app in Hi. cbn in Hi.
      rewrite list_lookup_insert_ne by congruence.
      symmetry. apply lookup_app_l. lia.
    + intros _. apply list_lookup_insert_eq. exact Hlt.
    + split; [intros _; congruence|reflexivity].
    + reflexivity.
Qed.

(** The theorem at the stack [3; 5; 7; 9], popping the counter 5 at 1: the
    last entry 9 takes its place. *)
Lemma pop_unsat_removes_witness :
  unsat (snd (pop_unsat (stack_walker [3; 5; 7; 9]) 5 1)) = [3; 9; 7]
  /\ (last (unsat (stack_walker [3; 5; 7; 9])) <> Some 5 ->
      unsat (snd (pop_unsat (stack_walker [3; 5; 7; 9]) 5 1)) !! Z.to_nat 1
      = last (unsat (stack_walker [3; 5; 7; 9]))).
Proof.
  split; [reflexivity|].
  refine (proj1 (proj2 (proj2 (proj2 (proj2
            (pop_unsat_removes (stack_walker [3; 5; 7; 9]) 5 1 _ _ _)))))).
  - repeat apply NoDup_cons_2; try apply NoDup_nil_2;
      rewrite ?elem_of_cons, ?elem_of_nil; lia.
  - lia.
  - reflexivity.
Defined.

(** ** The statistics and the minimum through a round *)

Lemma fold_pair_invariant {A B C : Type} (P : A -> Prop)
    (f : A * C -> B -> A * C) (l : list B) (st : A * C) :
  P (fst st) -> (forall a c x, P a -> P (fst (f (a, c) x))) ->
  P (fst (fold_left f l st)).
Proof.
  intros H0 Hf.
  apply (fold_left_invariant (fun st => P (fst st))); [assumption|].
  intros [a c] x _ Ha. now apply Hf.
Qed.

Section RoundStatistics.

Context {host : Host}.

Lemma break_value_stats (w : walker) (lit : Z) :
  stats_rest (stats (solver (snd (break_value w lit))))
  = stats_rest (stats (solver w)).
Proof.
  unfold break_value. destruct (fold_left _ _ _) as [steps res]. reflexivity.
Qed.

Lemma pick_literal_stats (w : walker) :
  stats_rest (stats (solver (snd (pick_literal w))))
  = stats_rest (stats (solver w)).
Proof.
  unfold pick_literal.
  set (w1 := set_flipped (u64 (flipped w + 1)) w).
  set (lits := dereference_literals w1 _).
  assert (H : stats_rest (stats (solver (fst (fst
                (fold_left pick_literal_score lits (w1, 0%float, INVALID_LIT))))))
              = stats_rest (stats (solver w))).
  { apply (fold_left_invariant
             (fun st => stats_rest (stats (solver (fst (fst st))))
                        = stats_rest (stats (solver w)))); [reflexivity|].
    intros [[wa sum] picked] lit _ Ha. cbn [fst] in *.
    unfold pick_literal_score.
    destruct (peek (values (solver wa)) lit =? 0); [exact Ha|].
    pose proof (break_value_stats wa lit) as Hb.
    destruct (break_value wa lit) as [breaks w2]. cbn [fst snd] in *.
    rewrite <- Ha, <- Hb. reflexivity. }
  destruct (fold_left pick_literal_score lits _) as [[w2 sum] picked].
  cbn [fst] in H. destruct (kissat_pick_double _) as [random g].
  cbn [snd]. rewrite <- H. reflexivity.
Qed.

Lemma counting_stats (f : walker * Z -> Z -> walker * Z) (ws : list Z)
    (w : walker) (steps : Z) :
  (forall st r, solver (fst (f st r)) = solver (fst st)) ->
  solver (fst (fold_left f ws (w, steps))) = solver w.
Proof.
  intros Hf.
  apply (fold_left_invariant (fun st => solver (fst st) = solver w));
    [reflexivity|].
  intros st r _ H. now rewrite Hf.
Qed.

Lemma flip_literal_stats (w : walker) (flip : Z) :
  stats_rest (stats (solver (flip_literal w flip)))
  = stats_rest (stats (solver w)).
Proof.
  unfold flip_literal, break_clauses, make_clauses.
  match goal with |- context [fold_left make_clause ?ws (?w1, 1)] =>
    pose proof (counting_stats make_clause ws w1 1
                  (fun st r => proj2 (make_clause_rest st r))) as Hm;
    destruct (fold_left make_clause ws (w1, 1)) as [wm sm] end.
  cbn [fst solver set_solver] in Hm |- *.
  match goal with |- context [fold_left break_clause ?ws (?w1, 1)] =>
    pose proof (counting_stats break_clause ws w1 1
                  (fun st r => proj2 (break_clause_rest st r))) as Hb;
    destruct (fold_left break_clause ws (w1, 1)) as [wb sb] end.
  cbn [fst solver set_solver set_current] in Hb |- *.
  rewrite Hb. cbn [solver set_solver]. rewrite Hm. reflexivity.
Qed.

Lemma local_search_step_stats (w : walker) :
  stat_flipped (stats (solver (local_search_step w)))
  = u64 (stat_flipped (stats (solver w)) + 1)
  /\ minimum (local_search_step w) <= minimum w
  /\ initial (local_search_step w) = initial w
  /\ limit (local_search_step w) = limit w.
Proof.
  rewrite local_search_step_unfold. cbv zeta.
  destruct (step_search w) as (Hbk & _).
  cbv zeta in Hbk.
  set (wp := set_flipped (u64 (flipped w + 1))
               (set_solver (INC_flipped (solver w)) w)) in *.
  pose proof (pick_literal_stats wp) as Hp.
  destruct (pick_literal wp) as [lit w2]. cbn [fst snd] in *.
  pose proof (flip_literal_stats w2 lit) as Hf.
  rewrite Hp in Hf. clear Hp.
  revert Hbk Hf. generalize (flip_literal w2 lit). intros w3 Hbk Hf.
  assert (H3 : stat_flipped (stats (solver w3))
               = u64 (stat_flipped (stats (solver w)) + 1)
               /\ minimum w3 = minimum w /\ initial w3 = initial w
               /\ limit w3 = limit w).
  { unfold stats_rest in Hf. injection Hf. unfold bookkeeping in Hbk.
    injection Hbk. intros. repeat split; assumption. }
  clear Hbk Hf. destruct H3 as (S3 & M3 & I3 & L3).
  destruct (push_flipped_frame w3 lit) as (sv & tr & b & ->).
  match goal with |- context [if ?c then _ else _] => destruct c eqn:Hc end.
  - match goal with |- context [update_best ?x] =>
      destruct (update_best_frame x) as (sv' & b' & ->) end.
    cbn in Hc |- *. apply Z.ltb_lt in Hc.
    repeat split; try assumption. lia.
  - cbn. repeat split; try assumption. lia.
Qed.

(** X2.  What [local_search_round] returns: the loop has stopped because
    [minimum] is 0, the limit of [walk_steps] is reached or the solver is
    terminated; some number [k] of steps has been taken, the statistic
    [flipped] has been counted once for each of them, modulo [2^64] (while
    [walker->flipped] goes up by two a step); [minimum] has not grown, and
    [initial] and [limit] are as before. *)
Theorem local_search_round_result (fuel : nat) (w w' : walker) :
  local_search_round fuel w = Some w' ->
  (minimum w' = 0
   \/ limit w' <= walk_steps (stats (solver w'))
   \/ TERMINATED (solver w') = true)
  /\ minimum w' <= minimum w
  /\ initial w' = initial w /\ limit w' = limit w
  /\ exists k : nat,
       round_steps k w = Some w'
       /\ u64 (stat_flipped (stats (solver w')))
          = u64 (stat_flipped (stats (solver w)) + Z.of_nat k).
Proof.
  revert w. induction fuel as [|fuel IH]; intros w H; [discriminate|].
  cbn in H. destruct (local_search_continues w) eqn:Hc.
  - destruct (IH _ H) as (Hstop & Hmin & Hini & Hlim & k & Hk & Hfl).
    destruct (local_search_step_stats w) as (S1 & M1 & I1 & L1).
    split; [assumption|]. split; [lia|]. split; [congruence|].
    split; [congruence|]. exists (S k). split.
    + cbn. rewrite Hc. assumption.
    + rewrite Hfl, S1. unfold u64. rewrite Z.add_mod_idemp_l by lia.
      f_equal. lia.
  - injection H as <-. split.
    + unfold local_search_continues in Hc.
      apply andb_false_iff in Hc. destruct Hc as [Hc|Hc].
      * apply andb_false_iff in Hc. destruct Hc as [Hc|Hc].
        -- left. apply negb_false_iff in Hc. now apply Z.eqb_eq in Hc.
        -- right. left. now apply Z.ltb_ge in Hc.
      * right. right. now apply negb_false_iff in Hc.
    + split; [lia|]. split; [reflexivity|]. split; [reflexivity|].
      exists 0%nat. split; [reflexivity|].
      now rewrite Z.add_0_r.
Qed.

End RoundStatistics.

(** The theorem at the round on the example solver, which ends after one
    step with no clause unsatisfied. *)
Lemma local_search_round_result_witness :
  exists w0 w',
    init_walker (host := example_host) 1100 example_solver example_binaries
    = Some w0
    /\ local_search_round (host := example_host) 10
         (init_walker_limit (host := example_host) w0) = Some w'
    /\ minimum w' <= minimum (init_walker_limit (host := example_host) w0)
    /\ minimum w' = 0.
Proof.
  eexists. eexists. split; [vm_compute; reflexivity|].
  split; [vm_compute; reflexivity|].
  match goal with |- minimum ?w' <= minimum ?w /\ _ =>
    assert (Hround : local_search_round (host := example_host) 10 w = Some w')
      by (vm_compute; reflexivity);
    destruct (local_search_round_result (host := example_host) 10 w w' Hround)
      as (_ & H & _)
  end.
  split; [exact H|reflexivity].
Defined.

(** ** The phases [import_decision_phases] assigns *)

Lemma NOT_LIT (idx v : Z) :
  0 <= idx < v -> 2 * v < 2 ^ 32 -> NOT (LIT idx) = 2 * idx + 1.
Proof.
  intros H1 H2. rewrite (LIT_small idx v) by assumption.
  rewrite NOT_cases by lia.
  replace (Z.even (2 * idx)) with true
    by (symmetry; apply Z.even_spec; now exists idx).
  reflexivity.
Qed.

(** One iteration, cell by cell. *)
Lemma import_decision_phase_cells (s : kissat) (i : Z) :
  let target := if stable s && negb (option_warmup s)
                then Some (phases_target s) else None in
  let s' := import_decision_phase target s i in
  0 <= i < vars s -> 2 * vars s < 2 ^ 32 ->
  Z.of_nat (length (values s)) = 2 * vars s ->
  Z.of_nat (length (phases_saved s)) = vars s ->
  length (values s') = length (values s)
  /\ length (phases_saved s') = length (phases_saved s)
  /\ (forall l, 0 <= l ->
        peek (values s') l
        = if peek (active s) i
          then (if l =? 2 * i then decision_phase s i
                else if l =? 2 * i + 1 then - decision_phase s i
                else peek (values s) l)
          else peek (values s) l)
  /\ (forall j, 0 <= j ->
        peek (phases_saved s') j
        = if peek (active s) i && (j =? i) then decision_phase s i
          else peek (phases_saved s) j).
Proof.
  intros target s' Hi Hv Hlv Hlp. unfold s', import_decision_phase.
  destruct (peek (active s) i) eqn:Hact; cbn [negb andb].
  2: { repeat split; reflexivity. }
  cbv zeta.
  rewrite (NOT_LIT i (vars s)), (LIT_small i (vars s)) by assumption.
  assert (Hdp : (let value := match target with
                              | Some t => peek t i
                              | None => 0
                              end in
                 let value := if value =? 0 then peek (phases_saved s) i
                              else value in
                 if value =? 0 then initial_phase s else value)
                = decision_phase s i).
  { unfold decision_phase, target. destruct (stable s && negb (option_warmup s));
      reflexivity. }
  cbv zeta in Hdp. rewrite Hdp. clear Hdp.
  set (v := decision_phase s i).
  match goal with |- context [if ?b then set_phases_saved _ _ else _] =>
    generalize b end.
  intros b.
  assert (E : forall x : bool,
            values (if x then set_phases_saved (poke (phases_saved s) i v) s
                    else s) = values s) by (intros []; reflexivity).
  cbn [values phases_saved set_values set_phases_saved]. rewrite !E.
  split; [now rewrite !length_poke|].
  split; [destruct b; cbn; now rewrite !length_poke|].
  split.
  - intros l Hl.
    destruct (l =? 2 * i) eqn:E1.
    + apply Z.eqb_eq in E1. subst l.
      rewrite peek_poke_ne, peek_poke_eq by lia. reflexivity.
    + apply Z.eqb_neq in E1. destruct (l =? 2 * i + 1) eqn:E2.
      * apply Z.eqb_eq in E2. subst l.
        rewrite peek_poke_eq by (rewrite length_poke; lia). reflexivity.
      * apply Z.eqb_neq in E2. now rewrite !peek_poke_ne by lia.
  - intros j Hj. destruct (j =? i) eqn:E1.
    + apply Z.eqb_eq in E1. subst j.
      rewrite peek_poke_eq; [reflexivity|].
      destruct b; cbn; rewrite ?length_poke; lia.
    + apply Z.eqb_neq in E1. rewrite peek_poke_ne by lia.
      destruct b; cbn; [|reflexivity]. now rewrite peek_poke_ne by lia.
Qed.

Lemma decision_phase_ext (s s' : kissat) (j : Z) :
  host_part s' = host_part s ->
  peek (phases_saved s') j = peek (phases_saved s) j ->
  decision_phase s' j = decision_phase s j.
Proof.
  intros Hh Hp. unfold decision_phase. rewrite Hp.
  unfold host_part in Hh. injection Hh. intros.
  repeat match goal with H : _ s' = _ s |- _ => rewrite H; clear H end.
  reflexivity.
Qed.

Lemma import_fold_cells (idxs : list Z) :
  forall s : kissat,
  let target := if stable s && negb (option_warmup s)
                then Some (phases_target s) else None in
  let s' := fold_left (import_decision_phase target) idxs s in
  NoDup idxs -> Forall (fun i => 0 <= i < vars s) idxs ->
  2 * vars s < 2 ^ 32 ->
  Z.of_nat (length (values s)) = 2 * vars s ->
  Z.of_nat (length (phases_saved s)) = vars s ->
  length (values s') = length (values s)
  /\ length (phases_saved s') = length (phases_saved s)
  /\ host_part s' = host_part s /\ stats s' = stats s
  /\ (forall j, 0 <= j ->
        let imported := bool_decide (j ∈ idxs) && peek (active s) j in
        peek (values s') (2 * j)
        = (if imported then decision_phase s j else peek (values s) (2 * j))
        /\ peek (values s') (2 * j + 1)
           = (if imported then - decision_phase s j
              else peek (values s) (2 * j + 1))
        /\ peek (phases_saved s') j
           = (if imported then decision_phase s j
              else peek (phases_saved s) j)).
Proof.
  induction idxs as [|i idxs IH]; intros s target s' Hnd Hall Hv Hlv Hlp.
  { unfold s'. cbn. repeat split; reflexivity. }
  apply NoDup_cons in Hnd. destruct Hnd as [Hi Hnd].
  apply Forall_cons in Hall. destruct Hall as [Hir Hall].
  destruct (import_decision_phase_cells s i Hir Hv Hlv Hlp)
    as (L1 & L2 & C1 & C2).
  fold target in L1, L2, C1, C2.
  destruct (import_decision_phase_host target s i) as [H1 S1].
  unfold s'. cbn [fold_left].
  set (s1 := import_decision_phase target s i) in *.
  destruct (host_part_fields _ _ H1) as (Ev & Ea & _).
  assert (Et : (if stable s1 && negb (option_warmup s1)
                then Some (phases_target s1) else None) = target).
  { unfold target. unfold host_part in H1. injection H1. intros.
    repeat match goal with H : _ s1 = _ s |- _ => rewrite H; clear H end.
    reflexivity. }
  specialize (IH s1). cbv zeta in IH. rewrite Et in IH.
  destruct IH as (L3 & L4 & H3 & S3 & C3); try assumption.
  { now rewrite Ev. }
  { now rewrite Ev. }
  { rewrite L1, Ev. assumption. }
  { rewrite L2, Ev. assumption. }
  split; [congruence|]. split; [congruence|]. split; [congruence|].
  split; [congruence|].
  intros j Hj. cbv zeta.
  destruct (C3 j Hj) as (V0 & V1 & P0). cbv zeta in V0, V1, P0.
  rewrite V0, V1, P0, Ea. clear V0 V1 P0.
  rewrite (C1 (2 * j)), (C1 (2 * j + 1)), (C2 j) by lia.
  destruct (bool_decide (j ∈ idxs)) eqn:Hin.
  - apply bool_decide_eq_true in Hin.
    assert (Hne : j <> i) by (intros ->; contradiction).
    rewrite (bool_decide_eq_true_2 (j ∈ i :: idxs)) by now right.
    cbn [andb]. destruct (peek (active s) j); [|].
    + rewrite (decision_phase_ext s s1 j H1)
        by (rewrite (C2 j Hj); replace (j =? i) with false
              by (symmetry; now apply Z.eqb_neq);
            now rewrite andb_false_r).
      repeat split; reflexivity.
    + replace (2 * j =? 2 * i) with false by (symmetry; apply Z.eqb_neq; lia).
      replace (2 * j =? 2 * i + 1) with false
        by (symmetry; apply Z.eqb_neq; lia).
      replace (2 * j + 1 =? 2 * i) with false
        by (symmetry; apply Z.eqb_neq; lia).
      replace (2 * j + 1 =? 2 * i + 1) with false
        by (symmetry; apply Z.eqb_neq; lia).
      replace (j =? i) with false by (symmetry; now apply Z.eqb_neq).
      rewrite andb_false_r. destruct (peek (active s) i); repeat split; reflexivity.
  - apply bool_decide_eq_false in Hin. cbn [andb].
    replace (2 * j =? 2 * i + 1) with false by (symmetry; apply Z.eqb_neq; lia).
    replace (2 * j + 1 =? 2 * i) with false by (symmetry; apply Z.eqb_neq; lia).
    destruct (Z.eq_dec j i) as [->|Hne].
    + rewrite (bool_decide_eq_true_2 (i ∈ i :: idxs)) by now left.
      rewrite !Z.eqb_refl. cbn [andb]. rewrite andb_true_r.
      destruct (peek (active s) i); repeat split; reflexivity.
    + rewrite (bool_decide_eq_false_2 (j ∈ i :: idxs))
        by (intros H; apply elem_of_cons in H; tauto).
      replace (2 * j =? 2 * i) with false by (symmetry; apply Z.eqb_neq; lia).
      replace (2 * j + 1 =? 2 * i + 1) with false
        by (symmetry; apply Z.eqb_neq; lia).
      replace (j =? i) with false by (symmetry; now apply Z.eqb_neq).
      rewrite andb_false_r. cbn [andb].
      destruct (peek (active s) i); repeat split; reflexivity.
Qed.

(** X3.  [import_decision_phases] assigns the active variables and no
    others: an active variable gets its decision phase (the target phase in
    stable mode without warmup, else the saved phase, else the initial
    phase, the first that is not 0) as the value of its positive literal,
    the opposite as the value of its negative literal, and as its saved
    phase; the cells of an inactive variable stay.  The lengths of both
    vectors stay, [walk_decisions] is counted once, and nothing else of the
    solver or of the walker changes. *)
Theorem import_decision_phases_assigns (w : walker) :
  let s := solver w in
  let s' := solver (import_decision_phases w) in
  2 * vars s < 2 ^ 32 ->
  Z.of_nat (length (values s)) = 2 * vars s ->
  Z.of_nat (length (phases_saved s)) = vars s ->
  import_decision_phases w = set_solver s' w
  /\ host_part s' = host_part s
  /\ stats s' = stats (INC_walk_decisions s)
  /\ length (values s') = length (values s)
  /\ length (phases_saved s') = length (phases_saved s)
  /\ forall idx, 0 <= idx < vars s ->
       if peek (active s) idx
       then peek (values s') (LIT idx) = decision_phase s idx
            /\ peek (values s') (NOT (LIT idx)) = - decision_phase s idx
            /\ peek (phases_saved s') idx = decision_phase s idx
            /\ (initial_phase s <> 0 -> decision_phase s idx <> 0)
       else peek (values s') (LIT idx) = peek (values s) (LIT idx)
            /\ peek (values s') (NOT (LIT idx)) = peek (values s) (NOT (LIT idx))
            /\ peek (phases_saved s') idx = peek (phases_saved s) idx.
Proof.
  intros s s' Hv Hlv Hlp. unfold s', import_decision_phases.
  cbn [solver set_solver]. fold s.
  set (s0 := INC_walk_decisions s).
  destruct (import_fold_cells (seqZ 0 (VARS s0)) s0)
    as (L1 & L2 & H1 & S1 & C); try assumption.
  { apply NoDup_seqZ. }
  { apply Forall_forall. intros i Hi. apply elem_of_seqZ in Hi.
    unfold VARS in Hi. lia. }
  cbv zeta in L1, L2, H1, S1, C.
  split; [reflexivity|]. split; [exact H1|]. split; [exact S1|].
  split; [exact L1|]. split; [exact L2|].
  intros idx Hidx.
  destruct (C idx ltac:(lia)) as (V0 & V1 & P0).
  rewrite (bool_decide_eq_true_2 (idx ∈ seqZ 0 (VARS s0))) in V0, V1, P0
    by (apply elem_of_seqZ; unfold VARS; cbn; lia).
  cbn [andb] in V0, V1, P0.
  rewrite (NOT_LIT idx (vars s)), (LIT_small idx (vars s)) by assumption.
  change (peek (active s0) idx) with (peek (active s) idx) in V0, V1, P0.
  change (decision_phase s0 idx) with (decision_phase s idx) in V0, V1, P0.
  destruct (peek (active s) idx).
  - split; [exact V0|]. split; [exact V1|]. split; [exact P0|].
    intros Hip. unfold decision_phase.
    match goal with |- (if ?b =? 0 then _ else _) <> 0 =>
      destruct (b =? 0) eqn:E end; [exact Hip|now apply Z.eqb_neq in E].
  - split; [exact V0|]. split; [exact V1|exact P0].
Qed.

(** The theorem at the walker of the example solver before the import: the
    first variable, with the saved phase -1, gets the value -1. *)
Lemma import_decision_phases_assigns_witness :
  peek (values (solver (import_decision_phases
                          (set_solver example_solver (score_walker 0 0)))))
    (LIT 0) = -1.
Proof.
  destruct (import_decision_phases_assigns
              (set_solver example_solver (score_walker 0 0)))
    as (_ & _ & _ & _ & _ & H); [cbn; lia|reflexivity|reflexivity|].
  exact (proj1 (H 0 ltac:(cbn; lia))).
Defined.

(** ** The trail and the saved phases *)

Lemma replay_app (ph : list value) (a b : list Z) :
  replay ph (a ++ b) = replay (replay ph a) b.
Proof. unfold replay. apply fold_left_app. Qed.

Lemma replay_length (ph : list value) (lits : list Z) :
  length (replay ph lits) = length ph.
Proof.
  revert ph. induction lits as [|l lits IH]; intros ph; [reflexivity|].
  cbn. change (fold_left _ lits ?x) with (replay x lits).
  now rewrite IH, length_poke.
Qed.

Lemma replay_snoc (ph : list value) (lits : list Z) (lit : Z) :
  replay ph (lits ++ [lit])
  = poke (replay ph lits) (IDX lit) (if NEGATED lit then -1 else 1).
Proof. now rewrite replay_app. Qed.

Lemma NEGATED_odd (lit : Z) : NEGATED lit = Z.odd lit.
Proof. unfold NEGATED. rewrite land_1_even. now rewrite Z.negb_even. Qed.

Lemma IDX_half (lit : Z) : IDX lit = lit / 2.
Proof. unfold IDX. now rewrite Z.shiftr_div_pow2 by lia. Qed.

Lemma lit_parity (lit : Z) :
  lit = 2 * (lit / 2) + (if Z.odd lit then 1 else 0).
Proof.
  rewrite (Z.div_mod lit 2) at 1 by lia. rewrite Zmod_odd. reflexivity.
Qed.

(** Flipping a false literal and pushing it on the trail keeps the replay
    of the trail equal to the values. *)
Lemma flip_agrees (n : Z) (vs ph : list value) (lit : Z) :
  2 * n < 2 ^ 32 ->
  Z.of_nat (length vs) = 2 * n -> Z.of_nat (length ph) = n ->
  0 <= lit < 2 * n -> peek vs lit = -1 ->
  agrees n vs ph ->
  agrees n (poke (poke vs lit (- peek vs lit)) (NOT lit) (peek vs lit))
    (poke ph (IDX lit) (if NEGATED lit then -1 else 1)).
Proof.
  intros Hn Hlv Hlp Hlit Hv Hag idx Hidx.
  rewrite (LIT_small idx n) by assumption.
  rewrite Hv, NEGATED_odd, IDX_half.
  pose proof (lit_parity lit) as Hpar.
  pose proof (NOT_range lit n Hlit) as Hnl.
  pose proof (NOT_cases lit ltac:(lia)) as Hnc.
  rewrite <- Z.negb_odd in Hnc.
  assert (Hhalf : 0 <= lit / 2 < n)
    by (split; [apply Z.div_pos; lia|apply Z.div_lt_upper_bound; lia]).
  destruct (Z.eq_dec idx (lit / 2)) as [->|Hne].
  - rewrite peek_poke_eq by lia.
    destruct (Z.odd lit); cbn [negb] in Hnc; cbv beta iota in Hnc, Hpar.
    + replace (2 * (lit / 2)) with (NOT lit) by lia.
      rewrite peek_poke_eq by (rewrite length_poke; lia). reflexivity.
    + replace (2 * (lit / 2)) with lit by lia.
      rewrite peek_poke_ne by lia. rewrite peek_poke_eq by lia. reflexivity.
  - assert (2 * idx <> lit /\ 2 * idx <> NOT lit).
    { destruct (Z.odd lit); cbn [negb] in Hnc; cbv beta iota in Hnc, Hpar; lia. }
    rewrite !peek_poke_ne by lia.
    specialize (Hag idx Hidx). rewrite (LIT_small idx n) in Hag by assumption.
    exact Hag.
Qed.

Lemma INVALID_BEST_value : INVALID_BEST = 2 ^ 32 - 1.
Proof. reflexivity. Qed.

Lemma trail_limit (n : Z) :
  0 <= n -> 2 * n < 2 ^ 32 ->
  u32 (n / 4 + 1) = n / 4 + 1 /\ n / 4 + 1 < 2 ^ 31 /\ 0 <= n / 4.
Proof.
  intros H0 H1.
  pose proof (Z.mul_div_le n 4 ltac:(lia)).
  assert (0 <= n / 4) by (apply Z.div_pos; lia).
  split; [apply u32_small; lia|]. split; [lia|assumption].
Qed.

Lemma agrees_ext (n : Z) (vs ph ph' : list value) :
  ph' = ph -> agrees n vs ph -> agrees n vs ph'.
Proof. now intros ->. Qed.

(** [push_flipped] after the flip of [lit]: the replay of the trail follows
    the values, and the best assignment stays where it is. *)
Lemma push_flipped_best (B vs : list value) (w3 : walker) (lit : Z) :
  let s := solver w3 in
  let n := vars s in
  let ph := phases_saved s in
  0 <= n -> 2 * n < 2 ^ 32 -> Z.of_nat (length ph) = n ->
  0 <= lit < 2 * n ->
  ((best w3 = INVALID_BEST /\ trail w3 = [] /\ agrees n B ph)
   \/ (0 <= best w3 <= Z.of_nat (length (trail w3))
       /\ Z.of_nat (length (trail w3)) <= n / 4 + 1
       /\ (forall l, l ∈ trail w3 -> 0 <= l < 2 * n)
       /\ agrees n B (replay ph (take (Z.to_nat (best w3)) (trail w3)))
       /\ agrees n vs (replay ph (trail w3 ++ [lit])))) ->
  let w4 := push_flipped w3 lit in
  let s4 := solver w4 in
  ((best w4 = INVALID_BEST /\ trail w4 = [] /\ agrees n B (phases_saved s4))
   \/ (0 <= best w4 <= Z.of_nat (length (trail w4))
       /\ Z.of_nat (length (trail w4)) <= n / 4 + 1
       /\ (forall l, l ∈ trail w4 -> 0 <= l < 2 * n)
       /\ agrees n B
            (replay (phases_saved s4) (take (Z.to_nat (best w4)) (trail w4)))
       /\ agrees n vs (replay (phases_saved s4) (trail w4))))
  /\ length (phases_saved s4) = length ph
  /\ (best w3 = 0 \/ best w3 = INVALID_BEST ->
      best w4 = 0 \/ best w4 = INVALID_BEST).
Proof.
  intros s n ph Hn0 Hn Hlp Hlit Hinv w4 s4.
  destruct (trail_limit n Hn0 Hn) as (Hlim & Hlim2 & Hlim0).
  subst s4 w4. unfold push_flipped.
  destruct Hinv as [(Hb & Ht & Hag)|(Hb & Hlen & Hr & HB & HV)].
  { rewrite Hb, Z.eqb_refl. split; [left; repeat split; assumption|].
    split; [reflexivity|]. intros _. now right. }
  rewrite INVALID_BEST_value.
  destruct (best w3 =? 2 ^ 32 - 1) eqn:E; [apply Z.eqb_eq in E; lia|].
  cbv zeta. unfold VARS. fold s n. rewrite Hlim.
  rewrite (u32_small (Z.of_nat (length (trail w3)))) by lia.
  destruct (Z.of_nat (length (trail w3)) <? n / 4 + 1) eqn:Elt.
  - apply Z.ltb_lt in Elt.
    cbn [best trail set_trail solver phases_saved]. fold s ph.
    split; [right|split; [reflexivity|tauto]].
    rewrite length_app. cbn [length].
    split; [lia|]. split; [lia|]. split.
    + intros l Hl. apply elem_of_app in Hl. destruct Hl as [Hl|Hl];
        [now apply Hr|]. apply list_elem_of_singleton in Hl. now subst.
    + split; [|exact HV]. rewrite take_app_le by lia. exact HB.
  - apply Z.ltb_ge in Elt.
    destruct (best w3 =? 0) eqn:E0; cbn [negb].
    + apply Z.eqb_eq in E0.
      cbn [best trail set_trail set_best solver phases_saved]. fold s ph.
      split; [left|split; [reflexivity|now right]].
      split; [reflexivity|]. split; [reflexivity|].
      rewrite E0 in HB. exact HB.
    + apply Z.eqb_neq in E0.
      unfold save_walker_trail. cbn [negb]. cbv zeta.
      cbn [best trail set_trail set_best solver set_solver phases_saved
           set_phases_saved].
      fold s ph.
      change (fold_left _ (take (Z.to_nat (best w3)) (trail w3)) ph)
        with (replay ph (take (Z.to_nat (best w3)) (trail w3))).
      set (T := trail w3) in *. set (b := Z.to_nat (best w3)) in *.
      split; [right|split; [apply replay_length|intros [H|H]; lia]].
      rewrite length_app, length_drop. cbn [length].
      split; [lia|]. split; [lia|]. split.
      * intros l Hl. apply elem_of_app in Hl. destruct Hl as [Hl|Hl].
        -- apply Hr. exact (subseteq_drop b T l Hl).
        -- apply list_elem_of_singleton in Hl. now subst.
      * split; [exact HB|].
        rewrite <- replay_app, app_assoc, take_drop. exact HV.
Qed.

Lemma update_best_best (B : list value) (w4 : walker) :
  let s := solver w4 in
  let n := vars s in
  0 <= n -> 2 * n < 2 ^ 32 -> Z.of_nat (length (phases_saved s)) = n ->
  best_inv B w4 ->
  best_inv (values s) (update_best w4)
  /\ length (phases_saved (solver (update_best w4))) = length (phases_saved s)
  /\ vars (solver (update_best w4)) = n
  /\ values (solver (update_best w4)) = values s
  /\ minimum (update_best w4) = current w4
  /\ initial (update_best w4) = initial w4
  /\ current (update_best w4) = current w4.
Proof.
  intros s n Hn0 Hn Hlp Hinv.
  destruct (trail_limit n Hn0 Hn) as (Hlim & Hlim2 & Hlim0).
  unfold update_best.
  change (best (set_minimum (current w4) w4)) with (best w4).
  destruct Hinv as [(Hb & Ht & Hag)|(Hb & Hlen & Hr & HB & HV)].
  - rewrite Hb, Z.eqb_refl.
    set (wm := set_minimum (current w4) w4).
    pose proof (save_all_values_length wm) as Hl.
    assert (Hag' : agrees n (values s) (phases_saved (solver (save_all_values wm)))).
    { intros idx Hidx Hnz.
      pose proof (save_all_values_saved wm idx ltac:(lia)
                    ltac:(change (solver wm) with s; lia)) as Hs.
      change (solver wm) with s in Hs. unfold VARS in Hs. fold n in Hs.
      destruct (decide (idx < n)) as [_|]; [|lia].
      apply Z.eqb_neq in Hnz. rewrite Hnz in Hs.
      now apply peek_lookup. }
    split; [|split; [exact Hl|repeat split; reflexivity]].
    right.
    change (best (save_all_values wm)) with 0.
    change (trail (save_all_values wm)) with (trail w4).
    change (vars (solver (save_all_values wm))) with n.
    change (VARS (solver (save_all_values wm))) with n.
    change (values (solver (save_all_values wm))) with (values s).
    rewrite Ht. cbn [length take replay fold_left Z.to_nat].
    split; [lia|]. split; [lia|]. split.
    + intros l Hl'. now apply elem_of_nil in Hl'.
    + split; exact Hag'.
  - rewrite INVALID_BEST_value.
    unfold VARS in Hlen. fold s n in Hlen.
    destruct (best w4 =? 2 ^ 32 - 1) eqn:E; [apply Z.eqb_eq in E; lia|].
    change (trail (set_minimum (current w4) w4)) with (trail w4).
    rewrite (u32_small (Z.of_nat (length (trail w4)))) by lia.
    split; [|repeat split; reflexivity].
    right. cbn [best set_best trail set_minimum solver]. fold s.
    unfold VARS. fold n.
    split; [lia|]. split; [lia|]. split; [exact Hr|].
    rewrite Nat2Z.id, firstn_all. split; exact HV.
Qed.

Section StepBest.

Context {host : Host}.

Lemma local_search_step_pushed (w : walker) :
  local_search_step w
  = if current (push_flipped (step_flipped w) (step_literal w))
       <? minimum (push_flipped (step_flipped w) (step_literal w))
    then update_best (push_flipped (step_flipped w) (step_literal w))
    else push_flipped (step_flipped w) (step_literal w).
Proof.
  rewrite local_search_step_unfold. unfold step_flipped, step_literal.
  cbv zeta. destruct (pick_literal _) as [lit w2]. reflexivity.
Qed.

Lemma step_flipped_fields (n : Z) (w : walker) :
  round_inv n w -> minimum w <> 0 ->
  let w3 := step_flipped w in
  let lit := step_literal w in
  let vs := values (solver w) in
  walker_inv n w3
  /\ 0 <= lit < LITS (solver w) /\ peek vs lit < 0
  /\ values (solver w3) = poke (poke vs lit (- peek vs lit)) (NOT lit) (peek vs lit)
  /\ best w3 = best w /\ trail w3 = trail w /\ minimum w3 = minimum w
  /\ initial w3 = initial w
  /\ phases_saved (solver w3) = phases_saved (solver w)
  /\ vars (solver w3) = vars (solver w).
Proof.
  intros Hr Hm w3 lit vs.
  destruct (step_pick n w Hr Hm) as (H1 & H2 & H3 & H4 & H5 & H6).
  cbv zeta in *. subst w3 lit vs. unfold step_flipped, step_literal.
  set (wp := set_flipped (u64 (flipped w + 1))
               (set_solver (INC_flipped (solver w)) w)) in *.
  destruct (pick_literal_frame wp) as (st & g & Hp).
  revert H1 H2 H3 H4 H5 H6 Hp.
  generalize (snd (pick_literal wp)) (fst (pick_literal wp)).
  intros w2 lit H1 H2 H3 H4 H5 H6 Hp.
  assert (F2 : values (solver w2) = values (solver w)
               /\ best w2 = best w /\ trail w2 = trail w
               /\ initial w2 = initial w
               /\ phases_saved (solver w2) = phases_saved (solver w)
               /\ vars (solver w2) = vars (solver w)).
  { rewrite Hp. repeat split; reflexivity. }
  destruct F2 as (Ev & Eb & Et & Ei & Ep & En).
  pose proof (flip_literal_inv n w2 lit H1 H3 H4) as Hinv3.
  pose proof (flip_literal_values w2 lit) as Hv3.
  destruct (flipping_rest_fields _ _ (flip_literal_rest w2 lit))
    as (Hbk & _ & _ & _ & Hh & Hps).
  destruct (bookkeeping_fields _ _ Hbk) as (B1 & B2 & B3 & B4 & _).
  destruct (host_part_fields _ _ Hh) as (V1 & _).
  unfold LITS in *. rewrite En in H3. rewrite Ev in H4, Hv3.
  split; [exact Hinv3|]. split; [exact H3|]. split; [exact H4|].
  split; [exact Hv3|]. repeat split; congruence.
Qed.

End StepBest.

Lemma signed_flip (vs : list value) (lit v : Z) :
  Z.of_nat (length vs) = 2 * v -> 0 <= lit < 2 * v ->
  signed vs -> peek vs lit < 0 ->
  peek vs lit = -1
  /\ signed (poke (poke vs lit (- peek vs lit)) (NOT lit) (peek vs lit)).
Proof.
  intros Hlen Hlit Hs Hneg.
  assert (Hv : peek vs lit = -1) by (destruct (Hs lit ltac:(lia)) as [H|[H|H]]; lia).
  split; [exact Hv|]. rewrite Hv.
  pose proof (NOT_range lit v Hlit) as Hnl.
  intros l Hl. rewrite !length_poke in Hl.
  destruct (Z.eq_dec l (NOT lit)) as [->|H1].
  - rewrite peek_poke_eq by (rewrite length_poke; lia). now left.
  - rewrite peek_poke_ne by lia.
    destruct (Z.eq_dec l lit) as [->|H2].
    + rewrite peek_poke_eq by lia. right. now right.
    + rewrite peek_poke_ne by lia. now apply Hs.
Qed.

(** Pushing the flipped literal and recording an improvement, for any
    walker [w3] that differs from [w] by the flip of [lit]. *)
Lemma pushed_best (B : list value) (w w3 : walker) (lit : Z) :
  phase_inv w -> best_inv B w ->
  0 <= lit < 2 * vars (solver w) -> peek (values (solver w)) lit < 0 ->
  symmetric (values (solver w3)) ->
  values (solver w3)
  = poke (poke (values (solver w)) lit (- peek (values (solver w)) lit))
      (NOT lit) (peek (values (solver w)) lit) ->
  best w3 = best w -> trail w3 = trail w -> minimum w3 = minimum w ->
  initial w3 = initial w ->
  phases_saved (solver w3) = phases_saved (solver w) ->
  vars (solver w3) = vars (solver w) ->
  0 <= current w3 ->
  forall w5,
  w5 = (if current (push_flipped w3 lit) <? minimum (push_flipped w3 lit)
        then update_best (push_flipped w3 lit) else push_flipped w3 lit) ->
  phase_inv w5 /\ vars (solver w5) = vars (solver w)
  /\ initial w5 = initial w
  /\ current w5 = current w3
  /\ ((current w5 < minimum w /\ minimum w5 = current w5
       /\ best_inv (values (solver w5)) w5)
      \/ (minimum w <= current w5 /\ minimum w5 = minimum w /\ best_inv B w5)).
Proof.
  intros (Hn0 & Hn & Hlp & Hlv & Hsym & Hsg & Hmi & Hmb) Hbest Hlit Hneg
    Hsym3 Hv3 Eb Et Em Ei Ep En Hcur3 w5 ->.
  unfold LITS in Hlv.
  destruct (signed_flip _ _ _ Hlv Hlit Hsg Hneg) as (Hv & Hsg3).
  rewrite <- Hv3 in Hsg3.
  assert (Hlv3 : Z.of_nat (length (values (solver w3))) = 2 * vars (solver w)).
  { rewrite Hv3, !length_poke. exact Hlv. }
  (* the trail and the phases before the push *)
  assert (Hpre :
    (best w3 = INVALID_BEST /\ trail w3 = []
     /\ agrees (vars (solver w3)) B (phases_saved (solver w3)))
    \/ (0 <= best w3 <= Z.of_nat (length (trail w3))
        /\ Z.of_nat (length (trail w3)) <= vars (solver w3) / 4 + 1
        /\ (forall l, l ∈ trail w3 -> 0 <= l < 2 * vars (solver w3))
        /\ agrees (vars (solver w3)) B
             (replay (phases_saved (solver w3))
                (take (Z.to_nat (best w3)) (trail w3)))
        /\ agrees (vars (solver w3)) (values (solver w3))
             (replay (phases_saved (solver w3)) (trail w3 ++ [lit])))).
  { rewrite Eb, Et, Ep, En.
    destruct Hbest as [(Hb & Ht & Hag)|(Hb & Hlen & Hrg & HB & HV)];
      [left; repeat split; assumption|right].
    split; [exact Hb|]. split; [exact Hlen|]. split; [exact Hrg|].
    split; [exact HB|].
    rewrite replay_snoc, Hv3.
    apply flip_agrees; try assumption.
    now rewrite replay_length. }
  pose proof (push_flipped_best B (values (solver w3)) w3 lit) as P.
  cbv zeta in P. rewrite En, Ep in P.
  specialize (P Hn0 Hn Hlp Hlit). rewrite En, Ep in Hpre. specialize (P Hpre).
  destruct P as (Hpost & Hlen4 & Hkeep).
  destruct (push_flipped_frame w3 lit) as (sv & tr & b & Hpf).
  assert (F4 : vars (solver (push_flipped w3 lit)) = vars (solver w3)
               /\ values (solver (push_flipped w3 lit)) = values (solver w3)
               /\ minimum (push_flipped w3 lit) = minimum w3
               /\ initial (push_flipped w3 lit) = initial w3
               /\ current (push_flipped w3 lit) = current w3).
  { rewrite Hpf. repeat split; reflexivity. }
  clear Hpf. destruct F4 as (V4 & VS4 & M4 & I4 & C4).
  revert Hpost Hlen4 Hkeep V4 VS4 M4 I4 C4.
  generalize (push_flipped w3 lit). intros w4 Hpost Hlen4 Hkeep V4 VS4 M4 I4 C4.
  rewrite En in V4. rewrite Em in M4. rewrite Ei in I4.
  assert (Hlp4 : Z.of_nat (length (phases_saved (solver w4)))
                 = vars (solver w)) by (rewrite Hlen4; exact Hlp).
  assert (Hbest4 : best_inv B w4).
  { unfold best_inv, VARS, LITS. rewrite V4, VS4. exact Hpost. }
  destruct (current w4 <? minimum w4) eqn:Hc.
  - apply Z.ltb_lt in Hc.
    pose proof (update_best_best B w4) as U. cbv zeta in U.
    rewrite V4 in U. specialize (U Hn0 Hn Hlp4 Hbest4).
    destruct U as (U1 & U2 & U3 & U4 & U5 & U6 & U7).
    revert U1 U2 U3 U4 U5 U6 U7. generalize (update_best w4).
    intros w5 U1 U2 U3 U4 U5 U6 U7.
    split.
    + unfold phase_inv, LITS. rewrite U3, U4, U5, U6, VS4, I4.
      split; [assumption|]. split; [assumption|]. split; [lia|].
      split; [assumption|]. split; [assumption|]. split; [assumption|].
      split; lia.
    + split; [exact U3|]. split; [congruence|]. split; [congruence|]. left.
      split; [lia|]. split; [congruence|]. rewrite U4. exact U1.
  - apply Z.ltb_ge in Hc.
    split.
    + unfold phase_inv, LITS. rewrite V4, VS4, M4, I4.
      split; [assumption|]. split; [assumption|]. split; [lia|].
      split; [assumption|]. split; [assumption|]. split; [assumption|].
      split; [assumption|]. intros Heq. apply Hkeep. rewrite Eb. now apply Hmb.
    + split; [exact V4|]. split; [exact I4|]. split; [exact C4|]. right.
      split; [lia|]. split; [exact M4|exact Hbest4].
Qed.

Section StepBestInv.

Context {host : Host}.

(** A step of the round keeps the trail and the phases in line with the
    best assignment, which is the current one after an improvement. *)
Lemma local_search_step_best (n : Z) (B : list value) (w : walker) :
  round_inv n w -> minimum w <> 0 -> phase_inv w -> best_inv B w ->
  phase_inv (local_search_step w)
  /\ vars (solver (local_search_step w)) = vars (solver w)
  /\ initial (local_search_step w) = initial w
  /\ ((current (local_search_step w) < minimum w
       /\ minimum (local_search_step w) = current (local_search_step w)
       /\ best_inv (values (solver (local_search_step w))) (local_search_step w))
      \/ (minimum w <= current (local_search_step w)
          /\ minimum (local_search_step w) = minimum w
          /\ best_inv B (local_search_step w))).
Proof.
  intros Hr Hm Hph Hbest.
  destruct (step_flipped_fields n w Hr Hm)
    as (Hinv3 & Hlit & Hneg & Hv3 & Eb & Et & Em & Ei & Ep & En).
  pose proof Hinv3 as (_ & _ & _ & Hsym3 & _ & _ & _ & _ & Hcur3).
  assert (H0 : 0 <= current (step_flipped w)) by (rewrite Hcur3; lia).
  destruct (pushed_best B w (step_flipped w) (step_literal w) Hph Hbest
              Hlit Hneg Hsym3 Hv3 Eb Et Em Ei Ep En H0
              (local_search_step w) (local_search_step_pushed w))
    as (P1 & P2 & P3 & _ & P4).
  split; [exact P1|]. split; [exact P2|]. split; [exact P3|exact P4].
Qed.

End StepBestInv.

(** ** The best assignment *)

Lemma round_steps_snoc {host : Host} (k : nat) :
  forall w0 w, round_steps k w0 = Some w ->
  local_search_continues w = true ->
  round_steps (S k) w0 = Some (local_search_step w).
Proof.
  induction k as [|k IH]; intros w0 w Hk Hc.
  - injection Hk as <-. cbn. now rewrite Hc.
  - cbn in Hk. destruct (local_search_continues w0) eqn:E; [|discriminate].
    change (round_steps (S (S k)) w0)
      with (if local_search_continues w0
            then round_steps (S k) (local_search_step w0) else None).
    rewrite E. now apply IH.
Qed.

Lemma round_steps_last {host : Host} (k : nat) :
  forall w0 w', round_steps (S k) w0 = Some w' ->
  exists w, round_steps k w0 = Some w
            /\ local_search_continues w = true
            /\ w' = local_search_step w.
Proof.
  induction k as [|k IH]; intros w0 w' H.
  - cbn in H. destruct (local_search_continues w0) eqn:E; [|discriminate].
    injection H as <-. exists w0. split; [reflexivity|]. split; [assumption|reflexivity].
  - change (round_steps (S (S k)) w0)
      with (if local_search_continues w0
            then round_steps (S k) (local_search_step w0) else None) in H.
    destruct (local_search_continues w0) eqn:E; [|discriminate].
    destruct (IH _ _ H) as (w & Hk & Hc & ->).
    exists w. split; [|split; [assumption|reflexivity]].
    cbn. rewrite E. exact Hk.
Qed.

Section InitBest.

Context {host : Host}.

(** The values, the phases and the trail [init_walker] leaves. *)
Lemma init_walker_imported (fuel : nat) (s : kissat) (bins : litpairs)
    (w0 : walker) :
  init_walker fuel s bins = Some w0 ->
  exists w1,
    solver w1 = fresh_solver s
    /\ values (solver w0) = values (solver (import_decision_phases w1))
    /\ phases_saved (solver w0)
       = phases_saved (solver (import_decision_phases w1))
    /\ vars (solver w0) = vars s
    /\ best w0 = 0 /\ trail w0 = [] /\ minimum w0 = initial w0.
Proof.
  intros Hinit. unfold init_walker in Hinit.
  match type of Hinit with context [import_decision_phases ?W] =>
    exists W; split; [reflexivity|];
    pose proof (import_decision_phases_host W) as (sv & vs & dec & Himp);
    set (w2 := import_decision_phases W) in *
  end.
  assert (F2 : vars (solver w2) = vars s /\ best w2 = 0 /\ trail w2 = []).
  { rewrite Himp. repeat split; reflexivity. }
  clearbody w2. clear Himp. destruct F2 as (N2 & B2 & T2).
  match type of Hinit with context [connect_binary_counters ?W] =>
    set (w4 := W) in Hinit end.
  pose proof (connect_binary_counters_frame w4) as (B1 & _ & _).
  cbv zeta in B1.
  destruct (connect_binary_counters w4) as [w5 cr]. cbn [fst] in B1.
  unfold connect_large_counters in Hinit.
  match type of Hinit with context [connect_large_loop ?cs w5 cr] =>
    pose proof (connect_large_loop_frame cs w5 cr) as (L1 & _ & _);
    cbv zeta in L1;
    revert Hinit L1; generalize (connect_large_loop cs w5 cr) end.
  intros w6 Hinit L1.
  apply init_score_table_frame in Hinit. destruct Hinit as (t & e & eps & ->).
  cbn [values phases_saved vars best trail minimum initial solver
       set_score_table set_minimum set_size set_initial set_current].
  assert (H6 : values (solver w6) = values (solver w2)
               /\ phases_saved (solver w6) = phases_saved (solver w2)
               /\ vars (solver w6) = vars (solver w2)
               /\ best w6 = best w2 /\ trail w6 = trail w2).
  { unfold connecting_rest in L1, B1. injection L1. injection B1. intros.
    unfold w4 in *. cbn [values phases_saved vars best trail solver set_refs
                         set_counters] in *.
    repeat split; congruence. }
  destruct H6 as (G1 & G2 & G3 & G4 & G5).
  repeat split; congruence.
Qed.

End InitBest.

Lemma decision_phase_sign (s : kissat) (idx : Z) :
  phases_ready s -> 0 <= idx < vars s ->
  decision_phase s idx = -1 \/ decision_phase s idx = 1.
Proof.
  intros (Hls & Hlt & Hs & Ht & Hi) Hidx.
  assert (Hps : peek (phases_saved s) idx = -1 \/ peek (phases_saved s) idx = 0
                \/ peek (phases_saved s) idx = 1).
  { rewrite Forall_forall in Hs. apply Hs.
    eapply list_elem_of_lookup_2.
    exact (lookup_peek (phases_saved s) idx ltac:(lia)). }
  assert (Hpt : peek (phases_target s) idx = -1 \/ peek (phases_target s) idx = 0
                \/ peek (phases_target s) idx = 1).
  { rewrite Forall_forall in Ht. apply Ht.
    eapply list_elem_of_lookup_2.
    exact (lookup_peek (phases_target s) idx ltac:(lia)). }
  unfold decision_phase.
  destruct (stable s && negb (option_warmup s)).
  - destruct (peek (phases_target s) idx =? 0) eqn:E1.
    + destruct (peek (phases_saved s) idx =? 0) eqn:E2; [lia|].
      apply Z.eqb_neq in E2. lia.
    + rewrite E1. apply Z.eqb_neq in E1. lia.
  - cbn. destruct (peek (phases_saved s) idx =? 0) eqn:E2; [lia|].
    apply Z.eqb_neq in E2. lia.
Qed.

Section InitPhase.

Context {host : Host}.

Lemma init_walker_best (fuel : nat) (s : kissat) (bins : litpairs)
    (w0 : walker) :
  host_ready s bins -> phases_ready s ->
  init_walker fuel s bins = Some w0 ->
  exists n,
    round_inv n w0 /\ minimum w0 = current w0
    /\ phase_inv w0 /\ best_inv (values (solver w0)) w0
    /\ vars (solver w0) = vars s.
Proof.
  intros Hready Hph Hinit.
  destruct (init_walker_inv fuel s bins w0 Hready Hinit) as (n & Hr & Hmc).
  exists n. split; [exact Hr|]. split; [exact Hmc|].
  destruct (init_walker_imported fuel s bins w0 Hinit)
    as (w1 & Hs1 & Ev & Ep & En & Eb & Et & Emi).
  destruct Hready as (Hv0 & Hv & _).
  pose proof Hph as (Hls & _).
  (* the cells after the import *)
  unfold import_decision_phases in Ev, Ep. cbn [solver set_solver] in Ev, Ep.
  rewrite Hs1 in Ev, Ep.
  set (s0 := INC_walk_decisions (fresh_solver s)) in *.
  destruct (import_fold_cells (seqZ 0 (VARS s0)) s0)
    as (L1 & L2 & _ & _ & C).
  { apply NoDup_seqZ. }
  { apply Forall_forall. intros i Hi. apply elem_of_seqZ in Hi.
    unfold VARS in Hi. cbn in Hi |- *. lia. }
  { exact Hv. }
  { cbn. rewrite length_replicate. unfold LITS. lia. }
  { exact Hls. }
  cbv zeta in L1, L2, C. rewrite <- Ev in L1, C. rewrite <- Ep in L2, C.
  clear Ev Ep.
  assert (Hcell : forall j, 0 <= j < vars s ->
            let a := peek (active s) j in
            peek (values (solver w0)) (2 * j)
            = (if a then decision_phase s j else 0)
            /\ peek (values (solver w0)) (2 * j + 1)
               = (if a then - decision_phase s j else 0)
            /\ (a = true ->
                peek (phases_saved (solver w0)) j = decision_phase s j)).
  { intros j Hj. destruct (C j ltac:(lia)) as (V0 & V1 & P0).
    rewrite (bool_decide_eq_true_2 (j ∈ seqZ 0 (VARS s0))) in V0, V1, P0
      by (apply elem_of_seqZ; unfold VARS; cbn; lia).
    cbn [andb] in V0, V1, P0.
    change (peek (active s0) j) with (peek (active s) j) in V0, V1, P0.
    change (decision_phase s0 j) with (decision_phase s j) in V0, V1, P0.
    change (values s0) with (replicate (Z.to_nat (LITS s)) 0) in V0, V1.
    assert (Hz : forall l, 0 <= l < LITS s ->
              peek (replicate (Z.to_nat (LITS s)) 0) l = 0).
    { intros l Hl. unfold peek. apply lookup_total_replicate_2. lia. }
    rewrite Hz in V0, V1 by (unfold LITS; lia).
    cbv zeta. rewrite V0, V1, P0.
    destruct (peek (active s) j); repeat split; try reflexivity. discriminate. }
  clear C.
  pose proof Hr as ((_ & Hlv & _ & Hsym & _) & _).
  unfold LITS in Hlv. rewrite En in Hlv.
  assert (Hlp : Z.of_nat (length (phases_saved (solver w0))) = vars s).
  { rewrite L2. exact Hls. }
  split; [|split; [|exact En]].
  - unfold phase_inv, LITS. rewrite En.
    split; [exact Hv0|]. split; [exact Hv|]. split; [exact Hlp|].
    split; [exact Hlv|]. split; [exact Hsym|]. split.
    + intros l Hl. rewrite Hlv in Hl.
      destruct (IDX_cases l (vars s) Hl Hv) as (Hi & Hcase).
      destruct (Hcell (IDX l) Hi) as (V0 & V1 & _). cbv zeta in V0, V1.
      destruct (decision_phase_sign s (IDX l) Hph Hi) as [Hd|Hd].
      * rewrite (NOT_LIT _ _ Hi Hv), (LIT_small _ _ Hi Hv) in Hcase.
        destruct Hcase as [E|E]; rewrite E, ?V0, ?V1, Hd;
          destruct (peek (active s) (IDX l)); lia.
      * rewrite (NOT_LIT _ _ Hi Hv), (LIT_small _ _ Hi Hv) in Hcase.
        destruct Hcase as [E|E]; rewrite E, ?V0, ?V1, Hd;
          destruct (peek (active s) (IDX l)); lia.
    + split; [lia|]. intros _. left. exact Eb.
  - right. unfold VARS, LITS. rewrite Eb, Et, En.
    destruct (trail_limit (vars s) Hv0 Hv) as (_ & _ & Hl0).
    cbn [length take replay fold_left Z.to_nat].
    split; [lia|]. split; [lia|]. split.
    + intros l Hl. now apply elem_of_nil in Hl.
    + assert (Hag : agrees (vars s) (values (solver w0))
                      (phases_saved (solver w0))).
      { intros idx Hidx Hnz. rewrite (LIT_small idx (vars s)) in * by assumption.
        destruct (Hcell idx Hidx) as (V0 & _ & P0). cbv zeta in V0, P0.
        destruct (peek (active s) idx); [|contradiction].
        rewrite V0. now apply P0. }
      split; exact Hag.
Qed.

End InitPhase.

Lemma save_final_minimum_best (B : list value) (w : walker) :
  phase_inv w -> best_inv B w ->
  agrees (vars (solver w)) B (phases_saved (solver (save_final_minimum w))).
Proof.
  intros (Hn0 & Hn & _ & _ & _ & _ & _ & Hmb) Hbest.
  destruct (trail_limit _ Hn0 Hn) as (_ & Hlim & _).
  assert (Hsame : best w = 0 \/ best w = INVALID_BEST ->
                  agrees (vars (solver w)) B (phases_saved (solver w))).
  { intros Hb.
    destruct Hbest as [(_ & _ & Hag)|(Hb' & Hlen & _ & HB & _)];
      [exact Hag|].
    unfold VARS in Hlen. rewrite INVALID_BEST_value in Hb.
    destruct Hb as [Hb|Hb]; [|lia]. rewrite Hb in HB. exact HB. }
  unfold save_final_minimum.
  destruct (minimum w =? initial w) eqn:E.
  { apply Z.eqb_eq in E. apply Hsame. now apply Hmb. }
  destruct ((best w =? 0) || (best w =? INVALID_BEST)) eqn:Eb.
  { apply orb_true_iff in Eb. apply Hsame.
    destruct Eb as [Eb|Eb]; apply Z.eqb_eq in Eb; tauto. }
  apply orb_false_iff in Eb. destruct Eb as [E0 E1].
  apply Z.eqb_neq in E0, E1.
  destruct Hbest as [(Hb & _)|(_ & _ & _ & HB & _)]; [contradiction|].
  exact HB.
Qed.

Section BestAssignment.

Context {host : Host}.

Lemma round_best (n : Z) (winit : walker) (k : nat) :
  round_inv n winit -> phase_inv winit ->
  best_inv (values (solver winit)) winit ->
  minimum winit = current winit ->
  forall w, round_steps k winit = Some w ->
  round_inv n w /\ phase_inv w /\ vars (solver w) = vars (solver winit)
  /\ (exists (j : nat) (wj : walker),
        (j <= k)%nat /\ round_steps j winit = Some wj
        /\ current wj = minimum w
        /\ best_inv (values (solver wj)) w)
  /\ (forall (i : nat) (wi : walker),
        (i <= k)%nat -> round_steps i winit = Some wi ->
        minimum w <= current wi).
Proof.
  intros Hr0 Hp0 Hb0 Hm0.
  induction k as [|k IH]; intros w Hk.
  - injection Hk as <-.
    split; [exact Hr0|]. split; [exact Hp0|]. split; [reflexivity|]. split.
    + exists 0%nat, winit. split; [lia|]. split; [reflexivity|].
      split; [now symmetry|exact Hb0].
    + intros i wi Hi Hwi. assert (i = 0%nat) as -> by lia.
      injection Hwi as <-. lia.
  - destruct (round_steps_last k _ _ Hk) as (w1 & Hk1 & Hc & ->).
    destruct (IH w1 Hk1) as (Hr & Hp & Hn & (j & wj & Hj & Hwj & Hcur & Hb) & Hmin).
    pose proof (continues_minimum w1 Hc) as Hm.
    pose proof (local_search_step_inv n w1 Hr Hm) as Hr'.
    destruct (local_search_step_best n (values (solver wj)) w1 Hr Hm Hp Hb)
      as (Hp' & Hn' & _ & Hcases).
    split; [exact Hr'|]. split; [exact Hp'|]. split; [congruence|].
    assert (Hle : minimum (local_search_step w1) <= minimum w1)
      by (destruct Hcases as [(? & ? & _)|(_ & ? & _)]; lia).
    split.
    + destruct Hcases as [(_ & Hmc & Hb')|(_ & Hmc & Hb')].
      * exists (S k), (local_search_step w1).
        split; [lia|]. split; [exact Hk|]. split; [now symmetry|exact Hb'].
      * exists j, wj. split; [lia|]. split; [exact Hwj|].
        split; [congruence|exact Hb'].
    + intros i wi Hi Hwi.
      destruct (Nat.eq_dec i (S k)) as [->|Hne].
      * rewrite Hk in Hwi. injection Hwi as <-.
        destruct Hr' as (_ & _ & ? & _). lia.
      * specialize (Hmin i wi ltac:(lia) Hwi). lia.
Qed.

(** X4.  The walk exports the best assignment it has seen.  For a solver
    ready for the walk whose phases are -1, 0 or 1: after any number [k] of
    steps of the round, [minimum] is the least number of unsatisfied
    clauses of all walkers the round has gone through, one of them has that
    many, and the saved phases [save_final_minimum] and [release_walker]
    leave hold the value of every assigned variable in that walker. *)
Theorem best_assignment_exported (fuel : nat) (s : kissat) (bins : litpairs)
    (w0 : walker) (k : nat) (w : walker) :
  host_ready s bins -> phases_ready s ->
  init_walker fuel s bins = Some w0 ->
  round_steps k (init_walker_limit w0) = Some w ->
  (exists (j : nat) (wj : walker),
     (j <= k)%nat
     /\ round_steps j (init_walker_limit w0) = Some wj
     /\ current wj = Z.of_nat (length (unsat wj))
     /\ current wj = minimum w
     /\ agrees (vars s) (values (solver wj))
          (phases_saved (release_walker (save_final_minimum w))))
  /\ (forall (i : nat) (wi : walker),
        (i <= k)%nat -> round_steps i (init_walker_limit w0) = Some wi ->
        minimum w <= current wi).
Proof.
  intros Hready Hph Hinit Hk.
  destruct (init_walker_best fuel s bins w0 Hready Hph Hinit)
    as (n & Hr & Hmc & Hp & Hb & Hn).
  destruct (round_best n (init_walker_limit w0) k
              (init_walker_limit_inv n w0 Hr) Hp Hb Hmc w Hk)
    as (Hrw & Hpw & Hnw & (j & wj & Hj & Hwj & Hcur & Hbw) & Hmin).
  split; [|exact Hmin].
  exists j, wj. split; [exact Hj|]. split; [exact Hwj|].
  pose proof (round_steps_inv n j _ _ (init_walker_limit_inv n w0 Hr) Hwj)
    as ((_ & _ & _ & _ & _ & _ & _ & _ & Hcj) & _).
  split; [exact Hcj|]. split; [exact Hcur|].
  pose proof (save_final_minimum_best _ w Hpw Hbw) as Hfin.
  change (vars (solver (init_walker_limit w0))) with (vars (solver w0)) in Hnw.
  rewrite Hnw, Hn in Hfin. exact Hfin.
Qed.

End BestAssignment.

Lemma example_phases_ready : phases_ready example_solver.
Proof.
  unfold phases_ready. cbn.
  split; [reflexivity|]. split; [reflexivity|].
  split; [forall_list; lia|]. split; [forall_list; lia|]. now right.
Qed.

(** The theorem at the example solver after the first step of its round,
    which leaves no clause unsatisfied: the exported phases are the values
    of that walker. *)
Lemma best_assignment_exported_witness :
  exists w0 w,
    init_walker (host := example_host) 1100 example_solver example_binaries
    = Some w0
    /\ round_steps (host := example_host) 1
         (init_walker_limit (host := example_host) w0) = Some w
    /\ minimum w = 0
    /\ forall (i : nat) (wi : walker),
         (i <= 1)%nat ->
         round_steps (host := example_host) i
           (init_walker_limit (host := example_host) w0) = Some wi ->
         minimum w <= current wi.
Proof.
  eexists. eexists. split; [vm_compute; reflexivity|].
  split; [vm_compute; reflexivity|]. split; [reflexivity|].
  match goal with
  | |- forall i wi, _ -> round_steps i (init_walker_limit ?w0) = _ ->
                    minimum ?w <= _ =>
    assert (Hinit : init_walker (host := example_host) 1100 example_solver
                      example_binaries = Some w0)
      by (vm_compute; reflexivity);
    assert (Hstep : round_steps (host := example_host) 1
                      (init_walker_limit (host := example_host) w0) = Some w)
      by (vm_compute; reflexivity);
    exact (proj2 (best_assignment_exported (host := example_host) 1100
                    example_solver example_binaries w0 1 w example_ready
                    example_phases_ready Hinit Hstep))
  end.
Defined.

(** ** The size of the trail *)

Lemma push_flipped_trail (w : walker) (lit : Z) :
  0 <= VARS (solver w) -> 2 * VARS (solver w) < 2 ^ 32 ->
  trail_inv w -> trail_inv (push_flipped w lit).
Proof.
  intros Hn0 Hn Hinv. unfold VARS in *.
  destruct (trail_limit _ Hn0 Hn) as (Hlim & Hlim2 & Hlim0).
  unfold trail_inv, push_flipped, VARS.
  destruct Hinv as [(Hb & Ht)|(Hb & Hlen)].
  { rewrite Hb, Z.eqb_refl. left. now split. }
  unfold VARS in Hlen. rewrite INVALID_BEST_value.
  destruct (best w =? 2 ^ 32 - 1) eqn:E; [apply Z.eqb_eq in E; lia|].
  cbv zeta. rewrite Hlim.
  rewrite (u32_small (Z.of_nat (length (trail w)))) by lia.
  destruct (Z.of_nat (length (trail w)) <? vars (solver w) / 4 + 1) eqn:Elt.
  - apply Z.ltb_lt in Elt. right.
    cbn [best trail set_trail solver]. rewrite length_app. cbn [length]. lia.
  - apply Z.ltb_ge in Elt. destruct (best w =? 0) eqn:E0; cbn [negb].
    + left. split; reflexivity.
    + apply Z.eqb_neq in E0. right.
      unfold save_walker_trail. cbn [negb]. cbv zeta.
      cbn [best trail set_trail set_best solver set_solver vars
           set_phases_saved].
      rewrite length_app, length_drop. cbn [length]. lia.
Qed.

Lemma update_best_trail (w : walker) :
  0 <= VARS (solver w) -> 2 * VARS (solver w) < 2 ^ 32 ->
  trail_inv w -> trail_inv (update_best w).
Proof.
  intros Hn0 Hn Hinv. unfold VARS in *.
  destruct (trail_limit _ Hn0 Hn) as (Hlim & Hlim2 & Hlim0).
  unfold trail_inv, update_best, VARS.
  change (best (set_minimum (current w) w)) with (best w).
  destruct Hinv as [(Hb & Ht)|(Hb & Hlen)].
  - rewrite Hb, Z.eqb_refl. right.
    change (best (save_all_values (set_minimum (current w) w))) with 0.
    change (trail (save_all_values (set_minimum (current w) w))) with (trail w).
    change (vars (solver (save_all_values (set_minimum (current w) w))))
      with (vars (solver w)).
    rewrite Ht. cbn [length]. lia.
  - unfold VARS in Hlen. rewrite INVALID_BEST_value.
    destruct (best w =? 2 ^ 32 - 1) eqn:E; [apply Z.eqb_eq in E; lia|].
    change (trail (set_minimum (current w) w)) with (trail w).
    rewrite (u32_small (Z.of_nat (length (trail w)))) by lia.
    right. cbn [best set_best trail set_minimum solver]. lia.
Qed.

Section TrailBound.

Context {host : Host}.

Lemma step_flipped_frame (w : walker) :
  best (step_flipped w) = best w /\ trail (step_flipped w) = trail w
  /\ vars (solver (step_flipped w)) = vars (solver w)
  /\ minimum (step_flipped w) = minimum w.
Proof.
  unfold step_flipped.
  set (wp := set_flipped (u64 (flipped w + 1))
               (set_solver (INC_flipped (solver w)) w)).
  destruct (pick_literal_frame wp) as (st & g & Hp).
  revert Hp. generalize (snd (pick_literal wp)) (fst (pick_literal wp)).
  intros w2 lit Hp.
  assert (F2 : best w2 = best w /\ trail w2 = trail w
               /\ vars (solver w2) = vars (solver w)
               /\ minimum w2 = minimum w).
  { rewrite Hp. repeat split; reflexivity. }
  clear Hp. destruct F2 as (Eb & Et & En & Em).
  destruct (flipping_rest_fields _ _ (flip_literal_rest w2 lit))
    as (Hbk & _ & _ & _ & Hh & _).
  destruct (bookkeeping_fields _ _ Hbk) as (B1 & B2 & B3 & _).
  destruct (host_part_fields _ _ Hh) as (V1 & _).
  repeat split; congruence.
Qed.

Lemma local_search_step_trail (w : walker) :
  0 <= VARS (solver w) -> 2 * VARS (solver w) < 2 ^ 32 ->
  trail_inv w ->
  trail_inv (local_search_step w)
  /\ VARS (solver (local_search_step w)) = VARS (solver w).
Proof.
  intros Hn0 Hn Hinv. rewrite local_search_step_pushed.
  destruct (step_flipped_frame w) as (Eb & Et & Hv & _).
  assert (H3 : trail_inv (step_flipped w)).
  { unfold trail_inv, VARS. rewrite Eb, Et, Hv. exact Hinv. }
  set (lit := step_literal w). clearbody lit.
  revert Hv H3. clear Eb Et. generalize (step_flipped w). intros w3 Hv H3.
  unfold VARS in *.
  pose proof (push_flipped_trail w3 lit ltac:(unfold VARS; lia)
                ltac:(unfold VARS; lia) H3) as H4.
  destruct (push_flipped_frame w3 lit) as (sv & tr & b & Hpf).
  assert (V4 : vars (solver (push_flipped w3 lit)) = vars (solver w3))
    by (rewrite Hpf; reflexivity).
  clear Hpf. revert H4 V4. generalize (push_flipped w3 lit). intros w4 H4 V4.
  destruct (current w4 <? minimum w4).
  - split; [apply update_best_trail; unfold VARS; [lia|lia|exact H4]|].
    destruct (update_best_frame w4) as (sv' & b' & Hu).
    assert (V5 : vars (solver (update_best w4)) = vars (solver w4))
      by (rewrite Hu; reflexivity).
    lia.
  - split; [exact H4|lia].
Qed.

(** X5.  The trail stays within its limit: from a walker whose trail is
    empty with [best] invalid, or holds at least [best] and at most
    [VARS / 4 + 1] literals, every number of steps leads to such a walker.
    So the trail never holds more than [VARS / 4 + 1] literals, [best] is
    never beyond its end, and it is empty whenever [best] is
    [INVALID_BEST], as [push_flipped] and [save_all_values] assert. *)
Theorem trail_bounded (w : walker) (k : nat) :
  0 <= VARS (solver w) -> 2 * VARS (solver w) < 2 ^ 32 ->
  trail_inv w ->
  let w' := Nat.iter k local_search_step w in
  trail_inv w'
  /\ Z.of_nat (length (trail w')) <= VARS (solver w) / 4 + 1
  /\ (best w' = INVALID_BEST -> trail w' = [])
  /\ (best w' <> INVALID_BEST -> 0 <= best w' <= Z.of_nat (length (trail w'))).
Proof.
  intros Hn0 Hn Hinv w'.
  assert (H : trail_inv w' /\ VARS (solver w') = VARS (solver w)).
  { subst w'. induction k as [|k IH]; [split; [exact Hinv|reflexivity]|].
    rewrite Nat.iter_succ. destruct IH as [IH1 IH2].
    destruct (local_search_step_trail (Nat.iter k local_search_step w))
      as [H1 H2]; try (rewrite IH2; assumption); [exact IH1|].
    split; [exact H1|congruence]. }
  destruct H as [H Hv]. split; [exact H|].
  unfold VARS in Hn0, Hn.
  destruct (trail_limit _ Hn0 Hn) as (_ & Hlim2 & Hlim0).
  rewrite INVALID_BEST_value. unfold trail_inv in H. rewrite Hv in H.
  rewrite INVALID_BEST_value in H. unfold VARS in *.
  destruct H as [(Hb & Ht)|(Hb & Hlen)].
  - rewrite Ht. cbn [length]. split; [lia|]. split; [reflexivity|].
    intros Hne. contradiction.
  - split; [exact Hlen|]. split; [intros E; lia|intros _; exact Hb].
Qed.

End TrailBound.

(** The theorem at the first step of the round on the example solver. *)
Lemma trail_bounded_witness :
  exists w0,
    option_map (init_walker_limit (host := example_host))
      (init_walker (host := example_host) 1100 example_solver example_binaries)
    = Some w0
    /\ Z.of_nat (length (trail (Nat.iter 1
                                  (local_search_step (host := example_host)) w0)))
       <= VARS (solver w0) / 4 + 1.
Proof.
  eexists. split; [vm_compute; reflexivity|].
  match goal with |- Z.of_nat (length (trail (Nat.iter 1 _ ?w))) <= _ =>
    assert (H0 : 0 <= VARS (solver w)) by (vm_compute; discriminate);
    assert (H1 : 2 * VARS (solver w) < 2 ^ 32) by (vm_compute; reflexivity);
    assert (H2 : trail_inv w) by (right; vm_compute; intuition discriminate);
    destruct (trail_bounded (host := example_host) w 1 H0 H1 H2) as (_ & H & _)
  end.
  exact H.
Defined.

(** ** The watch lists and the clauses of the counters *)

Lemma push_watches_peek_elem (vs : list value) (r : Z) (lits : list Z)
    (wss : list (list Z)) (l' x : Z) :
  (forall l, l ∈ lits -> 0 <= l < Z.of_nat (length wss)) -> 0 <= l' ->
  x ∈ peek (push_watches vs r lits wss) l' ->
  x ∈ peek wss l' \/ (x = r /\ l' ∈ lits /\ peek vs l' <> 0).
Proof.
  unfold push_watches. revert wss.
  induction lits as [|l lits IH]; intros wss Hl Hl' Hx; [now left|].
  cbn [fold_left] in Hx.
  assert (Hk : 0 <= l < Z.of_nat (length wss)) by (apply Hl; left).
  destruct (IH (watch_counter vs r wss l)) as [H|(-> & Hin & Hv)].
  - intros k Hk'. rewrite watch_counter_length. apply Hl. now right.
  - assumption.
  - assumption.
  - rewrite watch_counter_peek in H by lia.
    destruct (decide _) as [[-> Hv]|_]; [|now left].
    apply elem_of_app in H. destruct H as [H|H]; [now left|].
    apply list_elem_of_singleton in H. right.
    split; [assumption|]. split; [left|assumption].
  - right. split; [reflexivity|]. split; [now right|assumption].
Qed.

Lemma peek_elem {A} `{Inhabited A} (l : list A) (i : Z) :
  0 <= i < Z.of_nat (length l) -> peek l i ∈ l.
Proof.
  intros Hi. eapply list_elem_of_lookup_2. exact (lookup_peek l i Hi).
Qed.

(** A new counter [n] for the clause [lits] keeps the watch lists sound and
    the clauses of the counters before it. *)
Lemma connect_new_sound (n : Z) (w w' : walker) (lits : list Z) (t : tagged) :
  watch_sound w ->
  (forall ws r, ws ∈ watches (solver w) -> r ∈ ws -> 0 <= r < n) ->
  0 <= n ->
  (forall l, l ∈ lits -> 0 <= l < Z.of_nat (length (watches (solver w)))) ->
  arena (solver w') = arena (solver w) ->
  binaries w' = binaries w ->
  refs w' = poke (refs w) n t ->
  watches (solver w')
  = push_watches (values (solver w)) n lits (watches (solver w)) ->
  dereference_literals w' n = lits ->
  watch_sound w'
  /\ (forall lits0, counted w lits0 -> counted w' lits0)
  /\ ((exists l, l ∈ lits /\ peek (values (solver w)) l <> 0) ->
      counted w' lits).
Proof.
  intros Hws Hwr Hn Hlits Harena Hbins Hrefs Hw Hderef.
  assert (Hd : forall r, 0 <= r -> r <> n ->
            dereference_literals w' r = dereference_literals w r).
  { intros r Hr Hne. apply dereference_literals_ext; try assumption.
    rewrite Hrefs. apply peek_poke_ne; lia. }
  assert (Hlen : length (watches (solver w')) = length (watches (solver w))).
  { rewrite Hw. apply push_watches_length. }
  split; [|split].
  - intros l r Hl Hr. rewrite Hlen in Hl. rewrite Hw in Hr.
    apply push_watches_peek_elem in Hr; [|assumption|lia].
    destruct Hr as [Hr|(-> & Hin & _)].
    + pose proof (Hwr _ r (peek_elem _ l Hl) Hr) as Hrn.
      rewrite Hd by lia. now apply Hws.
    + now rewrite Hderef.
  - intros lits0 (r & l & Hr & Hdr & Hin & Hl & Hrl).
    pose proof (Hwr _ r (peek_elem _ l Hl) Hrl) as Hrn.
    exists r, l. split; [assumption|]. split; [rewrite Hd by lia; assumption|].
    split; [assumption|]. split; [now rewrite Hlen|].
    rewrite Hw. apply push_watches_mono; [assumption|lia|assumption].
  - intros (l & Hin & Hv). exists n, l.
    split; [assumption|]. split; [assumption|]. split; [assumption|].
    split; [rewrite Hlen; now apply Hlits|].
    rewrite Hw. now apply push_watches_in.
Qed.

Lemma watch_sound_ext (w w' : walker) :
  refs w' = refs w -> binaries w' = binaries w ->
  arena (solver w') = arena (solver w) ->
  watches (solver w') = watches (solver w) ->
  watch_sound w -> watch_sound w'.
Proof.
  intros Hr Hb Ha Hw H l r Hl Hin. rewrite Hw in Hl, Hin.
  rewrite (dereference_literals_ext w w' r); try congruence. now apply H.
Qed.

Lemma counted_ext (w w' : walker) (lits : list Z) :
  refs w' = refs w -> binaries w' = binaries w ->
  arena (solver w') = arena (solver w) ->
  watches (solver w') = watches (solver w) ->
  counted w lits -> counted w' lits.
Proof.
  intros Hr Hb Ha Hw (r & l & H1 & H2 & H3 & H4 & H5).
  exists r, l. rewrite Hw.
  rewrite (dereference_literals_ext w w' r); try congruence. tauto.
Qed.

Lemma clause_part_fields (w w' : walker) :
  clause_part w' = clause_part w ->
  refs w' = refs w /\ binaries w' = binaries w
  /\ arena (solver w') = arena (solver w)
  /\ watches (solver w') = watches (solver w)
  /\ vars (solver w') = vars (solver w).
Proof.
  unfold clause_part. intros H. injection H. intros. repeat split; assumption.
Qed.

(** A counter that is positive has a true literal of its clause. *)
Lemma true_count_positive (r : Z) (vs : list value) (wss : list (list Z)) :
  0 < true_count r vs wss ->
  exists l, 0 <= l < Z.of_nat (length vs) /\ 0 <= l < Z.of_nat (length wss)
            /\ 0 < peek vs l /\ r ∈ peek wss l.
Proof.
  revert wss. induction vs as [|v vs IH]; intros [|ws wss] H; cbn in H; try lia.
  destruct (0 <? v) eqn:Hv.
  - destruct (decide (r ∈ ws)) as [Hin|Hnin].
    + exists 0. cbn [length]. split; [lia|]. split; [lia|].
      split; [now apply Z.ltb_lt in Hv|exact Hin].
    + apply occurs_zero in Hnin. rewrite Hnin in H.
      destruct (IH wss ltac:(lia)) as (l & H1 & H2 & H3 & H4).
      exists (l + 1). cbn [length].
      split; [lia|]. split; [lia|].
      unfold peek in *. replace (Z.to_nat (l + 1)) with (S (Z.to_nat l)) by lia.
      split; assumption.
  - destruct (IH wss ltac:(lia)) as (l & H1 & H2 & H3 & H4).
    exists (l + 1). cbn [length].
    split; [lia|]. split; [lia|].
    unfold peek in *. replace (Z.to_nat (l + 1)) with (S (Z.to_nat l)) by lia.
    split; assumption.
Qed.

(** No true literal watches a counter that is 0, and conversely. *)
Lemma true_count_none (r : Z) (vs : list value) (wss : list (list Z)) :
  (forall l, 0 <= l < Z.of_nat (length vs) -> 0 <= l < Z.of_nat (length wss) ->
             0 < peek vs l -> r ∉ peek wss l) ->
  true_count r vs wss = 0.
Proof.
  intros H. pose proof (true_count_nonneg r vs wss) as H0.
  destruct (Z.eq_dec (true_count r vs wss) 0) as [E|E]; [exact E|].
  destruct (true_count_positive r vs wss ltac:(lia)) as (l & H1 & H2 & H3 & H4).
  exfalso. exact (H l H1 H2 H3 H4).
Qed.

(** ** The binary clauses get their counters *)

Lemma connect_binary_counter_shape (w : walker) (cr b : Z) (w' : walker)
    (cr' : Z) :
  0 <= cr -> cr + 1 < 2 ^ 32 ->
  connect_binary_counter (w, cr) b = (w', cr') ->
  let p := peek (binaries w) b in
  let vs := values (solver w) in
  ((peek vs (fst p) = 0 \/ peek vs (snd p) = 0) /\ w' = w /\ cr' = cr)
  \/ (peek vs (fst p) <> 0 /\ peek vs (snd p) <> 0 /\ cr' = cr + 1
      /\ refs w' = poke (refs w) cr (make_tagged true b)
      /\ watches (solver w')
         = push_watches vs cr [fst p; snd p] (watches (solver w))
      /\ binaries w' = binaries w
      /\ arena (solver w') = arena (solver w)).
Proof.
  intros Hcr0 Hcr1 Hstep. unfold connect_binary_counter in Hstep.
  cbv zeta. destruct (peek (binaries w) b) as [first second].
  cbn [fst snd].
  destruct ((peek (values (solver w)) first =? 0)
            || (peek (values (solver w)) second =? 0)) eqn:Hz.
  - injection Hstep as <- <-. left.
    apply orb_true_iff in Hz. rewrite !Z.eqb_eq in Hz. tauto.
  - apply orb_false_iff in Hz. destruct Hz as [Hz1 Hz2].
    right. rewrite (u32_small (cr + 1)) in Hstep by lia.
    injection Hstep as <- <-.
    assert (Hpw : push_watches (values (solver w)) cr [first; second]
                    (watches (solver w))
                  = poke (poke (watches (solver w)) first
                            (peek (watches (solver w)) first ++ [cr]))
                      second
                      (peek (poke (watches (solver w)) first
                              (peek (watches (solver w)) first ++ [cr])) second
                       ++ [cr])).
    { unfold push_watches, watch_counter. cbn [fold_left].
      now rewrite Hz1, Hz2. }
    apply Z.eqb_neq in Hz1, Hz2.
    split; [assumption|]. split; [assumption|]. split; [reflexivity|].
    rewrite Hpw. unfold push_unsat.
    match goal with |- context [if ?c then _ else _] => destruct c end;
      repeat split; reflexivity.
Qed.

Lemma connect_inv_watches (n : Z) (w : walker) :
  connect_inv n w ->
  Z.of_nat (length (watches (solver w))) = LITS (solver w)
  /\ (forall ws r, ws ∈ watches (solver w) -> r ∈ ws -> 0 <= r < n).
Proof. intros (_ & _ & Hlw & _ & Hwr & _). split; assumption. Qed.

Lemma connect_binary_loop_sound (idxs : list Z) (w : walker) (cr : Z) :
  connect_inv cr w -> clause_inv cr w ->
  Z.of_nat (length (counters w)) <= MAX_WALK_REF ->
  length (refs w) = length (counters w) ->
  0 <= cr -> cr + Z.of_nat (length idxs) <= Z.of_nat (length (counters w)) ->
  Forall (fun b => 0 <= b < Z.of_nat (length (binaries w))) idxs ->
  Z.of_nat (length (binaries w)) <= MAX_WALK_REF ->
  Forall (fun p => 0 <= fst p < LITS (solver w) /\ 0 <= snd p < LITS (solver w))
    (binaries w) ->
  watch_sound w ->
  forall w' cr', fold_left connect_binary_counter idxs (w, cr) = (w', cr') ->
    watch_sound w'
    /\ (forall lits0, counted w lits0 -> counted w' lits0)
    /\ (forall b, b ∈ idxs ->
          let p := peek (binaries w) b in
          peek (values (solver w)) (fst p) <> 0 ->
          peek (values (solver w)) (snd p) <> 0 ->
          counted w' [fst p; snd p]).
Proof.
  revert w cr. induction idxs as [|b idxs IH];
    intros w cr Hinv Hci Hcap Hrc Hcr0 Hcr1 Hidx Hbmax Hbins Hws w' cr' Hloop.
  - injection Hloop as <- <-. cbn.
    split; [assumption|]. split; [auto|].
    intros b Hb. now apply elem_of_nil in Hb.
  - cbn [fold_left] in Hloop. cbn [length] in Hcr1.
    destruct (connect_binary_counter (w, cr) b) as [w1 cr1] eqn:Hstep.
    apply Forall_cons in Hidx. destruct Hidx as [Hb Hidx].
    destruct (connect_binary_counter_inv w cr b Hinv Hci Hcap Hrc Hcr0
                ltac:(lia) Hb Hbmax Hbins w1 cr1 Hstep)
      as ((Hinv1 & Hci1 & Hlc1 & Hlr1 & Hrest1) & Hcr & Harena1 & Hsz1).
    destruct (connecting_rest_fields _ _ Hrest1)
      as (_ & Hbin & Hvars & Hvals & _ & _).
    assert (HL : LITS (solver w1) = LITS (solver w))
      by (unfold LITS; congruence).
    pose proof Hcap as Hcap'. rewrite MAX_WALK_REF_value in Hcap'.
    pose proof Hbmax as Hbmax'. rewrite MAX_WALK_REF_value in Hbmax'.
    destruct (connect_inv_watches cr w Hinv) as (Hlw & Hwr).
    assert (Hp : forall l, l ∈ [fst (peek (binaries w) b);
                                snd (peek (binaries w) b)] ->
              0 <= l < Z.of_nat (length (watches (solver w)))).
    { intros l Hl. rewrite Hlw. rewrite Forall_forall in Hbins.
      pose proof (Hbins _ (peek_elem (binaries w) b Hb)) as [H1 H2].
      apply elem_of_cons in Hl. destruct Hl as [->|Hl]; [assumption|].
      apply list_elem_of_singleton in Hl. now subst l. }
    assert (Hone : watch_sound w1
                   /\ (forall lits0, counted w lits0 -> counted w1 lits0)
                   /\ (peek (values (solver w)) (fst (peek (binaries w) b)) <> 0 ->
                       peek (values (solver w)) (snd (peek (binaries w) b)) <> 0 ->
                       counted w1 [fst (peek (binaries w) b);
                                   snd (peek (binaries w) b)])).
    { destruct (connect_binary_counter_shape w cr b w1 cr1 Hcr0 ltac:(lia) Hstep)
        as [(Hz & -> & ->)|(Hz1 & Hz2 & -> & Hrefs & Hw & _ & _)].
      - split; [assumption|]. split; [auto|]. intros. lia.
      - cbv zeta in Hrefs, Hw.
        destruct (make_tagged_fields true b ltac:(rewrite MAX_WALK_REF_value; lia))
          as [Ht1 Ht2].
        destruct (connect_new_sound cr w w1 _ (make_tagged true b) Hws Hwr Hcr0
                    Hp Harena1 Hbin Hrefs Hw) as (S1 & S2 & S3).
        + unfold dereference_literals. rewrite Hrefs.
          rewrite peek_poke_eq by lia. now rewrite Ht1, Ht2, Hbin.
        + split; [assumption|]. split; [assumption|].
          intros _ _. apply S3. exists (fst (peek (binaries w) b)).
          split; [left|assumption]. }
    destruct Hone as (S1 & S2 & S3).
    destruct (IH w1 cr1) with (w' := w') (cr' := cr') as (T1 & T2 & T3);
      try assumption; try lia; try congruence.
    + now rewrite Hbin.
    + now rewrite Hbin, HL.
    + split; [assumption|]. split; [auto|].
      intros b' Hb' p Hv1 Hv2. apply elem_of_cons in Hb'.
      destruct Hb' as [->|Hb'].
      * apply T2. now apply S3.
      * specialize (T3 b' Hb'). cbv zeta in T3. rewrite Hbin, Hvals in T3.
        now apply T3.
Qed.

(** ** The large clauses get their counters *)

Lemma connect_large_loop_connect (i : nat) (cs : list nat) (w : walker)
    (cr : Z) (c : clause) :
  arena (solver w) !! i = Some c ->
  within_boundary (solver w) c ->
  garbage c = false -> redundant c = false ->
  existsb (fun lit => 0 <? peek (saved w) lit) (clause_lits c) = false ->
  Z.of_nat (length (clause_lits c)) < 2 ^ 32 ->
  0 <= cr -> cr + 1 < 2 ^ 32 ->
  connect_large_loop (i :: cs) w cr
  = connect_large_loop cs (connect_large_clause w cr c) (cr + 1).
Proof.
  intros Hi Hwb Hg Hred Hsat Hsize Hcr0 Hcr1.
  cbn [connect_large_loop]. rewrite Hi.
  assert (Hbreak : negb (last_irredundant (solver w) =? INVALID_REF)
                   && (last_irredundant (solver w) <? cref c) = false).
  { destruct Hwb as [E|E].
    - rewrite E, Z.eqb_refl. reflexivity.
    - apply Z.ltb_ge in E. rewrite E. apply andb_false_r. }
  rewrite Hbreak, Hg, Hred, Hsat.
  cbn [solver set_refs].
  rewrite (connect_large_literals cr (clause_lits c) (solver w) 0 0) by lia.
  cbv beta iota zeta. rewrite !Z.add_0_l.
  rewrite (u32_small (cr + 1)) by lia.
  reflexivity.
Qed.

Lemma connect_large_loop_mark (i : nat) (cs : list nat) (w : walker)
    (cr : Z) (c : clause) :
  arena (solver w) !! i = Some c ->
  within_boundary (solver w) c ->
  garbage c = false -> redundant c = false ->
  existsb (fun lit => 0 <? peek (saved w) lit) (clause_lits c) = true ->
  connect_large_loop (i :: cs) w cr
  = connect_large_loop cs
      (set_solver (kissat_mark_clause_as_garbage (solver w) i) w) cr.
Proof.
  intros Hi Hwb Hg Hred Hsat.
  cbn [connect_large_loop]. rewrite Hi.
  assert (Hbreak : negb (last_irredundant (solver w) =? INVALID_REF)
                   && (last_irredundant (solver w) <? cref c) = false).
  { destruct Hwb as [E|E].
    - rewrite E, Z.eqb_refl. reflexivity.
    - apply Z.ltb_ge in E. rewrite E. apply andb_false_r. }
  now rewrite Hbreak, Hg, Hred, Hsat.
Qed.

Lemma connect_large_loop_skip (i : nat) (cs : list nat) (w : walker)
    (cr : Z) (c : clause) :
  arena (solver w) !! i = Some c ->
  within_boundary (solver w) c ->
  ~ irredundant c ->
  connect_large_loop (i :: cs) w cr = connect_large_loop cs w cr.
Proof.
  intros Hi Hwb Hn.
  cbn [connect_large_loop]. rewrite Hi.
  assert (Hbreak : negb (last_irredundant (solver w) =? INVALID_REF)
                   && (last_irredundant (solver w) <? cref c) = false).
  { destruct Hwb as [E|E].
    - rewrite E, Z.eqb_refl. reflexivity.
    - apply Z.ltb_ge in E. rewrite E. apply andb_false_r. }
  rewrite Hbreak. unfold irredundant in Hn.
  destruct (garbage c); [reflexivity|].
  destruct (redundant c); [reflexivity|]. exfalso. now apply Hn.
Qed.

Lemma connect_large_loop_break (i : nat) (cs : list nat) (w : walker)
    (cr : Z) :
  (forall c, arena (solver w) !! i = Some c -> ~ within_boundary (solver w) c) ->
  connect_large_loop (i :: cs) w cr = w.
Proof.
  intros H. cbn [connect_large_loop].
  destruct (arena (solver w) !! i) as [c|]; [|reflexivity].
  specialize (H c eq_refl).
  destruct (last_irredundant (solver w) =? INVALID_REF) eqn:E.
  - exfalso. apply H. left. now apply Z.eqb_eq in E.
  - destruct (last_irredundant (solver w) <? cref c) eqn:E'; [reflexivity|].
    exfalso. apply H. right. now apply Z.ltb_ge in E'.
Qed.

(** The walker with the counter [cr] connected to the clause [c]. *)
Lemma connect_large_clause_inv (i : nat) (w : walker) (cr : Z) (c : clause) :
  connect_inv cr w -> clause_inv cr w ->
  Z.of_nat (length (counters w)) <= MAX_WALK_REF ->
  length (refs w) = length (counters w) ->
  0 <= cr < Z.of_nat (length (counters w)) ->
  arena (solver w) !! i = Some c ->
  walked (solver w) (saved w) c ->
  arena_ready (solver w) (saved w) ->
  actives_assigned (solver w) ->
  let w1 := connect_large_clause w cr c in
  connect_step_ok w cr w1 (cr + 1)
  /\ arena (solver w1) = arena (solver w)
  /\ (watch_sound w ->
      watch_sound w1
      /\ (forall lits0, counted w lits0 -> counted w1 lits0)
      /\ counted w1 (clause_lits c)).
Proof.
  intros Hinv Hci Hcap Hrc Hcr Hi Hwalked Hready Hact w1.
  assert (Hc : c ∈ arena (solver w)) by (eapply list_elem_of_lookup_2; exact Hi).
  destruct Hready as (Hnd & Hall).
  pose proof (proj1 (Forall_forall _ _) Hall c Hc) as (H1 & H2 & H3 & H4).
  rewrite Forall_forall in H1.
  pose proof Hwalked as (Hirr & Hwb & Hsat).
  specialize (H3 Hwb).
  destruct (H4 Hwalked) as (la & Hla & Hact_la).
  assert (Hex : exists l, l ∈ clause_lits c /\ peek (values (solver w)) l <> 0).
  { exists la. split; [assumption|]. apply Hact; [now apply H1|assumption]. }
  pose proof Hcap as Hcap'. rewrite MAX_WALK_REF_value in Hcap'.
  set (vs := values (solver w)).
  set (ct := Z.of_nat (length (true_lits vs (clause_lits c)))).
  assert (Hrest : connecting_rest w1 = connecting_rest w
                  /\ arena (solver w1) = arena (solver w)
                  /\ refs w1 = poke (refs w) cr (make_tagged false (cref c))
                  /\ watches (solver w1)
                     = push_watches vs cr (clause_lits c) (watches (solver w))).
  { unfold w1, connect_large_clause, push_unsat. fold vs ct.
    destruct (ct =? 0); repeat split; reflexivity. }
  destruct Hrest as (Hrest & Harena & Hrefs & Hwatches).
  destruct (connecting_rest_fields _ _ Hrest)
    as (Hsv & Hbin & Hvars & Hvals & Hactive & Hlast).
  destruct (make_tagged_fields false (cref c) H3) as [Ht1 Ht2].
  assert (Hderef : dereference_literals w1 cr = clause_lits c).
  { unfold dereference_literals, kissat_dereference_clause.
    rewrite Hrefs, peek_poke_eq by lia. rewrite Ht1, Ht2, Harena.
    now rewrite (find_cref _ i c Hnd Hi). }
  destruct (connect_new cr w w1 (clause_lits c) (make_tagged false (cref c)))
    as (I1 & C1 & L1 & L2); try assumption; try lia.
  - unfold w1, connect_large_clause, push_unsat. fold vs ct.
    destruct (ct =? 0); reflexivity.
  - unfold w1, connect_large_clause, push_unsat. fold vs ct.
    destruct (ct =? 0); reflexivity.
  - split; [|split; [exact Harena|]].
    + split; [assumption|]. split; [assumption|].
      split; [assumption|]. split; assumption.
    + intros Hws.
      destruct (connect_inv_watches cr w Hinv) as (Hlw & Hwr).
      destruct (connect_new_sound cr w w1 (clause_lits c)
                  (make_tagged false (cref c)) Hws Hwr ltac:(lia))
        as (S1 & S2 & S3); try assumption.
      * intros l Hl. rewrite Hlw. now apply H1.
      * split; [assumption|]. split; [assumption|]. now apply S3.
Qed.

Lemma walked_ext (s s' : kissat) (sv : list value) (c : clause) :
  last_irredundant s' = last_irredundant s ->
  walked s' sv c <-> walked s sv c.
Proof. unfold walked, within_boundary. now intros ->. Qed.

Lemma walked_not_satisfied (s : kissat) (sv : list value) (c : clause) :
  walked s sv c -> ~ saved_satisfies sv c.
Proof. unfold walked, saved_satisfies. intros (_ & _ & H). congruence. Qed.

(** One more position of the arena. *)
Lemma large_connected_step (i k : nat) (w w1 w' : walker) :
  last_irredundant (solver w1) = last_irredundant (solver w) ->
  saved w1 = saved w ->
  (forall j, j <> i -> arena (solver w1) !! j = arena (solver w) !! j) ->
  large_connected (S i) k w1 w' ->
  (forall c, arena (solver w) !! i = Some c ->
     walked (solver w) (saved w) c -> counted w' (clause_lits c)) ->
  (forall c, arena (solver w) !! i = Some c ->
     arena (solver w1) !! i
     = Some (if decide (irredundant c /\ within_boundary (solver w) c
                        /\ saved_satisfies (saved w) c)
             then as_garbage c else c)) ->
  large_connected i (S k) w w'.
Proof.
  intros Hlast Hsv Hne (C1 & C2 & C3) Hcount Hat.
  assert (Hwb : forall c, within_boundary (solver w1) c
                          <-> within_boundary (solver w) c).
  { intros c. unfold within_boundary. now rewrite Hlast. }
  split; [|split].
  - intros j c Hj Hc Hw. destruct (Nat.eq_dec j i) as [->|Hji].
    + now apply Hcount.
    + apply (C1 j c); [lia|rewrite Hne by assumption; exact Hc|].
      rewrite Hsv. now apply (walked_ext (solver w)).
  - intros j c Hj Hc Hirr Hw Hs. destruct (Nat.eq_dec j i) as [->|Hji].
    + apply C3; [|lia].
      rewrite (Hat c Hc). now rewrite decide_True by auto.
    + apply (C2 j c); [lia|rewrite Hne by assumption; exact Hc|assumption| |].
      * now apply Hwb.
      * now rewrite Hsv.
  - intros j c Hc Hn. destruct (Nat.eq_dec j i) as [->|Hji].
    + apply C3; [|lia]. rewrite (Hat c Hc).
      destruct (decide _) as [Hd|_]; [|reflexivity].
      exfalso. apply Hn. split; [lia|exact Hd].
    + apply C3; [rewrite Hne by assumption; exact Hc|].
      intros (Hj & Hirr & Hw & Hs). apply Hn.
      split; [lia|]. split; [assumption|]. split; [now apply Hwb|].
      now rewrite <- Hsv.
Qed.

Lemma large_connected_none (i k : nat) (w : walker) :
  (forall j c, (i <= j)%nat -> arena (solver w) !! j = Some c ->
     ~ within_boundary (solver w) c) ->
  large_connected i k w w.
Proof.
  intros H. split; [|split].
  - intros j c Hj Hc (_ & Hw & _). exfalso. exact (H j c ltac:(lia) Hc Hw).
  - intros j c Hj Hc _ Hw _. exfalso. exact (H j c ltac:(lia) Hc Hw).
  - intros j c Hc _. exact Hc.
Qed.

Lemma arena_sorted_marks (sv : list value) (a a' : list clause) :
  arena_marks sv a a' -> arena_sorted a -> arena_sorted a'.
Proof.
  intros Hm Hs i j c c' Hij Hi Hj.
  destruct (Forall2_lookup_r _ _ _ _ _ Hm Hi) as (x & Hx & (Ex & _)).
  destruct (Forall2_lookup_r _ _ _ _ _ Hm Hj) as (y & Hy & (Ey & _)).
  rewrite Ex, Ey. exact (Hs i j x y Hij Hx Hy).
Qed.

Lemma watch_sound_mark (w : walker) (i : nat) :
  watch_sound w ->
  watch_sound (set_solver (kissat_mark_clause_as_garbage (solver w) i) w).
Proof.
  intros H l r Hl Hr. rewrite dereference_literals_mark. now apply H.
Qed.

Lemma counted_mark (w : walker) (i : nat) (lits : list Z) :
  counted w lits ->
  counted (set_solver (kissat_mark_clause_as_garbage (solver w) i) w) lits.
Proof.
  intros (r & l & H1 & H2 & H3 & H4 & H5). exists r, l.
  rewrite dereference_literals_mark. tauto.
Qed.

Lemma connect_large_loop_sound (k : nat) :
  forall (i : nat) (w : walker) (cr : Z),
  connect_inv cr w -> clause_inv cr w ->
  Z.of_nat (length (counters w)) <= MAX_WALK_REF ->
  length (refs w) = length (counters w) ->
  0 <= cr ->
  cr + Z.of_nat (length (filter irredundant (drop i (arena (solver w)))))
  <= Z.of_nat (length (counters w)) ->
  arena_ready (solver w) (saved w) ->
  actives_assigned (solver w) ->
  watch_sound w ->
  let w' := connect_large_loop (seq i k) w cr in
  watch_sound w'
  /\ (forall lits0, counted w lits0 -> counted w' lits0)
  /\ (arena_sorted (arena (solver w)) -> large_connected i k w w').
Proof.
  induction k as [|k IH];
    intros i w cr Hinv Hci Hcap Hrc Hcr0 Hcr1 Hready Hact Hws.
  { cbn. split; [assumption|]. split; [auto|]. intros _.
    split; [|split]; try (intros; lia). intros j c Hc _. exact Hc. }
  cbn [seq]. cbv zeta.
  destruct (arena (solver w) !! i) as [c|] eqn:Hi.
  2:{ rewrite connect_large_loop_break by (intros c Hc; congruence).
      split; [assumption|]. split; [auto|]. intros _.
      apply large_connected_none. intros j c Hj Hc.
      apply lookup_ge_None in Hi.
      apply lookup_lt_Some in Hc. lia. }
  assert (Hdec : within_boundary (solver w) c \/ ~ within_boundary (solver w) c)
    by (unfold within_boundary; lia).
  destruct Hdec as [Hwb|Hnwb].
  2:{ rewrite connect_large_loop_break by (intros c0 Hc0; congruence).
      split; [assumption|]. split; [auto|]. intros Hsorted.
      apply large_connected_none. intros j c' Hj Hc' Hw'.
      apply Hnwb. pose proof (Hsorted i j c c' Hj Hi Hc') as Hle.
      unfold within_boundary in *. lia. }
  rewrite (irredundant_drop _ _ _ Hi) in Hcr1.
  destruct (decide (irredundant c)) as [Hirr|Hnirr].
  2:{ rewrite (connect_large_loop_skip i _ w cr c Hi Hwb Hnirr).
      destruct (IH (S i) w cr) as (S1 & S2 & S3); try assumption; try lia.
      split; [assumption|]. split; [assumption|].
      intros Hsorted. specialize (S3 Hsorted).
      apply (large_connected_step i k w w); try reflexivity; try assumption.
      - intros c0 Hc0 (Hirr0 & _). congruence.
      - intros c0 Hc0. rewrite decide_False; [congruence|].
        intros (Hirr0 & _). congruence. }
  pose proof Hirr as (Hg & Hred).
  destruct (existsb (fun lit => 0 <? peek (saved w) lit) (clause_lits c)) eqn:Hsat.
  - rewrite (connect_large_loop_mark i _ w cr c Hi Hwb Hg Hred Hsat).
    set (w1 := set_solver (kissat_mark_clause_as_garbage (solver w) i) w).
    assert (Hm : arena_marks (saved w) (arena (solver w)) (arena (solver w1))).
    { apply (arena_marks_alter _ _ _ c); assumption. }
    destruct (IH (S i) w1 cr) as (S1 & S2 & S3).
    + apply (connect_inv_ext cr w w1); try reflexivity. assumption.
    + now apply clause_inv_mark.
    + assumption.
    + assumption.
    + assumption.
    + unfold w1, kissat_mark_clause_as_garbage.
      cbn [solver set_solver arena set_arena counters].
      rewrite drop_alter_S. lia.
    + apply (arena_ready_marks (solver w) (solver w1) (saved w) Hm);
        try reflexivity. assumption.
    + apply (actives_assigned_ext (solver w) (solver w1)); try reflexivity.
      assumption.
    + now apply watch_sound_mark.
    + split; [assumption|]. split.
      { intros lits0 H0. apply S2. now apply counted_mark. }
      intros Hsorted. specialize (S3 (arena_sorted_marks _ _ _ Hm Hsorted)).
      apply (large_connected_step i k w w1); try reflexivity; try assumption.
      * intros j Hj. unfold w1, kissat_mark_clause_as_garbage.
        cbn [solver set_solver arena set_arena].
        apply list_lookup_alter_ne. congruence.
      * intros c0 Hc0 Hw0. exfalso.
        apply (walked_not_satisfied _ _ _ Hw0). unfold saved_satisfies.
        congruence.
      * intros c0 Hc0. assert (c0 = c) as -> by congruence.
        rewrite decide_True by (unfold saved_satisfies; auto).
        unfold w1, kissat_mark_clause_as_garbage.
        cbn [solver set_solver arena set_arena].
        rewrite list_lookup_alter_eq, Hi. reflexivity.
  - assert (Hwalked : walked (solver w) (saved w) c)
      by (split; [assumption|split; assumption]).
    assert (Hsize : Z.of_nat (length (clause_lits c)) < 2 ^ 32).
    { destruct Hready as (_ & Hall). rewrite Forall_forall in Hall.
      apply (Hall c). eapply list_elem_of_lookup_2. exact Hi. }
    pose proof Hcap as Hcap'. rewrite MAX_WALK_REF_value in Hcap'.
    rewrite (connect_large_loop_connect i _ w cr c Hi Hwb Hg Hred Hsat Hsize)
      by lia.
    destruct (connect_large_clause_inv i w cr c Hinv Hci Hcap Hrc ltac:(lia)
                Hi Hwalked Hready Hact)
      as ((I1 & C1 & L1 & L2 & R1) & Harena & Hsound).
    destruct (Hsound Hws) as (T1 & T2 & T3). clear Hsound.
    revert I1 C1 L1 L2 R1 Harena T1 T2 T3.
    generalize (connect_large_clause w cr c). intros w1.
    intros I1 C1 L1 L2 R1 Harena T1 T2 T3.
    destruct (connecting_rest_fields _ _ R1)
      as (Hsv & Hbin & Hvars & Hvals & Hactive & Hlast).
    assert (A1 : Z.of_nat (length (counters w1)) <= MAX_WALK_REF)
      by (rewrite L1; exact Hcap).
    assert (A2 : length (refs w1) = length (counters w1)) by congruence.
    assert (A3 : cr + 1
                 + Z.of_nat (length (filter irredundant
                                       (drop (S i) (arena (solver w1)))))
                 <= Z.of_nat (length (counters w1)))
      by (rewrite Harena, L1; lia).
    assert (A4 : arena_ready (solver w1) (saved w1)).
    { rewrite Hsv.
      apply (arena_ready_marks (solver w) (solver w1) (saved w)); try assumption.
      rewrite Harena. apply arena_marks_refl. }
    assert (A5 : actives_assigned (solver w1))
      by (apply (actives_assigned_ext (solver w) (solver w1)); assumption).
    destruct (IH (S i) w1 (cr + 1) I1 C1 A1 A2 ltac:(lia) A3 A4 A5 T1)
      as (S1 & S2 & S3).
    split; [assumption|]. split; [auto|].
    intros Hsorted. rewrite Harena in S3. specialize (S3 Hsorted).
    apply (large_connected_step i k w w1); try assumption.
    + intros j _. now rewrite Harena.
    + intros c0 Hc0 _. assert (c0 = c) as -> by congruence. now apply S2.
    + intros c0 Hc0. assert (c0 = c) as -> by congruence.
      rewrite decide_False; [now rewrite Harena|].
      intros (_ & _ & Hs). unfold saved_satisfies in Hs. congruence.
Qed.

(** ** [init_walker] gives every clause it walks a counter *)

Section InitSound.

Context {host : Host}.

Lemma init_walker_sound (fuel : nat) (s : kissat) (bins : litpairs)
    (w : walker) :
  host_ready s bins ->
  init_walker fuel s bins = Some w ->
  watch_sound w
  /\ (forall p, p ∈ bins ->
        peek (values (solver w)) (fst p) <> 0 ->
        peek (values (solver w)) (snd p) <> 0 ->
        counted w [fst p; snd p])
  /\ (arena_sorted (arena s) ->
      forall j c, arena s !! j = Some c ->
        (walked s (values s) c -> counted w (clause_lits c))
        /\ arena (solver w) !! j
           = Some (if decide (irredundant c /\ within_boundary s c
                              /\ saved_satisfies (values s) c)
                   then as_garbage c else c))
  /\ actives_assigned (solver w)
  /\ vars (solver w) = vars s /\ active (solver w) = active s.
Proof.
  intros (Hv0 & Hv & Hip & Hlw & Hwe & Hbins & Hcl & Har) Hinit.
  unfold init_walker in Hinit.
  set (clauses := BINIRR_CLAUSES s) in *.
  match type of Hinit with context [import_decision_phases ?W] =>
    set (w1 := W) in Hinit end.
  destruct (import_decision_phases_spec w1)
    as (Ew2 & F2 & L2 & Y2 & A2).
  { exact Hip. }
  { cbn. rewrite length_replicate. unfold LITS. lia. }
  { exact Hv0. }
  { exact Hv. }
  { cbn. unfold LITS. now apply symmetric_replicate. }
  set (w2 := import_decision_phases w1) in *.
  destruct (host_part_fields _ _ F2) as (Ev & Ea & Ei & Ear & El & Ew).
  match type of Hinit with context [connect_binary_counters ?W] =>
    set (w4 := W) in Hinit end.
  clearbody w2.
  unfold w1 in Ev, Ea, Ei, Ear, El, Ew, L2.
  cbn in Ev, Ea, Ei, Ear, El, Ew.
  cbn [solver set_solver values set_values set_pol_activity] in L2.
  rewrite length_replicate in L2. unfold LITS in L2.
  assert (Hf : scores w4 = [] /\ binaries w4 = bins /\ unsat w4 = []
               /\ saved w4 = values s
               /\ solver w4 = solver w2
               /\ counters w4 = map uninit_counter (seq 0 (Z.to_nat clauses))
               /\ refs w4 = map uninit_tagged (seq 0 (Z.to_nat clauses))).
  { unfold w4. cbn [binaries unsat saved solver counters refs set_refs
                    set_counters scores]. rewrite Ew2. unfold w1. cbn.
    repeat split; reflexivity. }
  destruct Hf as (Fsc & Fb & Fu & Fsv & Fs & Fc & Fr).
  clearbody w4. clear Ew2 F2. clear w1.
  assert (Hcl0 : 0 <= clauses <= MAX_WALK_REF) by lia.
  assert (Hlc : Z.of_nat (length (counters w4)) = clauses).
  { rewrite Fc, length_map, length_seq. lia. }
  assert (Hlr : length (refs w4) = length (counters w4)).
  { now rewrite Fc, Fr, !length_map. }
  assert (Hinv0 : connect_inv 0 w4).
  { unfold connect_inv, walker_inv, LITS.
    cbn [solver set_current counters unsat current].
    rewrite Fs, Fu, Ev, Ew. unfold LITS in Hlw.
    split; [assumption|]. split; [lia|]. split; [assumption|].
    split; [assumption|]. split.
    { intros ws r Hws Hr. rewrite Forall_forall in Hwe.
      rewrite (Hwe ws Hws) in Hr. now apply elem_of_nil in Hr. }
    split.
    { split; [lia|]. split; [lia|]. split.
      - intros i r Hi. discriminate.
      - intros r Hr. lia. }
    split; [intros r Hr; lia|]. split; [intros r Hr; lia|]. reflexivity. }
  assert (Hci0 : clause_inv 0 w4) by (intros r Hr; lia).
  assert (Hws0 : watch_sound w4).
  { intros l r Hl Hr. exfalso. rewrite Fs, Ew in Hl, Hr.
    rewrite Forall_forall in Hwe.
    rewrite (Hwe _ (peek_elem (watches s) l Hl)) in Hr.
    now apply elem_of_nil in Hr. }
  unfold connect_binary_counters in Hinit.
  destruct (fold_left connect_binary_counter
              (seqZ 0 (u32 (Z.of_nat (length (binaries w4))))) (w4, 0))
    as [w5 cr] eqn:Hb.
  rewrite MAX_WALK_REF_value in Hcl0.
  assert (Hnb : u32 (Z.of_nat (length (binaries w4))) = Z.of_nat (length bins)).
  { rewrite Fb. apply u32_small. lia. }
  rewrite Hnb in Hb.
  assert (B1 : Z.of_nat (length (counters w4)) <= MAX_WALK_REF)
    by (rewrite Hlc; apply Hcl0).
  assert (B2 : 0 + Z.of_nat (length (seqZ 0 (Z.of_nat (length bins))))
               <= Z.of_nat (length (counters w4)))
    by (rewrite length_seqZ, Hlc; lia).
  assert (B3 : Forall (fun b => 0 <= b < Z.of_nat (length (binaries w4)))
                 (seqZ 0 (Z.of_nat (length bins)))).
  { apply Forall_forall. intros b Hin. apply elem_of_seqZ in Hin.
    rewrite Fb. lia. }
  assert (B4 : Z.of_nat (length (binaries w4)) <= MAX_WALK_REF)
    by (rewrite Fb, MAX_WALK_REF_value; lia).
  assert (B5 : Forall (fun p => 0 <= fst p < LITS (solver w4)
                                /\ 0 <= snd p < LITS (solver w4))
                 (binaries w4)).
  { unfold LITS. rewrite Fb, Fs, Ev. exact Hbins. }
  destruct (connect_binary_loop (seqZ 0 (Z.of_nat (length bins))) w4 0
              Hinv0 Hci0 B1 Hlr ltac:(lia) B2 B3 B4 B5 w5 cr Hb)
    as ((I5 & C5 & Lc5 & Lr5 & R5) & Hcr & Ar5 & _).
  destruct (connect_binary_loop_sound (seqZ 0 (Z.of_nat (length bins))) w4 0
              Hinv0 Hci0 B1 Hlr ltac:(lia) B2 B3 B4 B5 Hws0 w5 cr Hb)
    as (S5 & _ & T5).
  rewrite length_seqZ in Hcr.
  destruct (connecting_rest_fields _ _ R5)
    as (Hsv5 & Hbin5 & Hvars5 & Hvals5 & Hact5 & Hlast5).
  match type of Hinit with context [connect_large_counters ?W _] =>
    set (w5' := W) in Hinit end.
  unfold connect_large_counters in Hinit.
  assert (F5 : refs w5' = refs w5 /\ binaries w5' = binaries w5
               /\ solver w5' = solver w5 /\ saved w5' = saved w5
               /\ counters w5' = counters w5)
    by (repeat split; reflexivity).
  destruct F5 as (F51 & F52 & F53 & F54 & F55).
  assert (D1 : connect_inv cr w5')
    by (apply (connect_inv_ext cr w5 w5'); try reflexivity; assumption).
  assert (D2 : clause_inv cr w5')
    by (apply (clause_inv_ext cr w5 w5'); try reflexivity; assumption).
  assert (D3 : Z.of_nat (length (counters w5')) <= MAX_WALK_REF)
    by (rewrite F55, Lc5; exact B1).
  assert (D4 : length (refs w5') = length (counters w5')) by congruence.
  assert (D5 : cr + Z.of_nat (length (filter irredundant
                                        (drop 0 (arena (solver w5')))))
               <= Z.of_nat (length (counters w5'))).
  { rewrite F53, F55, Lc5, Hlc, Ar5, Fs, Ear.
    change (drop 0 (arena s)) with (arena s). lia. }
  assert (D6 : arena_ready (solver w5') (saved w5')).
  { rewrite F53, F54, Hsv5, Fsv.
    apply (arena_ready_marks s (solver w5) (values s));
      [|congruence..|assumption].
    rewrite Ar5, Fs, Ear. apply arena_marks_refl. }
  assert (D7 : actives_assigned (solver w5')).
  { rewrite F53.
    apply (actives_assigned_ext (solver w2) (solver w5));
      [congruence..|assumption]. }
  assert (D9 : watch_sound w5')
    by (apply (watch_sound_ext w5 w5'); try reflexivity; assumption).
  destruct (connect_large_loop_inv (length (arena (solver w5'))) 0 w5' cr
              D1 D2 D3 D4 ltac:(lia) D5 D6 D7)
    as (n & (I6 & C6 & Lc6 & Lr6 & R6) & _).
  destruct (connect_large_loop_sound (length (arena (solver w5'))) 0 w5' cr
              D1 D2 D3 D4 ltac:(lia) D5 D6 D7 D9)
    as (S6 & T6 & G).
  set (w6 := connect_large_loop (seq 0 (length (arena (solver w5')))) w5' cr) in *.
  clearbody w6.
  apply init_score_table_frame in Hinit. destruct Hinit as (t & e & eps & ->).
  destruct (connecting_rest_fields _ _ R6)
    as (Hsv6 & Hbin6 & Hvars6 & Hvals6 & Hact6 & Hlast6).
  match goal with |- watch_sound ?W /\ _ => set (w7 := W) end.
  assert (F7 : refs w7 = refs w6 /\ binaries w7 = binaries w6
               /\ solver w7 = solver w6)
    by (repeat split; reflexivity).
  destruct F7 as (F71 & F72 & F73).
  assert (Hext : forall lits, counted w6 lits -> counted w7 lits).
  { intros lits. apply (counted_ext w6 w7); reflexivity. }
  assert (Hvals : values (solver w6) = values (solver w4)).
  { rewrite Hvals6, F53. exact Hvals5. }
  assert (Hlast : last_irredundant (solver w5') = last_irredundant s).
  { rewrite F53, Hlast5, Fs. exact El. }
  assert (Harena : arena (solver w5') = arena s).
  { rewrite F53, Ar5, Fs. exact Ear. }
  assert (Hsaved : saved w5' = values s) by congruence.
  assert (Hwbs : forall c, within_boundary (solver w5') c <-> within_boundary s c).
  { intros c. unfold within_boundary. now rewrite Hlast. }
  split; [apply (watch_sound_ext w6 w7); [reflexivity..|exact S6]|].
  split; [|split; [|split; [|split]]].
  - intros p Hp Hv1 Hv2. apply Hext, T6. apply (counted_ext w5 w5'); try assumption.
    + now rewrite F53.
    + now rewrite F53.
    + apply list_elem_of_lookup in Hp. destruct Hp as [i Hi].
      assert (Hlt : (i < length bins)%nat) by (eapply lookup_lt_Some; exact Hi).
      assert (Hpk : peek (binaries w4) (Z.of_nat i) = p).
      { apply peek_lookup. rewrite Nat2Z.id, Fb. exact Hi. }
      specialize (T5 (Z.of_nat i)). cbv zeta in T5. rewrite Hpk in T5.
      apply T5.
      * apply elem_of_seqZ. lia.
      * rewrite <- Hvals. rewrite <- F73. exact Hv1.
      * rewrite <- Hvals. rewrite <- F73. exact Hv2.
  - intros Hsorted j c Hj.
    rewrite <- Harena in Hsorted. destruct (G Hsorted) as (G1 & G2 & G3).
    split.
    + intros Hw. apply Hext. apply (G1 j c).
      * apply lookup_lt_Some in Hj. rewrite Harena. lia.
      * now rewrite Harena.
      * rewrite Hsaved. apply (walked_ext s); assumption.
    + rewrite F73.
      destruct (decide _) as [(Hirr & Hwb & Hs)|Hn].
      * apply (G2 j c).
        -- apply lookup_lt_Some in Hj. rewrite Harena. lia.
        -- now rewrite Harena.
        -- assumption.
        -- now apply Hwbs.
        -- now rewrite Hsaved.
      * apply (G3 j c); [now rewrite Harena|].
        intros (_ & Hirr & Hwb & Hs). apply Hn.
        split; [assumption|]. split; [now apply Hwbs|]. now rewrite <- Hsaved.
  - rewrite F73.
    apply (actives_assigned_ext (solver w5') (solver w6)); [congruence..|].
    exact D7.
  - rewrite F73, Hvars6, F53, Hvars5, Fs. exact Ev.
  - rewrite F73, Hact6, F53, Hact5, Fs. exact Ea.
Qed.

End InitSound.

(** ** The clauses of the counters through the round *)

(** A counter that is not 0 has a true literal of its clause. *)
Lemma counter_true_literal (n : Z) (w : walker) (r : Z) :
  walker_inv n w -> watch_sound w -> 0 <= r < n ->
  count (peek (counters w) r) <> 0 ->
  exists l, l ∈ dereference_literals w r /\ 0 <= l < LITS (solver w)
            /\ 0 < peek (values (solver w)) l.
Proof.
  intros (_ & Hlv & Hlw & _ & _ & _ & Hcnt & _) Hws Hr Hc.
  rewrite (Hcnt r Hr) in Hc.
  pose proof (true_count_nonneg r (values (solver w)) (watches (solver w))).
  destruct (true_count_positive r (values (solver w)) (watches (solver w))
              ltac:(lia)) as (l & H1 & H2 & H3 & H4).
  exists l. split; [now apply Hws|]. split; [lia|assumption].
Qed.

(** A counter is 0 exactly when no literal of its clause is true. *)
Lemma counter_zero_falsified (n : Z) (w : walker) (r : Z) :
  walker_inv n w -> clause_inv n w -> watch_sound w -> 0 <= r < n ->
  count (peek (counters w) r) = 0
  <-> (forall l, l ∈ dereference_literals w r ->
                 peek (values (solver w)) l <= 0).
Proof.
  intros Hinv Hci Hws Hr. split.
  - intros Hc l Hl.
    destruct (Z_lt_le_dec 0 (peek (values (solver w)) l)) as [Hpos|]; [|lia].
    exfalso.
    destruct (Hci r Hr) as (H1 & H2 & _).
    pose proof Hinv as (_ & Hlv & Hlw & _ & _ & _ & Hcnt & _).
    rewrite (Hcnt r Hr) in Hc.
    pose proof (H1 l Hl) as Hrange.
    refine (true_count_zero r _ _ l _ _ Hc Hpos (H2 l Hl ltac:(lia))); lia.
  - intros Hall.
    destruct (Z.eq_dec (count (peek (counters w) r)) 0) as [E|E]; [exact E|].
    destruct (counter_true_literal n w r Hinv Hws Hr E) as (l & Hl & _ & Hpos).
    specialize (Hall l Hl). lia.
Qed.

(** With no clause unsatisfied, phases that hold the values satisfy every
    clause that has a counter. *)
Lemma counted_phases (n : Z) (w : walker) (ph : list value) (lits : list Z) :
  round_inv n w -> phase_inv w -> watch_sound w -> current w = 0 ->
  agrees (vars (solver w)) (values (solver w)) ph ->
  counted w lits -> phases_satisfy ph lits.
Proof.
  intros (Hinv & Hci & _) (Hn0 & Hn & _ & Hlv & Hsym & Hsig & _) Hws Hcur Hag
    (r & l0 & Hr0 & Hd & Hl0 & Hl0r & Hin).
  pose proof Hinv as (_ & _ & _ & _ & Hwr & (_ & _ & _ & A2) & _ & _ & Hlen).
  pose proof (Hwr _ r (peek_elem _ l0 Hl0r) Hin) as Hr.
  assert (Hu : unsat w = []).
  { rewrite Hcur in Hlen. destruct (unsat w); [reflexivity|]. cbn in Hlen. lia. }
  assert (Hc : count (peek (counters w) r) <> 0).
  { intros E. pose proof (A2 r Hr E) as Hru. rewrite Hu in Hru.
    now apply elem_of_nil in Hru. }
  destruct (counter_true_literal n w r Hinv Hws Hr Hc) as (l & Hl & Hrange & Hpos).
  rewrite Hd in Hl. exists l. split; [exact Hl|].
  unfold LITS in *. set (v := vars (solver w)) in *.
  set (vs := values (solver w)) in *.
  assert (Hhalf : 0 <= l / 2 < v)
    by (split; [apply Z.div_pos; lia|apply Z.div_lt_upper_bound; lia]).
  pose proof (lit_parity l) as Hpar.
  pose proof (Hag (l / 2) Hhalf) as Hidx.
  rewrite (LIT_small (l / 2) v) in Hidx by assumption.
  pose proof (Hsym (2 * (l / 2)) ltac:(lia)) as Hs.
  rewrite <- (LIT_small (l / 2) v) in Hs at 1 by assumption.
  rewrite (NOT_LIT (l / 2) v) in Hs by assumption.
  pose proof (Hsig (2 * (l / 2)) ltac:(lia)) as Hs0.
  pose proof (Hsig l ltac:(lia)) as Hs1.
  rewrite NEGATED_odd, IDX_half.
  destruct (Z.odd l); cbv beta iota in Hpar.
  - rewrite Z.add_comm in Hpar. replace (2 * (l / 2) + 1) with l in Hs by lia.
    rewrite Hidx by lia. lia.
  - replace (2 * (l / 2)) with l in * by lia.
    rewrite Hidx by lia. lia.
Qed.

Section RoundSound.

Context {host : Host}.

Lemma local_search_step_clauses (w : walker) :
  clause_part (local_search_step w) = clause_part w.
Proof.
  destruct (local_search_step_flip w) as (sv & tr & b & m & -> & _).
  unfold step_flipped.
  set (wp := set_flipped (u64 (flipped w + 1))
               (set_solver (INC_flipped (solver w)) w)).
  destruct (pick_literal_frame wp) as (st & g & Hp).
  destruct (pick_literal wp) as [lit w2]. cbn [fst snd] in *.
  destruct (flip_literal_inv_part w2 lit) as (Ev & Ew & Ea & Er & Eb & _).
  revert Ev Ew Ea Er Eb. generalize (flip_literal w2 lit).
  intros w3 Ev Ew Ea Er Eb.
  unfold clause_part.
  cbn [refs binaries solver arena watches vars set_minimum set_best set_trail
       set_solver set_phases_saved].
  rewrite Er, Eb, Ea, Ew, Ev, Hp. reflexivity.
Qed.

Lemma round_steps_clauses (k : nat) :
  forall w w', round_steps k w = Some w' -> clause_part w' = clause_part w.
Proof.
  induction k as [|k IH]; intros w w' Hk; cbn in Hk.
  - now injection Hk as <-.
  - destruct (local_search_continues w); [|discriminate].
    rewrite (IH _ _ Hk). apply local_search_step_clauses.
Qed.

(** The invariants of the walkers a round goes through. *)
Lemma round_sound_reached (fuel : nat) (s : kissat) (bins : litpairs)
    (w0 : walker) (k : nat) (w : walker) :
  host_ready s bins ->
  init_walker fuel s bins = Some w0 ->
  round_steps k (init_walker_limit w0) = Some w ->
  (exists n, round_inv n w) /\ watch_sound w
  /\ (forall lits, counted w0 lits -> counted w lits).
Proof.
  intros Hready Hinit Hk.
  destruct (round_inv_reached fuel s bins w0 k w Hready Hinit Hk)
    as (n & _ & Hr & _).
  destruct (init_walker_sound fuel s bins w0 Hready Hinit) as (Hws & _).
  pose proof (round_steps_clauses k _ _ Hk) as Hcp.
  apply clause_part_fields in Hcp. destruct Hcp as (E1 & E2 & E3 & E4 & E5).
  change (refs (init_walker_limit w0)) with (refs w0) in E1.
  change (binaries (init_walker_limit w0)) with (binaries w0) in E2.
  change (solver (init_walker_limit w0)) with (solver w0) in E3, E4, E5.
  split; [now exists n|]. split.
  - now apply (watch_sound_ext w0 w).
  - intros lits. now apply counted_ext.
Qed.

End RoundSound.

(** ** What the unsat stack and the exported phases mean for the clauses *)

Section Solution.

Context {host : Host}.

(** X6.  The unsat stack holds exactly the clauses the current values
    falsify.  For a solver ready for the walk, in the walker [init_walker]
    sets up and after every step of the round: the stack has no duplicate,
    [current] is its length, and a counter is on it exactly when it is in
    use and no literal of its clause is true. *)
Theorem unsat_stack_falsified (fuel : nat) (s : kissat) (bins : litpairs)
    (w0 : walker) (k : nat) (w : walker) :
  host_ready s bins ->
  init_walker fuel s bins = Some w0 ->
  round_steps k (init_walker_limit w0) = Some w ->
  NoDup (unsat w)
  /\ current w = Z.of_nat (length (unsat w))
  /\ forall r,
       r ∈ unsat w
       <-> connected w r
           /\ forall l, l ∈ dereference_literals w r ->
                        peek (values (solver w)) l <= 0.
Proof.
  intros Hready Hinit Hk.
  destruct (round_sound_reached fuel s bins w0 k w Hready Hinit Hk)
    as ((n & Hinv & Hci & _) & Hws & _).
  pose proof Hinv as (_ & _ & Hlw & _ & Hwr & Hst & _ & _ & Hcur).
  split; [exact (stack_inv_NoDup _ _ _ Hst)|]. split; [exact Hcur|].
  destruct Hst as (_ & _ & A1 & A2).
  intros r. split.
  - intros Hr. split; [now right|].
    apply list_elem_of_lookup in Hr. destruct Hr as [i Hi].
    destruct (A1 i r Hi) as (Hrn & Hc & _).
    now apply (counter_zero_falsified n w r Hinv Hci Hws Hrn).
  - intros (Hcon & Hall).
    assert (Hrn : 0 <= r < n).
    { destruct Hcon as [(ws & Hws' & Hin)|Hin]; [exact (Hwr ws r Hws' Hin)|].
      apply list_elem_of_lookup in Hin. destruct Hin as [i Hi].
      now destruct (A1 i r Hi). }
    apply A2; [exact Hrn|].
    now apply (counter_zero_falsified n w r Hinv Hci Hws Hrn).
Qed.

(** X7.  A walk that reaches [minimum = 0] exports a solution.  For a
    solver ready for the walk whose arena is in the order of its
    references: when the round has brought [minimum] to 0, the saved phases
    that [save_final_minimum] and [release_walker] leave satisfy every
    binary clause over active variables and every irredundant clause within
    the boundary that the solver's own values did not satisfy already. *)
Theorem walk_solution (fuel : nat) (s : kissat) (bins : litpairs)
    (w0 : walker) (k : nat) (w : walker) :
  host_ready s bins -> phases_ready s -> arena_sorted (arena s) ->
  init_walker fuel s bins = Some w0 ->
  round_steps k (init_walker_limit w0) = Some w ->
  minimum w = 0 ->
  let ph := phases_saved (release_walker (save_final_minimum w)) in
  (forall p, p ∈ bins ->
     peek (active s) (IDX (fst p)) = true ->
     peek (active s) (IDX (snd p)) = true ->
     phases_satisfy ph [fst p; snd p])
  /\ (forall c, c ∈ arena s -> walked s (values s) c ->
        phases_satisfy ph (clause_lits c)).
Proof.
  intros Hready Hph Hsorted Hinit Hk Hmin ph.
  destruct (init_walker_best fuel s bins w0 Hready Hph Hinit)
    as (n & Hr & Hmc & Hp & Hb & Hn).
  destruct (init_walker_sound fuel s bins w0 Hready Hinit)
    as (_ & Hbin & Hlarge & Hact & Hvars & Hactive).
  specialize (Hlarge Hsorted).
  pose proof (init_walker_limit_inv n w0 Hr) as Hr0.
  destruct (round_best n (init_walker_limit w0) k Hr0 Hp Hb Hmc w Hk)
    as (_ & Hpw & Hnw & (j & wj & Hj & Hwj & Hcur & Hbw) & _).
  destruct (round_best n (init_walker_limit w0) j Hr0 Hp Hb Hmc wj Hwj)
    as (Hrj & Hpj & Hnj & _ & _).
  destruct (round_sound_reached fuel s bins w0 j wj Hready Hinit Hwj)
    as (_ & Hwsj & Hcj).
  pose proof (save_final_minimum_best _ w Hpw Hbw) as Hfin.
  change (phases_saved (solver (save_final_minimum w))) with ph in Hfin.
  rewrite Hnw, <- Hnj in Hfin.
  assert (Hsat : forall lits, counted w0 lits -> phases_satisfy ph lits).
  { intros lits Hc.
    apply (counted_phases n wj ph lits Hrj Hpj Hwsj); [congruence|exact Hfin|].
    now apply Hcj. }
  destruct Hready as (_ & _ & _ & _ & _ & Hbins & _).
  split.
  - intros p Hp1 Ha1 Ha2. apply Hsat. rewrite Forall_forall in Hbins.
    destruct (Hbins p Hp1) as [H1 H2].
    unfold actives_assigned, LITS in Hact. rewrite Hvars, Hactive in Hact.
    apply Hbin; [exact Hp1|now apply Hact..].
  - intros c Hc Hw. apply Hsat.
    apply list_elem_of_lookup in Hc. destruct Hc as [i Hi].
    now apply (Hlarge i c Hi).
Qed.

(** X8.  What the walk does to the arena.  For a solver ready for the walk
    whose arena is in the order of its references, [walking_round] sets the
    garbage flag of exactly the clauses that are neither garbage nor
    redundant, lie within the boundary and have a literal that the
    solver's own values make true; it changes nothing else of any clause. *)
Theorem walking_round_garbage (fuel : nat) (s : kissat) (bins : litpairs)
    (s' : kissat) :
  host_ready s bins -> arena_sorted (arena s) ->
  walking_round fuel s bins = Some s' ->
  length (arena s') = length (arena s)
  /\ forall j c, arena s !! j = Some c ->
       arena s' !! j
       = Some (if decide (irredundant c /\ within_boundary s c
                          /\ saved_satisfies (values s) c)
               then as_garbage c else c).
Proof.
  intros Hready Hsorted Hwalk. unfold walking_round in Hwalk.
  destruct (init_walker fuel s bins) as [w0|] eqn:Hinit; [|discriminate].
  destruct (local_search_round fuel (init_walker_limit w0)) as [w|] eqn:Hround;
    [|discriminate].
  injection Hwalk as <-.
  destruct (init_walker_sound fuel s bins w0 Hready Hinit)
    as (_ & _ & Hlarge & _).
  destruct (init_walker_frame fuel s bins w0 Hinit) as (_ & _ & _ & Hm & _).
  pose proof (local_search_round_rest fuel _ _ Hround) as R1.
  pose proof (save_final_minimum_rest w) as R2.
  destruct (round_rest_fields _ _ R1) as (_ & _ & _ & E1 & _).
  destruct (round_rest_fields _ _ R2) as (_ & _ & _ & E2 & _).
  change (arena (release_walker (save_final_minimum w)))
    with (arena (solver (save_final_minimum w))).
  rewrite E2, E1.
  change (arena (solver (init_walker_limit w0))) with (arena (solver w0)).
  split.
  - symmetry. exact (Forall2_length _ _ _ Hm).
  - intros j c Hj. now apply (Hlarge Hsorted j c Hj).
Qed.

End Solution.

Lemma example_sorted : arena_sorted (arena example_solver).
Proof.
  intros i j c c' Hij Hi Hj.
  destruct i as [|[|[|i]]]; destruct j as [|[|[|j]]];
    cbn in Hi, Hj; try discriminate; try lia;
    injection Hi as <-; injection Hj as <-; cbn; lia.
Qed.

(** The theorem at the walker [init_walker] sets up for the example solver:
    its one unsatisfied clause is on the stack. *)
Lemma unsat_stack_falsified_witness :
  exists w0,
    init_walker (host := example_host) 1100 example_solver example_binaries
    = Some w0
    /\ unsat (init_walker_limit (host := example_host) w0) = [2]
    /\ (NoDup (unsat (init_walker_limit (host := example_host) w0))
        /\ current (init_walker_limit (host := example_host) w0)
           = Z.of_nat (length (unsat (init_walker_limit (host := example_host) w0)))
        /\ forall r,
             r ∈ unsat (init_walker_limit (host := example_host) w0)
             <-> connected (init_walker_limit (host := example_host) w0) r
                 /\ forall l,
                      l ∈ dereference_literals
                            (init_walker_limit (host := example_host) w0) r ->
                      peek (values (solver (init_walker_limit
                                              (host := example_host) w0))) l
                      <= 0).
Proof.
  eexists. split; [vm_compute; reflexivity|]. split; [reflexivity|].
  match goal with
  | |- NoDup (unsat (init_walker_limit ?w0)) /\ _ =>
    assert (Hinit : init_walker (host := example_host) 1100 example_solver
                      example_binaries = Some w0)
      by (vm_compute; reflexivity);
    exact (unsat_stack_falsified (host := example_host) 1100 example_solver
             example_binaries w0 0 (init_walker_limit (host := example_host) w0)
             example_ready Hinit eq_refl)
  end.
Defined.

(** The theorem at the example solver after the first step of its round,
    which leaves no clause unsatisfied: the exported phases make all three
    variables false, which satisfies the two binary and the two irredundant
    clauses. *)
Lemma walk_solution_witness :
  exists w0 w,
    init_walker (host := example_host) 1100 example_solver example_binaries
    = Some w0
    /\ round_steps (host := example_host) 1
         (init_walker_limit (host := example_host) w0) = Some w
    /\ phases_saved (release_walker (save_final_minimum w)) = [-1; -1; -1]
    /\ (let ph := phases_saved (release_walker (save_final_minimum w)) in
        (forall p, p ∈ example_binaries ->
           peek (active example_solver) (IDX (fst p)) = true ->
           peek (active example_solver) (IDX (snd p)) = true ->
           phases_satisfy ph [fst p; snd p])
        /\ (forall c, c ∈ arena example_solver ->
              walked example_solver (values example_solver) c ->
              phases_satisfy ph (clause_lits c))).
Proof.
  eexists. eexists. split; [vm_compute; reflexivity|].
  split; [vm_compute; reflexivity|]. split; [vm_compute; reflexivity|].
  match goal with
  | |- let ph := phases_saved (release_walker (save_final_minimum ?w)) in _ =>
    match eval vm_compute in
      (init_walker (host := example_host) 1100 example_solver example_binaries)
    with
    | Some ?w0 =>
      assert (Hinit : init_walker (host := example_host) 1100 example_solver
                        example_binaries = Some w0)
        by (vm_compute; reflexivity);
      assert (Hstep : round_steps (host := example_host) 1
                        (init_walker_limit (host := example_host) w0) = Some w)
        by (vm_compute; reflexivity);
      assert (Hmin : minimum w = 0) by reflexivity;
      exact (walk_solution (host := example_host) 1100 example_solver
               example_binaries w0 1 w example_ready example_phases_ready
               example_sorted Hinit Hstep Hmin)
    end
  end.
Defined.

Lemma example_fixed_ready : host_ready example_fixed example_binaries.
Proof.
  assert (E : length (filter irredundant (arena example_fixed)) = 2%nat)
    by (vm_compute; reflexivity).
  unfold host_ready, arena_ready, LITS, BINIRR_CLAUSES. rewrite E. cbn.
  split; [lia|]. split; [lia|]. split; [discriminate|]. split; [reflexivity|].
  split; [forall_list; reflexivity|].
  split; [forall_list; cbn; lia|].
  split; [rewrite MAX_WALK_REF_value; cbn; lia|].
  split.
  - repeat apply NoDup_cons_2; try apply NoDup_nil_2;
      rewrite ?elem_of_cons, ?elem_of_nil; lia.
  - rewrite MAX_WALK_REF_value. forall_list.
    + split; [forall_list; lia|]. split; [cbn; lia|]. split; [intros; cbn; lia|].
      intros _. exists 0. split; [left|reflexivity].
    + split; [forall_list; lia|]. split; [cbn; lia|]. split; [intros; cbn; lia|].
      intros (_ & _ & H). discriminate.
    + split; [forall_list; lia|]. split; [cbn; lia|]. split.
      * unfold within_boundary, INVALID_REF. cbn. intros [H|H]; [discriminate|lia].
      * intros ((_ & H) & _). discriminate.
Qed.

Lemma example_fixed_sorted : arena_sorted (arena example_fixed).
Proof. exact example_sorted. Qed.

(** The theorem at the example solver with its third variable fixed: the
    walk marks the second clause, which the fixed variable satisfies, and
    leaves the redundant third clause alone although it is satisfied as
    well. *)
Lemma walking_round_garbage_witness :
  exists s',
    walking_round (host := example_host) 1100 example_fixed example_binaries
    = Some s'
    /\ garbage <$> arena s' = [false; true; false]
    /\ (length (arena s') = length (arena example_fixed)
        /\ forall j c, arena example_fixed !! j = Some c ->
             arena s' !! j
             = Some (if decide (irredundant c
                                /\ within_boundary example_fixed c
                                /\ saved_satisfies (values example_fixed) c)
                     then as_garbage c else c)).
Proof.
  eexists. split; [vm_compute; reflexivity|]. split; [reflexivity|].
  match goal with
  | |- length (arena ?s') = _ /\ _ =>
    assert (Hwalk : walking_round (host := example_host) 1100 example_fixed
                      example_binaries = Some s')
      by (vm_compute; reflexivity);
    exact (walking_round_garbage (host := example_host) 1100 example_fixed
             example_binaries s' example_fixed_ready example_fixed_sorted Hwalk)
  end.
Defined.
